(** * Legacy data import engine (backend/src/services/legacy-importer.ts)

    A shallow embedding of the import pipeline of the point-of-sale back
    office: value normalisation, slot expansion of legacy sales records,
    staging load, master-data and transaction migration, and the job
    orchestrator.  Strings are sequences of code units below 256 (the DBF
    reader decodes latin1), JavaScript numbers are IEEE binary64 values
    ([spec_float]), and the database is a record of tables. *)

From Stdlib Require Import ZArith Ascii String List Bool Lia.
From Stdlib Require Import Floats.SpecFloat Sorting.Sorted.
From stdpp Require Import base option list gmap strings pretty.

Set Warnings "-register-all".

Open Scope string_scope.
Open Scope list_scope.

(** ** JavaScript strings *)

Module Js.

(** WhiteSpace and LineTerminator code units below 256: TAB, LF, VT, FF,
    CR, SP and NBSP.  [String.prototype.trim] and [StringToNumber] strip
    exactly these. *)
Definition is_white (c : ascii) : bool :=
  match nat_of_ascii c with
  | 9 | 10 | 11 | 12 | 13 | 32 | 160 => true
  | _ => false
  end.

Fixpoint trimStart (s : string) : string :=
  match s with
  | String c r => if is_white c then trimStart r else s
  | EmptyString => EmptyString
  end.

Fixpoint rev_onto (s acc : string) : string :=
  match s with
  | String c r => rev_onto r (String c acc)
  | EmptyString => acc
  end.

Definition str_rev (s : string) : string := rev_onto s EmptyString.

Definition trimEnd (s : string) : string := str_rev (trimStart (str_rev s)).

(** [s.trim()] *)
Definition trim (s : string) : string := trimEnd (trimStart s).

(** [s.replace(',', '.')]: a string pattern replaces the first occurrence
    only. *)
Fixpoint replace_comma (s : string) : string :=
  match s with
  | String c r =>
      if Ascii.eqb c "," then String "." r else String c (replace_comma r)
  | EmptyString => EmptyString
  end.

Fixpoint map_string (f : ascii -> ascii) (s : string) : string :=
  match s with
  | String c r => String (f c) (map_string f r)
  | EmptyString => EmptyString
  end.

(** Case mapping of the code units below 256 (Unicode, Basic Latin and
    Latin-1 Supplement).  Small letters are a-z, U+00E0-U+00FE without
    the division sign U+00F7, the sharp s U+00DF, the micro sign U+00B5
    and U+00FF; capitals are A-Z and U+00C0-U+00DE without the
    multiplication sign U+00D7. *)

(** [toLowerCase] of one code unit: every result is below 256. *)
Definition lower_char (c : ascii) : ascii :=
  let n := nat_of_ascii c in
  if ((65 <=? n) && (n <=? 90)
      || (192 <=? n) && (n <=? 222) && negb (n =? 215))%nat
  then ascii_of_nat (n + 32) else c.

(** [toUpperCase] of one code unit.  The sharp s becomes SS.  The
    capitals of the micro sign and of U+00FF are U+039C and U+0178,
    above 255: they are written here as the units 181 and 255
    themselves, which the upper-case form of a text of units below 256
    does not contain otherwise, so that two such texts have the same
    upper-case form here exactly when they have in JavaScript;
    [upper_fits] says that a text has neither. *)
Definition upper_units (c : ascii) : string :=
  let n := nat_of_ascii c in
  if ((97 <=? n) && (n <=? 122)
      || (224 <=? n) && (n <=? 254) && negb (n =? 247))%nat
  then String (ascii_of_nat (n - 32)) EmptyString
  else if (n =? 223)%nat then "SS"
  else String c EmptyString.

(** [s.toUpperCase()] *)
Fixpoint toUpperCase (s : string) : string :=
  match s with
  | String c r => upper_units c +:+ toUpperCase r
  | EmptyString => EmptyString
  end.

(** [s.toLowerCase()] *)
Definition toLowerCase : string -> string := map_string lower_char.

(** The upper-case form of [s] has all its code units below 256. *)
Fixpoint upper_fits (s : string) : bool :=
  match s with
  | String c r =>
      negb (nat_of_ascii c =? 181)%nat && negb (nat_of_ascii c =? 255)%nat
      && upper_fits r
  | EmptyString => true
  end.

(** ** JavaScript numbers: binary64 *)

Definition number := spec_float.

Definition prec : Z := 53.
Definition emax : Z := 1024.

(** The binary64 value nearest to [num / den] (ties to even), with sign
    [neg]. *)
Definition round_ratio (neg : bool) (num den : positive) : number :=
  let '(q, e, l) := SFdiv_core_binary prec emax (Zpos num) 0 (Zpos den) 0 in
  binary_round_aux prec emax neg q e l.

(** The Number value of the mathematical value [m * 10 ^ e10]. *)
Definition round_decimal (neg : bool) (m : N) (e10 : Z) : number :=
  match m with
  | N0 => S754_zero neg
  | Npos p =>
      match e10 with
      | Zneg k => round_ratio neg p (Pos.pow 10 k)
      | Z0 => round_ratio neg p 1
      | Zpos k => round_ratio neg (p * Pos.pow 10 k) 1
      end
  end.

Definition of_N (n : N) : number := round_decimal false n 0.
Definition zero : number := S754_zero false.

(** [Number.isFinite] *)
Definition isFinite (x : number) : bool :=
  match x with
  | S754_zero _ | S754_finite _ _ _ => true
  | S754_infinity _ | S754_nan => false
  end.

(** *** StringToNumber (ECMA-262, 7.1.4.1.1) *)

Definition is_digit (c : ascii) : bool :=
  let n := nat_of_ascii c in (48 <=? n)%nat && (n <=? 57)%nat.

Definition digit_val (c : ascii) : N := N.of_nat (nat_of_ascii c - 48).

Definition hex_val (c : ascii) : option N :=
  let n := nat_of_ascii c in
  if (48 <=? n)%nat && (n <=? 57)%nat then Some (N.of_nat (n - 48))
  else if (97 <=? n)%nat && (n <=? 102)%nat then Some (N.of_nat (n - 87))
  else if (65 <=? n)%nat && (n <=? 70)%nat then Some (N.of_nat (n - 55))
  else None.

(** Longest prefix of decimal digits, and the rest. *)
Fixpoint span_digits (l : list ascii) : list ascii * list ascii :=
  match l with
  | c :: r =>
      if is_digit c then let '(ds, rest) := span_digits r in (c :: ds, rest)
      else ([], l)
  | [] => ([], [])
  end.

Definition digits_value (ds : list ascii) : N :=
  fold_left (fun acc c => (acc * 10 + digit_val c)%N) ds 0%N.

(** Digits of a non-decimal literal in base [b]; [None] when a code unit
    is not a digit of that base. *)
Fixpoint radix_value (b : N) (acc : N) (l : list ascii) : option N :=
  match l with
  | [] => Some acc
  | c :: r =>
      match hex_val c with
      | Some d => if (d <? b)%N then radix_value b (acc * b + d)%N r else None
      | None => None
      end
  end.

(** NonDecimalIntegerLiteral: 0b, 0o or 0x (either case), then at least
    one digit; no sign. *)
Definition parse_nondecimal (l : list ascii) : option N :=
  match l with
  | z :: p :: ((_ :: _) as ds) =>
      if negb (Ascii.eqb z "0") then None
      else if Ascii.eqb p "x" || Ascii.eqb p "X" then radix_value 16 0 ds
      else if Ascii.eqb p "o" || Ascii.eqb p "O" then radix_value 8 0 ds
      else if Ascii.eqb p "b" || Ascii.eqb p "B" then radix_value 2 0 ds
      else None
  | _ => None
  end.

(** An optional sign: whether it is a minus, and the rest. *)
Definition strip_sign (l : list ascii) : bool * list ascii :=
  match l with
  | c :: r =>
      if Ascii.eqb c "+" then (false, r)
      else if Ascii.eqb c "-" then (true, r)
      else (false, l)
  | [] => (false, [])
  end.

(** ExponentPart_opt at the end of the literal: nothing, or e/E, an
    optional sign and at least one digit. *)
Definition parse_exponent (l : list ascii) : option Z :=
  match l with
  | [] => Some 0%Z
  | c :: r =>
      if Ascii.eqb c "e" || Ascii.eqb c "E" then
        let '(neg, r') := strip_sign r in
        match span_digits r' with
        | ((_ :: _) as ds, []) =>
            let v := Z.of_N (digits_value ds) in
            Some (if neg then Z.opp v else v)
        | _ => None
        end
      else None
  end.

(** StrUnsignedDecimalLiteral other than Infinity: the mantissa as an
    integer and the decimal exponent. *)
Definition parse_unsigned_decimal (l : list ascii) : option (N * Z) :=
  let '(ip, rest) := span_digits l in
  let integer_only :=
    match ip with
    | [] => None
    | _ => e ← parse_exponent rest; Some (digits_value ip, e)
    end in
  match rest with
  | c :: rest' =>
      if Ascii.eqb c "." then
        let '(fp, rest'') := span_digits rest' in
        match ip, fp with
        | [], [] => None
        | _, _ =>
            e ← parse_exponent rest'';
            Some (digits_value (ip ++ fp), (e - Z.of_nat (length fp))%Z)
        end
      else integer_only
  | [] => integer_only
  end.

Definition Infinity_lit : list ascii := list_ascii_of_string "Infinity".

(** StrDecimalLiteral: an optional sign, then Infinity or digits. *)
Definition parse_decimal (l : list ascii) : number :=
  let '(neg, body) := strip_sign l in
  if bool_decide (body = Infinity_lit) then S754_infinity neg
  else match parse_unsigned_decimal body with
       | Some (m, e) => round_decimal neg m e
       | None => S754_nan
       end.

(** [Number(s)] for a string [s]. *)
Definition StringToNumber (s : string) : number :=
  let l := list_ascii_of_string (trim s) in
  match l with
  | [] => zero
  | _ =>
      match parse_nondecimal l with
      | Some n => of_N n
      | None => parse_decimal l
      end
  end.

End Js.

(** ** Values and the platform

    What the importer reads from a DBF record or a result row.  Staging
    columns are all [text], so a staging cell is a string or null; DBF
    fields may also be numbers, booleans and dates (a date is its time
    value in milliseconds). *)
Inductive value :=
  | VUndefined
  | VNull
  | VBool (b : bool)
  | VNumber (n : Js.number)
  | VString (s : string)
  | VDate (t : Z).

(** A numeric(p,s) column holds NaN or a multiple of 10^-s, kept as the
    scaled integer. *)
Inductive pgnum :=
  | PgNaN
  | PgNum (scaled : Z).

(** Behaviour of the JavaScript runtime and of PostgreSQL that the
    importer relies on and that is not part of this repository. *)
Record Platform := {
  (** Number::toString, as used by [String(value)] and by the driver when
      it sends a number parameter *)
  Number_toString : Js.number -> string;
  (** Date.prototype.toString *)
  Date_toString : Z -> string;
  (** Date.prototype.toISOString *)
  Date_toISOString : Z -> string;
  (** [new Date(s)]; [None] is an invalid date *)
  Date_parse : string -> option Z;
  (** input conversion of text to numeric(precision, scale); [None] is a
      syntax or overflow error *)
  pg_numeric : nat -> nat -> string -> option pgnum;
  (** a Date parameter assigned to a [date] column (day number) *)
  pg_date : Z -> Z;
  (** SQL [lower] *)
  pg_lower : string -> string;
}.

(** SQL [trim(s)]: strips spaces only. *)
Module Pg.

Fixpoint ltrim (s : string) : string :=
  match s with
  | String c r => if Ascii.eqb c " " then ltrim r else s
  | EmptyString => EmptyString
  end.

Definition trim (s : string) : string :=
  Js.str_rev (ltrim (Js.str_rev (ltrim s))).

(** [nullif(trim(x), '')] *)
Definition nullif_trim (x : option string) : option string :=
  match x with
  | Some s => if bool_decide (trim s = "") then None else Some (trim s)
  | None => None
  end.

End Pg.

(** A result row: column name to text or null. *)
Abbreviation Row := (gmap string (option string)).

(** A DBF record: field name to decoded value. *)
Abbreviation DbfRecord := (gmap string value).

(** [row[key]] on a result row. *)
Definition row_get (row : Row) (key : string) : value :=
  match row !! key with
  | None => VUndefined
  | Some None => VNull
  | Some (Some s) => VString s
  end.

(** ToBoolean *)
Definition truthy (v : value) : bool :=
  match v with
  | VUndefined | VNull => false
  | VBool b => b
  | VNumber (S754_zero _) | VNumber S754_nan => false
  | VNumber _ => true
  | VString s => negb (bool_decide (s = ""))
  | VDate _ => true
  end.

(** [value == null] *)
Definition is_nullish (v : value) : bool :=
  match v with
  | VUndefined | VNull => true
  | _ => false
  end.

(** [value === ''] *)
Definition is_empty_string (v : value) : bool :=
  match v with
  | VString EmptyString => true
  | _ => false
  end.

(** Text before the first 'T': [s.split('T')[0]]. *)
Fixpoint before_T (s : string) : string :=
  match s with
  | String c r => if Ascii.eqb c "T" then EmptyString else String c (before_T r)
  | EmptyString => EmptyString
  end.

(** One sale or order line taken from a slot. *)
Record SaleItem := {
  cod : string;
  quantity : Js.number;
  price : Js.number;
  total : Js.number;
}.

Section Normalize.

Context (P : Platform).

(** [String(value)] *)
Definition ToString (v : value) : string :=
  match v with
  | VUndefined => "undefined"
  | VNull => "null"
  | VBool true => "true"
  | VBool false => "false"
  | VNumber n => Number_toString P n
  | VString s => s
  | VDate t => Date_toString P t
  end.

Definition normalizeString (v : value) : option string :=
  if is_nullish v then None
  else match v with
       | VDate t => Some (before_T (Date_toISOString P t))
       | _ =>
           let str := Js.trim (ToString v) in
           if (0 <? String.length str)%nat then Some str else None
       end.

Definition normalizeNumber (v : value) : option Js.number :=
  if is_nullish v || is_empty_string v then None
  else match v with
       | VNumber n => if Js.isFinite n then Some n else None
       | _ =>
           let parsed := Js.StringToNumber (Js.replace_comma (ToString v)) in
           if Js.isFinite parsed then Some parsed else None
       end.

Definition normalizeDate (v : value) : option Z :=
  match v with
  | VDate t => Some t
  | VString s =>
      if (0 <? String.length (Js.trim s))%nat then Date_parse P s else None
  | _ => None
  end.

(** [x ?? 0] *)
Definition or_zero (x : option Js.number) : Js.number :=
  match x with
  | Some n => n
  | None => Js.zero
  end.

(** The template literal [`${prefix}${index}`]. *)
Definition slot_key (prefix : string) (index : nat) : string :=
  prefix +:+ pretty index.

(** Body of the loop of [extractSaleItems] for one slot index. *)
Definition extract_slot (row : Row) (items : list SaleItem) (index : nat)
  : list SaleItem :=
  let code := row_get row (slot_key "cod" index) in
  if negb (truthy code) then items
  else items ++ [ {| cod := Js.trim (ToString code);
                     quantity := or_zero (normalizeNumber (row_get row (slot_key "qtde" index)));
                     price := or_zero (normalizeNumber (row_get row (slot_key "vlr" index)));
                     total := or_zero (normalizeNumber (row_get row (slot_key "total" index))) |} ].

(** [for (let index = 1; index <= 7; index += 1)] *)
Definition extractSaleItems (row : Row) : list SaleItem :=
  fold_left (extract_slot row) (seq 1 7) [].

End Normalize.

(** ** Data model

    Row identifiers are [gen_random_uuid()] values; the model draws them
    from a counter, which keeps what the code relies on: a generated id
    is different from every id generated before. *)
Abbreviation uuid := nat.

(** Rows of product_group, seller and payment_term, which share one
    shape: id, unique nullable legacy_code, name. *)
Record CodedName := {
  cn_id : uuid;
  cn_legacy_code : option string;
  cn_name : string;
}.

Record Product := {
  pr_id : uuid;
  pr_legacy_code : option string;
  pr_name : string;
  pr_barcode : option string;
  pr_group_id : option uuid;
  pr_reference : option string;
  pr_min_stock : option pgnum;
  pr_price_cash : option pgnum;
  pr_price_base : option pgnum;
}.

Record Customer := {
  cu_id : uuid;
  cu_legacy_code : option string;
  cu_name : string;
  cu_cpf : option string;
  cu_address : option string;
  cu_city : option string;
  cu_uf : option string;
  cu_cep : option string;
  cu_phone : option string;
  cu_status : string;
  cu_credit_limit : option pgnum;
  cu_notes : option string;
}.

Record Sale := {
  sa_id : uuid;
  sa_emission_date : Z;
  sa_order_number : option string;
  sa_seller_id : option uuid;
  sa_customer_id : option uuid;
  sa_payment_term_id : option uuid;
  sa_subtotal : option pgnum;
  sa_discount : option pgnum;
  sa_total : option pgnum;
  sa_status : string;
  sa_cancelled_at : option Z;
  sa_cancellation_reason : option string;
  sa_source : option string;
  sa_source_key : option string;
}.

Record SaleItemRow := {
  si_id : uuid;
  si_sale_id : option uuid;
  si_product_id : option uuid;
  si_quantity : pgnum;
  si_unit_price : option pgnum;
  si_total : option pgnum;
}.

Record CustomerPayment := {
  cp_id : uuid;
  cp_customer_id : option uuid;
  cp_payment_date : option Z;
  cp_document_value : option pgnum;
  cp_paid_value : option pgnum;
  cp_remaining : option pgnum;
}.

Record StockMovement := {
  sm_id : uuid;
  sm_date : Z;
  sm_type : string;
  sm_product_id : option uuid;
  sm_quantity : pgnum;
  sm_unit_value : option pgnum;
  sm_total : option pgnum;
  sm_note_number : option string;
}.

(** The nine core tables. *)
Record Core := {
  product_group : list CodedName;
  product : list Product;
  customer : list Customer;
  seller : list CodedName;
  payment_term : list CodedName;
  sale : list Sale;
  sale_item : list SaleItemRow;
  customer_payment : list CustomerPayment;
  stock_movement : list StockMovement;
}.

Definition empty_core : Core :=
  {| product_group := []; product := []; customer := []; seller := [];
     payment_term := []; sale := []; sale_item := [];
     customer_payment := []; stock_movement := [] |}.

Inductive ImportStatus := queued | running | completed | failed.

Inductive LogLevel := info | warn | error.

Abbreviation path := (list string).

Record SaleSummary := {
  sales : nat;
  saleItems : nat;
  orders : nat;
  orderItems : nat;
  mismatches : list string;
}.

Record MasterSummary := {
  productGroups : nat;
  products : nat;
  customers : nat;
  sellers : nat;
  paymentTerms : nat;
}.

(** [overallSummary], stored in the summary column. *)
Record OverallSummary := {
  os_staging : gmap string nat;
  os_master : MasterSummary;
  os_sales : SaleSummary;
  os_customerPayments : nat;
  os_stockMovements : nat;
  os_reportPath : path;
}.

(** A row of system_legacy_import. *)
Record ImportRow := {
  imp_id : uuid;
  imp_session_id : string;
  imp_session_dir : path;
  imp_overwrite : bool;
  imp_status : ImportStatus;
  imp_created_at : Z;
  imp_started_at : option Z;
  imp_finished_at : option Z;
  imp_created_by : uuid;
  imp_report_path : option path;
  imp_summary : option OverallSummary;
  imp_error_message : option string;
}.

(** A row of system_legacy_import_log. *)
Record LogRow := {
  log_id : nat;
  log_import_id : uuid;
  log_level : LogLevel;
  log_message : string;
  log_created_at : Z;
}.

Record LegacyImportJob := {
  job_id : uuid;
  sessionId : string;
  sessionDir : path;
  overwrite : bool;
  userId : uuid;
}.

(** *** Files

    A directory tree.  A file is a DBF table with its records, a zip
    archive with its content, or anything else (text). *)
Inductive entry :=
  | EDbf (name : string) (records : list DbfRecord)
  | EZip (name : string) (archive : list entry)
  | EText (name : string) (lines : list string)
  | EDir (name : string) (children : list entry).

Definition entry_name (e : entry) : string :=
  match e with
  | EDbf n _ | EZip n _ | EText n _ | EDir n _ => n
  end.

(** *** Statements sent to the database, in order *)
Inductive Stmt :=
  | SCreateExtension
  | SCreateTable (t : string)
  | SAlterTable (t : string)
  | SCreateIndex (t : string)
  | STruncate (t : string)
  | SInsert (t : string)
  | SUpdate (t : string)
  | SDelete (t : string)
  | SSelect (t : string).

(** A change of the status column of one job row. *)
Record StatusChange := {
  sc_job : uuid;
  sc_from : ImportStatus;
  sc_to : ImportStatus;
  sc_recovery : bool;
}.

(** The state the importer runs in: the database, the file system, the
    clock, the module-level variables [jobQueue], [processing] and
    [initialized], and two records kept for reasoning only: the
    statements issued and the status changes made. *)
Record World := {
  core : Core;
  staging : gmap string (list Row);
  imports : list ImportRow;
  import_log : list LogRow;
  next_uuid : uuid;
  clock : Z;
  fs : list entry;
  jobQueue : list LegacyImportJob;
  processing : bool;
  initialized : bool;
  trace : list Stmt;
  history : list StatusChange;
}.

(** *** Field updates *)

Definition with_product_group (v : _) (c : Core) : Core :=
  {| product_group := v; product := product c; customer := customer c;
     seller := seller c; payment_term := payment_term c; sale := sale c;
     sale_item := sale_item c; customer_payment := customer_payment c;
     stock_movement := stock_movement c |}.

Definition with_product (v : _) (c : Core) : Core :=
  {| product_group := product_group c; product := v;
     customer := customer c; seller := seller c;
     payment_term := payment_term c; sale := sale c;
     sale_item := sale_item c; customer_payment := customer_payment c;
     stock_movement := stock_movement c |}.

Definition with_customer (v : _) (c : Core) : Core :=
  {| product_group := product_group c; product := product c; customer := v;
     seller := seller c; payment_term := payment_term c; sale := sale c;
     sale_item := sale_item c; customer_payment := customer_payment c;
     stock_movement := stock_movement c |}.

Definition with_seller (v : _) (c : Core) : Core :=
  {| product_group := product_group c; product := product c;
     customer := customer c; seller := v; payment_term := payment_term c;
     sale := sale c; sale_item := sale_item c;
     customer_payment := customer_payment c;
     stock_movement := stock_movement c |}.

Definition with_payment_term (v : _) (c : Core) : Core :=
  {| product_group := product_group c; product := product c;
     customer := customer c; seller := seller c; payment_term := v;
     sale := sale c; sale_item := sale_item c;
     customer_payment := customer_payment c;
     stock_movement := stock_movement c |}.

Definition with_sale (v : _) (c : Core) : Core :=
  {| product_group := product_group c; product := product c;
     customer := customer c; seller := seller c;
     payment_term := payment_term c; sale := v; sale_item := sale_item c;
     customer_payment := customer_payment c;
     stock_movement := stock_movement c |}.

Definition with_sale_item (v : _) (c : Core) : Core :=
  {| product_group := product_group c; product := product c;
     customer := customer c; seller := seller c;
     payment_term := payment_term c; sale := sale c; sale_item := v;
     customer_payment := customer_payment c;
     stock_movement := stock_movement c |}.

Definition with_customer_payment (v : _) (c : Core) : Core :=
  {| product_group := product_group c; product := product c;
     customer := customer c; seller := seller c;
     payment_term := payment_term c; sale := sale c;
     sale_item := sale_item c; customer_payment := v;
     stock_movement := stock_movement c |}.

Definition with_stock_movement (v : _) (c : Core) : Core :=
  {| product_group := product_group c; product := product c;
     customer := customer c; seller := seller c;
     payment_term := payment_term c; sale := sale c;
     sale_item := sale_item c; customer_payment := customer_payment c;
     stock_movement := v |}.

Definition set_core (v : _) (w : World) : World :=
  {| core := v; staging := staging w; imports := imports w;
     import_log := import_log w; next_uuid := next_uuid w;
     clock := clock w; fs := fs w; jobQueue := jobQueue w;
     processing := processing w; initialized := initialized w;
     trace := trace w; history := history w |}.

Definition set_staging (v : _) (w : World) : World :=
  {| core := core w; staging := v; imports := imports w;
     import_log := import_log w; next_uuid := next_uuid w;
     clock := clock w; fs := fs w; jobQueue := jobQueue w;
     processing := processing w; initialized := initialized w;
     trace := trace w; history := history w |}.

Definition set_imports (v : _) (w : World) : World :=
  {| core := core w; staging := staging w; imports := v;
     import_log := import_log w; next_uuid := next_uuid w;
     clock := clock w; fs := fs w; jobQueue := jobQueue w;
     processing := processing w; initialized := initialized w;
     trace := trace w; history := history w |}.

Definition set_import_log (v : _) (w : World) : World :=
  {| core := core w; staging := staging w; imports := imports w;
     import_log := v; next_uuid := next_uuid w; clock := clock w;
     fs := fs w; jobQueue := jobQueue w; processing := processing w;
     initialized := initialized w; trace := trace w; history := history w |}.

Definition set_next_uuid (v : _) (w : World) : World :=
  {| core := core w; staging := staging w; imports := imports w;
     import_log := import_log w; next_uuid := v; clock := clock w;
     fs := fs w; jobQueue := jobQueue w; processing := processing w;
     initialized := initialized w; trace := trace w; history := history w |}.

Definition set_clock (v : _) (w : World) : World :=
  {| core := core w; staging := staging w; imports := imports w;
     import_log := import_log w; next_uuid := next_uuid w; clock := v;
     fs := fs w; jobQueue := jobQueue w; processing := processing w;
     initialized := initialized w; trace := trace w; history := history w |}.

Definition set_fs (v : _) (w : World) : World :=
  {| core := core w; staging := staging w; imports := imports w;
     import_log := import_log w; next_uuid := next_uuid w;
     clock := clock w; fs := v; jobQueue := jobQueue w;
     processing := processing w; initialized := initialized w;
     trace := trace w; history := history w |}.

Definition set_jobQueue (v : _) (w : World) : World :=
  {| core := core w; staging := staging w; imports := imports w;
     import_log := import_log w; next_uuid := next_uuid w;
     clock := clock w; fs := fs w; jobQueue := v;
     processing := processing w; initialized := initialized w;
     trace := trace w; history := history w |}.

Definition set_processing (v : _) (w : World) : World :=
  {| core := core w; staging := staging w; imports := imports w;
     import_log := import_log w; next_uuid := next_uuid w;
     clock := clock w; fs := fs w; jobQueue := jobQueue w; processing := v;
     initialized := initialized w; trace := trace w; history := history w |}.

Definition set_initialized (v : _) (w : World) : World :=
  {| core := core w; staging := staging w; imports := imports w;
     import_log := import_log w; next_uuid := next_uuid w;
     clock := clock w; fs := fs w; jobQueue := jobQueue w;
     processing := processing w; initialized := v; trace := trace w;
     history := history w |}.

Definition set_trace (v : _) (w : World) : World :=
  {| core := core w; staging := staging w; imports := imports w;
     import_log := import_log w; next_uuid := next_uuid w;
     clock := clock w; fs := fs w; jobQueue := jobQueue w;
     processing := processing w; initialized := initialized w; trace := v;
     history := history w |}.

Definition set_history (v : _) (w : World) : World :=
  {| core := core w; staging := staging w; imports := imports w;
     import_log := import_log w; next_uuid := next_uuid w;
     clock := clock w; fs := fs w; jobQueue := jobQueue w;
     processing := processing w; initialized := initialized w;
     trace := trace w; history := v |}.

(** ** The file system and node:path *)

Module Fs.

(** [path.basename] *)
Definition basename (p : path) : string := List.last p EmptyString.

Definition dirname (p : path) : path := removelast p.

(** Index of the last dot of a name, if any. *)
Fixpoint last_dot (s : string) (i : nat) (found : option nat) : option nat :=
  match s with
  | String c r => last_dot r (S i) (if Ascii.eqb c "." then Some i else found)
  | EmptyString => found
  end.

(** [path.extname]: from the last dot of the base name to its end; empty
    when there is no dot or the only dot is the first character. *)
Definition extname (base : string) : string :=
  match last_dot base 0 None with
  | Some (S i) => String.substring (S i) (String.length base - S i) base
  | _ => EmptyString
  end.

(** [path.parse(file).name]: the base name without its extension. *)
Definition stem (base : string) : string :=
  String.substring 0 (String.length base - String.length (extname base)) base.

(** [path.join(dir, name)] for one name: the result is normalized, so
    that an empty name and [.] stand for [dir] itself and [..] for the
    directory above. *)
Definition join (dir : path) (name : string) : path :=
  if bool_decide (name = EmptyString ∨ name = ".") then dir
  else if bool_decide (name = "..") then removelast dir
  else dir ++ [name].

Fixpoint find_entry (n : string) (es : list entry) : option entry :=
  match es with
  | [] => None
  | e :: r => if bool_decide (entry_name e = n) then Some e else find_entry n r
  end.

(** Writes [e] in a directory listing, over an entry of the same name. *)
Fixpoint put_entry (e : entry) (es : list entry) : list entry :=
  match es with
  | [] => [e]
  | x :: r =>
      if bool_decide (entry_name x = entry_name e) then e :: r
      else x :: put_entry e r
  end.

Fixpoint remove_entry (n : string) (es : list entry) : list entry :=
  match es with
  | [] => []
  | x :: r =>
      if bool_decide (entry_name x = n) then r else x :: remove_entry n r
  end.

(** Listing of the directory at [p]; [None] when it does not exist or is
    a file (readdir throws). *)
Fixpoint dir_at (p : path) (es : list entry) : option (list entry) :=
  match p with
  | [] => Some es
  | d :: p' =>
      match find_entry d es with
      | Some (EDir _ ch) => dir_at p' ch
      | _ => None
      end
  end.

Definition lookup (p : path) (es : list entry) : option entry :=
  match dir_at (dirname p) es with
  | Some ch => find_entry (basename p) ch
  | None => None
  end.

(** Applies [f] to the listing of the directory at [dir]; with [create],
    missing directories are made on the way (mkdir -p).  [None] when a
    file is in the way or a directory is missing. *)
Fixpoint modify_dir (create : bool) (f : list entry -> option (list entry))
    (dir : path) (es : list entry) : option (list entry) :=
  match dir with
  | [] => f es
  | d :: dir' =>
      match find_entry d es with
      | Some (EDir _ ch) =>
          ch' ← modify_dir create f dir' ch; Some (put_entry (EDir d ch') es)
      | Some _ => None
      | None =>
          if create then
            ch' ← modify_dir create f dir' []; Some (put_entry (EDir d ch') es)
          else None
      end
  end.

(** [fsp.mkdir(dir, { recursive: true })] *)
Definition mkdir_p (dir : path) (es : list entry) : option (list entry) :=
  modify_dir true Some dir es.

Definition put_file (e : entry) (ch : list entry) : option (list entry) :=
  match find_entry (entry_name e) ch with
  | Some (EDir _ _) => None
  | _ => Some (put_entry e ch)
  end.

(** [fsp.writeFile]: the parent directory has to exist. *)
Definition writeFile (dir : path) (e : entry) (es : list entry)
  : option (list entry) :=
  modify_dir false (put_file e) dir es.

(** [fsp.unlink] *)
Definition unlink (p : path) (es : list entry) : option (list entry) :=
  modify_dir false
    (fun ch =>
       match find_entry (basename p) ch with
       | Some (EDir _ _) | None => None
       | Some _ => Some (remove_entry (basename p) ch)
       end)
    (dirname p) es.

(** Unpacks one archive member below [dir]. *)
Fixpoint extract_entry (dir : path) (e : entry) (es : list entry)
  : option (list entry) :=
  match e with
  | EDir n ch =>
      fold_left (fun acc c => acc ≫= extract_entry (dir ++ [n]) c) ch
        (mkdir_p (dir ++ [n]) es)
  | _ => modify_dir true (put_file e) dir es
  end.

(** [extract(file, { dir })]; [None] when [file] is not a zip archive. *)
Definition extract (file dir : path) (es : list entry) : option (list entry) :=
  match lookup file es with
  | Some (EZip _ archive) =>
      fold_left (fun acc c => acc ≫= extract_entry dir c) archive (Some es)
  | _ => None
  end.

(** Paths of the files below an entry, depth first. *)
Fixpoint files_under (root : path) (e : entry) : list path :=
  match e with
  | EDir n ch => flat_map (files_under (root ++ [n])) ch
  | _ => [root ++ [entry_name e]]
  end.

(** [DBFFile.open(path)] with all its records; [None] when the file is
    missing or is not a DBF table. *)
Definition open_dbf (p : path) (es : list entry) : option (list DbfRecord) :=
  match lookup p es with
  | Some (EDbf _ records) => Some records
  | _ => None
  end.

End Fs.

Definition readDirectoryRecursive (root : path) (es : list entry)
  : option (list path) :=
  ch ← Fs.dir_at root es; Some (flat_map (Fs.files_under root) ch).

(** Loop of [prepareLegacyFiles] over the files found at the start: the
    map when every step went through ([None] when one throws), and the
    file system reached, which keeps what was done before a throw.  A
    throwing [extract] is taken to leave nothing behind. *)
Fixpoint prepare_files (sessionDir : path) (files : list path)
    (map : gmap string path) (es : list entry)
  : option (gmap string path) * list entry :=
  match files with
  | [] => (Some map, es)
  | file :: rest =>
      let ext := Js.toLowerCase (Fs.extname (Fs.basename file)) in
      if bool_decide (ext = ".zip") then
        let extractDir := Fs.join sessionDir (Fs.stem (Fs.basename file)) in
        match Fs.mkdir_p extractDir es with
        | None => (None, es)
        | Some es1 =>
            match Fs.extract file extractDir es1 with
            | None => (None, es1)
            | Some es2 =>
                match Fs.unlink file es2 with
                | None => (None, es2)
                | Some es3 =>
                    match readDirectoryRecursive extractDir es3 with
                    | None => (None, es3)
                    | Some extracted =>
                        prepare_files sessionDir rest
                          (fold_left
                             (fun m ex =>
                                <[Js.toUpperCase (Fs.basename ex) := ex]> m)
                             extracted map)
                          es3
                    end
                end
            end
        end
      else
        prepare_files sessionDir rest
          (<[Js.toUpperCase (Fs.basename file) := file]> map) es
  end.

(** The normalized file map (upper-cased base name to path) and the file
    system after the archives are unpacked, when [prepareLegacyFiles]
    returns; [None] when an operation on the file system throws. *)
Definition prepareLegacyFiles (sessionDir : path) (es : list entry)
  : option (gmap string path * list entry) :=
  files ← readDirectoryRecursive sessionDir es;
  match prepare_files sessionDir files ∅ es with
  | (Some map, es') => Some (map, es')
  | (None, _) => None
  end.

(** The file system a call of [prepareLegacyFiles] leaves behind,
    whether it returns or throws. *)
Definition prepareLegacyFiles_leaves (sessionDir : path) (es : list entry)
  : list entry :=
  match readDirectoryRecursive sessionDir es with
  | Some files => (prepare_files sessionDir files ∅ es).2
  | None => es
  end.

(** ** Configuration *)

Definition REQUIRED_FILES : list string :=
  ["PRODUTO.DBF"; "GRUPO.DBF"; "CLIENTES.DBF"; "VENDEDOR.DBF"; "VENDAS.DBF"].

Record StagingColumn := {
  col_name : string;
  col_field : string;
}.

Record StagingConfig := {
  file : string;
  table : string;
  columns : list StagingColumn;
}.

Definition col (n f : string) : StagingColumn :=
  {| col_name := n; col_field := f |}.

Definition STAGING_CONFIG : list StagingConfig :=
  [
    {| file := "GRUPO.DBF"; table := "stg_grupo";
       columns := [
        col "cod_grup" "COD_GRUP"; col "nome" "NOME" ] |};
    {| file := "PRODUTO.DBF"; table := "stg_produto";
       columns := [
        col "cod_prod" "COD_PROD"; col "nome_prod" "NOME_PROD";
        col "cod_barra" "COD_BARRA"; col "referencia" "REFERENCIA";
        col "cod_grup" "COD_GRUP"; col "esto_min" "ESTO_MIN";
        col "avista" "AVISTA"; col "preco_base" "PRECO_BASE" ] |};
    {| file := "CLIENTES.DBF"; table := "stg_clientes";
       columns := [
        col "codigo" "CODIGO"; col "nome" "NOME"; col "cpf" "CPF";
        col "endereco" "ENDERECO"; col "cidade" "CIDADE"; col "uf" "UF";
        col "cep" "CEP"; col "fone" "FONE"; col "status" "STATUS";
        col "obs" "OBS" ] |};
    {| file := "VENDEDOR.DBF"; table := "stg_vendedor";
       columns := [
        col "codigo" "CODIGO"; col "nome" "NOME" ] |};
    {| file := "FORMA_PG.DBF"; table := "stg_forma_pg";
       columns := [
        col "cod_fpg" "COD_FPG"; col "forma" "FORMA" ] |};
    {| file := "VENDAS.DBF"; table := "stg_vendas";
       columns := [
        col "pedido" "PEDIDO"; col "emissao" "EMISSAO";
        col "cod_vend" "COD_VEND"; col "cod_cli" "COD_CLI";
        col "cod_fpg" "COD_FPG"; col "sub_total" "SUB_TOTAL";
        col "desconto" "DESCONTO"; col "total_gera" "TOTAL_GERA";
        col "cod1" "COD1"; col "cod2" "COD2"; col "cod3" "COD3";
        col "cod4" "COD4"; col "cod5" "COD5"; col "cod6" "COD6";
        col "cod7" "COD7"; col "qtde1" "QTDE1"; col "qtde2" "QTDE2";
        col "qtde3" "QTDE3"; col "qtde4" "QTDE4"; col "qtde5" "QTDE5";
        col "qtde6" "QTDE6"; col "qtde7" "QTDE7"; col "vlr1" "VLR1";
        col "vlr2" "VLR2"; col "vlr3" "VLR3"; col "vlr4" "VLR4";
        col "vlr5" "VLR5"; col "vlr6" "VLR6"; col "vlr7" "VLR7";
        col "total1" "TOTAL1"; col "total2" "TOTAL2"; col "total3" "TOTAL3";
        col "total4" "TOTAL4"; col "total5" "TOTAL5"; col "total6" "TOTAL6";
        col "total7" "TOTAL7" ] |};
    {| file := "PEDIDOS.DBF"; table := "stg_pedidos";
       columns := [
        col "pedido" "PEDIDO"; col "emissao" "EMISSAO";
        col "cod_vend" "COD_VEND"; col "cod_cli" "COD_CLI";
        col "cod_fpg" "COD_FPG"; col "sub_total" "SUB_TOTAL";
        col "desconto" "DESCONTO"; col "total_gera" "TOTAL_GERA";
        col "cod1" "COD1"; col "cod2" "COD2"; col "cod3" "COD3";
        col "cod4" "COD4"; col "cod5" "COD5"; col "cod6" "COD6";
        col "cod7" "COD7"; col "qtde1" "QTDE1"; col "qtde2" "QTDE2";
        col "qtde3" "QTDE3"; col "qtde4" "QTDE4"; col "qtde5" "QTDE5";
        col "qtde6" "QTDE6"; col "qtde7" "QTDE7"; col "vlr1" "VLR1";
        col "vlr2" "VLR2"; col "vlr3" "VLR3"; col "vlr4" "VLR4";
        col "vlr5" "VLR5"; col "vlr6" "VLR6"; col "vlr7" "VLR7";
        col "total1" "TOTAL1"; col "total2" "TOTAL2"; col "total3" "TOTAL3";
        col "total4" "TOTAL4"; col "total5" "TOTAL5"; col "total6" "TOTAL6";
        col "total7" "TOTAL7" ] |};
    {| file := "PAGAMENT.DBF"; table := "stg_pagament";
       columns := [
        col "cod_cli" "COD_CLI"; col "valor_doc" "VALOR_DOC";
        col "vlr_pago" "VLR_PAGO"; col "restante" "RESTANTE";
        col "pagamento" "PAGAMENTO" ] |};
    {| file := "MOV_EST.DBF"; table := "stg_mov_est";
       columns := [
        col "tip_mov" "TIP_MOV"; col "data" "DATA";
        col "cod_prod" "COD_PROD"; col "qtde" "QTDE"; col "valor" "VALOR";
        col "total" "TOTAL"; col "nf" "NF" ] |}
  ].

(** ** Effects

    A computation runs in a world and either returns or throws; each
    statement commits on its own, so a throw keeps the world reached. *)
Inductive Result (A : Type) :=
  | Ok (a : A) (w : World)
  | Throw (msg : string) (w : World).

Arguments Ok {A} a w.
Arguments Throw {A} msg w.

Definition M (A : Type) : Type := World -> Result A.

Definition ret {A} (a : A) : M A := fun w => Ok a w.

Definition bind {A B} (m : M A) (k : A -> M B) : M B :=
  fun w =>
    match m w with
    | Ok a w' => k a w'
    | Throw msg w' => Throw msg w'
    end.

Definition throw {A} (msg : string) : M A := fun w => Throw msg w.

Definition gets {A} (f : World -> A) : M A := fun w => Ok (f w) w.

Definition modify (f : World -> World) : M unit := fun w => Ok tt (f w).

(** [try { m } catch (error) { h(message) }] *)
Definition try_catch {A} (m : M A) (h : string -> M A) : M A :=
  fun w =>
    match m w with
    | Ok a w' => Ok a w'
    | Throw msg w' => h msg w'
    end.

(** The world a computation stops in. *)
Definition final {A} (r : Result A) : World :=
  match r with
  | Ok _ w | Throw _ w => w
  end.

(** Whether it returned, and what. *)
Definition returned {A} (r : Result A) : bool :=
  match r with
  | Ok _ _ => true
  | Throw _ _ => false
  end.

Definition answer {A} (d : A) (r : Result A) : A :=
  match r with
  | Ok a _ => a
  | Throw _ _ => d
  end.

Notation "'let*' x ':=' m 'in' k" := (bind m (fun x => k))
  (at level 10, x name, m at level 100, k at level 200).

Notation "m '>>' k" := (bind m (fun _ => k))
  (at level 90, right associativity).

(** A value that is there, or a throw. *)
Definition expect {A} (msg : string) (o : option A) : M A :=
  match o with
  | Some a => ret a
  | None => throw msg
  end.

(** [for (const x of l) acc = body(acc, x)] *)
Fixpoint foldM {A B} (body : B -> A -> M B) (l : list A) (acc : B) : M B :=
  match l with
  | [] => ret acc
  | x :: r => let* acc' := body acc x in foldM body r acc'
  end.

Definition forM {A} (body : A -> M unit) (l : list A) : M unit :=
  foldM (fun _ x => body x) l tt.

(** A statement reaches the database. *)
Definition query (s : Stmt) : M unit :=
  modify (fun w => set_trace (trace w ++ [s]) w).

(** [new Date()]: the clock is read and moves on. *)
Definition now : M Z :=
  fun w => Ok (clock w) (set_clock (clock w + 1)%Z w).

(** [gen_random_uuid()] *)
Definition fresh_uuid : M uuid :=
  fun w => Ok (next_uuid w) (set_next_uuid (S (next_uuid w)) w).

Definition update_core (f : Core -> Core) : M unit :=
  modify (fun w => set_core (f (core w)) w).

(** An operation on the file system that may throw. *)
Definition fs_op {A} (msg : string) (f : list entry -> option (A * list entry))
  : M A :=
  fun w =>
    match f (fs w) with
    | Some (a, es) => Ok a (set_fs es w)
    | None => Throw msg w
    end.

(** Several operations on the file system in a row: a throw keeps what
    the operations before it have done, given by [leaves]. *)
Definition fs_steps {A} (msg : string)
    (f : list entry -> option (A * list entry))
    (leaves : list entry -> list entry) : M A :=
  fun w =>
    match f (fs w) with
    | Some (a, es) => Ok a (set_fs es w)
    | None => Throw msg (set_fs (leaves (fs w)) w)
    end.

(** ** Job bookkeeping *)

Definition appendLog (importId : uuid) (level : LogLevel) (message : string)
  : M unit :=
  query (SInsert "system_legacy_import_log") >>
  modify (fun w =>
    set_import_log
      (import_log w ++
         [ {| log_id := S (length (import_log w)); log_import_id := importId;
              log_level := level; log_message := message;
              log_created_at := clock w |} ]) w).

(** One entry of the [fields] object of [updateImportStatus]. *)
Inductive ImportField :=
  | started_at (v : option Z)
  | finished_at (v : option Z)
  | summary (v : option OverallSummary)
  | report_path (v : option path)
  | error_message (v : option string).

Definition set_import_status (st : ImportStatus) (r : ImportRow) : ImportRow :=
  {| imp_id := imp_id r; imp_session_id := imp_session_id r;
     imp_session_dir := imp_session_dir r; imp_overwrite := imp_overwrite r;
     imp_status := st; imp_created_at := imp_created_at r;
     imp_started_at := imp_started_at r; imp_finished_at := imp_finished_at r;
     imp_created_by := imp_created_by r; imp_report_path := imp_report_path r;
     imp_summary := imp_summary r; imp_error_message := imp_error_message r |}.

Definition set_import_field (r : ImportRow) (f : ImportField) : ImportRow :=
  {| imp_id := imp_id r; imp_session_id := imp_session_id r;
     imp_session_dir := imp_session_dir r; imp_overwrite := imp_overwrite r;
     imp_status := imp_status r; imp_created_at := imp_created_at r;
     imp_started_at :=
       match f with started_at v => v | _ => imp_started_at r end;
     imp_finished_at :=
       match f with finished_at v => v | _ => imp_finished_at r end;
     imp_created_by := imp_created_by r;
     imp_report_path :=
       match f with report_path v => v | _ => imp_report_path r end;
     imp_summary := match f with summary v => v | _ => imp_summary r end;
     imp_error_message :=
       match f with error_message v => v | _ => imp_error_message r end |}.

(** The status changes an update [where pred] to status [st] makes. *)
Definition status_changes (recovery : bool) (pred : ImportRow -> bool)
    (st : ImportStatus) (rows : list ImportRow) : list StatusChange :=
  map (fun r => {| sc_job := imp_id r; sc_from := imp_status r; sc_to := st;
                   sc_recovery := recovery |})
      (filter (fun r => pred r = true) rows).

(** [update system_legacy_import set status = st, ... where pred] *)
Definition update_where (pred : ImportRow -> bool) (st : ImportStatus)
    (fields : list ImportField) (rows : list ImportRow) : list ImportRow :=
  map (fun r =>
         if pred r
         then fold_left set_import_field fields (set_import_status st r)
         else r)
      rows.

Definition has_id (importId : uuid) (r : ImportRow) : bool :=
  bool_decide (imp_id r = importId).

(** [update system_legacy_import set status = $2, ... where id = $1] *)
Definition updateImportStatus (importId : uuid) (status : ImportStatus)
    (fields : list ImportField) : M unit :=
  query (SUpdate "system_legacy_import") >>
  modify (fun w =>
    set_history
      (history w ++ status_changes false (has_id importId) status (imports w))
      (set_imports
         (update_where (has_id importId) status fields (imports w)) w)).

(** ** Staging *)

Definition staging_rows (t : string) (w : World) : list Row :=
  default [] (staging w !! t).

Definition set_staging_rows (t : string) (rows : list Row) (w : World) : World :=
  set_staging (<[t := rows]> (staging w)) w.

(** The text of a column of a staging row; null when the row lacks it. *)
Definition cell (r : Row) (c : string) : option string :=
  default None (r !! c).

Definition ensureStagingTable (config : StagingConfig) : M unit :=
  query (SCreateTable (table config)) >>
  query (STruncate (table config)) >>
  modify (set_staging_rows (table config) []).

Definition truncateStagingTables : M unit :=
  forM (fun config =>
          query (STruncate (table config)) >>
          modify (set_staging_rows (table config) []))
       STAGING_CONFIG.

(** *** Core tables and their foreign keys

    [truncate t cascade] also empties every table that references [t],
    directly or through another table. *)
Definition truncate_cascade (t : string) (c : Core) : Core :=
  if bool_decide (t = "sale_item") then with_sale_item [] c
  else if bool_decide (t = "sale") then with_sale [] (with_sale_item [] c)
  else if bool_decide (t = "customer_payment") then with_customer_payment [] c
  else if bool_decide (t = "stock_movement") then with_stock_movement [] c
  else if bool_decide (t = "product") then
    with_product [] (with_sale_item [] (with_stock_movement [] c))
  else if bool_decide (t = "product_group") then
    with_product_group []
      (with_product [] (with_sale_item [] (with_stock_movement [] c)))
  else if bool_decide (t = "customer") then
    with_customer []
      (with_sale [] (with_sale_item [] (with_customer_payment [] c)))
  else if bool_decide (t = "seller") then
    with_seller [] (with_sale [] (with_sale_item [] c))
  else if bool_decide (t = "payment_term") then
    with_payment_term [] (with_sale [] (with_sale_item [] c))
  else c.

Definition truncate_table (t : string) : M unit :=
  query (STruncate t) >> update_core (truncate_cascade t).

Definition truncateCoreTables : M unit :=
  truncate_table "sale_item" >>
  truncate_table "sale" >>
  truncate_table "customer_payment" >>
  truncate_table "stock_movement" >>
  truncate_table "product" >>
  truncate_table "product_group" >>
  truncate_table "customer" >>
  truncate_table "seller" >>
  truncate_table "payment_term".

(** [select legacy_code, id from t where legacy_code is not null] *)
Definition coded {R} (code : R -> option string) (rid : R -> uuid)
    (rows : list R) : list (string * uuid) :=
  omap (fun r => k ← code r; Some (k, rid r)) rows.

Definition legacy_codes (t : string) (c : Core) : option (list (string * uuid)) :=
  if bool_decide (t = "seller") then Some (coded cn_legacy_code cn_id (seller c))
  else if bool_decide (t = "customer") then
    Some (coded cu_legacy_code cu_id (customer c))
  else if bool_decide (t = "payment_term") then
    Some (coded cn_legacy_code cn_id (payment_term c))
  else if bool_decide (t = "product") then
    Some (coded pr_legacy_code pr_id (product c))
  else if bool_decide (t = "product_group") then
    Some (coded cn_legacy_code cn_id (product_group c))
  else None.

Definition buildLegacyMap (t : string) : M (gmap string uuid) :=
  query (SSelect t) >>
  let* c := gets core in
  let* rows := expect "relation has no legacy_code" (legacy_codes t c) in
  ret (fold_left
         (fun (m : gmap string uuid) '(code, rid) =>
            if bool_decide (code = EmptyString) then m
            else <[Js.trim code := rid]> m)
         rows ∅).

(** *** [insert ... select ... on conflict (legacy_code) do update]

    The proposed rows are taken in order.  A proposed row whose code is
    already in the table updates the row that has it (the unique
    constraint allows one); otherwise it is inserted with a new id.  A
    statement that would touch a row it has already inserted or updated
    is refused by PostgreSQL, and then nothing is written. *)
Section Upsert.

Context {R : Type}.
Variable code : R -> option string.
(** [merge excluded existing]: the row after [do update set ...] *)
Variable merge : R -> R -> R.

Definition has_code (k : string) (r : R) : bool :=
  bool_decide (code r = Some k).

Fixpoint upsert_rows (proposed : list (uuid -> R)) (seen : list string)
    (t : list R) (next : uuid) : option (list R * uuid) :=
  match proposed with
  | [] => Some (t, next)
  | x :: rest =>
      match code (x next) with
      | None => upsert_rows rest seen (t ++ [x next]) (S next)
      | Some k =>
          if bool_decide (k ∈ seen) then None
          else if existsb (has_code k) t then
            upsert_rows rest (k :: seen)
              (map (fun r => if has_code k r then merge (x next) r else r) t)
              next
          else upsert_rows rest (k :: seen) (t ++ [x next]) (S next)
      end
  end.

End Upsert.

(** One such statement on the table read by [get] and written by [put];
    [proposed] is [None] when evaluating the select list fails (a null
    for a [not null] column, a text that is not a number). *)
Definition upsert {R} (t : string) (get : Core -> list R)
    (put : list R -> Core -> Core) (code : R -> option string)
    (merge : R -> R -> R) (proposed : World -> option (list (uuid -> R)))
  : M unit :=
  query (SInsert t) >>
  fun w =>
    match proposed w with
    | None => Throw ("insert into " +:+ t +:+ " violates a constraint") w
    | Some xs =>
        match upsert_rows code merge xs [] (get (core w)) (next_uuid w) with
        | None =>
            Throw "ON CONFLICT DO UPDATE command cannot affect row a second time" w
        | Some (rows, next) =>
            Ok tt (set_next_uuid next (set_core (put rows (core w)) w))
        end
    end.

(** [select count( * ) from t] on a staging table *)
Definition count_staging (t : string) : M nat :=
  query (SSelect t) >> gets (fun w => length (staging_rows t w)).

Definition merge_name (excluded existing : CodedName) : CodedName :=
  {| cn_id := cn_id existing; cn_legacy_code := cn_legacy_code existing;
     cn_name := cn_name excluded |}.

Definition merge_product (excluded existing : Product) : Product :=
  {| pr_id := pr_id existing; pr_legacy_code := pr_legacy_code existing;
     pr_name := pr_name excluded; pr_barcode := pr_barcode excluded;
     pr_group_id := pr_group_id excluded;
     pr_reference := pr_reference excluded;
     pr_min_stock := pr_min_stock excluded;
     pr_price_cash := pr_price_cash excluded;
     pr_price_base := pr_price_base excluded |}.

Definition merge_customer (excluded existing : Customer) : Customer :=
  {| cu_id := cu_id existing; cu_legacy_code := cu_legacy_code existing;
     cu_name := cu_name excluded; cu_cpf := cu_cpf excluded;
     cu_address := cu_address excluded; cu_city := cu_city excluded;
     cu_uf := cu_uf excluded; cu_cep := cu_cep excluded;
     cu_phone := cu_phone excluded; cu_status := cu_status excluded;
     cu_credit_limit := cu_credit_limit existing;
     cu_notes := cu_notes excluded |}.

(** Staging rows [where c is not null], with that column's text. *)
Definition rows_with (c : string) (rows : list Row) : list (string * Row) :=
  omap (fun r => k ← cell r c; Some (k, r)) rows.

Inductive LegacyKind := Vendas | Pedidos.

Definition source_label (k : LegacyKind) : string :=
  match k with Vendas => "VENDAS" | Pedidos => "PEDIDOS" end.

Definition mismatch_label (k : LegacyKind) : string :=
  match k with Vendas => "Sale" | Pedidos => "Order" end.

Definition staging_table (k : LegacyKind) : string :=
  match k with Vendas => "stg_vendas" | Pedidos => "stg_pedidos" end.

Definition empty_summary : SaleSummary :=
  {| sales := 0; saleItems := 0; orders := 0; orderItems := 0;
     mismatches := [] |}.

Definition push_mismatch (msg : string) (s : SaleSummary) : SaleSummary :=
  {| sales := sales s; saleItems := saleItems s; orders := orders s;
     orderItems := orderItems s; mismatches := mismatches s ++ [msg] |}.

(** [summary.saleItems += 1] or [summary.orderItems += 1] *)
Definition count_item (k : LegacyKind) (s : SaleSummary) : SaleSummary :=
  match k with
  | Vendas =>
      {| sales := sales s; saleItems := S (saleItems s); orders := orders s;
         orderItems := orderItems s; mismatches := mismatches s |}
  | Pedidos =>
      {| sales := sales s; saleItems := saleItems s; orders := orders s;
         orderItems := S (orderItems s); mismatches := mismatches s |}
  end.

(** [summary.sales += 1] or [summary.orders += 1] *)
Definition count_header (k : LegacyKind) (s : SaleSummary) : SaleSummary :=
  match k with
  | Vendas =>
      {| sales := S (sales s); saleItems := saleItems s; orders := orders s;
         orderItems := orderItems s; mismatches := mismatches s |}
  | Pedidos =>
      {| sales := sales s; saleItems := saleItems s; orders := S (orders s);
         orderItems := orderItems s; mismatches := mismatches s |}
  end.

(** The four lookup tables built by [migrateSales]. *)
Record LegacyMaps := {
  sellerMap : gmap string uuid;
  customerMap : gmap string uuid;
  paymentTermMap : gmap string uuid;
  productMap : gmap string uuid;
}.

(** Values of a sale header, as sent to the insert. *)
Record SaleValues := {
  sv_emission : Z;
  sv_key : string;
  sv_seller : option uuid;
  sv_customer : option uuid;
  sv_payment_term : option uuid;
  sv_subtotal : option pgnum;
  sv_discount : option pgnum;
  sv_total : option pgnum;
}.

Definition is_sale (k : LegacyKind) (key : string) (r : Sale) : bool :=
  bool_decide (sa_source r = Some (source_label k)) &&
  bool_decide (sa_source_key r = Some key).

(** A new header; an insert for VENDAS leaves status to its default. *)
Definition new_sale (k : LegacyKind) (i : uuid) (v : SaleValues) : Sale :=
  {| sa_id := i; sa_emission_date := sv_emission v;
     sa_order_number := Some (sv_key v); sa_seller_id := sv_seller v;
     sa_customer_id := sv_customer v;
     sa_payment_term_id := sv_payment_term v;
     sa_subtotal := sv_subtotal v; sa_discount := sv_discount v;
     sa_total := sv_total v;
     sa_status := match k with Vendas => "completed" | Pedidos => "draft" end;
     sa_cancelled_at := None; sa_cancellation_reason := None;
     sa_source := Some (source_label k); sa_source_key := Some (sv_key v) |}.

(** [on conflict (source, source_key) do update set ...]; only the
    statement for PEDIDOS sets status. *)
Definition merge_sale (k : LegacyKind) (v : SaleValues) (r : Sale) : Sale :=
  {| sa_id := sa_id r; sa_emission_date := sv_emission v;
     sa_order_number := Some (sv_key v); sa_seller_id := sv_seller v;
     sa_customer_id := sv_customer v;
     sa_payment_term_id := sv_payment_term v;
     sa_subtotal := sv_subtotal v; sa_discount := sv_discount v;
     sa_total := sv_total v;
     sa_status := match k with Vendas => sa_status r | Pedidos => "draft" end;
     sa_cancelled_at := sa_cancelled_at r;
     sa_cancellation_reason := sa_cancellation_reason r;
     sa_source := sa_source r; sa_source_key := sa_source_key r |}.

(** The header upsert, [returning id]; [v] is [None] when the values
    violate a constraint of the table. *)
Definition upsert_sale (k : LegacyKind) (v : option SaleValues) : M uuid :=
  query (SInsert "sale") >>
  let* v := expect "insert into sale violates a constraint" v in
  fun w =>
    let t := sale (core w) in
    match List.find (is_sale k (sv_key v)) t with
    | Some r =>
        Ok (sa_id r)
           (set_core
              (with_sale
                 (map (fun r => if is_sale k (sv_key v) r then merge_sale k v r
                                else r) t)
                 (core w)) w)
    | None =>
        Ok (next_uuid w)
           (set_next_uuid (S (next_uuid w))
              (set_core (with_sale (t ++ [new_sale k (next_uuid w) v]) (core w))
                 w))
    end.

(** [delete from sale_item where sale_id = $1] *)
Definition delete_sale_items (saleId : uuid) : M unit :=
  query (SDelete "sale_item") >>
  update_core (fun c =>
    with_sale_item (filter (fun i => si_sale_id i ≠ Some saleId) (sale_item c)) c).

Definition migrated_source (r : Sale) : bool :=
  bool_decide (sa_source r = Some "VENDAS") ||
  bool_decide (sa_source r = Some "PEDIDOS").

Definition item_of (gone : list uuid) (i : SaleItemRow) : bool :=
  match si_sale_id i with
  | Some s => bool_decide (s ∈ gone)
  | None => false
  end.

(** [delete from sale where source in ('VENDAS', 'PEDIDOS')]; the items
    of a deleted sale go with it ([on delete cascade]). *)
Definition delete_migrated_sales : M unit :=
  query (SDelete "sale") >>
  update_core (fun c =>
    let gone := map sa_id (filter (fun r => migrated_source r = true) (sale c)) in
    with_sale (filter (fun r => migrated_source r = false) (sale c))
      (with_sale_item
         (filter (fun i => item_of gone i = false) (sale_item c)) c)).

(** ** The importer *)

Section Importer.

Context (P : Platform).

(** A number parameter assigned to a numeric(p,s) column: the driver
    sends its text. [None] is an error of the statement. *)
Definition numeric_param (p s : nat) (n : option Js.number)
  : option (option pgnum) :=
  match n with
  | None => Some None
  | Some x => v ← pg_numeric P p s (Number_toString P x); Some (Some v)
  end.

(** [nullif(trim(x), '')::numeric] assigned to a numeric(p,s) column *)
Definition numeric_cast (p s : nat) (x : option string)
  : option (option pgnum) :=
  match Pg.nullif_trim x with
  | None => Some None
  | Some txt => v ← pg_numeric P p s txt; Some (Some v)
  end.

(** *** Staging load *)

(** The text stored for one DBF field. *)
Definition staging_text (v : value) : option string :=
  match v with
  | VDate t => Some (Date_toISOString P t)
  | VNull | VUndefined => None
  | _ => Some (Js.trim (ToString P v))
  end.

Definition staging_row (config : StagingConfig) (record : DbfRecord) : Row :=
  list_to_map
    (map (fun column =>
            (col_name column,
             staging_text (default VUndefined (record !! col_field column))))
         (columns config)).

Definition insert_staging (config : StagingConfig) (total : nat)
    (record : DbfRecord) : M nat :=
  query (SInsert (table config)) >>
  modify (fun w =>
    set_staging_rows (table config)
      (staging_rows (table config) w ++ [staging_row config record]) w) >>
  ret (S total).

(** [while (true) { records = await dbf.readRecords(500); ... }] *)
Fixpoint load_batches (fuel : nat) (config : StagingConfig)
    (remaining : list DbfRecord) (total : nat) : M nat :=
  match fuel with
  | 0 => ret total
  | S fuel' =>
      match take 500 remaining with
      | [] => ret total
      | records =>
          let* total' := foldM (insert_staging config) records total in
          load_batches fuel' config (drop 500 remaining) total'
      end
  end.

Definition loadDbfIntoStaging (importId : uuid) (config : StagingConfig)
    (files : gmap string path) : M nat :=
  match files !! file config with
  | Some ((_ :: _) as filePath) =>
      ensureStagingTable config >>
      let* es := gets fs in
      let* records := expect "cannot open DBF file" (Fs.open_dbf filePath es) in
      load_batches (S (length records)) config records 0
  | _ =>
      appendLog importId warn
        ("Optional file " +:+ file config +:+ " not provided; skipping.") >>
      ret 0
  end.

(** *** Master data *)

Definition proposed_group (s : string * Row) (i : uuid) : CodedName :=
  {| cn_id := i; cn_legacy_code := Some (Pg.trim s.1);
     cn_name := default (Pg.trim s.1) (Pg.nullif_trim (cell s.2 "nome")) |}.

(** [left join product_group pg on pg.legacy_code = trim(s.cod_grup)] *)
Definition joined_group (groups : list CodedName) (cod_grup : option string)
  : option uuid :=
  k ← cod_grup;
  cn_id <$> List.find (fun g => bool_decide (cn_legacy_code g = Some (Pg.trim k)))
              groups.

Definition proposed_product (groups : list CodedName) (s : string * Row)
  : option (uuid -> Product) :=
  name ← cell s.2 "nome_prod";
  min_stock ← numeric_cast 14 3 (cell s.2 "esto_min");
  price_cash ← numeric_cast 14 2 (cell s.2 "avista");
  price_base ← numeric_cast 14 2 (cell s.2 "preco_base");
  Some (fun i =>
    {| pr_id := i; pr_legacy_code := Some (Pg.trim s.1); pr_name := name;
       pr_barcode := Pg.nullif_trim (cell s.2 "cod_barra");
       pr_group_id := joined_group groups (cell s.2 "cod_grup");
       pr_reference := Pg.nullif_trim (cell s.2 "referencia");
       pr_min_stock := min_stock; pr_price_cash := price_cash;
       pr_price_base := price_base |}).

(** [case when trim(s.status) = '' or s.status is null then 'active'
    else lower(trim(s.status)) end] *)
Definition customer_status (st : option string) : string :=
  match st with
  | None => "active"
  | Some x =>
      if bool_decide (Pg.trim x = EmptyString) then "active"
      else pg_lower P (Pg.trim x)
  end.

Definition proposed_customer (s : string * Row) : option (uuid -> Customer) :=
  name ← cell s.2 "nome";
  Some (fun i =>
    {| cu_id := i; cu_legacy_code := Some (Pg.trim s.1); cu_name := name;
       cu_cpf := Pg.nullif_trim (cell s.2 "cpf");
       cu_address := Pg.nullif_trim (cell s.2 "endereco");
       cu_city := Pg.nullif_trim (cell s.2 "cidade");
       cu_uf := Pg.nullif_trim (cell s.2 "uf");
       cu_cep := Pg.nullif_trim (cell s.2 "cep");
       cu_phone := Pg.nullif_trim (cell s.2 "fone");
       cu_status := customer_status (cell s.2 "status");
       cu_credit_limit := None;
       cu_notes := Pg.nullif_trim (cell s.2 "obs") |}).

(** [select trim(code), name_column ...] for seller and payment_term;
    the name is [not null]. *)
Definition proposed_named (name_column : string) (s : string * Row)
  : option (uuid -> CodedName) :=
  name ← cell s.2 name_column;
  Some (fun i =>
    {| cn_id := i; cn_legacy_code := Some (Pg.trim s.1); cn_name := name |}).

Definition migrateMasterData (overwrite : bool) : M MasterSummary :=
  upsert "product_group" product_group with_product_group cn_legacy_code
    merge_name
    (fun w => Some (map proposed_group
                      (rows_with "cod_grup" (staging_rows "stg_grupo" w)))) >>
  let* productGroups := count_staging "stg_grupo" in
  upsert "product" product with_product pr_legacy_code merge_product
    (fun w => mapM (proposed_product (product_group (core w)))
                (rows_with "cod_prod" (staging_rows "stg_produto" w))) >>
  let* products := count_staging "stg_produto" in
  upsert "customer" customer with_customer cu_legacy_code merge_customer
    (fun w => mapM proposed_customer
                (rows_with "codigo" (staging_rows "stg_clientes" w))) >>
  let* customers := count_staging "stg_clientes" in
  upsert "seller" seller with_seller cn_legacy_code merge_name
    (fun w => mapM (proposed_named "nome")
                (rows_with "codigo" (staging_rows "stg_vendedor" w))) >>
  let* sellers := count_staging "stg_vendedor" in
  upsert "payment_term" payment_term with_payment_term cn_legacy_code
    merge_name
    (fun w => mapM (proposed_named "forma")
                (rows_with "cod_fpg" (staging_rows "stg_forma_pg" w))) >>
  let* paymentTerms := count_staging "stg_forma_pg" in
  ret {| productGroups := productGroups; products := products;
         customers := customers; sellers := sellers;
         paymentTerms := paymentTerms |}.

(** *** Payments and stock movements *)

(** [select * from t] on a staging table *)
Definition select_staging (t : string) : M (list Row) :=
  query (SSelect t) >> gets (staging_rows t).

Definition insert_customer_payment (customerId : uuid) (row : Row) : M unit :=
  query (SInsert "customer_payment") >>
  let* document_value :=
    expect "numeric field overflow"
      (numeric_param 14 2 (normalizeNumber P (row_get row "valor_doc"))) in
  let* paid_value :=
    expect "numeric field overflow"
      (numeric_param 14 2 (normalizeNumber P (row_get row "vlr_pago"))) in
  let* remaining :=
    expect "numeric field overflow"
      (numeric_param 14 2 (normalizeNumber P (row_get row "restante"))) in
  let* i := fresh_uuid in
  update_core (fun c =>
    with_customer_payment
      (customer_payment c ++
         [ {| cp_id := i; cp_customer_id := Some customerId;
              cp_payment_date :=
                pg_date P <$> normalizeDate P (row_get row "pagamento");
              cp_document_value := document_value;
              cp_paid_value := paid_value; cp_remaining := remaining |} ]) c).

Definition migrate_payment (count : nat) (row : Row) : M nat :=
  if negb (truthy (row_get row "cod_cli")) then ret count
  else
    query (SSelect "customer") >>
    let* found :=
      gets (fun w =>
        List.find
          (fun c => bool_decide
                      (cu_legacy_code c
                       = Some (Js.trim (ToString P (row_get row "cod_cli")))))
          (customer (core w))) in
    match found with
    | None => ret count
    | Some c => insert_customer_payment (cu_id c) row >> ret (S count)
    end.

Definition migrateCustomerPayments : M nat :=
  let* rows := select_staging "stg_pagament" in
  foldM migrate_payment rows 0.

Definition insert_stock_movement (productId : uuid) (row : Row) : M unit :=
  query (SInsert "stock_movement") >>
  let* date :=
    expect "null value in column date"
      (normalizeDate P (row_get row "data")) in
  let* type :=
    expect "stock_movement type is not E or S"
      (t ← normalizeString P (row_get row "tip_mov");
       if bool_decide (t = "E") || bool_decide (t = "S") then Some t else None) in
  let* qty :=
    expect "null value in column quantity"
      (normalizeNumber P (row_get row "qtde")) in
  let* quantity :=
    expect "numeric field overflow"
      (pg_numeric P 14 3 (Number_toString P qty)) in
  let* unit_value :=
    expect "numeric field overflow"
      (numeric_param 14 2 (normalizeNumber P (row_get row "valor"))) in
  let* total :=
    expect "numeric field overflow"
      (numeric_param 14 2 (normalizeNumber P (row_get row "total"))) in
  let* i := fresh_uuid in
  update_core (fun c =>
    with_stock_movement
      (stock_movement c ++
         [ {| sm_id := i; sm_date := pg_date P date; sm_type := type;
              sm_product_id := Some productId; sm_quantity := quantity;
              sm_unit_value := unit_value; sm_total := total;
              sm_note_number := normalizeString P (row_get row "nf") |} ]) c).

Definition migrate_stock (productMap : gmap string uuid) (count : nat)
    (row : Row) : M nat :=
  if negb (truthy (row_get row "cod_prod")) then ret count
  else
    match productMap !! Js.trim (ToString P (row_get row "cod_prod")) with
    | None => ret count
    | Some productId => insert_stock_movement productId row >> ret (S count)
    end.

Definition migrateStockMovements : M nat :=
  let* rows := select_staging "stg_mov_est" in
  let* productMap := buildLegacyMap "product" in
  foldM (migrate_stock productMap) rows 0.

End Importer.

(** ** Sales, orders and the job *)

Section Pipeline.

Context (P : Platform).

Definition insert_sale_item (saleId productId : uuid) (item : SaleItem)
  : M unit :=
  query (SInsert "sale_item") >>
  let* qty :=
    expect "numeric field overflow"
      (pg_numeric P 14 3 (Number_toString P (quantity item))) in
  let* unit_price :=
    expect "numeric field overflow"
      (pg_numeric P 14 2 (Number_toString P (price item))) in
  let* line_total :=
    expect "numeric field overflow"
      (pg_numeric P 14 2 (Number_toString P (total item))) in
  let* i := fresh_uuid in
  update_core (fun c =>
    with_sale_item
      (sale_item c ++
         [ {| si_id := i; si_sale_id := Some saleId;
              si_product_id := Some productId; si_quantity := qty;
              si_unit_price := Some unit_price;
              si_total := Some line_total |} ]) c).

(** The text of a mismatch: [`Sale ${sourceKey}: product ${cod} not
    found`], or the same with Order. *)
Definition mismatch_text (k : LegacyKind) (sourceKey code : string) : string :=
  mismatch_label k +:+ " " +:+ sourceKey +:+ ": product " +:+ code
    +:+ " not found".

(** Body of [for (const item of items)]. *)
Definition migrate_item (k : LegacyKind) (productMap : gmap string uuid)
    (saleId : uuid) (sourceKey : string) (acc : SaleSummary) (item : SaleItem)
  : M SaleSummary :=
  match productMap !! cod item with
  | None => ret (push_mismatch (mismatch_text k sourceKey (cod item)) acc)
  | Some productId =>
      insert_sale_item saleId productId item >> ret (count_item k acc)
  end.

(** [row.c ? map.get(String(row.c).trim()) : null] *)
Definition resolve (m : gmap string uuid) (v : value) : option uuid :=
  if truthy v then m !! Js.trim (ToString P v) else None.

(** [row.pedido ? String(row.pedido).trim() : null], and [None] as well
    when the trimmed text is empty ([if (!sourceKey) continue]). *)
Definition source_key (row : Row) : option string :=
  let pedido := row_get row "pedido" in
  if truthy pedido then
    let key := Js.trim (ToString P pedido) in
    if bool_decide (key = EmptyString) then None else Some key
  else None.

(** The values of the header insert; [None] when the statement is
    refused (no emission date, a number that does not fit). *)
Definition sale_values (maps : LegacyMaps) (key : string) (row : Row)
  : option SaleValues :=
  emission ← normalizeDate P (row_get row "emissao");
  subtotal ← numeric_param P 14 2 (normalizeNumber P (row_get row "sub_total"));
  discount ← numeric_param P 14 2 (normalizeNumber P (row_get row "desconto"));
  total_gera ← numeric_param P 14 2 (normalizeNumber P (row_get row "total_gera"));
  Some {| sv_emission := pg_date P emission; sv_key := key;
          sv_seller := resolve (sellerMap maps) (row_get row "cod_vend");
          sv_customer := resolve (customerMap maps) (row_get row "cod_cli");
          sv_payment_term :=
            resolve (paymentTermMap maps) (row_get row "cod_fpg");
          sv_subtotal := subtotal; sv_discount := discount;
          sv_total := total_gera |}.

(** Body of the loops over stg_vendas and stg_pedidos, which differ in
    the source label, the status and the wording of a mismatch. *)
Definition migrate_row (k : LegacyKind) (maps : LegacyMaps)
    (acc : SaleSummary) (row : Row) : M SaleSummary :=
  match source_key row with
  | None => ret acc
  | Some sourceKey =>
      let* saleId := upsert_sale k (sale_values maps sourceKey row) in
      delete_sale_items saleId >>
      let* acc' :=
        foldM (migrate_item k (productMap maps) saleId sourceKey)
          (extractSaleItems P row) acc in
      ret (count_header k acc')
  end.

Definition migrateSales (overwrite : bool) : M SaleSummary :=
  (if overwrite then delete_migrated_sales else ret tt) >>
  let* sellers := buildLegacyMap "seller" in
  let* customers := buildLegacyMap "customer" in
  let* paymentTerms := buildLegacyMap "payment_term" in
  let* products := buildLegacyMap "product" in
  let maps := {| sellerMap := sellers; customerMap := customers;
                 paymentTermMap := paymentTerms; productMap := products |} in
  let* sales := select_staging "stg_vendas" in
  let* acc := foldM (migrate_row Vendas maps) sales empty_summary in
  let* orders := select_staging "stg_pedidos" in
  foldM (migrate_row Pedidos maps) orders acc.

(** *** Reconciliation report *)

Definition quote : string := String (ascii_of_nat 34) EmptyString.

(** Every quote character doubled, as the global replace of the report
    does to a mismatch text. *)
Fixpoint escape_quotes (s : string) : string :=
  match s with
  | String c r =>
      if Ascii.eqb c (ascii_of_nat 34)
      then String c (String c (escape_quotes r))
      else String c (escape_quotes r)
  | EmptyString => EmptyString
  end.

(** [select count( * ) from ...] on the core tables *)
Definition count_core (t : string) (f : Core -> nat) : M nat :=
  query (SSelect t) >> gets (fun w => f (core w)).

Definition sales_of (src : string) (c : Core) : list Sale :=
  filter (fun r => sa_source r = Some src) (sale c).

Definition items_of (src : string) (c : Core) : list SaleItemRow :=
  filter (fun i => item_of (map sa_id (sales_of src c)) i = true) (sale_item c).

Definition createReconciliationReport (sessionDir : path)
    (master : MasterSummary) (saleSummary : SaleSummary)
    (payments stocks : nat) : M path :=
  let* t := now in
  let reportName := "reconciliation_" +:+ pretty t +:+ ".csv" in
  let* targetProducts := count_core "product" (fun c => length (product c)) in
  let* targetCustomers := count_core "customer" (fun c => length (customer c)) in
  let* targetSales := count_core "sale" (fun c => length (sales_of "VENDAS" c)) in
  let* targetSaleItems :=
    count_core "sale_item" (fun c => length (items_of "VENDAS" c)) in
  let* targetOrders := count_core "sale" (fun c => length (sales_of "PEDIDOS" c)) in
  let* targetOrderItems :=
    count_core "sale_item" (fun c => length (items_of "PEDIDOS" c)) in
  let* targetPayments :=
    count_core "customer_payment" (fun c => length (customer_payment c)) in
  let* targetStocks :=
    count_core "stock_movement" (fun c => length (stock_movement c)) in
  let line (metric : string) (legacy imported : nat) :=
    metric +:+ "," +:+ pretty legacy +:+ "," +:+ pretty imported +:+ "," in
  let lines :=
    [ "metric,legacy_value,imported_value,notes";
      "product_groups," +:+ pretty (productGroups master) +:+ ",,";
      line "products" (products master) targetProducts;
      line "customers" (customers master) targetCustomers;
      line "sales" (sales saleSummary) targetSales;
      line "sale_items" (saleItems saleSummary) targetSaleItems;
      line "orders" (orders saleSummary) targetOrders;
      line "order_items" (orderItems saleSummary) targetOrderItems;
      line "customer_payments" payments targetPayments;
      line "stock_movements" stocks targetStocks ]
    ++ map (fun mismatch =>
              "mismatch,,," +:+ quote +:+ escape_quotes mismatch +:+ quote)
         (mismatches saleSummary) in
  fs_op "cannot write the report"
    (fun es => es' ← Fs.writeFile sessionDir (EText reportName lines) es;
               Some (tt, es')) >>
  ret (sessionDir ++ [reportName]).

(** *** Schema

    Every table is created if absent before it is first used, so the
    model keeps tables as always present; the statements are recorded. *)
Definition ensureStagingTables : M unit :=
  forM (fun config =>
          query (SCreateTable (table config)) >>
          forM (fun _ => query (SAlterTable (table config))) (columns config))
       STAGING_CONFIG.

Definition ensureCoreTables : M unit :=
  forM (fun t => query (SCreateTable t))
    ["product_group"; "product"; "customer"; "seller"; "payment_term"; "sale";
     "sale_item"; "customer_payment"; "stock_movement"].

Definition ensureLegacyImportTables : M unit :=
  query (SCreateTable "system_legacy_import") >>
  query (SCreateTable "system_legacy_import_log") >>
  query (SCreateIndex "system_legacy_import") >>
  query (SCreateIndex "system_legacy_import_log").

Definition ensureSchema : M unit :=
  query SCreateExtension >>
  ensureCoreTables >> ensureLegacyImportTables >> ensureStagingTables.

(** *** One import run *)

Definition check_required (filesMap : gmap string path) : M unit :=
  forM (fun required =>
          match filesMap !! required with
          | None =>
              throw ("Required legacy file " +:+ required
                       +:+ " missing after extraction")
          | Some _ => ret tt
          end)
       REQUIRED_FILES.

(** [for (const config of STAGING_CONFIG)]: each source is announced in
    the log and loaded, and its row count goes into the summary. *)
Definition load_all (importId : uuid) (filesMap : gmap string path)
  : M (gmap string nat) :=
  foldM (fun (acc : gmap string nat) config =>
           appendLog importId info
             ("Loading " +:+ file config +:+ " into staging table "
                +:+ table config) >>
           let* count := loadDbfIntoStaging P importId config filesMap in
           ret (<[table config := count]> acc))
    STAGING_CONFIG ∅.

Definition runImport (job : LegacyImportJob) : M unit :=
  let* t := now in
  updateImportStatus (job_id job) running [started_at (Some t)] >>
  appendLog (job_id job) info "Preparing legacy files for import" >>
  let* filesMap :=
    fs_steps "cannot read the session directory"
      (prepareLegacyFiles (sessionDir job))
      (prepareLegacyFiles_leaves (sessionDir job)) in
  check_required filesMap >>
  ensureSchema >>
  (if overwrite job then
     appendLog (job_id job) info "Clearing existing data before import" >>
     truncateCoreTables
   else ret tt) >>
  truncateStagingTables >>
  let* stagingSummary := load_all (job_id job) filesMap in
  appendLog (job_id job) info
    "Migrating master data (products, customers, sellers, payment terms)" >>
  let* masterSummary := migrateMasterData P (overwrite job) in
  appendLog (job_id job) info "Migrating sales and sale items" >>
  let* salesSummary := migrateSales (overwrite job) in
  appendLog (job_id job) info "Migrating customer payments" >>
  let* paymentsCount := migrateCustomerPayments P in
  appendLog (job_id job) info "Migrating stock movements" >>
  let* stockCount := migrateStockMovements P in
  appendLog (job_id job) info "Generating reconciliation report" >>
  let* reportPath :=
    createReconciliationReport (sessionDir job) masterSummary salesSummary
      paymentsCount stockCount in
  let overallSummary :=
    {| os_staging := stagingSummary; os_master := masterSummary;
       os_sales := salesSummary; os_customerPayments := paymentsCount;
       os_stockMovements := stockCount; os_reportPath := reportPath |} in
  let* t' := now in
  updateImportStatus (job_id job) completed
    [finished_at (Some t'); summary (Some overallSummary);
     report_path (Some reportPath); error_message None] >>
  appendLog (job_id job) info "Legacy data import completed successfully".

(** The part of [runImport] between its two status updates (l.713-760),
    with the summary it hands to the second one. *)
Definition run_body (job : LegacyImportJob) : M OverallSummary :=
  appendLog (job_id job) info "Preparing legacy files for import" >>
  let* filesMap :=
    fs_steps "cannot read the session directory"
      (prepareLegacyFiles (sessionDir job))
      (prepareLegacyFiles_leaves (sessionDir job)) in
  check_required filesMap >>
  ensureSchema >>
  (if overwrite job then
     appendLog (job_id job) info "Clearing existing data before import" >>
     truncateCoreTables
   else ret tt) >>
  truncateStagingTables >>
  let* stagingSummary := load_all (job_id job) filesMap in
  appendLog (job_id job) info
    "Migrating master data (products, customers, sellers, payment terms)" >>
  let* masterSummary := migrateMasterData P (overwrite job) in
  appendLog (job_id job) info "Migrating sales and sale items" >>
  let* salesSummary := migrateSales (overwrite job) in
  appendLog (job_id job) info "Migrating customer payments" >>
  let* paymentsCount := migrateCustomerPayments P in
  appendLog (job_id job) info "Migrating stock movements" >>
  let* stockCount := migrateStockMovements P in
  appendLog (job_id job) info "Generating reconciliation report" >>
  let* reportPath :=
    createReconciliationReport (sessionDir job) masterSummary salesSummary
      paymentsCount stockCount in
  ret {| os_staging := stagingSummary; os_master := masterSummary;
         os_sales := salesSummary; os_customerPayments := paymentsCount;
         os_stockMovements := stockCount; os_reportPath := reportPath |}.

(** The second status update of [runImport] (l.762-767). *)
Definition run_completed (job : LegacyImportJob) (t : Z)
    (overallSummary : OverallSummary) : M unit :=
  updateImportStatus (job_id job) completed
    [finished_at (Some t); summary (Some overallSummary);
     report_path (Some (os_reportPath overallSummary)); error_message None].

(** *** The queue *)

(** [try { await runImport(job) } catch (error) { ... }] *)
Definition process_job (job : LegacyImportJob) : M unit :=
  try_catch (runImport job)
    (fun message =>
       appendLog (job_id job) error message >>
       let* t := now in
       updateImportStatus (job_id job) failed
         [finished_at (Some t); error_message (Some message)]).

(** The loop of [processQueue] as one computation: its statements one
    after the other, with nothing else going on between its awaits.
    The server below takes the same statements await by await, among
    the other calls in flight.

    One turn of the loop: [const job = jobQueue.shift()] and the
    [try] statement. *)
Definition shift_and_run (job : LegacyImportJob) (rest : list LegacyImportJob)
  : M unit :=
  modify (set_jobQueue rest) >> process_job job.

(** [while (jobQueue.length) { const job = jobQueue.shift(); ... }]; one
    unit of fuel per job waiting at the start is enough, as a run does
    not add to the queue. *)
Fixpoint drain (fuel : nat) : M unit :=
  match fuel with
  | 0 => ret tt
  | S fuel' =>
      let* waiting := gets jobQueue in
      match waiting with
      | [] => ret tt
      | job :: rest => shift_and_run job rest >> drain fuel'
      end
  end.

Definition processQueue : M unit :=
  let* busy := gets processing in
  if busy then ret tt
  else
    modify (set_processing true) >>
    let* waiting := gets jobQueue in
    drain (length waiting) >>
    modify (set_processing false).

Definition job_of_row (r : ImportRow) : LegacyImportJob :=
  {| job_id := imp_id r; sessionId := imp_session_id r;
     sessionDir := imp_session_dir r; overwrite := imp_overwrite r;
     userId := imp_created_by r |}.

(** [order by created_at]; rows created at the same time stay in the
    order of the table. *)
Fixpoint insert_by_created_at (r : ImportRow) (l : list ImportRow)
  : list ImportRow :=
  match l with
  | [] => [r]
  | x :: l' =>
      if (imp_created_at r <=? imp_created_at x)%Z then r :: l
      else x :: insert_by_created_at r l'
  end.

Definition order_by_created_at (l : list ImportRow) : list ImportRow :=
  fold_right insert_by_created_at [] l.

Definition is_status (st : ImportStatus) (r : ImportRow) : bool :=
  match imp_status r, st with
  | queued, queued | running, running | completed, completed
  | failed, failed => true
  | _, _ => false
  end.

(** [update system_legacy_import set status = 'queued', started_at = null
    where status = 'running'] *)
Definition requeue_running : M unit :=
  query (SUpdate "system_legacy_import") >>
  modify (fun w =>
    set_history (history w ++ status_changes true (is_status running) queued
                                (imports w))
      (set_imports
         (update_where (is_status running) queued [started_at None]
            (imports w)) w)).

(** [select id, session_id, session_dir, overwrite, created_by from
    system_legacy_import where status = 'queued' order by created_at] *)
Definition select_queued : M (list ImportRow) :=
  query (SSelect "system_legacy_import") >>
  gets (fun w =>
    order_by_created_at
      (filter (fun r => is_status queued r = true) (imports w))).

(** [for (const row of rows) jobQueue.push({...})] *)
Definition push_rows (rows : list ImportRow) : M unit :=
  modify (fun w => set_jobQueue (jobQueue w ++ map job_of_row rows) w).

(** The statements of [initializeLegacyImportWorker] from
    [initialized = true] to the end of the [for] loop that fills the
    queue, one after the other with nothing else in between. *)
Definition recover_jobs : M unit :=
  modify (set_initialized true) >>
  ensureSchema >>
  requeue_running >>
  let* rows := select_queued in
  push_rows rows.

(** The handler of POST /import/legacy (routes/admin-legacy-import.ts)
    creates the job: [insert into system_legacy_import ... values ($1, $2,
    $3, 'queued', $4) returning id]; [logAudit] and [queueLegacyImport]
    follow.  The column session_id is [unique]. *)
Definition insert_import (session : string) (dir : path) (ov : bool)
    (user : uuid) : M uuid :=
  query (SInsert "system_legacy_import") >>
  let* taken :=
    gets (fun w => bool_decide (session ∈ map imp_session_id (imports w))) in
  (if taken : bool
   then throw "duplicate key value violates unique constraint"
   else ret tt) >>
  let* importId := fresh_uuid in
  modify (fun w =>
    set_imports
      (imports w ++
         [ {| imp_id := importId; imp_session_id := session;
              imp_session_dir := dir; imp_overwrite := ov;
              imp_status := queued; imp_created_at := clock w;
              imp_started_at := None; imp_finished_at := None;
              imp_created_by := user; imp_report_path := None;
              imp_summary := None; imp_error_message := None |} ]) w) >>
  ret importId.

Definition requested_job (importId : uuid) (session : string) (dir : path)
    (ov : bool) (user : uuid) : LegacyImportJob :=
  {| job_id := importId; sessionId := session; sessionDir := dir;
     overwrite := ov; userId := user |}.

(** [logAudit] (utils/audit.ts): one insert into audit_log. *)
Definition logAudit : M unit := query (SInsert "audit_log").

End Pipeline.

(** ** Status and report of a session *)

Record LegacyImportStatusLog := {
  sl_createdAt : Z;
  sl_level : LogLevel;
  sl_message : string;
}.

Record LegacyImportStatus := {
  st_status : ImportStatus;
  st_overwrite : bool;
  st_createdAt : Z;
  st_startedAt : option Z;
  st_finishedAt : option Z;
  st_summary : option OverallSummary;
  st_error : option string;
  st_reportAvailable : bool;
  st_logs : list LegacyImportStatusLog;
}.

(** [order by id] on the log; ids are distinct (the primary key). *)
Fixpoint insert_by_id (l : LogRow) (ls : list LogRow) : list LogRow :=
  match ls with
  | [] => [l]
  | x :: ls' =>
      if (log_id l <=? log_id x)%nat then l :: ls
      else x :: insert_by_id l ls'
  end.

Definition order_by_id (ls : list LogRow) : list LogRow :=
  fold_right insert_by_id [] ls.

(** One line of the log as the status shows it. *)
Definition status_log (l : LogRow) : LegacyImportStatusLog :=
  {| sl_createdAt := log_created_at l; sl_level := log_level l;
     sl_message := log_message l |}.

(** [select ... from system_legacy_import where session_id = $1] *)
Definition rows_of_session (sessionId : string) (w : World) : list ImportRow :=
  filter (fun r => imp_session_id r = sessionId) (imports w).

(** The column summary is jsonb and comes back as the object that was
    stored, so it is passed on as it is; [Boolean(record.report_path)]
    is true for every path that is not null, as the text of a path is
    not empty. *)
Definition getLegacyImportStatus (sessionId : string)
  : M (option LegacyImportStatus) :=
  query (SSelect "system_legacy_import") >>
  let* rows := gets (rows_of_session sessionId) in
  match rows with
  | [] => ret None
  | record :: _ =>
      query (SSelect "system_legacy_import_log") >>
      let* logRows :=
        gets (fun w =>
          order_by_id
            (filter (fun l => log_import_id l = imp_id record)
               (import_log w))) in
      ret (Some
             {| st_status := imp_status record;
                st_overwrite := imp_overwrite record;
                st_createdAt := imp_created_at record;
                st_startedAt := imp_started_at record;
                st_finishedAt := imp_finished_at record;
                st_summary := imp_summary record;
                st_error := imp_error_message record;
                st_reportAvailable :=
                  match imp_report_path record with
                  | Some _ => true
                  | None => false
                  end;
                st_logs := map status_log logRows |})
  end.

(** The path of the report and the name it is sent under. *)
Definition getLegacyImportReport (sessionId : string)
  : M (option (path * string)) :=
  query (SSelect "system_legacy_import") >>
  let* rows := gets (rows_of_session sessionId) in
  match rows with
  | [] => ret None
  | record :: _ =>
      match imp_report_path record with
      | None => ret None
      | Some p => ret (Some (p, Fs.basename p))
      end
  end.

(** ** The upload of a request (routes/admin-legacy-import.ts)

    Names are texts of code units below 256, as everywhere here; paths
    are those of POSIX. *)

Definition REQUIRED_DBF : list string :=
  ["PRODUTO.DBF"; "GRUPO.DBF"; "CLIENTES.DBF"; "VENDEDOR.DBF"; "VENDAS.DBF"].

Definition allowedExtensions : list string := [".dbf"; ".dbt"; ".zip"].

Fixpoint drop_slashes (s : string) : string :=
  match s with
  | String c r => if Ascii.eqb c "/" then drop_slashes r else s
  | EmptyString => EmptyString
  end.

Fixpoint until_slash (s : string) : string :=
  match s with
  | String c r =>
      if Ascii.eqb c "/" then EmptyString else String c (until_slash r)
  | EmptyString => EmptyString
  end.

(** [path.basename] of a text: what stands between the last slash and
    the end, slashes at the end left aside. *)
Definition basename_of (p : string) : string :=
  Js.str_rev (until_slash (drop_slashes (Js.str_rev p))).

(** The characters of the class [a-zA-Z0-9._-]. *)
Definition is_safe (c : ascii) : bool :=
  let n := nat_of_ascii c in
  ((97 <=? n) && (n <=? 122) || (65 <=? n) && (n <=? 90)
   || (48 <=? n) && (n <=? 57) || (n =? 46) || (n =? 95) || (n =? 45))%nat.

Definition sanitizeLegacyFilename (filename : string) : M string :=
  let base := basename_of filename in
  let safe := Js.map_string (fun c => if is_safe c then c else "_"%char) base in
  if bool_decide (safe = EmptyString) then throw "invalid filename"
  else ret safe.

(** What the buffer of an uploaded file holds. *)
Inductive Buffer :=
  | BDbf (records : list DbfRecord)
  | BZip (archive : list entry)
  | BText (lines : list string).

Record UploadedFile := {
  originalname : string;
  buffer : Buffer;
}.

Definition file_entry (name : string) (b : Buffer) : entry :=
  match b with
  | BDbf records => EDbf name records
  | BZip archive => EZip name archive
  | BText lines => EText name lines
  end.

(** [s.endsWith(suffix)] *)
Definition ends_with (s suffix : string) : bool :=
  bool_decide
    (list_ascii_of_string suffix `suffix_of` list_ascii_of_string s).

(** [array.join(sep)] *)
Fixpoint join (sep : string) (l : list string) : string :=
  match l with
  | [] => EmptyString
  | [x] => x
  | x :: r => x +:+ sep +:+ join sep r
  end.

(** [fsp.rm(dir, { recursive: true, force: true }).catch(() => {})] *)
Definition remove_tree (dir : path) : M unit :=
  modify (fun w =>
    set_fs
      (default (fs w)
         (Fs.modify_dir false
            (fun ch => Some (Fs.remove_entry (Fs.basename dir) ch))
            (Fs.dirname dir) (fs w)))
      w).

(** One turn of the loop over the uploaded files.  The extension is
    that of the base name; a name that passes the test of the extension
    is neither [.] nor [..], so that the target is a file of the session
    directory. *)
Definition store_file (sessionDir : path) (storedFiles : list string)
    (file : UploadedFile) : M (list string) :=
  let ext :=
    Js.toLowerCase (Fs.extname (basename_of (originalname file))) in
  if bool_decide (ext ∈ allowedExtensions) then
    let* safeName := sanitizeLegacyFilename (originalname file) in
    fs_op "cannot write the file"
      (fun es =>
         es' ← Fs.writeFile sessionDir (file_entry safeName (buffer file)) es;
         Some (tt, es')) >>
    ret (storedFiles ++ [safeName])
  else throw ("unsupported file type: " +:+ originalname file).

(** The loop and its [catch], which removes the session directory and
    throws the error again. *)
Definition store_files (sessionDir : path) (files : list UploadedFile)
  : M (list string) :=
  try_catch (foldM (store_file sessionDir) files [])
    (fun message => remove_tree sessionDir >> throw message).

Definition hasArchive (storedFiles : list string) : bool :=
  existsb (fun name => ends_with (Js.toUpperCase name) ".ZIP") storedFiles.

Definition missing (storedFiles : list string) : list string :=
  filter (fun required => required ∉ map Js.toUpperCase storedFiles)
    REQUIRED_DBF.

(** The check of the stored names before the import is requested. *)
Definition check_upload (sessionDir : path) (storedFiles : list string)
  : M unit :=
  if hasArchive storedFiles then ret tt
  else
    match missing storedFiles with
    | [] => ret tt
    | names =>
        remove_tree sessionDir >>
        throw ("missing required legacy files: " +:+ join ", " names)
    end.

(** The handler of POST /import/legacy from the test of [files.length]
    to the check of the stored names; [importRoot] and the session id
    are given. *)
Definition upload_files (importRoot : path) (session : string)
    (files : list UploadedFile) : M (list string) :=
  let sessionDir := importRoot ++ [session] in
  (match files with
   | [] => throw "at least one file is required"
   | _ => ret tt
   end) >>
  fs_op "cannot create the import directory"
    (fun es => es' ← Fs.mkdir_p importRoot es; Some (tt, es')) >>
  fs_op "cannot create the session directory"
    (fun es => es' ← Fs.mkdir_p sessionDir es; Some (tt, es')) >>
  let* storedFiles := store_files sessionDir files in
  check_upload sessionDir storedFiles >>
  ret storedFiles.

(** ** The server: calls in flight

    [initializeLegacyImportWorker], the handler of a request and
    [processQueue] are async functions on one thread.  A call runs to
    its next [await] and goes on when the awaited statement has been
    answered; the calls in flight go on in any order, and each statement
    commits on its own ([pool.query], db.ts).  [void f()] starts a call
    and does not wait for it.

    The state of the server is the world together with the place each
    call in flight stands at.  A step is the answer to one await: the
    statement takes effect, and the call runs on to its next await.
    Where the code that follows an await reads or writes the module
    variables, the statement and that code are two steps.  The
    statements of a run between its two status updates (l.713-760)
    touch neither the import table nor the module variables and are one
    step, and so are the schema statements of the startup and the file
    operations of a handler before its insert. *)

(** Where the call [void initializeLegacyImportWorker()] made when the
    route module is loaded (routes/admin-legacy-import.ts, l.199)
    stands. *)
Inductive StartupPoint :=
  | Unloaded
  | Migrating   (* await ensureSchema() *)
  | Requeueing  (* await query(update ... where status = 'running') *)
  | Selecting   (* await query(select ... where status = 'queued') *)
  | Filling (rows : list ImportRow)  (* the rows are there; the for loop is next *)
  | Started.

(** Where the call of [processQueue] that set [processing] stands, with
    the job it holds. *)
Inductive LoopPoint :=
  | Starting (job : LegacyImportJob) (t : Z)
      (* await updateImportStatus(job.id, 'running', ...) *)
  | Importing (job : LegacyImportJob)
      (* l.713-760 *)
  | Completing (job : LegacyImportJob) (overallSummary : OverallSummary) (t : Z)
      (* await updateImportStatus(job.id, 'completed', ...) *)
  | Closing (job : LegacyImportJob)
      (* await appendLog(..., 'Legacy data import completed successfully') *)
  | Catching (job : LegacyImportJob) (message : string)
      (* await appendLog(job.id, 'error', message) *)
  | Failing (job : LegacyImportJob) (message : string) (t : Z)
      (* await updateImportStatus(job.id, 'failed', ...) *)
  | Turning.
      (* the last statement of the turn is answered; the while test is next *)

(** Where the handler of a request stands after its insert. *)
Inductive HandlerPoint :=
  | Auditing (job : LegacyImportJob)   (* await logAudit(...) *)
  | Queueing (job : LegacyImportJob).  (* await queueLegacyImport(...) is next *)

Record Server := {
  world : World;
  startup : StartupPoint;
  loop : option LoopPoint;
  handlers : list HandlerPoint;
}.

Definition in_world (w : World) (s : Server) : Server :=
  {| world := w; startup := startup s; loop := loop s;
     handlers := handlers s |}.

Definition at_startup (p : StartupPoint) (s : Server) : Server :=
  {| world := world s; startup := p; loop := loop s;
     handlers := handlers s |}.

Definition at_loop (p : option LoopPoint) (s : Server) : Server :=
  {| world := world s; startup := startup s; loop := p;
     handlers := handlers s |}.

Definition with_handlers (hs : list HandlerPoint) (s : Server) : Server :=
  {| world := world s; startup := startup s; loop := loop s;
     handlers := hs |}.

(** A process that has just been started on the database and files of
    [w]: no module is loaded yet. *)
Definition fresh (w : World) : Server :=
  {| world := w; startup := Unloaded; loop := None; handlers := [] |}.

(** What comes in from outside. *)
Inductive Event :=
  | Boot
      (* the route module is loaded *)
  | Startup
      (* the await of the startup call is answered *)
  | Upload (importRoot : path) (session : string) (files : list UploadedFile)
      (* a handler stores the files of its request *)
  | Request (session : string) (dir : path) (ov : bool) (user : uuid)
      (* the insert of a handler reaches the database *)
  | Handler (n : nat)
      (* the await of the n-th open handler is answered *)
  | Loop.
      (* the await of the loop is answered *)

Section Server.

Context (P : Platform).

(** The [while] statement of [processQueue] from its test to the next
    await: with a job waiting, [jobQueue.shift()] and the call of
    [runImport], which reads the clock and sends the first update;
    without, [processing = false] and the call ends. *)
Definition next_turn (s : Server) : Server :=
  match jobQueue (world s) with
  | [] => at_loop None (in_world (set_processing false (world s)) s)
  | job :: rest =>
      let w := set_jobQueue rest (world s) in
      at_loop (Some (Starting job (clock w)))
        (in_world (set_clock (clock w + 1)%Z w) s)
  end.

(** [processQueue()] as far as its first await. *)
Definition processQueue_called (s : Server) : Server :=
  if processing (world s) then s
  else next_turn (in_world (set_processing true (world s)) s).

(** [jobQueue.push(job); void processQueue()] *)
Definition queueLegacyImport (job : LegacyImportJob) (s : Server) : Server :=
  processQueue_called
    (in_world (set_jobQueue (jobQueue (world s) ++ [job]) (world s)) s).

(** [initializeLegacyImportWorker()] as far as its first await. *)
Definition initializeLegacyImportWorker (s : Server) : Server :=
  if initialized (world s) then s
  else at_startup Migrating (in_world (set_initialized true (world s)) s).

(** The startup call goes on. *)
Definition startup_step (s : Server) : option Server :=
  match startup s with
  | Unloaded | Started => None
  | Migrating =>
      Some (at_startup Requeueing
              (in_world (final (ensureSchema (world s))) s))
  | Requeueing =>
      Some (at_startup Selecting
              (in_world (final (requeue_running (world s))) s))
  | Selecting =>
      let r := select_queued (world s) in
      Some (at_startup (Filling (answer [] r)) (in_world (final r) s))
  | Filling rows =>
      let s' := at_startup Started
                  (in_world (final (push_rows rows (world s))) s) in
      Some (match jobQueue (world s') with
            | [] => s'
            | _ :: _ => processQueue_called s'
            end)
  end.

(** The loop goes on. *)
Definition loop_step (s : Server) : option Server :=
  match loop s with
  | None => None
  | Some (Starting job t) =>
      Some (at_loop (Some (Importing job))
              (in_world
                 (final (updateImportStatus (job_id job) running
                           [started_at (Some t)] (world s))) s))
  | Some (Importing job) =>
      Some match run_body P job (world s) with
           | Ok overallSummary w =>
               at_loop (Some (Completing job overallSummary (clock w)))
                 (in_world (set_clock (clock w + 1)%Z w) s)
           | Throw message w =>
               at_loop (Some (Catching job message)) (in_world w s)
           end
  | Some (Completing job overallSummary t) =>
      Some (at_loop (Some (Closing job))
              (in_world (final (run_completed job t overallSummary (world s)))
                 s))
  | Some (Closing job) =>
      Some (at_loop (Some Turning)
              (in_world
                 (final (appendLog (job_id job) info
                           "Legacy data import completed successfully"
                           (world s))) s))
  | Some (Catching job message) =>
      let w := final (appendLog (job_id job) error message (world s)) in
      Some (at_loop (Some (Failing job message (clock w)))
              (in_world (set_clock (clock w + 1)%Z w) s))
  | Some (Failing job message t) =>
      Some (at_loop (Some Turning)
              (in_world
                 (final (updateImportStatus (job_id job) failed
                           [finished_at (Some t);
                            error_message (Some message)] (world s))) s))
  | Some Turning => Some (next_turn s)
  end.

(** A handler stores the files of its request (l.98-135); when they are
    refused it removes them and ends. *)
Definition upload_step (importRoot : path) (session : string)
    (files : list UploadedFile) (s : Server) : option Server :=
  match startup s with
  | Unloaded => None
  | _ =>
      Some (in_world (final (upload_files importRoot session files (world s)))
              s)
  end.

(** The insert of a handler reaches the database; a refused insert ends
    the handler. *)
Definition request_step (session : string) (dir : path) (ov : bool)
    (user : uuid) (s : Server) : option Server :=
  match startup s with
  | Unloaded => None
  | _ =>
      Some match insert_import session dir ov user (world s) with
           | Ok importId w =>
               with_handlers
                 (handlers s
                    ++ [Auditing (requested_job importId session dir ov user)])
                 (in_world w s)
           | Throw _ w => in_world w s
           end
  end.

(** An open handler goes on: the audit entry is written, or the job is
    queued and the handler answers 202. *)
Definition handler_step (n : nat) (s : Server) : option Server :=
  match handlers s !! n with
  | None => None
  | Some (Auditing job) =>
      Some (with_handlers (<[n := Queueing job]> (handlers s))
              (in_world (final (logAudit (world s))) s))
  | Some (Queueing job) =>
      Some (queueLegacyImport job (with_handlers (delete n (handlers s)) s))
  end.

Definition step (e : Event) (s : Server) : option Server :=
  match e with
  | Boot =>
      match startup s with
      | Unloaded => Some (initializeLegacyImportWorker s)
      | _ => None
      end
  | Startup => startup_step s
  | Upload importRoot session files => upload_step importRoot session files s
  | Request session dir ov user => request_step session dir ov user s
  | Handler n => handler_step n s
  | Loop => loop_step s
  end.

(** The events of a list, one after the other. *)
Fixpoint run (es : list Event) (s : Server) : option Server :=
  match es with
  | [] => Some s
  | e :: es' =>
      match step e s with
      | Some s' => run es' s'
      | None => None
      end
  end.

End Server.

(** ** Notions used to state the properties *)

(** The product-code column of slot [index] holds a non-empty text. *)
Definition slot_filled (row : Row) (index : nat) : bool :=
  match row !! slot_key "cod" index with
  | Some (Some s) => negb (bool_decide (s = EmptyString))
  | _ => false
  end.

(** The slots of a row that carry a product code, in order. *)
Definition filled_slots (row : Row) : list nat :=
  filter (fun i => slot_filled row i = true) (seq 1 7).

(** The number a column text stands for: the first comma read as the
    decimal point; [None] when the text is empty or is not a finite
    number. *)
Definition column_number (c : option (option string)) : option Js.number :=
  match c with
  | Some (Some t) =>
      if bool_decide (t = EmptyString) then None
      else
        let n := Js.StringToNumber (Js.replace_comma t) in
        if Js.isFinite n then Some n else None
  | _ => None
  end.

(** A column that is null, blank or not parseable as a number. *)
Definition column_unusable (c : option (option string)) : Prop :=
  match c with
  | Some (Some t) =>
      Js.trim t = EmptyString ∨ Js.StringToNumber (Js.replace_comma t) = S754_nan
  | _ => True
  end.

(** The item the loop body pushes for a filled slot. *)
Definition slot_item (P : Platform) (row : Row) (index : nat) : SaleItem :=
  {| cod := Js.trim (ToString P (row_get row (slot_key "cod" index)));
     quantity := or_zero (column_number (row !! slot_key "qtde" index));
     price := or_zero (column_number (row !! slot_key "vlr" index));
     total := or_zero (column_number (row !! slot_key "total" index)) |}.

(** [item] is what slot [index] of [row] holds: its code, and the
    numbers of its quantity, unit price and total columns where these
    columns hold a number. *)
Definition slot_matches (row : Row) (index : nat) (item : SaleItem) : Prop :=
  (∃ t, row !! slot_key "cod" index = Some (Some t) ∧ t ≠ EmptyString ∧
        cod item = Js.trim t) ∧
  (∀ v, column_number (row !! slot_key "qtde" index) = Some v →
        quantity item = v) ∧
  (∀ v, column_number (row !! slot_key "vlr" index) = Some v →
        price item = v) ∧
  (∀ v, column_number (row !! slot_key "total" index) = Some v →
        total item = v).

Fixpoint count_char (c : ascii) (s : string) : nat :=
  match s with
  | String x r => (if Ascii.eqb x c then 1 else 0) + count_char c r
  | EmptyString => 0
  end.

(** Strings as lists of code units, and counting in them. *)
Abbreviation L := list_ascii_of_string.

Definition lcount (c : ascii) (l : list ascii) : nat :=
  length (filter (fun x => x = c) l).

(** Letters and signs that occur in numeric literals. *)
Definition literal_char (x : ascii) : bool :=
  existsb (Ascii.eqb x) (L "eE+-xXoObBInfinity").

(** A code unit that no numeric literal contains apart from, possibly,
    the decimal point. *)
Definition foreign (c : ascii) : Prop :=
  Js.is_digit c = false ∧ Js.hex_val c = None ∧ literal_char c = false.

(** A number when it is finite, else null. *)
Definition finite_number (n : Js.number) : option Js.number :=
  if Js.isFinite n then Some n else None.

(** What slot extraction promises for the numbers of an item: they are
    finite, and they are zero where the column is unusable. *)
Definition slot_defaults (row : Row) (index : nat) (item : SaleItem) : Prop :=
  Js.isFinite (quantity item) = true ∧
  Js.isFinite (price item) = true ∧
  Js.isFinite (total item) = true ∧
  (column_unusable (row !! slot_key "qtde" index) → quantity item = Js.zero) ∧
  (column_unusable (row !! slot_key "vlr" index) → price item = Js.zero) ∧
  (column_unusable (row !! slot_key "total" index) → total item = Js.zero).

(** A computation leaves [view] of the world as it found it, whether it
    returns or throws. *)
Definition preserves {A X} (view : World -> X) (m : M A) : Prop :=
  ∀ w, view (final (m w)) = view w.

(** The statements a computation issues all satisfy [ok]. *)
Definition issues {A} (ok : Stmt -> Prop) (m : M A) : Prop :=
  ∀ w, ∃ stmts, trace (final (m w)) = trace w ++ stmts ∧ Forall ok stmts.

(** A view does not look at the field written by [set], or at the table
    written by [put]. *)
Definition ignores {X V} (set : V -> World -> World) (view : World -> X) : Prop :=
  ∀ w v, view (set v w) = view w.

Definition ignores_table {X R} (put : list R -> Core -> Core)
    (view : World -> X) : Prop :=
  ∀ w c v, view (set_core (put v c) w) = view (set_core c w).

(** The core and staging tables of a world. *)
Definition tables (w : World) : Core * gmap string (list Row) :=
  (core w, staging w).

(** A row with legacy code [k] is in the table. *)
Definition present {R} (code : R -> option string) (k : string) (t : list R)
  : Prop :=
  existsb (has_code code k) t = true.

(** A proposed row whose legacy code is [k] whatever id it is given. *)
Definition keyed {R} (code : R -> option string) (x : uuid -> R) (k : string)
  : Prop :=
  ∀ i, code (x i) = Some k.

(** A sale header with this source and source key is in the table. *)
Definition sale_present (k : LegacyKind) (key : string) (t : list Sale) : Prop :=
  existsb (is_sale k key) t = true.

(** The sale table after the header upsert of [v]. *)
Definition sale_step (k : LegacyKind) (v : SaleValues) (next : uuid)
    (t : list Sale) : list Sale :=
  if existsb (is_sale k (sv_key v)) t
  then map (fun r => if is_sale k (sv_key v) r then merge_sale k v r else r) t
  else t ++ [new_sale k next v].

(** The sale table alone. *)
Definition sale_table (w : World) : list Sale := sale (core w).

(** The five reference tables. *)
Definition reference (w : World)
  : list CodedName * list Product * list Customer * list CodedName
    * list CodedName :=
  (product_group (core w), product (core w), customer (core w),
   seller (core w), payment_term (core w)).

(** The legacy codes staged for a reference table: column [c] of the
    staging table [t], where it is not null, trimmed. *)
Definition staged_codes (t c : string) (w : World) : list string :=
  map (fun s => Pg.trim s.1) (rows_with c (staging_rows t w)).

(** Every row of a table carries one of the codes [codes]. *)
Definition coded_from {R} (code : R -> option string) (codes : list string)
    (t : list R) : Prop :=
  ∀ r, r ∈ t → ∃ k, k ∈ codes ∧ code r = Some k.


(** *** Rows under generated ids *)

(** The legacy code and the id of every row of a table. *)
Definition keys {R} (code : R -> option string) (rid : R -> uuid)
    (t : list R) : list (option string * uuid) :=
  map (fun r => (code r, rid r)) t.

(** A payment and a stock movement without the generated id. *)
Definition payment_values (r : CustomerPayment)
  : option uuid * option Z * option pgnum * option pgnum * option pgnum :=
  (cp_customer_id r, cp_payment_date r, cp_document_value r, cp_paid_value r,
   cp_remaining r).

Definition movement_values (r : StockMovement) :=
  (sm_date r, sm_type r, sm_product_id r, sm_quantity r, sm_unit_value r,
   sm_total r, sm_note_number r).

Definition payments (w : World) : list CustomerPayment :=
  customer_payment (core w).

Definition movements (w : World) : list StockMovement :=
  stock_movement (core w).

(** *** The job status machine *)

(** A computation that never throws. *)
Definition succeeds {A} (m : M A) : Prop := ∀ w, returned (m w) = true.

(** A computation does not take back an id it has given out. *)
Definition grows {A} (m : M A) : Prop :=
  ∀ w, (next_uuid w ≤ next_uuid (final (m w)))%nat.

(** The import table, the record of its status changes and the memory
    of the worker. *)
Definition control (w : World)
  : list ImportRow * list StatusChange * list LegacyImportJob * bool * bool :=
  (imports w, history w, jobQueue w, processing w, initialized w).

(** The status changes of the machine: forward along queued, running,
    then completed or failed; back from running to queued in the update
    of the startup recovery only. *)
Definition lawful (e : StatusChange) : bool :=
  match sc_recovery e, sc_from e, sc_to e with
  | false, queued, running
  | false, running, completed
  | false, running, failed
  | true, running, queued => true
  | _, _, _ => false
  end.

Definition change (i : uuid) (from to : ImportStatus) (recovery : bool)
  : StatusChange :=
  {| sc_job := i; sc_from := from; sc_to := to; sc_recovery := recovery |}.

(** A process that has just started on a database: the memory of the
    worker is empty, the ids of the import rows are distinct (the
    primary key) and were given out before. *)
Definition booted (w : World) : Prop :=
  jobQueue w = [] ∧ processing w = false ∧ initialized w = false ∧
  history w = [] ∧
  NoDup (map imp_id (imports w)) ∧
  Forall (fun r => (imp_id r < next_uuid w)%nat) (imports w).

(** How a computation ends, seen through [view]. *)
Definition ends {A X} (view : World -> X) (ok : X -> Prop) (thrown : X -> Prop)
    (r : Result A) : Prop :=
  match r with
  | Ok _ w => ok (view w)
  | Throw _ w => thrown (view w)
  end.

(** What holds between two steps of the worker: the ids of the import
    rows are distinct and were given out before, no job waits twice, a
    waiting job has a row and that row is queued, and every status
    change so far was lawful. *)
Definition sound (w : World) : Prop :=
  NoDup (map imp_id (imports w)) ∧
  Forall (fun r => (imp_id r < next_uuid w)%nat) (imports w) ∧
  NoDup (map job_id (jobQueue w)) ∧
  (∀ j, j ∈ jobQueue w →
        ∃ r, r ∈ imports w ∧ imp_id r = job_id j ∧ imp_status r = queued) ∧
  Forall (fun e => lawful e = true) (history w).


(** *** The file map *)

(** Every key is the upper-cased base name of its path. *)
Definition keyed_by_name (m : gmap string path) : Prop :=
  ∀ k p, m !! k = Some p → k = Js.toUpperCase (Fs.basename p).

(** The file is not taken for an archive by [prepareLegacyFiles]. *)
Definition plain_file (file : path) : Prop :=
  Js.toLowerCase (Fs.extname (Fs.basename file)) ≠ ".zip".

(** *** Lookup by legacy code *)

(** The map [buildLegacyMap] makes of the rows it selects. *)
Definition legacy_map (rows : list (string * uuid)) : gmap string uuid :=
  fold_left
    (fun (m : gmap string uuid) '(code, rid) =>
       if bool_decide (code = EmptyString) then m
       else <[Js.trim code := rid]> m)
    rows ∅.

(** The row refers to a row of the table [t] by its id. *)
Definition refers_to {R} (rid : R -> uuid) (t : list R) (i : option uuid)
  : Prop :=
  ∃ r, r ∈ t ∧ i = Some (rid r).

(** *** The outcome of a job *)

(** The columns of an import row that no update writes. *)
Definition request_of (r : ImportRow)
  : uuid * string * path * bool * Z * uuid :=
  (imp_id r, imp_session_id r, imp_session_dir r, imp_overwrite r,
   imp_created_at r, imp_created_by r).

(** The row of a job that was run to its end: completed with a summary
    and the path of the report in it, or failed with the message of the
    error. *)
Definition finished (r : ImportRow) : Prop :=
  is_Some (imp_started_at r) ∧ is_Some (imp_finished_at r) ∧
  ((imp_status r = completed ∧ imp_error_message r = None ∧
    ∃ s, imp_summary r = Some s ∧ imp_report_path r = Some (os_reportPath s))
   ∨ (imp_status r = failed ∧ is_Some (imp_error_message r))).

(** The two status changes of one turn of the loop. *)
Definition turn (job : LegacyImportJob) (st : ImportStatus)
  : list StatusChange :=
  [ change (job_id job) queued running false;
    change (job_id job) running st false ].

(** The text file [name] with [lines] is at path [p]. *)
Definition text_at (p : path) (name : string) (lines : list string)
    (w : World) : Prop :=
  Fs.lookup p (fs w) = Some (EText name lines).

(** *** Uploaded files *)

(** An entry that is a file. *)
Definition is_file (e : entry) : bool :=
  match e with
  | EDir _ _ => false
  | _ => true
  end.

(** *** Sale items *)

(** Every sale item belongs to a sale that is there. *)
Definition items_refer (w : World) : Prop :=
  Forall (fun r => refers_to sa_id (sale (core w)) (si_sale_id r))
    (sale_item (core w)).

(** What a run of the loop over the staged sales keeps, from the world
    [w0] it started in: the product table, the sale of every item, and
    a product of the lookup table for every item that was not there at
    the start. *)
Definition items_kept (m : gmap string uuid) (w0 u : World) : Prop :=
  product (core u) = product (core w0) ∧
  items_refer u ∧
  Forall (fun r => r ∈ sale_item (core w0) ∨
                   ∃ code p, m !! code = Some p ∧ si_product_id r = Some p)
    (sale_item (core u)).

(** *** Staging tables *)

(** The rows of the staging table of a source are those of its file in
    the file map, one per record in the order of the file; none when
    the file map has no file for the source. *)
Definition staged_from (P : Platform) (config : StagingConfig)
    (files : gmap string path) (es : list entry) (rows : list Row) : Prop :=
  match files !! file config with
  | Some ((_ :: _) as filePath) =>
      ∃ records,
        Fs.open_dbf filePath es = Some records ∧
        rows = map (staging_row P config) records
  | _ => rows = []
  end.

(** *** The import log *)

(** A computation only adds lines to the import log; the lines it adds
    are those of the import [i], and their ids go on from the number of
    lines there were. *)
Definition logs_for {A} (i : uuid) (m : M A) : Prop :=
  ∀ w, ∃ new,
    import_log (final (m w)) = import_log w ++ new ∧
    Forall (fun e => log_import_id e = i) new ∧
    map log_id new = seq (S (length (import_log w))) (length new).

(** The ids of the log lines are those a [bigserial] column gives to
    lines that are only ever inserted: 1, 2, 3, ... in the order of
    writing. *)
Definition log_ordered (w : World) : Prop :=
  map log_id (import_log w) = seq 1 (length (import_log w)).

(** ** The slot layout of a legacy sale row, written out

    A second description of slot extraction, which does not go through
    the loop and its key templates: the seven slots with their column
    names spelled out, and the number a column text stands for, with the
    decimal comma found by its position. *)

Record SlotColumns := {
  code_column : string;
  quantity_column : string;
  price_column : string;
  total_column : string;
}.

Definition legacy_slots : list SlotColumns :=
  [ {| code_column := "cod1"; quantity_column := "qtde1";
       price_column := "vlr1"; total_column := "total1" |};
    {| code_column := "cod2"; quantity_column := "qtde2";
       price_column := "vlr2"; total_column := "total2" |};
    {| code_column := "cod3"; quantity_column := "qtde3";
       price_column := "vlr3"; total_column := "total3" |};
    {| code_column := "cod4"; quantity_column := "qtde4";
       price_column := "vlr4"; total_column := "total4" |};
    {| code_column := "cod5"; quantity_column := "qtde5";
       price_column := "vlr5"; total_column := "total5" |};
    {| code_column := "cod6"; quantity_column := "qtde6";
       price_column := "vlr6"; total_column := "total6" |};
    {| code_column := "cod7"; quantity_column := "qtde7";
       price_column := "vlr7"; total_column := "total7" |} ].

(** Position of the first comma of a text. *)
Fixpoint first_comma (s : string) : option nat :=
  match s with
  | String c r => if Ascii.eqb c "," then Some 0%nat else S <$> first_comma r
  | EmptyString => None
  end.

(** The text with the comma at the first comma position, when there is
    one, read as the decimal point. *)
Definition decimal_text (t : string) : string :=
  match first_comma t with
  | Some n =>
      substring 0 n t +:+ "." +:+ substring (S n) (String.length t - S n) t
  | None => t
  end.

(** The value of a column: the finite number its text stands for, and 0
    for a column that is absent, null, empty or not a finite number. *)
Definition column_value (c : option (option string)) : Js.number :=
  match c with
  | Some (Some t) =>
      if bool_decide (t = EmptyString) then Js.zero
      else
        let n := Js.StringToNumber (decimal_text t) in
        if Js.isFinite n then n else Js.zero
  | _ => Js.zero
  end.

(** The text of a column, empty for an absent or null column. *)
Definition column_text (c : option (option string)) : string :=
  match c with
  | Some (Some t) => t
  | _ => EmptyString
  end.

(** The slots of a row whose product-code column is non-empty. *)
Definition coded_slots (row : Row) : list SlotColumns :=
  filter (fun s => column_text (row !! code_column s) ≠ EmptyString)
         legacy_slots.

(** The line a slot stands for: its code, and the values of its
    quantity, unit-price and total columns. *)
Definition slot_line (row : Row) (s : SlotColumns) : SaleItem :=
  {| cod := Js.trim (column_text (row !! code_column s));
     quantity := column_value (row !! quantity_column s);
     price := column_value (row !! price_column s);
     total := column_value (row !! total_column s) |}.

(** *** The server at rest *)

(** The startup call has ended and no call is in flight: no loop is at
    work, no handler is open and no job waits. *)
Definition idle (s : Server) : Prop :=
  startup s = Started ∧ loop s = None ∧ handlers s = [] ∧
  processing (world s) = false ∧ jobQueue (world s) = [].

(** *** The server once the startup call has ended *)

(** The job the loop holds between its shift from the queue and the
    status update that ends its run. *)
Definition held (p : option LoopPoint) : list LegacyImportJob :=
  match p with
  | Some (Starting job _) | Some (Importing job) | Some (Completing job _ _)
  | Some (Catching job _) | Some (Failing job _ _) => [job]
  | Some (Closing _) | Some Turning | None => []
  end.

(** The status the row of the held job has at a place of the loop. *)
Definition held_status (p : option LoopPoint) : ImportStatus :=
  match p with
  | Some (Starting _ _) => queued
  | _ => running
  end.

(** The job an open handler is about to queue. *)
Definition handler_job (h : HandlerPoint) : LegacyImportJob :=
  match h with
  | Auditing job | Queueing job => job
  end.

(** What holds of the import table between two steps: the ids of the
    rows are distinct and were given out before; no job is among those
    held and those waiting twice; a waiting job has a queued row; a
    held job has a row of status [st]; and every status change so far
    was lawful. *)
Definition tidy (holding : list LegacyImportJob) (st : ImportStatus)
    (waiting : list LegacyImportJob) (w : World) : Prop :=
  NoDup (map imp_id (imports w)) ∧
  Forall (fun r => (imp_id r < next_uuid w)%nat) (imports w) ∧
  NoDup (map job_id (holding ++ waiting)) ∧
  (∀ j, j ∈ waiting →
        ∃ r, r ∈ imports w ∧ imp_id r = job_id j ∧ imp_status r = queued) ∧
  (∀ j, j ∈ holding →
        ∃ r, r ∈ imports w ∧ imp_id r = job_id j ∧ imp_status r = st) ∧
  Forall (fun e => lawful e = true) (history w).

(** The server between two steps once the startup call has ended: the
    job the loop holds has a row, queued before the first update of
    its run and running after it; the jobs in the queue and those the
    open handlers are about to queue wait; and the flag [processing]
    is up exactly while a loop is in flight. *)
Definition steady (s : Server) : Prop :=
  startup s = Started ∧
  tidy (held (loop s)) (held_status (loop s))
    (jobQueue (world s) ++ map handler_job (handlers s)) (world s) ∧
  (processing (world s) = true ↔ is_Some (loop s)).
(** ** A platform and a world for examples

    [Sample.platform] follows the JavaScript runtime and PostgreSQL on the
    values the examples use: numbers with a short exact decimal form,
    ISO dates in UTC, plain decimal texts. *)
Module Sample.

Fixpoint zeros (n : nat) : string :=
  match n with
  | 0 => EmptyString
  | S n' => String "0" (zeros n')
  end.

(** [s] padded with zeros on the left to [width] characters. *)
Definition pad_left (width : nat) (s : string) : string :=
  zeros (width - String.length s) +:+ s.

Definition strip_zeros (s : string) : string :=
  let fix go (l : list ascii) :=
    match l with
    | c :: r => if Ascii.eqb c "0" then go r else l
    | [] => []
    end in
  string_of_list_ascii (rev (go (rev (list_ascii_of_string s)))).

(** The exact decimal form of a finite number; it is the text JavaScript
    gives when that form is also the shortest one that reads back. *)
Definition number_text (x : Js.number) : string :=
  match x with
  | S754_nan => "NaN"
  | S754_infinity s => if s then "-Infinity" else "Infinity"
  | S754_zero _ => "0"
  | S754_finite s m e =>
      let sign := if s then "-" else EmptyString in
      match e with
      | Zneg k =>
          let num := (Zpos m * 5 ^ Zpos k)%Z in
          let den := (10 ^ Zpos k)%Z in
          let frac := strip_zeros (pad_left (Pos.to_nat k) (pretty (num mod den)%Z)) in
          sign +:+ pretty (num / den)%Z
            +:+ (if bool_decide (frac = EmptyString) then EmptyString
                 else "." +:+ frac)
      | _ => sign +:+ pretty (Zpos m * 2 ^ e)%Z
      end
  end.

Definition ms_per_day : Z := 86400000.

(** Days since 1970-01-01 of a civil date, and back. *)
Definition days_from_civil (y m d : Z) : Z :=
  let y := (if m <=? 2 then y - 1 else y)%Z in
  let era := (y / 400)%Z in
  let yoe := (y - era * 400)%Z in
  let doy := ((153 * (if m >? 2 then m - 3 else m + 9) + 2) / 5 + d - 1)%Z in
  let doe := (yoe * 365 + yoe / 4 - yoe / 100 + doy)%Z in
  (era * 146097 + doe - 719468)%Z.

Definition civil_from_days (z : Z) : Z * Z * Z :=
  let z := (z + 719468)%Z in
  let era := (z / 146097)%Z in
  let doe := (z - era * 146097)%Z in
  let yoe := ((doe - doe / 1460 + doe / 36524 - doe / 146096) / 365)%Z in
  let doy := (doe - (365 * yoe + yoe / 4 - yoe / 100))%Z in
  let mp := ((5 * doy + 2) / 153)%Z in
  let d := (doy - (153 * mp + 2) / 5 + 1)%Z in
  let m := (if mp <? 10 then mp + 3 else mp - 9)%Z in
  ((if m <=? 2 then yoe + era * 400 + 1 else yoe + era * 400)%Z, m, d).

Definition two (n : Z) : string := pad_left 2 (pretty n).

Definition iso_text (t : Z) : string :=
  let '(y, m, d) := civil_from_days (t / ms_per_day) in
  let r := (t mod ms_per_day)%Z in
  pad_left 4 (pretty y) +:+ "-" +:+ two m +:+ "-" +:+ two d +:+ "T"
    +:+ two (r / 3600000) +:+ ":" +:+ two (r / 60000 mod 60) +:+ ":"
    +:+ two (r / 1000 mod 60) +:+ "." +:+ pad_left 3 (pretty (r mod 1000)%Z)
    +:+ "Z".

Definition digits_at (s : string) (i n : nat) : option Z :=
  let l := list_ascii_of_string (String.substring i n s) in
  if forallb Js.is_digit l && (length l =? n)%nat
  then Some (Z.of_N (Js.digits_value l)) else None.

(** Reads [YYYY-MM-DD] and [YYYY-MM-DDTHH:MM:SS.mmmZ]; any other text is
    an invalid date here. *)
Definition parse_iso (s : string) : option Z :=
  y ← digits_at s 0 4; m ← digits_at s 5 2; d ← digits_at s 8 2;
  let day := (days_from_civil y m d * ms_per_day)%Z in
  if bool_decide (String.substring 4 1 s = "-" ∧ String.substring 7 1 s = "-")
  then
    if (String.length s =? 10)%nat then Some day
    else if (String.length s =? 24)%nat then
      h ← digits_at s 11 2; mi ← digits_at s 14 2; sec ← digits_at s 17 2;
      ms ← digits_at s 20 3;
      Some (day + h * 3600000 + mi * 60000 + sec * 1000 + ms)%Z
    else None
  else None.

(** Decimal text to numeric(p,s), rounding half away from zero. *)
Definition numeric_in (p s : nat) (txt : string) : option pgnum :=
  let '(neg, body) := Js.strip_sign (list_ascii_of_string (Js.trim txt)) in
  if bool_decide (string_of_list_ascii body = "NaN") then Some PgNaN
  else
    '(m, e) ← Js.parse_unsigned_decimal body;
    let shift := (e + Z.of_nat s)%Z in
    let scaled :=
      match shift with
      | Zneg k => ((2 * Z.of_N m + 10 ^ Zpos k) / (2 * 10 ^ Zpos k))%Z
      | _ => (Z.of_N m * 10 ^ shift)%Z
      end in
    if (scaled <? 10 ^ Z.of_nat p)%Z
    then Some (PgNum (if neg then - scaled else scaled)%Z) else None.

Definition platform : Platform :=
  {| Number_toString := number_text; Date_toString := iso_text;
     Date_toISOString := iso_text; Date_parse := parse_iso;
     pg_numeric := numeric_in; pg_date := fun t => (t / ms_per_day)%Z;
     pg_lower := Js.toLowerCase |}.

(** *** A legacy export and the jobs that import it *)

Definition rec (l : list (string * value)) : DbfRecord := list_to_map l.

Definition num (s : string) : value := VNumber (Js.StringToNumber s).

(** 2026-11-02 *)
Definition day : value := VDate 1793577600000.

Definition vendas : entry :=
  EDbf "VENDAS.DBF"
    [ rec [ ("PEDIDO", VString "100"); ("EMISSAO", day);
            ("COD_VEND", VString "3"); ("COD_CLI", VString "7");
            ("SUB_TOTAL", num "6"); ("DESCONTO", num "0");
            ("TOTAL_GERA", num "6");
            ("COD1", VString "10"); ("QTDE1", num "2"); ("VLR1", num "2.5");
            ("TOTAL1", num "5");
            ("COD3", VString "99"); ("QTDE3", num "1"); ("VLR3", num "1");
            ("TOTAL3", num "1") ] ].

Definition pedidos : entry :=
  EDbf "PEDIDOS.DBF"
    [ rec [ ("PEDIDO", VString "200"); ("EMISSAO", day);
            ("COD_CLI", VString "7");
            ("COD1", VString "77"); ("QTDE1", num "4"); ("VLR1", num "1");
            ("TOTAL1", num "4") ] ].

Definition pagament : entry :=
  EDbf "PAGAMENT.DBF"
    [ rec [ ("COD_CLI", VString "7"); ("VALOR_DOC", num "10");
            ("VLR_PAGO", num "4"); ("RESTANTE", num "6");
            ("PAGAMENTO", day) ] ].

Definition mov_est : entry :=
  EDbf "MOV_EST.DBF"
    [ rec [ ("TIP_MOV", VString "E"); ("DATA", day);
            ("COD_PROD", VString "10"); ("QTDE", num "3");
            ("VALOR", num "2"); ("TOTAL", num "6"); ("NF", VString "55") ] ].

Definition master_files : list entry :=
  [ EDbf "GRUPO.DBF"
      [ rec [ ("COD_GRUP", VString "1"); ("NOME", VString "Bebidas") ] ];
    EDbf "produto.dbf"
      [ rec [ ("COD_PROD", VString "10"); ("NOME_PROD", VString "Agua");
              ("COD_GRUP", VString "1"); ("AVISTA", num "2.5") ] ];
    EDbf "CLIENTES.DBF"
      [ rec [ ("CODIGO", VString "7"); ("NOME", VString "Ana") ] ];
    EDbf "VENDEDOR.DBF"
      [ rec [ ("CODIGO", VString "3"); ("NOME", VString "Rui") ] ] ].

(** A complete upload: loose master files and a zip with the rest. *)
Definition upload : list entry :=
  master_files ++ [ EZip "extra.zip" [ vendas; pedidos; pagament; mov_est ] ].

(** An upload in which VENDAS.DBF is missing. *)
Definition partial_upload : list entry :=
  master_files ++ [ EZip "extra.zip" [ pedidos; pagament; mov_est ] ].

Definition old_group : CodedName :=
  {| cn_id := 900; cn_legacy_code := Some "OLD"; cn_name := "Old group" |}.

Definition import_row (i : uuid) (dir : string) (ov : bool) : ImportRow :=
  {| imp_id := i; imp_session_id := dir; imp_session_dir := ["imports"; dir];
     imp_overwrite := ov; imp_status := queued; imp_created_at := 1793600000000;
     imp_started_at := None; imp_finished_at := None; imp_created_by := 1;
     imp_report_path := None; imp_summary := None; imp_error_message := None |}.

Definition job (i : uuid) (dir : string) (ov : bool) : LegacyImportJob :=
  {| job_id := i; sessionId := dir; sessionDir := ["imports"; dir];
     overwrite := ov; userId := 1 |}.

(** A database that holds one product group from an earlier import, session directories and their queued jobs. *)
Definition world : World :=
  {| core := with_product_group [old_group] empty_core;
     staging := ∅;
     imports := [ import_row 1 "s1" false; import_row 2 "s2" false;
                  import_row 3 "s3" true ];
     import_log := [];
     next_uuid := 1000;
     clock := 1793600000001;
     fs := [ EDir "imports"
               [ EDir "s1" upload; EDir "s2" upload; EDir "s3" partial_upload;
                 EDir "s4" upload ] ];
     jobQueue := [];
     processing := false;
     initialized := true;
     trace := [];
     history := [] |}.

(** The file map and the file system after the session directory [dir]
    is normalized. *)
Definition prepared (dir : string) : gmap string path * list entry :=
  default (∅, []) (prepareLegacyFiles ["imports"; dir] (fs world)).

(** The world after the import of session s1, and after the import of
    session s2 (the same upload) on top of it. *)
Definition after_first : World :=
  final (runImport platform (job 1 "s1" false) world).

Definition after_second : World :=
  final (runImport platform (job 2 "s2" false) after_first).

(** The world after the import of session s1 with the overwrite flag. *)
Definition after_overwrite : World :=
  final (runImport platform (job 1 "s1" true) world).

(** The staged order of the first import, migrated once more on its own
    with empty lookup tables. *)
Definition order_row : Row := hd ∅ (staging_rows "stg_pedidos" after_first).

Definition no_maps : LegacyMaps :=
  {| sellerMap := ∅; customerMap := ∅; paymentTermMap := ∅; productMap := ∅ |}.

Definition order_run : Result SaleSummary :=
  migrate_row platform Pedidos no_maps empty_summary order_row after_first.

Definition order_summary : SaleSummary := answer empty_summary order_run.

(** The payments and the stock movements staged by the first import,
    migrated once more on their own. *)
Abbreviation paid_again := (migrateCustomerPayments platform after_first).

Abbreviation moved_again := (migrateStockMovements platform after_first).

(** The master data and the sales staged by the first import, migrated
    once more on their own. *)
Abbreviation mastered_again := (migrateMasterData platform false after_first).

Abbreviation sold_again := (migrateSales platform false after_first).

Definition staged_sale : Row := hd ∅ (staging_rows "stg_vendas" after_first).

(** A staging table in which the group code 1 comes twice. *)
Definition twice_staged : World :=
  set_staging_rows "stg_grupo"
    [ {[ "cod_grup" := Some "1"; "nome" := Some "Bebidas" ]};
      {[ "cod_grup" := Some " 1"; "nome" := Some "Outras" ]} ]
    world.

(** A directory with two loose files. *)
Definition loose_upload : list entry :=
  [ EDir "up"
      [ EDbf "Grupo.dbf"
          [ rec [ ("COD_GRUP", VString " 1 "); ("NOME", VString "Bebidas") ];
            rec [ ("COD_GRUP", VString "2") ] ];
        EText "leia.txt" [] ] ].

(** The table of groups of that directory, its staging source, and a
    world whose file system is that directory. *)
Definition loose_groups : list DbfRecord :=
  default [] (Fs.open_dbf ["up"; "Grupo.dbf"] loose_upload).

Definition grupo_config : StagingConfig :=
  {| file := "GRUPO.DBF"; table := "stg_grupo";
     columns := [ col "cod_grup" "COD_GRUP"; col "nome" "NOME" ] |}.

Definition loose_world : World := set_fs loose_upload world.

(** A process that starts on a database in which the job of session s1
    was left running by a crash, the job of s2 waits, and the job of s3
    (an upload without VENDAS.DBF) waits as well. *)
Definition crashed_row : ImportRow :=
  {| imp_id := 1; imp_session_id := "s1"; imp_session_dir := ["imports"; "s1"];
     imp_overwrite := false; imp_status := running;
     imp_created_at := 1793600000000; imp_started_at := Some 1793600000100%Z;
     imp_finished_at := None; imp_created_by := 1; imp_report_path := None;
     imp_summary := None; imp_error_message := None |}.

Definition boot : World :=
  {| core := core world; staging := ∅;
     imports := [ crashed_row; import_row 2 "s2" false;
                  import_row 3 "s3" false ];
     import_log := []; next_uuid := 1000; clock := 1793600000001;
     fs := fs world; jobQueue := []; processing := false;
     initialized := false; trace := []; history := [] |}.

(** The startup with nothing else going on: the module is loaded, the
    four awaits of the startup call are answered, then those of the
    loop, five for each of the three jobs. *)
Definition quiet_startup : list Event :=
  Boot :: repeat Startup 4 ++ repeat Loop 15.

(** A request for the new session s4 on its own: the insert, the two
    awaits of the handler, then the five of the loop. *)
Definition quiet_request : list Event :=
  Request "s4" ["imports"; "s4"] false 1 :: repeat (Handler 0) 2
    ++ repeat Loop 5.

(** A process restarted on a database without open jobs. *)
Definition restart : World :=
  {| core := core world; staging := ∅; imports := [];
     import_log := []; next_uuid := 1000; clock := 1793600000001;
     fs := fs world; jobQueue := []; processing := false;
     initialized := false; trace := []; history := [] |}.

(** A request that comes in while the startup call is still at its
    schema statements: its job is queued and started; then the update
    and the select of the startup are answered. *)
Definition early_request : list Event :=
  [ Boot; Startup;
    Request "s4" ["imports"; "s4"] false 1; Handler 0; Handler 0;
    Loop;
    Startup; Startup; Startup ]
  ++ repeat Loop 9.

(** A report written on its own, with one mismatch to tell. *)
Definition counted : SaleSummary :=
  {| sales := 1; saleItems := 1; orders := 1; orderItems := 0;
     mismatches := ["Product 77 not found"] |}.

Definition master_counts : MasterSummary :=
  {| productGroups := 1; products := 1; customers := 1; sellers := 1;
     paymentTerms := 0 |}.

Abbreviation report_run :=
  (createReconciliationReport ["imports"; "s1"] master_counts counted 1 1
     world).

(** The runs of the jobs of s1 (a complete upload) and of s3 (no
    VENDAS.DBF), and a request for a new session s4 that comes in while
    the worker is idle. *)
Abbreviation complete_run := (runImport platform (job 1 "s1" false) world).

Abbreviation failing_run := (runImport platform (job 3 "s3" true) world).


(** Files uploaded for a new session: the five required tables, loose,
    under names as a client may send them; and two of them alone. *)
Definition table_file (name : string) : UploadedFile :=
  {| originalname := name; buffer := BDbf [] |}.

Definition loose_files : list UploadedFile :=
  [ table_file "produto.dbf"; table_file "legacy/GRUPO.DBF";
    table_file "Clientes.dbf"; table_file "vendedor.DBF";
    table_file "vendas.dbf"; table_file "notas 2024.dbt" ].

Definition incomplete_files : list UploadedFile :=
  [ table_file "produto.dbf"; table_file "legacy/GRUPO.DBF" ].

Abbreviation accepted_upload :=
  (upload_files ["imports"] "s9" loose_files world).

Abbreviation refused_upload :=
  (upload_files ["imports"] "s9" incomplete_files world).

(** The world after the recovery of the startup, before the loop. *)
Abbreviation recovered := (final (recover_jobs boot)).


(** A sale row with slots 1, 5 and 7 filled, slot 2 with an empty code,
    slot 3 with a null code, decimal commas, a text that is no number,
    and columns outside the seven slots. *)
Definition sparse_sale : Row :=
  list_to_map
    [ ("cod1", Some " A1 "); ("qtde1", Some "2"); ("vlr1", Some "1,5");
      ("total1", Some "3");
      ("cod2", Some ""); ("qtde2", Some "9"); ("vlr2", Some "9");
      ("total2", Some "81");
      ("cod3", None); ("qtde3", Some "4");
      ("cod5", Some "B2"); ("qtde5", Some "1,5"); ("vlr5", Some "x");
      ("total5", None);
      ("cod7", Some "C3"); ("qtde7", Some "7"); ("vlr7", Some "0,25");
      ("total7", Some "1,75");
      ("cod", Some "Z0"); ("cod0", Some "Z1"); ("cod8", Some "Z2");
      ("qtde", Some "5") ].

(** The sample server at rest on the sample database. *)
Definition served : Server := Build_Server world Started None [].

(** The insert of a request for the new session s4. *)
Abbreviation request_insert :=
  (insert_import "s4" ["imports"; "s4"] false 1 world).

(** File names with letters beyond a-z: [e-acute cole.dbf] and
    [stra sharp-s e.dbf], written with their code units 233 and 223;
    their upper-case forms have the unit 201 and the letters SS. *)
Definition ecole : string := String (ascii_of_nat 233) "cole.dbf".
Definition ECOLE : string := String (ascii_of_nat 201) "COLE.DBF".
Definition strasse : string := "stra" +:+ String (ascii_of_nat 223) "e.dbf".

(** A session directory with an archive that holds such files, beside a
    loose table. *)
Definition named_upload : list entry :=
  [ EDir "up"
      [ EDbf "Produto.dbf" [];
        EZip "old.zip" [ EDbf ecole []; EDir "sub" [ EDbf strasse [] ] ] ] ].

(** Two session directories; in the second an archive was stored under
    the name [...zip], whose stem is [..]. *)
Definition dotted_upload : list entry :=
  [ EDir "imports"
      [ EDir "s1" [ EDbf "GRUPO.DBF" [] ];
        EDir "s2" [ EZip "...zip" [ EDbf "VENDAS.DBF" [] ] ] ] ].

End Sample.
(** * Properties *)

(** ** Slot extraction *)

Section SlotFacts.

Context (P : Platform).

Lemma row_get_truthy (row : Row) (key : string) :
  truthy (row_get row key) =
  match row !! key with
  | Some (Some t) => negb (bool_decide (t = EmptyString))
  | _ => false
  end.
Proof. unfold row_get. destruct (row !! key) as [[t|]|]; reflexivity. Qed.

Lemma normalizeNumber_column (row : Row) (key : string) :
  normalizeNumber P (row_get row key) = column_number (row !! key).
Proof.
  unfold row_get, column_number, normalizeNumber.
  destruct (row !! key) as [[t|]|]; simpl; try reflexivity.
  destruct t; reflexivity.
Qed.

Lemma extract_slot_step (row : Row) (items : list SaleItem) (index : nat) :
  extract_slot P row items index =
  if slot_filled row index then items ++ [slot_item P row index] else items.
Proof.
  unfold extract_slot, slot_filled, slot_item.
  rewrite row_get_truthy, !normalizeNumber_column.
  destruct (row !! slot_key "cod" index) as [[t|]|]; simpl; try reflexivity.
  destruct (bool_decide (t = EmptyString)); reflexivity.
Qed.

Lemma fold_extract_slot (row : Row) (l : list nat) (acc : list SaleItem) :
  fold_left (extract_slot P row) l acc =
  acc ++ map (slot_item P row) (filter (fun i => slot_filled row i = true) l).
Proof.
  revert acc. induction l as [|i l IH]; intros acc; simpl.
  - by rewrite app_nil_r.
  - rewrite IH, extract_slot_step, filter_cons.
    destruct (slot_filled row i) eqn:E.
    + rewrite decide_True by done. simpl. by rewrite <- app_assoc.
    + rewrite decide_False by (by intros ?). done.
Qed.

Lemma extractSaleItems_slots (row : Row) :
  extractSaleItems P row = map (slot_item P row) (filled_slots row).
Proof. unfold extractSaleItems. by rewrite fold_extract_slot. Qed.

Lemma or_zero_finite (c : option (option string)) :
  Js.isFinite (or_zero (column_number c)) = true.
Proof.
  unfold column_number. destruct c as [[t|]|]; try reflexivity.
  destruct (bool_decide (t = EmptyString)); [reflexivity|].
  destruct (Js.isFinite (Js.StringToNumber _)) eqn:E; [exact E | reflexivity].
Qed.

End SlotFacts.

Lemma Forall2_map_same {A B} (R : A -> B -> Prop) (f : A -> B) (l : list A) :
  (∀ x, x ∈ l → R x (f x)) → Forall2 R l (map f l).
Proof.
  induction l as [|x l IH]; intros H; simpl; constructor.
  - apply H. left.
  - apply IH. intros y Hy. apply H. by right.
Qed.

(** The second description agrees with the code's pieces. *)

Lemma substring_all (s : string) : substring 0 (String.length s) s = s.
Proof. induction s as [|c s IH]; simpl; [done | by rewrite IH]. Qed.

Lemma decimal_text_replace (t : string) : decimal_text t = Js.replace_comma t.
Proof.
  unfold decimal_text. induction t as [|c r IH]; [done|]. simpl.
  destruct (Ascii.eqb c ",") eqn:E.
  - simpl. by rewrite Nat.sub_0_r, substring_all.
  - destruct (first_comma r) as [n|]; simpl in *; by rewrite <- IH.
Qed.

Lemma column_value_number (c : option (option string)) :
  column_value c = or_zero (column_number c).
Proof.
  destruct c as [[t|]|]; try reflexivity. simpl.
  rewrite decimal_text_replace.
  destruct (bool_decide (t = EmptyString)); [done|].
  by destruct (Js.isFinite _).
Qed.

Lemma legacy_slots_keys :
  legacy_slots =
  map (fun i => {| code_column := slot_key "cod" i;
                   quantity_column := slot_key "qtde" i;
                   price_column := slot_key "vlr" i;
                   total_column := slot_key "total" i |}) (seq 1 7).
Proof. vm_compute. reflexivity. Qed.

Lemma filter_map_slots {A B} (f : A -> B) (p : B -> Prop) (q : A -> bool)
    `{∀ y, Decision (p y)} (l : list A) :
  (∀ x, p (f x) ↔ q x = true) →
  filter p (map f l) = map f (filter (fun x => q x = true) l).
Proof.
  intros Hpq. induction l as [|x l IH]; [done|]. simpl.
  rewrite !filter_cons, IH.
  destruct (decide (p (f x))) as [Hp|Hp], (decide (q x = true)) as [Hq|Hq];
    try done; exfalso; [apply Hq, Hpq, Hp | apply Hp, Hpq, Hq].
Qed.

Lemma coded_slots_filled (row : Row) :
  coded_slots row =
  map (fun i => {| code_column := slot_key "cod" i;
                   quantity_column := slot_key "qtde" i;
                   price_column := slot_key "vlr" i;
                   total_column := slot_key "total" i |}) (filled_slots row).
Proof.
  unfold coded_slots, filled_slots. rewrite legacy_slots_keys.
  apply filter_map_slots. intros i. unfold slot_filled. simpl.
  destruct (row !! slot_key "cod" i) as [[t|]|]; simpl; try by split.
  case_bool_decide; simpl; by split.
Qed.

Lemma slot_line_item (P : Platform) (row : Row) (i : nat) :
  slot_filled row i = true →
  slot_line row {| code_column := slot_key "cod" i;
                   quantity_column := slot_key "qtde" i;
                   price_column := slot_key "vlr" i;
                   total_column := slot_key "total" i |} = slot_item P row i.
Proof.
  unfold slot_filled, slot_line, slot_item, row_get. simpl. intros Hf.
  rewrite !column_value_number.
  by destruct (row !! slot_key "cod" i) as [[t|]|].
Qed.

(** C5. Slot expansion: the items extracted from a staging row are, in
    order, the lines of the slots among [cod1 .. cod7] whose product-code
    column holds a non-empty text (any subset of the seven); so there is
    exactly one item for each such slot, and the item carries the slot's
    code and, as quantity, unit price and total, the values of the
    columns [qtde], [vlr] and [total] of the same index.  On the sample
    row with slots 1, 5 and 7 filled this gives three items with the
    numbers 2, 1.5, 3, then 1.5, 0, 0, then 7, 0.25, 1.75. *)
Theorem extractSaleItems_slot_expansion (P : Platform) (row : Row) :
  extractSaleItems P row = map (slot_line row) (coded_slots row) ∧
  length (extractSaleItems P row) = length (coded_slots row) ∧
  (∀ s, s ∈ coded_slots row ↔
        s ∈ legacy_slots ∧
        ∃ t, row !! code_column s = Some (Some t) ∧ t ≠ EmptyString) ∧
  extractSaleItems P Sample.sparse_sale =
    [ {| cod := "A1";
         quantity := S754_finite false 4503599627370496 (-51);
         price := S754_finite false 6755399441055744 (-52);
         total := S754_finite false 6755399441055744 (-51) |};
      {| cod := "B2";
         quantity := S754_finite false 6755399441055744 (-52);
         price := S754_zero false;
         total := S754_zero false |};
      {| cod := "C3";
         quantity := S754_finite false 7881299347898368 (-50);
         price := S754_finite false 4503599627370496 (-54);
         total := S754_finite false 7881299347898368 (-52) |} ].
Proof.
  assert (E : extractSaleItems P row = map (slot_line row) (coded_slots row)).
  { rewrite extractSaleItems_slots, coded_slots_filled, map_map.
    apply map_ext_in. intros i Hi. symmetry. apply slot_line_item.
    apply list_elem_of_In in Hi. by apply list_elem_of_filter in Hi as [? _]. }
  split; [exact E|]. split; [by rewrite E, length_map|]. split.
  - intros s. unfold coded_slots. rewrite list_elem_of_filter.
    split.
    + intros [Hc Hs]. split; [done|].
      destruct (row !! code_column s) as [[t|]|]; try done. by exists t.
    + intros [Hs (t & Ht & Hne)]. split; [|done]. by rewrite Ht.
  - vm_compute. reflexivity.
Qed.

Example StringToNumber_12_5 :
  Js.StringToNumber "12.5" = S754_finite false 7036874417766400 (-49).
Proof. vm_compute. reflexivity. Qed.
(** ** Strings as lists of code units *)

Lemma lcount_cons c x l :
  lcount c (x :: l) = ((if Ascii.eqb x c then 1 else 0) + lcount c l)%nat.
Proof.
  unfold lcount. rewrite filter_cons.
  destruct (Ascii.eqb_spec x c) as [->|Hne].
  - by rewrite decide_True.
  - by rewrite decide_False.
Qed.

Lemma lcount_app c l1 l2 : lcount c (l1 ++ l2) = (lcount c l1 + lcount c l2)%nat.
Proof. unfold lcount. by rewrite filter_app, length_app. Qed.

Lemma lcount_rev c l : lcount c (rev l) = lcount c l.
Proof.
  induction l as [|x l IH]; [done|]. simpl.
  rewrite lcount_app, IH, !lcount_cons. unfold lcount at 2. simpl. lia.
Qed.

Lemma count_char_L c s : count_char c s = lcount c (L s).
Proof.
  induction s as [|x s IH]; [done|]. simpl. by rewrite lcount_cons, IH.
Qed.

Lemma lcount_none c (Q : ascii -> bool) l :
  Q c = false → Forall (fun x => Q x = true) l → lcount c l = 0%nat.
Proof.
  intros Hc. induction 1 as [|x l Hx _ IH]; [done|].
  rewrite lcount_cons, IH.
  destruct (Ascii.eqb_spec x c) as [->|_]; [congruence | done].
Qed.

Lemma L_rev_onto s acc : L (Js.rev_onto s acc) = rev (L s) ++ L acc.
Proof.
  revert acc. induction s as [|x s IH]; intros acc; [done|]. simpl.
  rewrite IH. simpl. by rewrite <- app_assoc.
Qed.

Lemma L_str_rev s : L (Js.str_rev s) = rev (L s).
Proof. unfold Js.str_rev. rewrite L_rev_onto. simpl. by rewrite app_nil_r. Qed.

Lemma trimStart_split s :
  ∃ ws, L s = ws ++ L (Js.trimStart s) ∧ Forall (fun x => Js.is_white x = true) ws.
Proof.
  induction s as [|x s (ws & E & Hws)]; [by exists []|]. simpl.
  destruct (Js.is_white x) eqn:Hx.
  - exists (x :: ws). simpl. rewrite E. by split; [|constructor].
  - by exists [].
Qed.

Lemma trimStart_head s x r :
  Js.trimStart s = String x r → Js.is_white x = false.
Proof.
  induction s as [|y s IH]; [done|]. simpl.
  destruct (Js.is_white y) eqn:Hy; [done|]. by intros [= <- _].
Qed.

Lemma lcount_trimStart c s :
  Js.is_white c = false → lcount c (L (Js.trimStart s)) = lcount c (L s).
Proof.
  intros Hc. destruct (trimStart_split s) as (ws & E & Hws).
  rewrite E, lcount_app, (lcount_none c Js.is_white ws) by done. done.
Qed.

Lemma lcount_trim c s :
  Js.is_white c = false → lcount c (L (Js.trim s)) = lcount c (L s).
Proof.
  intros Hc. unfold Js.trim, Js.trimEnd.
  rewrite L_str_rev, lcount_rev, lcount_trimStart, L_str_rev, lcount_rev by done.
  by apply lcount_trimStart.
Qed.

Lemma L_nil s : L s = [] → s = EmptyString.
Proof. by destruct s. Qed.

(** A string that trims to nothing holds white space only. *)
Lemma trim_empty_white s :
  Js.trim s = EmptyString → Forall (fun x => Js.is_white x = true) (L s).
Proof.
  unfold Js.trim, Js.trimEnd. intros H.
  assert (Hr : Js.trimStart (Js.str_rev (Js.trimStart s)) = EmptyString).
  { apply L_nil. apply (f_equal L) in H. rewrite L_str_rev in H. simpl in H.
    by apply (f_equal (@rev ascii)) in H; rewrite rev_involutive in H. }
  destruct (trimStart_split (Js.str_rev (Js.trimStart s))) as (ws & E & Hws).
  rewrite Hr, app_nil_r, L_str_rev in E. subst ws.
  apply Forall_rev in Hws. rewrite rev_involutive in Hws.
  destruct (trimStart_split s) as (ws & E & Hws').
  rewrite E. by apply Forall_app.
Qed.

(** ** What StringToNumber accepts *)

Lemma span_digits_split l ds rest :
  Js.span_digits l = (ds, rest) →
  l = ds ++ rest ∧ Forall (fun x => Js.is_digit x = true) ds.
Proof.
  revert ds rest. induction l as [|x l IH]; intros ds rest; simpl.
  - by intros [= <- <-].
  - destruct (Js.is_digit x) eqn:Hx.
    + destruct (Js.span_digits l) as [ds' rest'] eqn:E.
      intros [= <- <-]. destruct (IH _ _ eq_refl) as [-> Hds].
      by split; [|constructor].
    + by intros [= <- <-].
Qed.

Lemma foreign_comma : foreign ",".
Proof. by repeat split. Qed.

Lemma foreign_dot : foreign ".".
Proof. by repeat split. Qed.

Lemma lcount_digits c ds :
  foreign c → Forall (fun x => Js.is_digit x = true) ds → lcount c ds = 0%nat.
Proof. intros (H & _ & _). by apply lcount_none. Qed.

Lemma lcount_literal c x l :
  foreign c → literal_char x = true → lcount c (x :: l) = lcount c l.
Proof.
  intros (_ & _ & Hc) Hx. rewrite lcount_cons.
  destruct (Ascii.eqb_spec x c) as [->|_]; [congruence | done].
Qed.

Lemma strip_sign_count c l :
  foreign c → lcount c (Js.strip_sign l).2 = lcount c l.
Proof.
  intros Hc. unfold Js.strip_sign. destruct l as [|y r]; [done|].
  destruct (Ascii.eqb_spec y "+") as [->|_].
  - simpl. symmetry. by apply lcount_literal.
  - destruct (Ascii.eqb_spec y "-") as [->|_]; [|done].
    simpl. symmetry. by apply lcount_literal.
Qed.

Lemma parse_exponent_count c l e :
  foreign c → Js.parse_exponent l = Some e → lcount c l = 0%nat.
Proof.
  intros Hc. unfold Js.parse_exponent. destruct l as [|x r]; [done|].
  destruct (Ascii.eqb x "e" || Ascii.eqb x "E") eqn:Hx; [|done].
  assert (Hin : literal_char x = true).
  { by apply orb_true_iff in Hx as [Hx|Hx]; apply Ascii.eqb_eq in Hx; subst x. }
  rewrite (lcount_literal c x r Hc Hin), <- (strip_sign_count c r Hc).
  destruct (Js.strip_sign r) as [neg r1]. simpl.
  destruct (Js.span_digits r1) as [ds rest] eqn:E.
  destruct (span_digits_split _ _ _ E) as [-> Hds].
  destruct ds as [|d ds]; [done|]. destruct rest; [|done]. intros _.
  rewrite app_nil_r. by apply lcount_digits.
Qed.

Lemma parse_unsigned_decimal_count c l r :
  foreign c → Js.parse_unsigned_decimal l = Some r →
  (lcount c l <= if Ascii.eqb c "." then 1 else 0)%nat.
Proof.
  intros Hc. unfold Js.parse_unsigned_decimal.
  destruct (Js.span_digits l) as [ip rest] eqn:E.
  destruct (span_digits_split _ _ _ E) as [-> Hip].
  rewrite lcount_app, (lcount_digits c ip) by done.
  assert (Hint : match ip with
                 | [] => None
                 | _ => e ← Js.parse_exponent rest; Some (Js.digits_value ip, e)
                 end = Some r → (0 + lcount c rest <= 0)%nat).
  { destruct ip; [done|].
    destruct (Js.parse_exponent rest) as [e|] eqn:Ee; [|done].
    intros _. by rewrite (parse_exponent_count c rest e). }
  destruct rest as [|y rest1].
  - intros _. simpl. unfold lcount. simpl. lia.
  - destruct (Ascii.eqb_spec y ".") as [->|Hy].
    + destruct (Js.span_digits rest1) as [fp rest2] eqn:E2.
      destruct (span_digits_split _ _ _ E2) as [-> Hfp].
      intros H.
      assert (He : ∃ e, Js.parse_exponent rest2 = Some e).
      { destruct ip, fp; try done;
          destruct (Js.parse_exponent rest2) as [e|]; try done; by exists e. }
      destruct He as [e He].
      rewrite lcount_cons, lcount_app, (lcount_digits c fp),
        (parse_exponent_count c rest2 e) by done.
      destruct (Ascii.eqb_spec "."%char c) as [<-|Hne]; simpl.
      * lia.
      * destruct (Ascii.eqb_spec c "."); [congruence | lia].
    + intros H. specialize (Hint H).
      destruct (Ascii.eqb c "."); lia.
Qed.

Lemma radix_value_count c b acc l n :
  foreign c → Js.radix_value b acc l = Some n → lcount c l = 0%nat.
Proof.
  intros (_ & Hc & _). revert acc. induction l as [|x l IH]; intros acc; [done|].
  simpl. destruct (Js.hex_val x) as [d|] eqn:Hx; [|done].
  destruct (d <? b)%N; [|done]. intros H. rewrite lcount_cons, (IH _ H).
  destruct (Ascii.eqb_spec x c) as [->|_]; [congruence | done].
Qed.

Lemma parse_nondecimal_count c l n :
  foreign c → Js.parse_nondecimal l = Some n → lcount c l = 0%nat.
Proof.
  intros Hc. unfold Js.parse_nondecimal.
  destruct l as [|z [|p [|d ds]]]; try done.
  destruct (Ascii.eqb_spec z "0") as [->|_]; [|done]. simpl.
  assert (Hz : lcount c ("0"%char :: p :: d :: ds) = lcount c (p :: d :: ds)).
  { rewrite lcount_cons. destruct Hc as (Hc & _ & _).
    destruct (Ascii.eqb_spec "0"%char c) as [<-|_]; [done | done]. }
  rewrite Hz.
  assert (Hp : literal_char p = true → lcount c (p :: d :: ds) = lcount c (d :: ds)).
  { intros. by apply lcount_literal. }
  destruct (Ascii.eqb_spec p "x") as [->|_]; simpl;
    [intros H; rewrite Hp by done; by eapply radix_value_count|].
  destruct (Ascii.eqb_spec p "X") as [->|_]; simpl;
    [intros H; rewrite Hp by done; by eapply radix_value_count|].
  destruct (Ascii.eqb_spec p "o") as [->|_]; simpl;
    [intros H; rewrite Hp by done; by eapply radix_value_count|].
  destruct (Ascii.eqb_spec p "O") as [->|_]; simpl;
    [intros H; rewrite Hp by done; by eapply radix_value_count|].
  destruct (Ascii.eqb_spec p "b") as [->|_]; simpl;
    [intros H; rewrite Hp by done; by eapply radix_value_count|].
  destruct (Ascii.eqb_spec p "B") as [->|_]; simpl;
    [intros H; rewrite Hp by done; by eapply radix_value_count|].
  done.
Qed.

Lemma Infinity_count c : foreign c → lcount c Js.Infinity_lit = 0%nat.
Proof.
  intros (_ & _ & Hc). apply (lcount_none c literal_char); [done|].
  by repeat constructor.
Qed.

Lemma parse_decimal_count c l :
  foreign c → Js.parse_decimal l ≠ S754_nan →
  (lcount c l <= if Ascii.eqb c "." then 1 else 0)%nat.
Proof.
  intros Hc. unfold Js.parse_decimal.
  rewrite <- (strip_sign_count c l Hc).
  destruct (Js.strip_sign l) as [neg body]. simpl.
  case_bool_decide as Hb.
  - intros _. subst body. rewrite Infinity_count by done. lia.
  - destruct (Js.parse_unsigned_decimal body) as [[m e]|] eqn:E; [|done].
    intros _. by eapply parse_unsigned_decimal_count.
Qed.

(** A string that [Number] does not turn into NaN holds no comma and at
    most one decimal point. *)
Lemma StringToNumber_count c s :
  foreign c → Js.is_white c = false → Js.StringToNumber s ≠ S754_nan →
  (count_char c s <= if Ascii.eqb c "." then 1 else 0)%nat.
Proof.
  intros Hc Hw. unfold Js.StringToNumber.
  rewrite count_char_L, <- (lcount_trim c s Hw).
  destruct (L (Js.trim s)) as [|x l] eqn:E.
  - intros _. unfold lcount. simpl. lia.
  - destruct (Js.parse_nondecimal (x :: l)) as [n|] eqn:En.
    + intros _. rewrite (parse_nondecimal_count c _ n) by done. lia.
    + by apply parse_decimal_count.
Qed.

Lemma StringToNumber_comma s :
  (1 <= count_char "," s)%nat → Js.StringToNumber s = S754_nan.
Proof.
  intros H. destruct (Js.StringToNumber s) eqn:E; try done;
    (assert (Hn : Js.StringToNumber s ≠ S754_nan) by (by rewrite E);
     apply (StringToNumber_count "," s foreign_comma eq_refl) in Hn;
     simpl in Hn; lia).
Qed.

Lemma StringToNumber_two_dots s :
  (2 <= count_char "." s)%nat → Js.StringToNumber s = S754_nan.
Proof.
  intros H. destruct (Js.StringToNumber s) eqn:E; try done;
    (assert (Hn : Js.StringToNumber s ≠ S754_nan) by (by rewrite E);
     apply (StringToNumber_count "." s foreign_dot eq_refl) in Hn;
     simpl in Hn; lia).
Qed.

(** ** The first comma *)

Lemma replace_comma_none s :
  count_char "," s = 0%nat → Js.replace_comma s = s.
Proof.
  induction s as [|x s IH]; [done|]. simpl.
  destruct (Ascii.eqb x ","); [done|]. simpl. intros H. by rewrite IH.
Qed.

Lemma replace_comma_first a b :
  count_char "," a = 0%nat →
  Js.replace_comma (a +:+ String "," b) = a +:+ String "." b.
Proof.
  induction a as [|x a IH]; [done|]. simpl.
  destruct (Ascii.eqb x ","); [done|]. simpl. intros H. by rewrite IH.
Qed.

Lemma replace_comma_count_comma s :
  count_char "," (Js.replace_comma s) = pred (count_char "," s).
Proof.
  induction s as [|x s IH]; [done|]. simpl.
  destruct (Ascii.eqb_spec x ",") as [->|Hx]; simpl; [done|].
  destruct (Ascii.eqb_spec x ","); [done|]. by rewrite IH.
Qed.

Lemma replace_comma_count_dot s :
  (1 <= count_char "," s)%nat →
  count_char "." (Js.replace_comma s) = S (count_char "." s).
Proof.
  induction s as [|x s IH]; simpl; [lia|].
  destruct (Ascii.eqb_spec x ",") as [->|Hx]; simpl; [done|].
  intros H. rewrite IH by done.
  destruct (Ascii.eqb x "."); lia.
Qed.

(** ** Numeric normalisation *)

Lemma normalizeNumber_string P s :
  normalizeNumber P (VString s) =
  if bool_decide (s = EmptyString) then None
  else finite_number (Js.StringToNumber (Js.replace_comma s)).
Proof. destruct s; reflexivity. Qed.

Lemma column_unusable_zero c :
  column_unusable c → or_zero (column_number c) = Js.zero.
Proof.
  destruct c as [[t|]|]; try done. simpl.
  case_bool_decide as Ht; [done|]. intros [Hw|Hn].
  - assert (Hc : count_char "," t = 0%nat).
    { rewrite count_char_L. apply (lcount_none _ Js.is_white); [done|].
      by apply trim_empty_white. }
    rewrite replace_comma_none by done.
    unfold Js.StringToNumber. by rewrite Hw.
  - by rewrite Hn.
Qed.

(** C9. Zero defaulting: every item extracted from a row carries finite
    numbers for quantity, unit price and total, and the number is 0
    whenever the slot's column is null, blank or does not parse as a
    number. *)
Theorem extractSaleItems_zero_default (P : Platform) (row : Row) :
  Forall2 (slot_defaults row) (filled_slots row) (extractSaleItems P row).
Proof.
  rewrite extractSaleItems_slots. apply Forall2_map_same. intros i _.
  unfold slot_defaults, slot_item. simpl.
  repeat split; try apply or_zero_finite; apply column_unusable_zero.
Qed.


(** ** Reasoning about computations *)

Lemma bind_Ok {A B} (m : M A) (k : A -> M B) w b w' :
  bind m k w = Ok b w' ↔ ∃ a w1, m w = Ok a w1 ∧ k a w1 = Ok b w'.
Proof.
  unfold bind. destruct (m w) as [a w1|msg w1]; split.
  - intros H. by exists a, w1.
  - by intros (? & ? & [= -> ->] & H).
  - done.
  - by intros (? & ? & ? & _).
Qed.

Lemma bind_Throw {A B} (m : M A) (k : A -> M B) w msg w' :
  bind m k w = Throw msg w' ↔
  m w = Throw msg w' ∨ ∃ a w1, m w = Ok a w1 ∧ k a w1 = Throw msg w'.
Proof.
  unfold bind. destruct (m w) as [a w1|msg1 w1]; split.
  - intros H. right. by exists a, w1.
  - by intros [?|(? & ? & [= -> ->] & H)].
  - intros [= -> ->]. by left.
  - by intros [[= -> ->]|(? & ? & ? & _)].
Qed.

Lemma returned_Ok {A} (d : A) (r : Result A) :
  returned r = true → r = Ok (answer d r) (final r).
Proof. by destruct r. Qed.

Lemma returned_final (r : Result unit) :
  returned r = true → r = Ok tt (final r).
Proof. by destruct r as [[] w|]. Qed.

Lemma final_bind {A B} (m : M A) (k : A -> M B) w :
  final (bind m k w) =
  match m w with
  | Ok a w1 => final (k a w1)
  | Throw _ w1 => w1
  end.
Proof. unfold bind. by destruct (m w). Qed.

Section Preserves.

Context {X : Type} (view : World -> X).

Lemma preserves_ret {A} (a : A) : preserves view (ret a).
Proof. by intros w. Qed.

Lemma preserves_throw {A} msg : preserves view (@throw A msg).
Proof. by intros w. Qed.

Lemma preserves_gets {A} (f : World -> A) : preserves view (gets f).
Proof. by intros w. Qed.

Lemma preserves_expect {A} msg (o : option A) : preserves view (expect msg o).
Proof. by destruct o. Qed.

Lemma preserves_modify (f : World -> World) :
  (∀ w, view (f w) = view w) → preserves view (modify f).
Proof. intros H w. apply H. Qed.

Lemma preserves_bind {A B} (m : M A) (k : A -> M B) :
  preserves view m → (∀ a, preserves view (k a)) → preserves view (bind m k).
Proof.
  intros Hm Hk w. rewrite final_bind. specialize (Hm w).
  destruct (m w) as [a w1|msg w1]; simpl in *; [|done].
  by rewrite Hk.
Qed.

Lemma preserves_try_catch {A} (m : M A) (h : string -> M A) :
  preserves view m → (∀ msg, preserves view (h msg)) →
  preserves view (try_catch m h).
Proof.
  intros Hm Hh w. unfold try_catch. specialize (Hm w).
  destruct (m w) as [a w1|msg w1]; simpl in *; [done|].
  by rewrite Hh.
Qed.

Lemma preserves_foldM {A B} (body : B -> A -> M B) (l : list A) (acc : B) :
  (∀ acc x, x ∈ l → preserves view (body acc x)) →
  preserves view (foldM body l acc).
Proof.
  revert acc. induction l as [|x l IH]; intros acc H; simpl.
  - apply preserves_ret.
  - apply preserves_bind; [apply H; left|].
    intros acc'. apply IH. intros ? y Hy. apply H. by right.
Qed.

Lemma preserves_forM {A} (body : A -> M unit) (l : list A) :
  (∀ x, x ∈ l → preserves view (body x)) → preserves view (forM body l).
Proof. intros H. apply preserves_foldM. intros _ x Hx. by apply H. Qed.

Lemma preserves_Ok {A} (m : M A) w a w' :
  preserves view m → m w = Ok a w' → view w' = view w.
Proof. intros H E. specialize (H w). by rewrite E in H. Qed.

Lemma preserves_Throw {A} (m : M A) w msg w' :
  preserves view m → m w = Throw msg w' → view w' = view w.
Proof. intros H E. specialize (H w). by rewrite E in H. Qed.

End Preserves.

Lemma set_core_same w : set_core (core w) w = w.
Proof. by destruct w. Qed.

(** Rewrites with the hypotheses of the context that say which fields
    and tables a view does not look at. *)
Ltac blind :=
  repeat first
    [ match goal with H : ignores _ _ |- _ => rewrite H end
    | match goal with H : ignores_table _ _ |- _ => rewrite H end
    | rewrite set_core_same ];
  reflexivity.

(** Splits a sequence, looks through a loop or a branch; what is left
    are single steps. *)
Ltac frame_step :=
  lazymatch goal with
  | |- preserves _ (bind _ _) => apply preserves_bind; [|intros ?]
  | |- preserves _ (ret _) => apply preserves_ret
  | |- preserves _ (throw _) => apply preserves_throw
  | |- preserves _ (gets _) => apply preserves_gets
  | |- preserves _ (expect _ _) => apply preserves_expect
  | |- preserves _ (try_catch _ _) => apply preserves_try_catch; [|intros ?]
  | |- preserves _ (foldM _ _ _) => apply preserves_foldM; intros ? ? ?
  | |- preserves _ (forM _ _) => apply preserves_forM; intros ? ?
  | |- preserves _ (modify _) => apply preserves_modify; intros ?; blind
  | |- preserves _ (query _) =>
      unfold query; apply preserves_modify; intros ?; blind
  | |- preserves _ (update_core _) =>
      unfold update_core; apply preserves_modify; intros ?; blind
  | |- preserves _ (if ?b then _ else _) => destruct b
  | |- preserves _ (match ?x with _ => _ end) => destruct x
  | |- preserves _ (let _ := _ in _) => cbv zeta
  end.

(** A single step of the importer: the world it leaves is written out in
    its definition. *)
Ltac frame_leaf :=
  let w := fresh "w" in
  intros w; cbv [now fresh_uuid fs_op upsert upsert_sale bind query modify
                 expect ret throw final];
  repeat case_match; blind.

Ltac frame := repeat frame_step; try frame_leaf.


(** Closes an equation between closed terms by evaluating both sides. *)
Ltac by_computation :=
  lazymatch goal with
  | |- ?a = ?b => vm_cast_no_check (@eq_refl _ b)
  end.


(** ** What each step leaves untouched

    A view of the world is kept by a step when it does not look at the
    fields the step writes. *)

Section Bookkeeping.

Context {X : Type} (view : World -> X).
Hypothesis blind_trace : ignores set_trace view.

Lemma query_frame s : preserves view (query s).
Proof. frame. Qed.

Lemma ensureSchema_frame : preserves view ensureSchema.
Proof.
  unfold ensureSchema, ensureCoreTables, ensureLegacyImportTables,
    ensureStagingTables.
  frame.
Qed.

Lemma buildLegacyMap_frame t : preserves view (buildLegacyMap t).
Proof. unfold buildLegacyMap. frame. Qed.

Lemma select_staging_frame t : preserves view (select_staging t).
Proof. unfold select_staging. frame. Qed.

Lemma count_staging_frame t : preserves view (count_staging t).
Proof. unfold count_staging. frame. Qed.

Hypothesis blind_log : ignores set_import_log view.

Lemma appendLog_frame i l msg : preserves view (appendLog i l msg).
Proof. unfold appendLog. frame. Qed.

End Bookkeeping.

Section StatusFrame.

Context {X : Type} (view : World -> X).
Hypothesis blind_trace : ignores set_trace view.
Hypothesis blind_imports : ignores set_imports view.
Hypothesis blind_history : ignores set_history view.

Lemma updateImportStatus_frame i st fields :
  preserves view (updateImportStatus i st fields).
Proof. unfold updateImportStatus. frame. Qed.

End StatusFrame.

Section StagingFrame.

Context (P : Platform) {X : Type} (view : World -> X).
Hypothesis blind_trace : ignores set_trace view.
Hypothesis blind_staging : ignores set_staging view.

Lemma truncateStagingTables_frame : preserves view truncateStagingTables.
Proof. unfold truncateStagingTables, set_staging_rows. frame. Qed.

Lemma ensureStagingTable_frame config : preserves view (ensureStagingTable config).
Proof. unfold ensureStagingTable, set_staging_rows. frame. Qed.

Lemma insert_staging_frame config total record :
  preserves view (insert_staging P config total record).
Proof. unfold insert_staging, set_staging_rows. frame. Qed.

Lemma load_batches_frame fuel config remaining total :
  preserves view (load_batches P fuel config remaining total).
Proof.
  revert remaining total. induction fuel as [|fuel IH]; intros remaining total.
  - apply preserves_ret.
  - cbn [load_batches].
    destruct (take 500 remaining) as [|r rs]; [apply preserves_ret|].
    apply preserves_bind; [|intros ?; apply IH].
    apply preserves_foldM. intros ? ? _. apply insert_staging_frame.
Qed.

Hypothesis blind_log : ignores set_import_log view.

Lemma loadDbfIntoStaging_frame i config files :
  preserves view (loadDbfIntoStaging P i config files).
Proof.
  unfold loadDbfIntoStaging.
  destruct (files !! file config) as [[|d p]|].
  - apply preserves_bind; [by apply appendLog_frame | intros; apply preserves_ret].
  - apply preserves_bind; [apply ensureStagingTable_frame|intros ?].
    frame. apply load_batches_frame.
  - apply preserves_bind; [by apply appendLog_frame | intros; apply preserves_ret].
Qed.

End StagingFrame.

Section CoreFrame.

Context (P : Platform) {X : Type} (view : World -> X).
Hypothesis blind_trace : ignores set_trace view.
Hypothesis blind_next : ignores set_next_uuid view.

Lemma upsert_frame {R} t get (blind_put_of : list R -> Core -> Core) code merge
    proposed :
  ignores_table blind_put_of view →
  preserves view (upsert t get blind_put_of code merge proposed).
Proof.
  intros blind_put w. cbv [upsert bind query modify].
  destruct (proposed _) as [xs|]; cbv [final]; [|blind].
  destruct (upsert_rows _ _ _ _ _ _) as [[rows next]|]; blind.
Qed.

Section Master.

Hypothesis blind_group : ignores_table with_product_group view.
Hypothesis blind_product : ignores_table with_product view.
Hypothesis blind_customer : ignores_table with_customer view.
Hypothesis blind_seller : ignores_table with_seller view.
Hypothesis blind_term : ignores_table with_payment_term view.

Lemma migrateMasterData_frame ov : preserves view (migrateMasterData P ov).
Proof.
  unfold migrateMasterData.
  repeat first [ apply upsert_frame; assumption
               | apply count_staging_frame; assumption
               | frame_step ].
Qed.

End Master.

Section Sales.

Hypothesis blind_sale : ignores_table with_sale view.
Hypothesis blind_item : ignores_table with_sale_item view.

Lemma upsert_sale_frame k v : preserves view (upsert_sale k v).
Proof.
  intros w. cbv [upsert_sale bind query modify expect ret throw].
  destruct v as [v|]; cbv [final]; [|blind].
  destruct (List.find _ _); blind.
Qed.

Lemma delete_sale_items_frame i : preserves view (delete_sale_items i).
Proof. unfold delete_sale_items. frame. Qed.

Lemma delete_migrated_sales_frame : preserves view delete_migrated_sales.
Proof. unfold delete_migrated_sales. frame. Qed.

Lemma insert_sale_item_frame s p item :
  preserves view (insert_sale_item P s p item).
Proof. unfold insert_sale_item. frame. Qed.

Lemma migrate_item_frame k m s key acc item :
  preserves view (migrate_item P k m s key acc item).
Proof.
  unfold migrate_item. destruct (m !! cod item); [|apply preserves_ret].
  apply preserves_bind; [apply insert_sale_item_frame|intros; apply preserves_ret].
Qed.

Lemma migrate_row_frame k maps acc row :
  preserves view (migrate_row P k maps acc row).
Proof.
  unfold migrate_row. destruct (source_key P row); [|apply preserves_ret].
  apply preserves_bind; [apply upsert_sale_frame|intros ?].
  apply preserves_bind; [apply delete_sale_items_frame|intros ?].
  apply preserves_bind; [|intros; apply preserves_ret].
  apply preserves_foldM. intros. apply migrate_item_frame.
Qed.

Lemma migrateSales_frame ov : preserves view (migrateSales P ov).
Proof.
  unfold migrateSales.
  repeat first [ apply delete_migrated_sales_frame
               | apply buildLegacyMap_frame; assumption
               | apply select_staging_frame; assumption
               | apply preserves_foldM; intros; apply migrate_row_frame
               | frame_step ].
Qed.

End Sales.

Section Payments.

Hypothesis blind_payment : ignores_table with_customer_payment view.

Lemma migrateCustomerPayments_frame : preserves view (migrateCustomerPayments P).
Proof.
  unfold migrateCustomerPayments, migrate_payment, insert_customer_payment.
  repeat first [ apply select_staging_frame; assumption | frame_step ];
    frame_leaf.
Qed.

End Payments.

Section Stocks.

Hypothesis blind_stock : ignores_table with_stock_movement view.

Lemma migrateStockMovements_frame : preserves view (migrateStockMovements P).
Proof.
  unfold migrateStockMovements, migrate_stock, insert_stock_movement.
  repeat first [ apply select_staging_frame; assumption
               | apply buildLegacyMap_frame; assumption
               | frame_step ];
    frame_leaf.
Qed.

End Stocks.

End CoreFrame.

Section ReportFrame.

Context (P : Platform) {X : Type} (view : World -> X).
Hypothesis blind_trace : ignores set_trace view.
Hypothesis blind_clock : ignores set_clock view.
Hypothesis blind_fs : ignores set_fs view.

Lemma now_frame : preserves view now.
Proof. frame_leaf. Qed.

Lemma fs_op_frame {A} msg (f : list entry -> option (A * list entry)) :
  preserves view (fs_op msg f).
Proof.
  intros w. unfold fs_op. destruct (f (fs w)) as [[a es]|]; cbv [final]; blind.
Qed.

Lemma fs_steps_frame {A} msg (f : list entry -> option (A * list entry)) g :
  preserves view (fs_steps msg f g).
Proof.
  intros w. unfold fs_steps. destruct (f (fs w)) as [[a es]|]; cbv [final]; blind.
Qed.

Lemma createReconciliationReport_frame dir ms ss pc sc :
  preserves view (createReconciliationReport dir ms ss pc sc).
Proof.
  unfold createReconciliationReport, count_core.
  repeat first [apply now_frame | apply fs_op_frame | frame_step].
Qed.

End ReportFrame.

Lemma check_required_frame {X} (view : World -> X) files :
  preserves view (check_required files).
Proof. unfold check_required. frame. Qed.

(** Discharges the side conditions: the view does not mention the field. *)
Ltac unseen := first [by intros ? ? | by intros ? ? ?].


(** ** The required files and the optional sources *)

Lemma check_list_missing (files : gmap string path) (l : list string) :
  (∃ required, required ∈ l ∧ files !! required = None) →
  ∃ msg, ∀ w,
    forM (fun required =>
            match files !! required with
            | None =>
                throw ("Required legacy file " +:+ required
                         +:+ " missing after extraction")
            | Some _ => ret tt
            end) l w = Throw msg w.
Proof.
  induction l as [|r l IH]; intros (required & Hin & Hnone).
  - by apply elem_of_nil in Hin.
  - unfold forM. cbn [foldM]. unfold bind.
    destruct (files !! r) as [p|] eqn:Hr.
    + apply elem_of_cons in Hin as [->|Hin]; [congruence|].
      destruct IH as [msg Hmsg]; [by exists required|].
      exists msg. intros w. cbv [ret]. apply Hmsg.
    + eexists. intros w. reflexivity.
Qed.

Lemma check_required_missing (files : gmap string path) :
  (∃ required, required ∈ REQUIRED_FILES ∧ files !! required = None) →
  ∃ msg, ∀ w, check_required files w = Throw msg w.
Proof. apply check_list_missing. Qed.

(** C1. Fail before destroy: when a required file is absent from the
    normalized file map, the run throws after two statements, the status
    update and one log entry; no table is truncated and the core and
    staging tables are as before, whatever the overwrite flag. *)
Theorem runImport_fails_before_truncation (P : Platform)
    (job : LegacyImportJob) (w : World) (files : gmap string path)
    (es : list entry) (required : string) :
  prepareLegacyFiles (sessionDir job) (fs w) = Some (files, es) →
  required ∈ REQUIRED_FILES →
  files !! required = None →
  ∃ msg w',
    runImport P job w = Throw msg w' ∧
    trace w' = trace w ++ [SUpdate "system_legacy_import";
                           SInsert "system_legacy_import_log"] ∧
    Forall (fun s => ∀ t, s ≠ STruncate t) (drop (length (trace w)) (trace w')) ∧
    core w' = core w ∧
    staging w' = staging w.
Proof.
  intros Hprep Hin Hnone.
  destruct (check_required_missing files) as [msg Hmsg]; [by exists required|].
  exists msg. eexists. split.
  - unfold runImport.
    cbv [bind now updateImportStatus appendLog query modify fs_steps].
    cbn [fs set_clock set_trace set_history set_imports set_import_log].
    rewrite Hprep, Hmsg. reflexivity.
  - cbn. rewrite <- app_assoc. cbn. split; [reflexivity|]. split; [|done].
    rewrite drop_app_length. repeat constructor; done.
Qed.

(** The run of the sample job whose upload lacks VENDAS.DBF, with the
    overwrite flag set. *)
Lemma runImport_fails_before_truncation_witness :
  "VENDAS.DBF" ∈ REQUIRED_FILES ∧
  ∃ msg w',
    runImport Sample.platform (Sample.job 3 "s3" true) Sample.world
      = Throw msg w' ∧
    trace w' = trace Sample.world ++ [SUpdate "system_legacy_import";
                                      SInsert "system_legacy_import_log"] ∧
    Forall (fun s => ∀ t, s ≠ STruncate t)
      (drop (length (trace Sample.world)) (trace w')) ∧
    core w' = core Sample.world ∧
    staging w' = staging Sample.world.
Proof.
  assert (Hin : "VENDAS.DBF" ∈ REQUIRED_FILES).
  { do 4 apply list_elem_of_further. apply list_elem_of_here. }
  split; [exact Hin|].
  apply (runImport_fails_before_truncation Sample.platform
           (Sample.job 3 "s3" true) Sample.world (Sample.prepared "s3").1
           (Sample.prepared "s3").2 "VENDAS.DBF").
  - by_computation.
  - exact Hin.
  - by_computation.
Defined.

(** C8. Optional-source skip: when the file of a staging source is not
    in the file map, loading that source returns 0 without throwing; its
    one statement is the insert of a log entry of level warn, and no
    staging or core table changes. *)
Theorem loadDbfIntoStaging_absent (P : Platform) (importId : uuid)
    (config : StagingConfig) (files : gmap string path) (w : World) :
  files !! file config = None →
  ∃ entry w',
    loadDbfIntoStaging P importId config files w = Ok 0 w' ∧
    import_log w' = import_log w ++ [entry] ∧
    log_level entry = warn ∧
    log_import_id entry = importId ∧
    log_message entry
      = "Optional file " +:+ file config +:+ " not provided; skipping." ∧
    trace w' = trace w ++ [SInsert "system_legacy_import_log"] ∧
    staging w' = staging w ∧
    core w' = core w.
Proof.
  intros Hnone. unfold loadDbfIntoStaging. rewrite Hnone.
  eexists. eexists. split; [reflexivity|]. cbn. by repeat split.
Qed.

(** The payment-method catalogue FORMA_PG.DBF is not part of the sample
    upload. *)
Lemma loadDbfIntoStaging_absent_witness :
  let config := {| file := "FORMA_PG.DBF"; table := "stg_forma_pg";
                   columns := [col "cod_fpg" "COD_FPG"; col "forma" "FORMA"] |} in
  let files : gmap string path :=
    {[ "GRUPO.DBF" := ["imports"; "s1"; "GRUPO.DBF"] ]} in
  config ∈ STAGING_CONFIG ∧
  files !! file config = None ∧
  ∃ entry w',
    loadDbfIntoStaging Sample.platform 1 config files Sample.world = Ok 0 w' ∧
    import_log w' = import_log Sample.world ++ [entry] ∧
    log_level entry = warn ∧
    log_import_id entry = 1 ∧
    log_message entry
      = "Optional file " +:+ file config +:+ " not provided; skipping." ∧
    trace w' = trace Sample.world ++ [SInsert "system_legacy_import_log"] ∧
    staging w' = staging Sample.world ∧
    core w' = core Sample.world.
Proof.
  intros config files.
  split; [do 4 apply list_elem_of_further; apply list_elem_of_here|].
  split; [reflexivity|].
  apply (loadDbfIntoStaging_absent Sample.platform 1 config files Sample.world).
  reflexivity.
Defined.

(** ** The stages of a run *)

Lemma tables_eq w w' :
  tables w' = tables w → core w' = core w ∧ staging w' = staging w.
Proof. by intros [= -> ->]. Qed.

Lemma truncateCoreTables_Ok w :
  truncateCoreTables w =
  Ok tt (set_core empty_core
           (set_trace
              (trace w ++ map STruncate
                 ["sale_item"; "sale"; "customer_payment"; "stock_movement";
                  "product"; "product_group"; "customer"; "seller";
                  "payment_term"]) w)).
Proof.
  unfold truncateCoreTables, truncate_table, bind, query, update_core, modify.
  cbn. rewrite <- !app_assoc. reflexivity.
Qed.

Section Stages.

Context (P : Platform).

Lemma load_all_core i filesMap : preserves core (load_all P i filesMap).
Proof.
  unfold load_all. apply preserves_foldM. intros acc config _.
  apply preserves_bind; [apply appendLog_frame; unseen|intros ?].
  apply preserves_bind; [apply loadDbfIntoStaging_frame; unseen|intros ?].
  apply preserves_ret.
Qed.

(** A run that completes went through the four migrations in order, on
    the tables the stage before had left; nothing else wrote to them
    after the staging load. *)
Lemma runImport_Ok job w w' :
  runImport P job w = Ok tt w' →
  ∃ w1 w1' w2 w2' w3 w3' w4 w4' ms ss pc sc,
    core w1 = (if overwrite job then empty_core else core w) ∧
    migrateMasterData P (overwrite job) w1 = Ok ms w1' ∧
    tables w2 = tables w1' ∧
    migrateSales P (overwrite job) w2 = Ok ss w2' ∧
    tables w3 = tables w2' ∧
    migrateCustomerPayments P w3 = Ok pc w3' ∧
    tables w4 = tables w3' ∧
    migrateStockMovements P w4 = Ok sc w4' ∧
    tables w' = tables w4'.
Proof.
  intros H. unfold runImport in H.
  apply bind_Ok in H as (t & wa & E1 & H).
  apply bind_Ok in H as ([] & wb & E2 & H).
  apply bind_Ok in H as ([] & wc & E3 & H).
  apply bind_Ok in H as (filesMap & wd & E4 & H).
  apply bind_Ok in H as ([] & we & E5 & H).
  apply bind_Ok in H as ([] & wf & E6 & H).
  apply bind_Ok in H as ([] & wg & E7 & H).
  apply bind_Ok in H as ([] & wh & E8 & H).
  apply bind_Ok in H as (stagingSummary & wi & E9 & H).
  apply bind_Ok in H as ([] & w1 & E10 & H).
  apply bind_Ok in H as (ms & w1' & E11 & H).
  apply bind_Ok in H as ([] & w2 & E12 & H).
  apply bind_Ok in H as (ss & w2' & E13 & H).
  apply bind_Ok in H as ([] & w3 & E14 & H).
  apply bind_Ok in H as (pc & w3' & E15 & H).
  apply bind_Ok in H as ([] & w4 & E16 & H).
  apply bind_Ok in H as (sc & w4' & E17 & H).
  apply bind_Ok in H as ([] & wj & E18 & H).
  apply bind_Ok in H as (reportPath & wk & E19 & H).
  cbv zeta in H.
  apply bind_Ok in H as (t' & wl & E20 & H).
  apply bind_Ok in H as ([] & wm & E21 & H).
  exists w1, w1', w2, w2', w3, w3', w4, w4', ms, ss, pc, sc.
  assert (Hlog : ∀ i l msg u v a, appendLog i l msg u = Ok a v → tables v = tables u).
  { intros i l msg u v a. apply preserves_Ok, appendLog_frame; unseen. }
  repeat split; eauto.
  - rewrite (preserves_Ok core _ _ _ _ (appendLog_frame core ltac:(unseen) ltac:(unseen) _ _ _) E10).
    rewrite (preserves_Ok core _ _ _ _ (load_all_core _ _) E9).
    rewrite (preserves_Ok core _ _ _ _ (truncateStagingTables_frame core ltac:(unseen) ltac:(unseen)) E8).
    assert (Hf : core wf = core w).
    { rewrite (preserves_Ok core _ _ _ _ (ensureSchema_frame core ltac:(unseen)) E6).
      rewrite (preserves_Ok core _ _ _ _ (check_required_frame core _) E5).
      rewrite (preserves_Ok core _ _ _ _ (fs_steps_frame core ltac:(unseen) _ _ _) E4).
      rewrite (preserves_Ok core _ _ _ _ (appendLog_frame core ltac:(unseen) ltac:(unseen) _ _ _) E3).
      rewrite (preserves_Ok core _ _ _ _ (updateImportStatus_frame core ltac:(unseen) ltac:(unseen) ltac:(unseen) _ _ _) E2).
      by rewrite (preserves_Ok core _ _ _ _ (now_frame core ltac:(unseen)) E1). }
    destruct (overwrite job).
    + apply bind_Ok in E7 as ([] & wg' & E7a & E7).
      rewrite truncateCoreTables_Ok in E7. by injection E7 as <-.
    + injection E7 as <-. exact Hf.
  - rewrite (Hlog _ _ _ _ _ _ H).
    rewrite (preserves_Ok tables _ _ _ _ (updateImportStatus_frame tables ltac:(unseen) ltac:(unseen) ltac:(unseen) _ _ _) E21).
    rewrite (preserves_Ok tables _ _ _ _ (now_frame tables ltac:(unseen)) E20).
    rewrite (preserves_Ok tables _ _ _ _ (createReconciliationReport_frame tables ltac:(unseen) ltac:(unseen) ltac:(unseen) _ _ _ _ _) E19).
    by rewrite (Hlog _ _ _ _ _ _ E18).
Qed.

End Stages.

(** ** Upserts keyed by legacy code *)

Section UpsertFacts.

Context {R : Type} (code : R -> option string) (merge : R -> R -> R).
Hypothesis merge_code : ∀ e r, code (merge e r) = code r.

Lemma present_app k t1 t2 :
  present code k (t1 ++ t2) ↔ present code k t1 ∨ present code k t2.
Proof. unfold present. rewrite existsb_app. apply orb_true_iff. Qed.

Lemma present_map_merge k k' e t :
  present code k
    (map (fun r => if has_code code k' r then merge e r else r) t)
  ↔ present code k t.
Proof.
  unfold present. induction t as [|r t IH]; [done|]. simpl.
  rewrite !orb_true_iff, IH.
  assert (has_code code k (if has_code code k' r then merge e r else r)
          = has_code code k r) as ->; [|done].
  destruct (has_code code k' r); [|done].
  unfold has_code. by rewrite merge_code.
Qed.

Lemma present_new k (x : R) : code x = Some k → present code k [x].
Proof.
  intros H. unfold present. simpl. unfold has_code.
  by rewrite bool_decide_true.
Qed.

(** Rows already there stay, and every proposed row is there afterwards. *)
Lemma upsert_rows_present xs seen t n t' n' :
  upsert_rows code merge xs seen t n = Some (t', n') →
  (∀ k, present code k t → present code k t') ∧
  (∀ x k, x ∈ xs → keyed code x k → present code k t').
Proof.
  revert seen t n. induction xs as [|x xs IH]; intros seen t n; simpl.
  - intros [= <- <-]. split; [done|]. intros x k Hx. by apply elem_of_nil in Hx.
  - destruct (code (x n)) as [k|] eqn:Hk.
    + case_bool_decide as Hseen; [done|].
      destruct (existsb (has_code code k) t) eqn:Hex; intros H;
        apply IH in H as [Hmono Hall]; (split; [|intros y k' Hy Hkey]).
      * intros k0 H0. by apply Hmono, present_map_merge.
      * apply elem_of_cons in Hy as [->|Hy]; [|by eapply Hall].
        apply Hmono, present_map_merge.
        specialize (Hkey n). rewrite Hk in Hkey. by injection Hkey as <-.
      * intros k0 H0. apply Hmono, present_app. by left.
      * apply elem_of_cons in Hy as [->|Hy]; [|by eapply Hall].
        apply Hmono, present_app. right. by apply present_new.
    + intros H. apply IH in H as [Hmono Hall]. split.
      * intros k0 H0. apply Hmono, present_app. by left.
      * intros y k' Hy Hkey. apply elem_of_cons in Hy as [->|Hy]; [|by eapply Hall].
        specialize (Hkey n). congruence.
Qed.

(** A statement all of whose rows are already there inserts nothing. *)
Lemma upsert_rows_length xs seen t n t' n' :
  (∀ x, x ∈ xs → ∃ k, keyed code x k ∧ present code k t) →
  upsert_rows code merge xs seen t n = Some (t', n') →
  length t' = length t ∧ n' = n.
Proof.
  revert seen t. induction xs as [|x xs IH]; intros seen t Hall; simpl.
  - by intros [= <- <-].
  - destruct (Hall x) as (k & Hkey & Hk); [left|].
    rewrite (Hkey n). case_bool_decide as Hseen; [done|].
    unfold present in Hk. rewrite Hk. intros H.
    apply IH in H as [-> ->]; [by rewrite length_map|].
    intros y Hy. destruct (Hall y) as (k' & Hkey' & Hk'); [by right|].
    exists k'. split; [done|]. by apply present_map_merge.
Qed.

End UpsertFacts.

(** ** The master-data stage *)

Lemma upsert_Ok {R} t get put (code : R -> option string) merge proposed w a w' :
  upsert t get put code merge proposed w = Ok a w' →
  ∃ xs rows next,
    proposed (set_trace (trace w ++ [SInsert t]) w) = Some xs ∧
    upsert_rows code merge xs [] (get (core w)) (next_uuid w) = Some (rows, next) ∧
    w' = set_next_uuid next
           (set_core (put rows (core w)) (set_trace (trace w ++ [SInsert t]) w)).
Proof.
  cbv [upsert bind query modify].
  destruct (proposed _) as [xs|] eqn:Ex; [|done].
  destruct (upsert_rows _ _ _ _ _ _) as [[rows next]|] eqn:Eu; [|done].
  intros [= <- <-]. by exists xs, rows, next.
Qed.

Lemma count_staging_Ok t w n w' :
  count_staging t w = Ok n w' → w' = set_trace (trace w ++ [SSelect t]) w.
Proof. cbv [count_staging bind query modify gets]. by intros [= <- <-]. Qed.

Section MasterStage.

Context (P : Platform).

(** What the stage does to each reference table: one upsert of the rows
    proposed from the staging table; product rows join the groups as
    they are after the first statement. *)
Lemma migrateMasterData_Ok ov w ms w' :
  migrateMasterData P ov w = Ok ms w' →
  let stg t := staging_rows t w in
  (∃ n n',
     upsert_rows cn_legacy_code merge_name
       (map proposed_group (rows_with "cod_grup" (stg "stg_grupo"))) []
       (product_group (core w)) n
     = Some (product_group (core w'), n')) ∧
  (∃ xs n n',
     mapM (proposed_product P (product_group (core w')))
       (rows_with "cod_prod" (stg "stg_produto")) = Some xs ∧
     upsert_rows pr_legacy_code merge_product xs [] (product (core w)) n
     = Some (product (core w'), n')) ∧
  (∃ xs n n',
     mapM (proposed_customer P) (rows_with "codigo" (stg "stg_clientes"))
     = Some xs ∧
     upsert_rows cu_legacy_code merge_customer xs [] (customer (core w)) n
     = Some (customer (core w'), n')) ∧
  (∃ xs n n',
     mapM (proposed_named "nome") (rows_with "codigo" (stg "stg_vendedor"))
     = Some xs ∧
     upsert_rows cn_legacy_code merge_name xs [] (seller (core w)) n
     = Some (seller (core w'), n')) ∧
  (∃ xs n n',
     mapM (proposed_named "forma") (rows_with "cod_fpg" (stg "stg_forma_pg"))
     = Some xs ∧
     upsert_rows cn_legacy_code merge_name xs [] (payment_term (core w)) n
     = Some (payment_term (core w'), n')).
Proof.
  intros H. unfold migrateMasterData in H.
  apply bind_Ok in H as ([] & w1 & E1 & H).
  apply bind_Ok in H as (c1 & w1' & C1 & H).
  apply bind_Ok in H as ([] & w2 & E2 & H).
  apply bind_Ok in H as (c2 & w2' & C2 & H).
  apply bind_Ok in H as ([] & w3 & E3 & H).
  apply bind_Ok in H as (c3 & w3' & C3 & H).
  apply bind_Ok in H as ([] & w4 & E4 & H).
  apply bind_Ok in H as (c4 & w4' & C4 & H).
  apply bind_Ok in H as ([] & w5 & E5 & H).
  apply bind_Ok in H as (c5 & w5' & C5 & H).
  cbv [ret] in H. injection H as Hms Hw. subst w'. clear Hms.
  apply upsert_Ok in E1 as (xs1 & r1 & n1 & X1 & U1 & ->).
  apply count_staging_Ok in C1 as ->.
  apply upsert_Ok in E2 as (xs2 & r2 & n2 & X2 & U2 & ->).
  apply count_staging_Ok in C2 as ->.
  apply upsert_Ok in E3 as (xs3 & r3 & n3 & X3 & U3 & ->).
  apply count_staging_Ok in C3 as ->.
  apply upsert_Ok in E4 as (xs4 & r4 & n4 & X4 & U4 & ->).
  apply count_staging_Ok in C4 as ->.
  apply upsert_Ok in E5 as (xs5 & r5 & n5 & X5 & U5 & ->).
  apply count_staging_Ok in C5 as ->.
  injection X1 as <-.
  cbn in *.
  repeat split; eauto 10.
Qed.

End MasterStage.

(** ** Sale headers *)

Lemma find_existsb {A} (f : A -> bool) (l : list A) :
  existsb f l = match List.find f l with Some _ => true | None => false end.
Proof. induction l as [|x l IH]; [done|]. simpl. by destruct (f x). Qed.

Lemma is_sale_merge k key k' v r :
  is_sale k key (merge_sale k' v r) = is_sale k key r.
Proof. reflexivity. Qed.

Lemma is_sale_new k n v : is_sale k (sv_key v) (new_sale k n v) = true.
Proof.
  unfold is_sale. simpl. by rewrite !bool_decide_true.
Qed.

Lemma sale_step_present k v n t k' key :
  sale_present k' key t → sale_present k' key (sale_step k v n t).
Proof.
  unfold sale_present, sale_step. intros H.
  destruct (existsb (is_sale k (sv_key v)) t).
  - rewrite <- H. clear H. induction t as [|r t IH]; [done|]. simpl.
    rewrite IH. f_equal. by destruct (is_sale k (sv_key v) r).
  - rewrite existsb_app, H. done.
Qed.

Lemma sale_step_here k v n t : sale_present k (sv_key v) (sale_step k v n t).
Proof.
  unfold sale_step. destruct (existsb (is_sale k (sv_key v)) t) eqn:E.
  - pose proof (sale_step_present k v n t k (sv_key v) E) as H.
    unfold sale_step in H. by rewrite E in H.
  - unfold sale_present. rewrite existsb_app. simpl.
    by rewrite is_sale_new, orb_true_r.
Qed.

Lemma sale_step_length k v n t :
  sale_present k (sv_key v) t → length (sale_step k v n t) = length t.
Proof.
  unfold sale_present, sale_step. intros ->. by rewrite length_map.
Qed.

Lemma upsert_sale_Ok k v w i w' :
  upsert_sale k v w = Ok i w' →
  ∃ v0, v = Some v0 ∧
        sale_table w' = sale_step k v0 (next_uuid w) (sale_table w).
Proof.
  cbv [upsert_sale bind query modify expect ret throw].
  destruct v as [v0|]; [|done]. cbv beta iota.
  change (core (set_trace (trace w ++ [SInsert "sale"]) w)) with (core w).
  change (next_uuid (set_trace (trace w ++ [SInsert "sale"]) w))
    with (next_uuid w).
  destruct (List.find _ _) eqn:Ef; intros [= <- <-]; exists v0;
    (split; [done|]); unfold sale_table, sale_step;
    by rewrite find_existsb, Ef.
Qed.

Section SaleRows.

Context (P : Platform).

Lemma sale_values_key maps key row v :
  sale_values P maps key row = Some v → sv_key v = key.
Proof.
  unfold sale_values. intros H.
  repeat (apply bind_Some in H as (? & _ & H)).
  by injection H as <-.
Qed.

Lemma sale_table_unseen :
  ignores set_trace sale_table ∧ ignores set_next_uuid sale_table ∧
  ignores_table with_sale_item sale_table.
Proof. by repeat split. Qed.

(** What one staging row does to the sale table. *)
Lemma migrate_row_sale k maps acc row w acc' w' :
  migrate_row P k maps acc row w = Ok acc' w' →
  match source_key P row with
  | None => sale_table w' = sale_table w
  | Some key =>
      ∃ v n, sv_key v = key ∧ sale_table w' = sale_step k v n (sale_table w)
  end.
Proof.
  unfold migrate_row. destruct (source_key P row) as [key|].
  - intros H.
    apply bind_Ok in H as (i & w1 & E1 & H).
    apply bind_Ok in H as ([] & w2 & E2 & H).
    apply bind_Ok in H as (acc1 & w3 & E3 & H).
    injection H as _ <-.
    apply upsert_sale_Ok in E1 as (v & Hv & E1).
    exists v, (next_uuid w). split; [by eapply sale_values_key|].
    rewrite <- E1.
    rewrite <- (preserves_Ok sale_table _ _ _ _
                  (delete_sale_items_frame sale_table ltac:(unseen)
                     ltac:(unseen) i) E2).
    apply (preserves_Ok sale_table _ _ _ _
             (preserves_foldM sale_table _ _ _
                (fun acc x _ =>
                   migrate_item_frame P sale_table ltac:(unseen) ltac:(unseen)
                     ltac:(unseen) k (productMap maps) i key acc x)) E3).
  - by intros [= _ <-].
Qed.

(** What a loop over staging rows does to the sale table. *)
Lemma migrate_rows_sale k maps rows acc w acc' w' :
  foldM (migrate_row P k maps) rows acc w = Ok acc' w' →
  (∀ k' key, sale_present k' key (sale_table w) →
             sale_present k' key (sale_table w')) ∧
  (∀ row key, row ∈ rows → source_key P row = Some key →
              sale_present k key (sale_table w')) ∧
  ((∀ row key, row ∈ rows → source_key P row = Some key →
               sale_present k key (sale_table w)) →
   length (sale_table w') = length (sale_table w)).
Proof.
  revert acc w. induction rows as [|row rows IH]; intros acc w; cbn [foldM].
  - intros [= _ <-]. split; [done|]. split; [|done].
    intros row key Hin. by apply elem_of_nil in Hin.
  - intros H. apply bind_Ok in H as (acc1 & w1 & E & H).
    apply IH in H as (Hmono & Hall & Hlen).
    apply migrate_row_sale in E.
    assert (Hstep : ∀ k' key, sale_present k' key (sale_table w) →
                              sale_present k' key (sale_table w1)).
    { intros k' key Hp. destruct (source_key P row) as [key0|].
      - destruct E as (v & n & _ & ->). by apply sale_step_present.
      - by rewrite E. }
    split; [|split].
    + intros k' key Hp. by apply Hmono, Hstep.
    + intros r key Hin Hkey. apply elem_of_cons in Hin as [->|Hin].
      * apply Hmono. rewrite Hkey in E. destruct E as (v & n & <- & ->).
        apply sale_step_here.
      * by eapply Hall.
    + intros Hpre. rewrite Hlen.
      * destruct (source_key P row) as [key0|] eqn:Hk; [|by rewrite E].
        destruct E as (v & n & Hv & ->). apply sale_step_length.
        rewrite Hv. eapply Hpre; [left|done].
      * intros r key Hin Hkey. apply Hstep. eapply Hpre; [by right|done].
Qed.

End SaleRows.

(** ** The stages of a run, table by table *)

Section Rerun.

Context (P : Platform).

Lemma select_staging_Ok t w rows w' :
  select_staging t w = Ok rows w' →
  rows = staging_rows t w ∧ w' = set_trace (trace w ++ [SSelect t]) w.
Proof. cbv [select_staging bind query modify gets]. by intros [= <- <-]. Qed.

Lemma migrateSales_Ok ov w ss w' :
  migrateSales P ov w = Ok ss w' →
  ∃ maps acc w0 w1 w2 w3,
    (if ov then delete_migrated_sales else ret tt) w = Ok tt w0 ∧
    tables w1 = tables w0 ∧
    foldM (migrate_row P Vendas maps) (staging_rows "stg_vendas" w1)
      empty_summary w1 = Ok acc w2 ∧
    tables w3 = tables w2 ∧
    foldM (migrate_row P Pedidos maps) (staging_rows "stg_pedidos" w3) acc w3
      = Ok ss w'.
Proof.
  intros H. unfold migrateSales in H.
  apply bind_Ok in H as ([] & w0 & E0 & H).
  apply bind_Ok in H as (m1 & wa & Ea & H).
  apply bind_Ok in H as (m2 & wb & Eb & H).
  apply bind_Ok in H as (m3 & wc & Ec & H).
  apply bind_Ok in H as (m4 & wd & Ed & H).
  cbv zeta in H.
  apply bind_Ok in H as (rows1 & w1 & E1 & H).
  apply bind_Ok in H as (acc & w2 & E2 & H).
  apply bind_Ok in H as (rows2 & w3 & E3 & H).
  apply select_staging_Ok in E1 as [-> ->].
  apply select_staging_Ok in E3 as [-> ->].
  exists {| sellerMap := m1; customerMap := m2; paymentTermMap := m3;
            productMap := m4 |}, acc, w0,
    (set_trace (trace wd ++ [SSelect "stg_vendas"]) wd), w2,
    (set_trace (trace w2 ++ [SSelect "stg_pedidos"]) w2).
  split; [exact E0|].
  split; [|split; [exact E2|split; [reflexivity|exact H]]].
  assert (Hmap : ∀ t u v (m : gmap string uuid),
            buildLegacyMap t u = Ok m v → tables v = tables u).
  { intros t u v m. apply preserves_Ok, buildLegacyMap_frame. unseen. }
  change (tables wd = tables w0).
  by rewrite (Hmap _ _ _ _ Ed), (Hmap _ _ _ _ Ec), (Hmap _ _ _ _ Eb),
    (Hmap _ _ _ _ Ea).
Qed.

Lemma delete_staging (ov : bool) w w0 :
  (if ov then delete_migrated_sales else ret tt) w = Ok tt w0 →
  staging w0 = staging w.
Proof.
  destruct ov; [|by intros [= <-]].
  apply preserves_Ok, delete_migrated_sales_frame; unseen.
Qed.

Lemma migrate_rows_staging k maps rows acc w acc' w' :
  foldM (migrate_row P k maps) rows acc w = Ok acc' w' →
  staging w' = staging w.
Proof.
  apply preserves_Ok, preserves_foldM. intros.
  apply migrate_row_frame; unseen.
Qed.

(** After the sales stage a header exists for every staged sale and
    order that has a key. *)
Lemma migrateSales_present ov w ss w' k row key :
  migrateSales P ov w = Ok ss w' →
  row ∈ staging_rows (staging_table k) w →
  source_key P row = Some key →
  sale_present k key (sale_table w').
Proof.
  intros H Hin Hkey.
  apply migrateSales_Ok in H as (maps & acc & w0 & w1 & w2 & w3 & E0 & T1 & L1 & T3 & L2).
  apply tables_eq in T1 as [C1 S1]. apply tables_eq in T3 as [C3 S3].
  pose proof (delete_staging _ _ _ E0) as S0.
  pose proof (migrate_rows_staging _ _ _ _ _ _ _ L1) as S2.
  apply migrate_rows_sale in L1 as (_ & Hall1 & _).
  apply migrate_rows_sale in L2 as (Hmono2 & Hall2 & _).
  destruct k; simpl in Hin.
  - apply Hmono2. unfold sale_table. rewrite C3. eapply Hall1; [|done].
    unfold staging_rows in *. by rewrite S1, S0.
  - eapply Hall2; [|done].
    unfold staging_rows in *. by rewrite S3, S2, S1, S0.
Qed.

(** Without overwrite, a sales stage that finds every header already
    there adds no header. *)
Lemma migrateSales_length w ss w' :
  migrateSales P false w = Ok ss w' →
  (∀ k row key, row ∈ staging_rows (staging_table k) w →
                source_key P row = Some key →
                sale_present k key (sale_table w)) →
  length (sale_table w') = length (sale_table w).
Proof.
  intros H Hpre.
  apply migrateSales_Ok in H as (maps & acc & w0 & w1 & w2 & w3 & E0 & T1 & L1 & T3 & L2).
  injection E0 as <-.
  apply tables_eq in T1 as [C1 S1]. apply tables_eq in T3 as [C3 S3].
  pose proof (migrate_rows_staging _ _ _ _ _ _ _ L1) as S2.
  apply migrate_rows_sale in L1 as (Hmono1 & _ & Hlen1).
  apply migrate_rows_sale in L2 as (_ & _ & Hlen2).
  rewrite Hlen2.
  - unfold sale_table at 1. rewrite C3. fold (sale_table w2). rewrite Hlen1.
    + unfold sale_table. by rewrite C1.
    + intros row key Hin Hkey. unfold sale_table. rewrite C1.
      apply (Hpre Vendas row key); [|done].
      unfold staging_rows in *. simpl. by rewrite <- S1.
  - intros row key Hin Hkey. unfold sale_table. rewrite C3.
    apply Hmono1. unfold sale_table. rewrite C1.
    apply (Hpre Pedidos row key); [|done].
    unfold staging_rows in *. simpl. by rewrite <- S1, <- S2, <- S3.
Qed.

End Rerun.

(** ** Running an import again *)

Section Counts.

Context (P : Platform).

Lemma reference_unseen :
  ignores set_trace reference ∧ ignores set_next_uuid reference ∧
  ignores_table with_sale reference ∧ ignores_table with_sale_item reference ∧
  ignores_table with_customer_payment reference ∧
  ignores_table with_stock_movement reference.
Proof. by repeat split. Qed.

(** The tables of a completed run in terms of its master-data and sales
    stages. *)
Lemma runImport_tables job w w' :
  runImport P job w = Ok tt w' →
  ∃ a a' b b' ms ss,
    core a = (if overwrite job then empty_core else core w) ∧
    migrateMasterData P (overwrite job) a = Ok ms a' ∧
    tables b = tables a' ∧
    migrateSales P (overwrite job) b = Ok ss b' ∧
    reference w' = reference a' ∧
    sale_table w' = sale_table b' ∧
    sale_table a' = sale_table a ∧
    staging a = staging w' ∧
    staging b = staging w'.
Proof.
  intros H.
  apply runImport_Ok in H
    as (w1 & w1' & w2 & w2' & w3 & w3' & w4 & w4' & ms & ss & pc & sc
        & C1 & M & T2 & S & T3 & Pay & T4 & Stk & T').
  exists w1, w1', w2, w2', ms, ss.
  pose proof (preserves_Ok staging _ _ _ _
    (migrateMasterData_frame P staging ltac:(unseen) ltac:(unseen)
       ltac:(unseen) ltac:(unseen) ltac:(unseen) ltac:(unseen) ltac:(unseen) _)
    M) as SM.
  pose proof (preserves_Ok sale_table _ _ _ _
    (migrateMasterData_frame P sale_table ltac:(unseen) ltac:(unseen)
       ltac:(unseen) ltac:(unseen) ltac:(unseen) ltac:(unseen) ltac:(unseen) _)
    M) as SaM.
  pose proof (preserves_Ok staging _ _ _ _
    (migrateSales_frame P staging ltac:(unseen) ltac:(unseen) ltac:(unseen)
       ltac:(unseen) _) S) as SS.
  pose proof (preserves_Ok reference _ _ _ _
    (migrateSales_frame P reference ltac:(unseen) ltac:(unseen) ltac:(unseen)
       ltac:(unseen) _) S) as RS.
  pose proof (preserves_Ok reference _ _ _ _
    (migrateCustomerPayments_frame P reference ltac:(unseen) ltac:(unseen)
       ltac:(unseen)) Pay) as RP.
  pose proof (preserves_Ok sale_table _ _ _ _
    (migrateCustomerPayments_frame P sale_table ltac:(unseen) ltac:(unseen)
       ltac:(unseen)) Pay) as SaP.
  pose proof (preserves_Ok staging _ _ _ _
    (migrateCustomerPayments_frame P staging ltac:(unseen) ltac:(unseen)
       ltac:(unseen)) Pay) as SP.
  pose proof (preserves_Ok reference _ _ _ _
    (migrateStockMovements_frame P reference ltac:(unseen) ltac:(unseen)
       ltac:(unseen)) Stk) as RK.
  pose proof (preserves_Ok sale_table _ _ _ _
    (migrateStockMovements_frame P sale_table ltac:(unseen) ltac:(unseen)
       ltac:(unseen)) Stk) as SaK.
  pose proof (preserves_Ok staging _ _ _ _
    (migrateStockMovements_frame P staging ltac:(unseen) ltac:(unseen)
       ltac:(unseen)) Stk) as SK.
  apply tables_eq in T2 as [C2 S2]. apply tables_eq in T3 as [C3 S3].
  apply tables_eq in T4 as [C4 S4]. apply tables_eq in T' as [C' S'].
  assert (Hr : ∀ u v, core u = core v → reference u = reference v).
  { intros u v E. unfold reference. by rewrite E. }
  assert (Hs : ∀ u v, core u = core v → sale_table u = sale_table v).
  { intros u v E. unfold sale_table. by rewrite E. }
  split; [done|]. split; [done|].
  split; [unfold tables; by rewrite C2, S2|]. split; [done|].
  split.
  { rewrite (Hr _ _ C'), RK, (Hr _ _ C4), RP, (Hr _ _ C3), RS. by apply Hr. }
  split; [by rewrite (Hs _ _ C'), SaK, (Hs _ _ C4), SaP, (Hs _ _ C3)|].
  split; [done|].
  split; [by rewrite S', SK, S4, SP, S3, SS, S2, SM|].
  by rewrite S', SK, S4, SP, S3, SS.
Qed.

End Counts.

Section Twice.

Context {R : Type} (code : R -> option string) (merge : R -> R -> R).
Hypothesis merge_code : ∀ e r, code (merge e r) = code r.

(** Two statements that propose rows for the same staged codes: the
    second finds them all and inserts nothing. *)
Lemma upsert_twice_length (rows : list (string * Row))
    (xs1 xs2 : list (uuid -> R)) t0 n0 t1 n1 m1 t2 n2 :
  Forall2 (fun s x => keyed code x (Pg.trim s.1)) rows xs1 →
  Forall2 (fun s x => keyed code x (Pg.trim s.1)) rows xs2 →
  upsert_rows code merge xs1 [] t0 n0 = Some (t1, n1) →
  upsert_rows code merge xs2 [] t1 m1 = Some (t2, n2) →
  length t2 = length t1.
Proof.
  intros F1 F2 U1 U2.
  apply (upsert_rows_present code merge merge_code) in U1 as [_ Hall].
  eapply (upsert_rows_length code merge merge_code) in U2 as [-> _]; [done|].
  intros x2 Hx2.
  apply list_elem_of_lookup in Hx2 as [i Hi].
  destruct (Forall2_lookup_r _ _ _ _ _ F2 Hi) as (s & Hs & Hkey2).
  destruct (Forall2_lookup_l _ _ _ _ _ F1 Hs) as (x1 & Hx1 & Hkey1).
  exists (Pg.trim s.1). split; [done|].
  eapply Hall; [|done]. by eapply list_elem_of_lookup_2.
Qed.

End Twice.

Section CountsAgain.

Context (P : Platform).

Lemma keyed_group rows :
  Forall2 (fun s x => keyed cn_legacy_code x (Pg.trim s.1)) rows
    (map proposed_group rows).
Proof. apply Forall2_map_same. by intros s _ i. Qed.

Lemma keyed_mapM {R} (code : R -> option string)
    (f : string * Row -> option (uuid -> R)) rows xs :
  (∀ s x, f s = Some x → keyed code x (Pg.trim s.1)) →
  mapM f rows = Some xs →
  Forall2 (fun s x => keyed code x (Pg.trim s.1)) rows xs.
Proof.
  intros Hf H. apply mapM_Some in H.
  induction H as [|s x rows xs Hsx _ IH]; constructor; auto.
Qed.

Lemma keyed_product groups s x :
  proposed_product P groups s = Some x → keyed pr_legacy_code x (Pg.trim s.1).
Proof.
  unfold proposed_product. intros H.
  repeat (apply bind_Some in H as (? & _ & H)).
  injection H as <-. by intros i.
Qed.

Lemma keyed_customer s x :
  proposed_customer P s = Some x → keyed cu_legacy_code x (Pg.trim s.1).
Proof.
  unfold proposed_customer. intros H.
  repeat (apply bind_Some in H as (? & _ & H)).
  injection H as <-. by intros i.
Qed.

Lemma keyed_named c s x :
  proposed_named c s = Some x → keyed cn_legacy_code x (Pg.trim s.1).
Proof.
  unfold proposed_named. intros H.
  repeat (apply bind_Some in H as (? & _ & H)).
  injection H as <-. by intros i.
Qed.

(** C4. Reference-entity idempotence: when a completed import is followed
    by a second completed import of the same staged data with
    overwrite=false, the second run leaves the row count of every
    reference table (product_group, product, customer, seller,
    payment_term) and of the sale headers as the first run left it. *)
Theorem rerun_keeps_row_counts (job1 job2 : LegacyImportJob)
    (w0 w1 w2 : World) :
  runImport P job1 w0 = Ok tt w1 →
  runImport P job2 w1 = Ok tt w2 →
  overwrite job2 = false →
  staging w2 = staging w1 →
  length (product_group (core w2)) = length (product_group (core w1)) ∧
  length (product (core w2)) = length (product (core w1)) ∧
  length (customer (core w2)) = length (customer (core w1)) ∧
  length (seller (core w2)) = length (seller (core w1)) ∧
  length (payment_term (core w2)) = length (payment_term (core w1)) ∧
  length (sale (core w2)) = length (sale (core w1)).
Proof.
  intros R1 R2 Hov Hstg.
  apply runImport_tables in R1
    as (a & a' & b & b' & ms & ss & Ca & Ma & Tb & Sb & Ref1 & Sal1 & _ & Sa & Sb').
  apply runImport_tables in R2
    as (c & c' & d & d' & ms2 & ss2 & Cc & Mc & Td & Sd & Ref2 & Sal2 & SalM & Sc & Sd').
  rewrite Hov in *.
  assert (Hrows : ∀ t, staging_rows t c = staging_rows t a).
  { intros t. unfold staging_rows. by rewrite Sc, Hstg, Sa. }
  injection Ref1 as G1 P1 C1 S1 T1. injection Ref2 as G2 P2 C2 S2 T2.
  assert (Hc : reference c = reference a').
  { unfold reference. rewrite Cc. by rewrite G1, P1, C1, S1, T1. }
  injection Hc as Gc Pc Cuc Sc0 Tc.
  apply migrateMasterData_Ok in Ma
    as ((n1 & n1' & Ug) & (xp & n2 & n2' & Xp & Up) & (xc & n3 & n3' & Xc & Uc)
        & (xs & n4 & n4' & Xs & Us) & (xt & n5 & n5' & Xt & Ut)).
  apply migrateMasterData_Ok in Mc
    as ((m1 & m1' & Vg) & (yp & m2 & m2' & Yp & Vp) & (yc & m3 & m3' & Yc & Vc)
        & (ys & m4 & m4' & Ys & Vs) & (yt & m5 & m5' & Yt & Vt)).
  cbv zeta in *. rewrite !Hrows in *.
  rewrite Gc in Vg. rewrite Pc in Vp. rewrite Cuc in Vc. rewrite Sc0 in Vs.
  rewrite Tc in Vt.
  rewrite G1, G2, P1, P2, C1, C2, S1, S2, T1, T2.
  split; [|split; [|split; [|split; [|split]]]].
  - exact (upsert_twice_length cn_legacy_code merge_name (fun _ _ => eq_refl)
             _ _ _ _ _ _ _ _ _ _ (keyed_group _) (keyed_group _) Ug Vg).
  - exact (upsert_twice_length pr_legacy_code merge_product (fun _ _ => eq_refl)
             _ _ _ _ _ _ _ _ _ _
             (keyed_mapM _ _ _ _ (keyed_product _) Xp)
             (keyed_mapM _ _ _ _ (keyed_product _) Yp) Up Vp).
  - exact (upsert_twice_length cu_legacy_code merge_customer
             (fun _ _ => eq_refl) _ _ _ _ _ _ _ _ _ _
             (keyed_mapM _ _ _ _ keyed_customer Xc)
             (keyed_mapM _ _ _ _ keyed_customer Yc) Uc Vc).
  - exact (upsert_twice_length cn_legacy_code merge_name (fun _ _ => eq_refl)
             _ _ _ _ _ _ _ _ _ _
             (keyed_mapM _ _ _ _ (keyed_named _) Xs)
             (keyed_mapM _ _ _ _ (keyed_named _) Ys) Us Vs).
  - exact (upsert_twice_length cn_legacy_code merge_name (fun _ _ => eq_refl)
             _ _ _ _ _ _ _ _ _ _
             (keyed_mapM _ _ _ _ (keyed_named _) Xt)
             (keyed_mapM _ _ _ _ (keyed_named _) Yt) Ut Vt).
  - change (length (sale_table w2) = length (sale_table w1)).
    rewrite Sal2, Sal1.
    apply tables_eq in Td as [Cd Sd0].
    assert (Hd : sale_table d = sale_table b').
    { unfold sale_table at 1. rewrite Cd. fold (sale_table c').
      rewrite SalM. unfold sale_table at 1. rewrite Cc.
      fold (sale_table w1). exact Sal1. }
    rewrite <- Hd. apply (migrateSales_length P d ss2 d' Sd).
    intros k row key Hin Hkey. rewrite Hd.
    eapply migrateSales_present; [exact Sb| |done].
    unfold staging_rows in *. by rewrite Sb', <- Hstg, <- Sd'.
Qed.

End CountsAgain.

(** The sample upload imported from session s1 and then again from
    session s2. *)
Lemma rerun_keeps_row_counts_witness :
  overwrite (Sample.job 2 "s2" false) = false ∧
  staging Sample.after_second = staging Sample.after_first ∧
  length (product_group (core Sample.after_second))
    = length (product_group (core Sample.after_first)) ∧
  length (product (core Sample.after_second))
    = length (product (core Sample.after_first)) ∧
  length (customer (core Sample.after_second))
    = length (customer (core Sample.after_first)) ∧
  length (seller (core Sample.after_second))
    = length (seller (core Sample.after_first)) ∧
  length (payment_term (core Sample.after_second))
    = length (payment_term (core Sample.after_first)) ∧
  length (sale (core Sample.after_second))
    = length (sale (core Sample.after_first)).
Proof.
  assert (Hs : staging Sample.after_second = staging Sample.after_first)
    by by_computation.
  split; [reflexivity|]. split; [exact Hs|].
  apply (rerun_keeps_row_counts Sample.platform (Sample.job 1 "s1" false)
           (Sample.job 2 "s2" false) Sample.world Sample.after_first
           Sample.after_second).
  - apply returned_final. by_computation.
  - apply returned_final. by_computation.
  - reflexivity.
  - exact Hs.
Defined.

(** ** Overwrite *)

Section UpsertOrigin.

Context {R : Type} (code : R -> option string) (merge : R -> R -> R).
Hypothesis merge_code : ∀ e r, code (merge e r) = code r.

(** A row of the table after an upsert has the code of a row that was
    there or of a proposed row. *)
Lemma upsert_rows_codes xs seen t n t' n' r :
  upsert_rows code merge xs seen t n = Some (t', n') →
  r ∈ t' →
  (∃ r0, r0 ∈ t ∧ code r = code r0) ∨ (∃ x i, x ∈ xs ∧ code r = code (x i)).
Proof.
  revert seen t n. induction xs as [|x xs IH]; intros seen t n; simpl.
  - intros [= <- <-] Hr. left. by exists r.
  - assert (Hstep : ∀ seen' t1 n1,
      upsert_rows code merge xs seen' t1 n1 = Some (t', n') →
      (∀ r1, r1 ∈ t1 → (∃ r0, r0 ∈ t ∧ code r1 = code r0) ∨ code r1 = code (x n)) →
      r ∈ t' →
      (∃ r0, r0 ∈ t ∧ code r = code r0)
      ∨ (∃ y i, y ∈ x :: xs ∧ code r = code (y i))).
    { intros seen' t1 n1 H Ht1 Hr.
      destruct (IH _ _ _ H Hr) as [(r1 & Hr1 & E)|(y & i & Hy & E)].
      - destruct (Ht1 _ Hr1) as [(r0 & Hr0 & E0)|E0].
        + left. exists r0. split; [done|]. congruence.
        + right. exists x, n. split; [left|congruence].
      - right. exists y, i. split; [by right|done]. }
    assert (Happ : ∀ r1, r1 ∈ t ++ [x n] →
              (∃ r0, r0 ∈ t ∧ code r1 = code r0) ∨ code r1 = code (x n)).
    { intros r1 Hr1. apply elem_of_app in Hr1 as [Hr1|Hr1].
      - left. by exists r1.
      - apply list_elem_of_singleton in Hr1 as ->. by right. }
    destruct (code (x n)) as [k|] eqn:Hk.
    + case_bool_decide as Hseen; [done|].
      destruct (existsb (has_code code k) t).
      * intros H. apply (Hstep _ _ _ H). intros r1 Hr1.
        apply list_elem_of_fmap in Hr1 as (r0 & -> & Hr0).
        left. exists r0. split; [done|].
        destruct (has_code code k r0); [apply merge_code|done].
      * intros H. by apply (Hstep _ _ _ H).
    + intros H. by apply (Hstep _ _ _ H).
Qed.

(** On an empty table, every row comes from the statement. *)
Lemma upsert_rows_fresh (rows : list (string * Row)) xs n t' n' :
  Forall2 (fun s x => keyed code x (Pg.trim s.1)) rows xs →
  upsert_rows code merge xs [] [] n = Some (t', n') →
  coded_from code (map (fun s => Pg.trim s.1) rows) t'.
Proof.
  intros F U r Hr.
  destruct (upsert_rows_codes _ _ _ _ _ _ _ U Hr)
    as [(r0 & Hr0 & _)|(x & i & Hx & E)].
  - by apply elem_of_nil in Hr0.
  - apply list_elem_of_lookup in Hx as [j Hj].
    destruct (Forall2_lookup_r _ _ _ _ _ F Hj) as (s & Hs & Hkey).
    exists (Pg.trim s.1). split; [|by rewrite E].
    apply list_elem_of_fmap. exists s. split; [done|].
    by eapply list_elem_of_lookup_2.
Qed.

End UpsertOrigin.

Section OverwriteScope.

Context (P : Platform).

Lemma is_sale_migrated k key r : is_sale k key r = true → migrated_source r = true.
Proof.
  unfold is_sale, migrated_source. intros H.
  apply andb_true_iff in H as [H _]. apply bool_decide_eq_true in H.
  rewrite H. by destruct k.
Qed.

Lemma sale_step_keeps k v n t r :
  migrated_source r = false → r ∈ t → r ∈ sale_step k v n t.
Proof.
  intros Hr Hin. unfold sale_step.
  destruct (existsb (is_sale k (sv_key v)) t).
  - apply list_elem_of_fmap. exists r. split; [|done].
    destruct (is_sale k (sv_key v) r) eqn:E; [|done].
    apply is_sale_migrated in E. congruence.
  - apply elem_of_app. by left.
Qed.

Lemma migrate_rows_keep k maps rows acc w acc' w' r :
  foldM (migrate_row P k maps) rows acc w = Ok acc' w' →
  migrated_source r = false → r ∈ sale_table w → r ∈ sale_table w'.
Proof.
  revert acc w. induction rows as [|row rows IH]; intros acc w; cbn [foldM].
  - by intros [= _ <-].
  - intros H Hr Hin. apply bind_Ok in H as (acc1 & w1 & E & H).
    eapply IH; [exact H|done|].
    apply migrate_row_sale in E. destruct (source_key P row).
    + destruct E as (v & n & _ & ->). by apply sale_step_keeps.
    + by rewrite E.
Qed.

Lemma delete_migrated_sales_Ok w w0 :
  delete_migrated_sales w = Ok tt w0 →
  sale_table w0 = filter (fun r => migrated_source r = false) (sale_table w).
Proof.
  cbv [delete_migrated_sales bind query update_core modify].
  by intros [= <-].
Qed.

(** C2, as amended. With overwrite=true the delete of [migrateSales]
    removes only sale rows whose source is VENDAS or PEDIDOS and the
    stage leaves the five reference tables as they are; but the run has
    by then truncated all nine core tables, so after a completed
    overwrite run every row of a reference table carries a legacy code
    staged by this run: reference data are replaced, not merged. *)
Theorem overwrite_scope :
  (∀ w ss w',
     migrateSales P true w = Ok ss w' →
     reference w' = reference w ∧
     ∀ r, r ∈ sale (core w) → migrated_source r = false → r ∈ sale (core w')) ∧
  (∀ job w w',
     overwrite job = true →
     runImport P job w = Ok tt w' →
     coded_from cn_legacy_code (staged_codes "stg_grupo" "cod_grup" w')
       (product_group (core w')) ∧
     coded_from pr_legacy_code (staged_codes "stg_produto" "cod_prod" w')
       (product (core w')) ∧
     coded_from cu_legacy_code (staged_codes "stg_clientes" "codigo" w')
       (customer (core w')) ∧
     coded_from cn_legacy_code (staged_codes "stg_vendedor" "codigo" w')
       (seller (core w')) ∧
     coded_from cn_legacy_code (staged_codes "stg_forma_pg" "cod_fpg" w')
       (payment_term (core w'))).
Proof.
  split.
  - intros w ss w' H. split.
    + apply (preserves_Ok reference _ _ _ _
               (migrateSales_frame P reference ltac:(unseen) ltac:(unseen)
                  ltac:(unseen) ltac:(unseen) _) H).
    + intros r Hin Hr.
      apply migrateSales_Ok in H
        as (maps & acc & w0 & w1 & w2 & w3 & E0 & T1 & L1 & T3 & L2).
      apply tables_eq in T1 as [C1 _]. apply tables_eq in T3 as [C3 _].
      apply delete_migrated_sales_Ok in E0.
      change (r ∈ sale_table w').
      eapply migrate_rows_keep; [exact L2|done|].
      unfold sale_table. rewrite C3.
      eapply migrate_rows_keep; [exact L1|done|].
      unfold sale_table. rewrite C1. fold (sale_table w0). rewrite E0.
      by apply list_elem_of_filter.
  - intros job w w' Hov H.
    apply runImport_tables in H
      as (a & a' & b & b' & ms & ss & Ca & Ma & _ & _ & Ref & _ & _ & Sa & _).
    rewrite Hov in Ca. injection Ref as -> -> -> -> ->.
    apply migrateMasterData_Ok in Ma
      as ((n1 & n1' & Ug) & (xp & n2 & n2' & Xp & Up) & (xc & n3 & n3' & Xc & Uc)
          & (xs & n4 & n4' & Xs & Us) & (xt & n5 & n5' & Xt & Ut)).
    cbv zeta in *. rewrite Ca in *. cbn [empty_core product_group product
      customer seller payment_term] in *.
    unfold staged_codes, staging_rows in *. rewrite <- Sa.
    split; [|split; [|split; [|split]]].
    + exact (upsert_rows_fresh cn_legacy_code merge_name (fun _ _ => eq_refl)
               _ _ _ _ _ (keyed_group _) Ug).
    + exact (upsert_rows_fresh pr_legacy_code merge_product (fun _ _ => eq_refl)
               _ _ _ _ _ (keyed_mapM _ _ _ _ (keyed_product P _) Xp) Up).
    + exact (upsert_rows_fresh cu_legacy_code merge_customer
               (fun _ _ => eq_refl) _ _ _ _ _
               (keyed_mapM _ _ _ _ (keyed_customer P) Xc) Uc).
    + exact (upsert_rows_fresh cn_legacy_code merge_name (fun _ _ => eq_refl)
               _ _ _ _ _ (keyed_mapM _ _ _ _ (keyed_named _) Xs) Us).
    + exact (upsert_rows_fresh cn_legacy_code merge_name (fun _ _ => eq_refl)
               _ _ _ _ _ (keyed_mapM _ _ _ _ (keyed_named _) Xt) Ut).
Qed.

End OverwriteScope.

(** C2, counterexample. The sample database holds a product group with
    legacy code OLD that the upload does not contain; the import of the
    upload with overwrite=true completes and the group is gone. *)
Lemma overwrite_deletes_reference_rows :
  runImport Sample.platform (Sample.job 1 "s1" true) Sample.world
    = Ok tt Sample.after_overwrite ∧
  map cn_legacy_code (product_group (core Sample.world)) = [Some "OLD"] ∧
  map cn_legacy_code (product_group (core Sample.after_overwrite)) = [Some "1"].
Proof.
  split; [apply returned_final; by_computation|]. split; by_computation.
Qed.

(** The same run, for the amended statement. *)
Lemma overwrite_scope_witness :
  overwrite (Sample.job 1 "s1" true) = true ∧
  coded_from cn_legacy_code
    (staged_codes "stg_grupo" "cod_grup" Sample.after_overwrite)
    (product_group (core Sample.after_overwrite)).
Proof.
  split; [reflexivity|].
  apply (proj2 (overwrite_scope Sample.platform) (Sample.job 1 "s1" true)
           Sample.world Sample.after_overwrite eq_refl).
  apply returned_final. by_computation.
Defined.

(** ** Unresolved product codes *)

Lemma upsert_sale_id k v w i w' :
  upsert_sale k v w = Ok i w' →
  ∃ v0 r, v = Some v0 ∧ r ∈ sale_table w' ∧ sa_id r = i ∧
          is_sale k (sv_key v0) r = true.
Proof.
  cbv [upsert_sale bind query modify expect ret throw].
  destruct v as [v0|]; [|done]. cbv beta iota.
  destruct (List.find _ _) as [r0|] eqn:Ef; intros [= <- <-]; exists v0.
  - apply find_some in Ef as [Hin Hr0]. apply list_elem_of_In in Hin.
    exists (merge_sale k v0 r0). split; [done|]. split; [|by split].
    unfold sale_table. cbn. apply list_elem_of_fmap. exists r0.
    split; [|done]. cbn in Hr0. by rewrite Hr0.
  - exists (new_sale k (next_uuid w) v0). split; [done|].
    split; [|split; [done|apply is_sale_new]].
    unfold sale_table. cbn. apply elem_of_app. right. left.
Qed.

Section Mismatch.

Context (P : Platform).

Lemma insert_sale_item_Ok s p item w w' :
  insert_sale_item P s p item w = Ok tt w' →
  ∃ r, si_sale_id r = Some s ∧ sale_item (core w') = sale_item (core w) ++ [r].
Proof.
  unfold insert_sale_item. intros H.
  apply bind_Ok in H as ([] & w1 & E1 & H).
  apply bind_Ok in H as (q & w2 & E2 & H).
  apply bind_Ok in H as (u & w3 & E3 & H).
  apply bind_Ok in H as (l & w4 & E4 & H).
  apply bind_Ok in H as (i & w5 & E5 & H).
  cbv [query modify] in E1. injection E1 as <-.
  assert (He : ∀ {A} msg (o : option A) u v a, expect msg o u = Ok a v → v = u).
  { intros A msg o u0 v a. destruct o; cbv [expect ret throw]; [|done].
    by intros [= _ <-]. }
  apply He in E2 as ->. apply He in E3 as ->. apply He in E4 as ->.
  cbv [fresh_uuid] in E5. injection E5 as <- <-.
  cbv [update_core modify] in H. injection H as <-.
  eexists. split; [|reflexivity]. reflexivity.
Qed.

(** The items of one row: a resolved item adds one row for the sale, an
    unresolved one adds a mismatch text, in order. *)
Lemma migrate_items_Ok k (m : gmap string uuid) saleId key items acc w acc' w' :
  foldM (migrate_item P k m saleId key) items acc w = Ok acc' w' →
  mismatches acc'
  = mismatches acc
    ++ map (fun item => mismatch_text k key (cod item))
         (filter (fun item => m !! cod item = None) items) ∧
  ∃ rows,
    sale_item (core w') = sale_item (core w) ++ rows ∧
    Forall (fun r => si_sale_id r = Some saleId) rows ∧
    length rows = length (filter (fun item => is_Some (m !! cod item)) items).
Proof.
  revert acc w. induction items as [|item items IH]; intros acc w; cbn [foldM].
  - intros [= <- <-]. split; [by rewrite app_nil_r|].
    exists []. by rewrite app_nil_r.
  - intros H. apply bind_Ok in H as (acc1 & w1 & E & H).
    apply IH in H as (Hm & rows & Hrows & Hall & Hlen).
    unfold migrate_item in E. rewrite !filter_cons.
    destruct (m !! cod item) as [p|] eqn:Hp.
    + apply bind_Ok in E as ([] & w1' & E & R). injection R as <- <-.
      apply insert_sale_item_Ok in E as (r & Hr & E).
      rewrite decide_False by done. rewrite decide_True by done.
      assert (Hc : mismatches (count_item k acc) = mismatches acc)
        by by destruct k.
      rewrite Hc in Hm.
      split; [done|]. exists (r :: rows).
      rewrite Hrows, E, <- app_assoc. split; [done|].
      split; [by constructor|]. simpl. by rewrite Hlen.
    + injection E as <- <-.
      rewrite decide_True by done.
      rewrite decide_False by (by intros [? ?]).
      split; [rewrite Hm; simpl; by rewrite <- app_assoc|].
      by exists rows.
Qed.

Lemma delete_sale_items_Ok i w w' :
  delete_sale_items i w = Ok tt w' →
  sale_item (core w')
  = filter (fun r => si_sale_id r ≠ Some i) (sale_item (core w)).
Proof.
  cbv [delete_sale_items bind query update_core modify]. by intros [= <-].
Qed.

(** C6, as amended. An item whose product code is not in the lookup
    table is skipped without a statement and without a throw, and a
    mismatch text that names the key and the code is added: it starts
    with Sale for a row of stg_vendas and with Order for a row of
    stg_pedidos.  After the row is migrated its header exists, every
    unresolved code of the row has its text in the summary, and the
    sale has one item row per resolved item. *)
Theorem unresolved_product_is_skipped :
  (∀ k (m : gmap string uuid) saleId key acc item w,
     m !! cod item = None →
     migrate_item P k m saleId key acc item w
     = Ok (push_mismatch (mismatch_text k key (cod item)) acc) w) ∧
  (∀ key code,
     mismatch_text Vendas key code
     = "Sale " +:+ key +:+ ": product " +:+ code +:+ " not found" ∧
     mismatch_text Pedidos key code
     = "Order " +:+ key +:+ ": product " +:+ code +:+ " not found") ∧
  (∀ k maps acc row w acc' w' key,
     migrate_row P k maps acc row w = Ok acc' w' →
     source_key P row = Some key →
     (∀ item, item ∈ extractSaleItems P row →
              productMap maps !! cod item = None →
              mismatch_text k key (cod item) ∈ mismatches acc') ∧
     ∃ header,
       header ∈ sale (core w') ∧ is_sale k key header = true ∧
       length (filter (fun r => si_sale_id r = Some (sa_id header))
                 (sale_item (core w')))
       = length (filter (fun item => is_Some (productMap maps !! cod item))
                   (extractSaleItems P row))).
Proof.
  split; [|split].
  - intros k m saleId key acc item w Hm. unfold migrate_item. by rewrite Hm.
  - intros key code. by split.
  - intros k maps acc row w acc' w' key H Hkey.
    unfold migrate_row in H. rewrite Hkey in H.
    apply bind_Ok in H as (i & w1 & E1 & H).
    apply bind_Ok in H as ([] & w2 & E2 & H).
    apply bind_Ok in H as (acc1 & w3 & E3 & H).
    injection H as <- <-.
    apply upsert_sale_id in E1 as (v & header & Hv & Hin & Hid & Hsale).
    apply sale_values_key in Hv. rewrite Hv in Hsale.
    pose proof (preserves_Ok sale_table _ _ _ _
      (delete_sale_items_frame sale_table ltac:(unseen) ltac:(unseen) i) E2)
      as S2.
    pose proof (preserves_Ok sale_table _ _ _ _
      (preserves_foldM sale_table _ _ _
         (fun acc x _ =>
            migrate_item_frame P sale_table ltac:(unseen) ltac:(unseen)
              ltac:(unseen) k (productMap maps) i key acc x)) E3) as S3.
    apply delete_sale_items_Ok in E2.
    apply migrate_items_Ok in E3 as (Hm & rows & Hrows & Hall & Hlen).
    split.
    + intros item Hitem Hnone.
      assert (Hc : mismatches (count_header k acc1) = mismatches acc1)
        by by destruct k.
      rewrite Hc, Hm. apply elem_of_app. right.
      apply list_elem_of_fmap. exists item. split; [done|].
      by apply list_elem_of_filter.
    + exists header. split; [|split; [done|]].
      * change (header ∈ sale_table w3). by rewrite S3, S2.
      * rewrite Hid, Hrows, E2, filter_app, length_app, <- Hlen.
        assert (H0 : filter (fun r => si_sale_id r = Some i)
                       (filter (fun r => si_sale_id r ≠ Some i)
                          (sale_item (core w1))) = []).
        { clear. induction (sale_item (core w1)) as [|r l IH]; [done|].
          rewrite filter_cons. destruct (decide (si_sale_id r ≠ Some i)).
          - rewrite filter_cons, decide_False by done. exact IH.
          - exact IH. }
        rewrite H0. simpl. f_equal.
        clear -Hall. induction Hall as [|r rows Hr _ IH]; [done|].
        by rewrite filter_cons, decide_True, IH.
Qed.

End Mismatch.

(** C6, counterexample. In the import of the sample upload the order
    200 has an item with the unknown product code 77; the run completes
    and the text stored for that item starts with Order, not with Sale. *)
Lemma order_mismatch_is_labelled_order :
  runImport Sample.platform (Sample.job 1 "s1" false) Sample.world
    = Ok tt Sample.after_first ∧
  map (fun r => (sa_source r, sa_source_key r)) (sale (core Sample.after_first))
    = [ (Some "VENDAS", Some "100"); (Some "PEDIDOS", Some "200") ] ∧
  map (fun r => mismatches ∘ os_sales <$> imp_summary r)
      (filter (fun r => imp_id r = 1) (imports Sample.after_first))
    = [ Some [ "Sale 100: product 99 not found";
               "Order 200: product 77 not found" ] ].
Proof.
  split; [apply returned_final; by_computation|]. split; by_computation.
Qed.

(** The staged order of the sample, for the amended statement. *)
Lemma unresolved_product_is_skipped_witness :
  Sample.order_run
    = Ok Sample.order_summary (final Sample.order_run) ∧
  source_key Sample.platform Sample.order_row = Some "200" ∧
  (∀ item, item ∈ extractSaleItems Sample.platform Sample.order_row →
           productMap Sample.no_maps !! cod item = None →
           mismatch_text Pedidos "200" (cod item)
             ∈ mismatches Sample.order_summary) ∧
  ∃ header,
    header ∈ sale (core (final Sample.order_run)) ∧
    is_sale Pedidos "200" header = true ∧
    length (filter (fun r => si_sale_id r = Some (sa_id header))
              (sale_item (core (final Sample.order_run))))
    = length (filter (fun item => is_Some (productMap Sample.no_maps !! cod item))
                (extractSaleItems Sample.platform Sample.order_row)).
Proof.
  assert (R : Sample.order_run
              = Ok Sample.order_summary (final Sample.order_run))
    by (apply returned_Ok; by_computation).
  assert (K : source_key Sample.platform Sample.order_row = Some "200")
    by by_computation.
  split; [exact R|]. split; [exact K|].
  exact (proj2 (proj2 (unresolved_product_is_skipped Sample.platform))
           Pedidos Sample.no_maps empty_summary Sample.order_row
           Sample.after_first _ _ "200" R K).
Defined.

(** ** Ids are not given out twice *)

Lemma grows_ret {A} (a : A) : grows (ret a).
Proof. by intros w. Qed.

Lemma grows_throw {A} msg : grows (@throw A msg).
Proof. by intros w. Qed.

Lemma grows_gets {A} (f : World -> A) : grows (gets f).
Proof. by intros w. Qed.

Lemma grows_expect {A} msg (o : option A) : grows (expect msg o).
Proof. destruct o; by intros w. Qed.

Lemma grows_modify (f : World -> World) :
  (∀ w, (next_uuid w ≤ next_uuid (f w))%nat) → grows (modify f).
Proof. intros H w. apply H. Qed.

Lemma grows_bind {A B} (m : M A) (k : A -> M B) :
  grows m → (∀ a, grows (k a)) → grows (bind m k).
Proof.
  intros Hm Hk w. rewrite final_bind. specialize (Hm w).
  destruct (m w) as [a w1|msg w1]; simpl in *; [|done].
  specialize (Hk a w1). lia.
Qed.

Lemma grows_try_catch {A} (m : M A) (h : string -> M A) :
  grows m → (∀ msg, grows (h msg)) → grows (try_catch m h).
Proof.
  intros Hm Hh w. unfold try_catch. specialize (Hm w).
  destruct (m w) as [a w1|msg w1]; simpl in *; [done|].
  specialize (Hh msg w1). lia.
Qed.

Lemma grows_foldM {A B} (body : B -> A -> M B) (l : list A) (acc : B) :
  (∀ acc x, grows (body acc x)) → grows (foldM body l acc).
Proof.
  intros H. revert acc. induction l as [|x l IH]; intros acc; simpl.
  - apply grows_ret.
  - apply grows_bind; [apply H|]. intros acc'. apply IH.
Qed.

Lemma grows_forM {A} (body : A -> M unit) (l : list A) :
  (∀ x, grows (body x)) → grows (forM body l).
Proof. intros H. apply grows_foldM. intros _ x. apply H. Qed.

Lemma grows_Ok {A} (m : M A) w a w' :
  grows m → m w = Ok a w' → (next_uuid w ≤ next_uuid w')%nat.
Proof. intros H E. specialize (H w). by rewrite E in H. Qed.

Create HintDb grows.

Ltac grow_step :=
  lazymatch goal with
  | |- grows (bind _ _) => apply grows_bind; [|intros ?]
  | |- grows (ret _) => apply grows_ret
  | |- grows (throw _) => apply grows_throw
  | |- grows (gets _) => apply grows_gets
  | |- grows (expect _ _) => apply grows_expect
  | |- grows (try_catch _ _) => apply grows_try_catch; [|intros ?]
  | |- grows (foldM _ _ _) => apply grows_foldM; intros ? ?
  | |- grows (forM _ _) => apply grows_forM; intros ?
  | |- grows (modify _) => apply grows_modify; intros ?; simpl; lia
  | |- grows (query _) => unfold query; apply grows_modify; intros ?; simpl; lia
  | |- grows (update_core _) =>
      unfold update_core; apply grows_modify; intros ?; simpl; lia
  | |- grows (if ?b then _ else _) => destruct b
  | |- grows (match ?x with _ => _ end) => destruct x
  | |- grows (let _ := _ in _) => cbv zeta
  | |- grows _ => solve [auto with grows]
  end.

Ltac grow := repeat grow_step.

Lemma upsert_rows_next {R} (code : R -> option string) merge xs seen t n rows n' :
  upsert_rows code merge xs seen t n = Some (rows, n') → (n ≤ n')%nat.
Proof.
  revert seen t n. induction xs as [|x xs IH]; intros seen t n; simpl.
  - by intros [= _ <-].
  - destruct (code (x n)) as [k|].
    + case_bool_decide; [done|].
      destruct (existsb _ t); intros E; apply IH in E; lia.
    + intros E. apply IH in E. lia.
Qed.

Lemma now_grows : grows now.
Proof. intros w. cbv [now final]. simpl. lia. Qed.

Lemma fresh_uuid_grows : grows fresh_uuid.
Proof. intros w. cbv [fresh_uuid final]. simpl. lia. Qed.

Lemma fs_op_grows {A} msg (f : list entry -> option (A * list entry)) :
  grows (fs_op msg f).
Proof.
  intros w. unfold fs_op. destruct (f (fs w)) as [[a es]|]; simpl; lia.
Qed.

Lemma fs_steps_grows {A} msg (f : list entry -> option (A * list entry)) g :
  grows (fs_steps msg f g).
Proof.
  intros w. unfold fs_steps. destruct (f (fs w)) as [[a es]|]; simpl; lia.
Qed.

Lemma upsert_grows {R} t get (put : list R -> Core -> Core) code merge proposed :
  grows (upsert t get put code merge proposed).
Proof.
  unfold upsert. apply grows_bind; [grow|intros _ w].
  destruct (proposed w) as [xs|]; [|simpl; lia].
  destruct (upsert_rows _ _ _ _ _ _) as [[rows next]|] eqn:E; [|simpl; lia].
  apply upsert_rows_next in E. simpl. lia.
Qed.

Lemma upsert_sale_grows k v : grows (upsert_sale k v).
Proof.
  unfold upsert_sale. apply grows_bind; [grow|intros _].
  apply grows_bind; [grow|intros v0 w].
  destruct (List.find _ _); simpl; lia.
Qed.

#[local] Hint Resolve now_grows fresh_uuid_grows fs_op_grows fs_steps_grows
  upsert_grows
  upsert_sale_grows : grows.

Lemma appendLog_grows i l msg : grows (appendLog i l msg).
Proof. unfold appendLog. grow. Qed.

Lemma updateImportStatus_grows i st fields :
  grows (updateImportStatus i st fields).
Proof. unfold updateImportStatus. grow. Qed.

Lemma ensureSchema_grows : grows ensureSchema.
Proof.
  unfold ensureSchema, ensureCoreTables, ensureLegacyImportTables,
    ensureStagingTables.
  grow.
Qed.

Lemma check_required_grows files : grows (check_required files).
Proof. unfold check_required. grow. Qed.

Lemma truncateCoreTables_grows : grows truncateCoreTables.
Proof. intros w. rewrite truncateCoreTables_Ok. simpl. lia. Qed.

Lemma truncateStagingTables_grows : grows truncateStagingTables.
Proof. unfold truncateStagingTables, set_staging_rows. grow. Qed.

Lemma buildLegacyMap_grows t : grows (buildLegacyMap t).
Proof. unfold buildLegacyMap. grow. Qed.

Lemma select_staging_grows t : grows (select_staging t).
Proof. unfold select_staging. grow. Qed.

Lemma count_staging_grows t : grows (count_staging t).
Proof. unfold count_staging. grow. Qed.

#[local] Hint Resolve appendLog_grows updateImportStatus_grows
  ensureSchema_grows check_required_grows truncateCoreTables_grows
  truncateStagingTables_grows buildLegacyMap_grows select_staging_grows
  count_staging_grows : grows.

Section Grows.

Context (P : Platform).

Lemma load_batches_grows fuel config remaining total :
  grows (load_batches P fuel config remaining total).
Proof.
  revert remaining total. induction fuel as [|fuel IH]; intros remaining total.
  - apply grows_ret.
  - cbn [load_batches].
    destruct (take 500 remaining) as [|r rs]; [apply grows_ret|].
    apply grows_bind; [|intros ?; apply IH].
    apply grows_foldM. intros ? ?.
    unfold insert_staging, set_staging_rows. grow.
Qed.

Lemma loadDbfIntoStaging_grows i config files :
  grows (loadDbfIntoStaging P i config files).
Proof.
  unfold loadDbfIntoStaging, ensureStagingTable, set_staging_rows.
  pose proof load_batches_grows. grow.
Qed.

Lemma load_all_grows i files : grows (load_all P i files).
Proof. unfold load_all. pose proof loadDbfIntoStaging_grows. grow. Qed.

Lemma migrateMasterData_grows ov : grows (migrateMasterData P ov).
Proof. unfold migrateMasterData. grow. Qed.

Lemma migrate_row_grows k maps acc row : grows (migrate_row P k maps acc row).
Proof.
  unfold migrate_row, migrate_item, insert_sale_item, delete_sale_items.
  grow.
Qed.

Lemma migrateSales_grows ov : grows (migrateSales P ov).
Proof.
  unfold migrateSales, delete_migrated_sales.
  pose proof migrate_row_grows. grow.
Qed.

Lemma migrateCustomerPayments_grows : grows (migrateCustomerPayments P).
Proof.
  unfold migrateCustomerPayments, migrate_payment, insert_customer_payment.
  grow.
Qed.

Lemma migrateStockMovements_grows : grows (migrateStockMovements P).
Proof.
  unfold migrateStockMovements, migrate_stock, insert_stock_movement.
  grow.
Qed.

Lemma createReconciliationReport_grows dir ms ss pc sc :
  grows (createReconciliationReport dir ms ss pc sc).
Proof. unfold createReconciliationReport, count_core. grow. Qed.

Lemma runImport_grows job : grows (runImport P job).
Proof.
  unfold runImport.
  pose proof load_all_grows. pose proof migrateMasterData_grows.
  pose proof migrateSales_grows. pose proof migrateCustomerPayments_grows.
  pose proof migrateStockMovements_grows.
  pose proof createReconciliationReport_grows.
  grow.
Qed.

Lemma run_body_grows job : grows (run_body P job).
Proof.
  unfold run_body.
  pose proof load_all_grows. pose proof migrateMasterData_grows.
  pose proof migrateSales_grows. pose proof migrateCustomerPayments_grows.
  pose proof migrateStockMovements_grows.
  pose proof createReconciliationReport_grows.
  grow.
Qed.

Lemma process_job_grows job : grows (process_job P job).
Proof. unfold process_job. pose proof runImport_grows. grow. Qed.

End Grows.

(** ** The job status machine *)

Lemma bind_run {A B} (m : M A) (k : A -> M B) w a w1 :
  m w = Ok a w1 → bind m k w = k a w1.
Proof. unfold bind. by intros ->. Qed.

Lemma Ok_world {A} (a b : A) w w' : Ok a w = Ok b w' → w = w'.
Proof. by intros [= _ ->]. Qed.

Lemma ends_bind {A B X} (view : World -> X) ok thrown (m : M A) (k : A -> M B) w :
  preserves view m →
  thrown (view w) →
  (∀ a w1, view w1 = view w → ends view ok thrown (k a w1)) →
  ends view ok thrown (bind m k w).
Proof.
  intros Hm Ht Hk. unfold bind. destruct (m w) as [a w1|msg w1] eqn:E.
  - apply Hk. by apply (preserves_Ok view _ _ _ _ Hm E).
  - simpl. by rewrite (preserves_Throw view _ _ _ _ Hm E).
Qed.

(** *** Updates of the import table *)

Section UpdateWhere.

Context (pred : ImportRow -> bool) (st : ImportStatus)
  (fields : list ImportField).

Lemma set_fields_id r : imp_id (fold_left set_import_field fields r) = imp_id r.
Proof. revert r. induction fields as [|f fs IH]; intros r; [done|]. simpl. by rewrite IH. Qed.

Lemma set_fields_status r :
  imp_status (fold_left set_import_field fields r) = imp_status r.
Proof. revert r. induction fields as [|f fs IH]; intros r; [done|]. simpl. by rewrite IH. Qed.

Lemma update_where_ids rows :
  map imp_id (update_where pred st fields rows) = map imp_id rows.
Proof.
  unfold update_where. rewrite map_map. apply map_ext. intros r.
  destruct (pred r); [|done]. by rewrite set_fields_id.
Qed.

Lemma update_where_elem r' rows :
  r' ∈ update_where pred st fields rows →
  ∃ r, r ∈ rows ∧ imp_id r' = imp_id r ∧
       imp_status r' = (if pred r then st else imp_status r).
Proof.
  unfold update_where. intros H. apply list_elem_of_fmap in H as (r & -> & Hr).
  exists r. split; [done|]. destruct (pred r); [|done].
  by rewrite set_fields_id, set_fields_status.
Qed.

Lemma status_changes_Forall recovery (ok : StatusChange -> Prop) rows :
  (∀ r, r ∈ rows → pred r = true →
        ok (change (imp_id r) (imp_status r) st recovery)) →
  Forall ok (status_changes recovery pred st rows).
Proof.
  intros H. unfold status_changes. apply Forall_forall. intros e He.
  apply list_elem_of_fmap in He as (r & -> & Hr).
  apply list_elem_of_filter in Hr as [Hp Hr]. by apply H.
Qed.

End UpdateWhere.

Lemma has_id_true i r : has_id i r = true ↔ imp_id r = i.
Proof. unfold has_id. by rewrite bool_decide_eq_true. Qed.

Lemma update_where_keeps pred st fields r rows :
  r ∈ rows → pred r = false → r ∈ update_where pred st fields rows.
Proof.
  intros Hr Hp. apply list_elem_of_fmap. exists r. by rewrite Hp.
Qed.

Lemma update_where_hits pred st fields r rows :
  r ∈ rows → pred r = true →
  ∃ r', r' ∈ update_where pred st fields rows ∧
        imp_id r' = imp_id r ∧ imp_status r' = st ∧
        r' = fold_left set_import_field fields (set_import_status st r).
Proof.
  intros Hr Hp. eexists. split; [|split; [|split; [|reflexivity]]].
  - apply list_elem_of_fmap. exists r. by rewrite Hp.
  - by rewrite set_fields_id.
  - by rewrite set_fields_status.
Qed.

Lemma unique_row rows r r' :
  NoDup (map imp_id rows) → r ∈ rows → r' ∈ rows → imp_id r = imp_id r' →
  r = r'.
Proof.
  intros Hnd Hr Hr' Hid.
  apply list_elem_of_lookup in Hr as [a Ha].
  apply list_elem_of_lookup in Hr' as [b Hb].
  assert (a = b) as ->; [|congruence].
  eapply (NoDup_lookup _ a b); [exact Hnd| |].
  - rewrite list_lookup_fmap, Ha. reflexivity.
  - rewrite list_lookup_fmap, Hb. simpl. by rewrite Hid.
Qed.

Lemma filter_has_id rows r :
  NoDup (map imp_id rows) → r ∈ rows →
  filter (fun x => has_id (imp_id r) x = true) rows = [r].
Proof.
  intros Hnd Hr.
  induction rows as [|x l IH]; [by apply elem_of_nil in Hr|].
  simpl in Hnd. apply NoDup_cons in Hnd as [Hx Hnd].
  rewrite filter_cons. destruct (decide (has_id (imp_id r) x = true)) as [Hy|Hn].
  - apply has_id_true in Hy.
    assert (r = x) as ->.
    { apply elem_of_cons in Hr as [->|Hr]; [done|]. exfalso. apply Hx.
      rewrite Hy. apply list_elem_of_fmap. by exists r. }
    f_equal. destruct (filter _ l) as [|y l'] eqn:Ef; [done|]. exfalso.
    assert (Hin : y ∈ filter (fun x0 => has_id (imp_id x) x0 = true) l)
      by (rewrite Ef; left).
    apply list_elem_of_filter in Hin as [Hy' Hin]. apply has_id_true in Hy'.
    apply Hx. rewrite <- Hy'. apply list_elem_of_fmap. by exists y.
  - apply elem_of_cons in Hr as [->|Hr].
    + exfalso. apply Hn. by apply has_id_true.
    + by apply IH.
Qed.

Lemma status_changes_one rows r st :
  NoDup (map imp_id rows) → r ∈ rows →
  status_changes false (has_id (imp_id r)) st rows
  = [change (imp_id r) (imp_status r) st false].
Proof.
  intros Hnd Hr. unfold status_changes. by rewrite filter_has_id.
Qed.

Lemma updateImportStatus_Ok i st fields w :
  updateImportStatus i st fields w
  = Ok tt
      (set_history
         (history w ++ status_changes false (has_id i) st (imports w))
         (set_imports (update_where (has_id i) st fields (imports w))
            (set_trace (trace w ++ [SUpdate "system_legacy_import"]) w))).
Proof. reflexivity. Qed.

(** *** One job *)

Section Status.

Context (P : Platform).

Lemma load_all_control i files : preserves control (load_all P i files).
Proof.
  unfold load_all. apply preserves_foldM. intros acc config _.
  apply preserves_bind; [apply appendLog_frame; unseen|intros ?].
  apply preserves_bind; [apply loadDbfIntoStaging_frame; unseen|intros ?].
  apply preserves_ret.
Qed.

Lemma truncateCoreTables_control : preserves control truncateCoreTables.
Proof. intros w. by rewrite truncateCoreTables_Ok. Qed.

Lemma appendLog_Ok i l msg w : ∃ w', appendLog i l msg w = Ok tt w'.
Proof. eexists. reflexivity. Qed.

(** One stage of [runImport] that leaves the control state alone. *)
Ltac control_frame :=
  lazymatch goal with
  | |- preserves _ (appendLog _ _ _) => apply appendLog_frame; unseen
  | |- preserves _ (fs_op _ _) => apply fs_op_frame; unseen
  | |- preserves _ (fs_steps _ _ _) => apply fs_steps_frame; unseen
  | |- preserves _ (check_required _) => apply check_required_frame
  | |- preserves _ ensureSchema => apply ensureSchema_frame; unseen
  | |- preserves _ truncateStagingTables =>
      apply truncateStagingTables_frame; unseen
  | |- preserves _ (load_all _ _ _) => apply load_all_control
  | |- preserves _ (migrateMasterData _ _) =>
      apply migrateMasterData_frame; unseen
  | |- preserves _ (migrateSales _ _) => apply migrateSales_frame; unseen
  | |- preserves _ (migrateCustomerPayments _) =>
      apply migrateCustomerPayments_frame; unseen
  | |- preserves _ (migrateStockMovements _) =>
      apply migrateStockMovements_frame; unseen
  | |- preserves _ (createReconciliationReport _ _ _ _ _) =>
      apply createReconciliationReport_frame; unseen
  | |- preserves _ now => apply now_frame; unseen
  | |- preserves _ truncateCoreTables => apply truncateCoreTables_control
  | |- preserves _ (ret _) => apply preserves_ret
  | |- preserves _ (bind _ _) =>
      apply preserves_bind; [|intros ?]; control_frame
  | |- preserves _ (if ?b then _ else _) => destruct b; control_frame
  end.

Ltac pass :=
  lazymatch goal with
  | Hc : control ?w = _ |- ends control _ _ (bind _ _ ?w) =>
      apply ends_bind;
      [ control_frame
      | exact Hc
      | let a := fresh "a" in
        let w' := fresh "w" in
        let H := fresh "Hc" in
        intros a w' H; rewrite Hc in H; clear Hc ]
  end.

(** The part of a run between its two status updates writes nothing in
    the import table, in the record of changes or in the memory of the
    worker. *)
Lemma run_body_control job : preserves control (run_body P job).
Proof. unfold run_body. control_frame. Qed.

(** A run marks the rows of its job as running, and as completed when it
    returns; nothing else in the import table, in the record of changes
    or in the memory of the worker is written. *)
Lemma runImport_control job w :
  ∃ fields1,
    let hit := has_id (job_id job) in
    let rows1 := update_where hit running fields1 (imports w) in
    let changes1 :=
      history w ++ status_changes false hit running (imports w) in
    ends control
      (fun c => ∃ fields2,
         c = (update_where hit completed fields2 rows1,
              changes1 ++ status_changes false hit completed rows1,
              jobQueue w, processing w, initialized w))
      (fun c => c = (rows1, changes1, jobQueue w, processing w, initialized w))
      (runImport P job w).
Proof.
  exists [started_at (Some (clock w))]. cbv zeta.
  unfold runImport.
  rewrite (bind_run now _ w (clock w) _ eq_refl).
  rewrite (bind_run (updateImportStatus _ _ _) _ _ tt _
             (updateImportStatus_Ok _ _ _ _)).
  set (w1 := set_history _ _).
  assert (Hc : control w1
               = (update_where (has_id (job_id job)) running
                    [started_at (Some (clock w))] (imports w),
                  history w ++ status_changes false (has_id (job_id job))
                                 running (imports w),
                  jobQueue w, processing w, initialized w)) by reflexivity.
  clearbody w1.
  do 17 pass. cbv zeta. pass.
  rewrite (bind_run (updateImportStatus _ _ _) _ _ tt _
             (updateImportStatus_Ok _ _ _ _)).
  set (wz := set_history _ _).
  destruct (appendLog_Ok (job_id job) info
              "Legacy data import completed successfully" wz) as [wz' E].
  rewrite E. simpl.
  rewrite (preserves_Ok control _ _ _ _
             (appendLog_frame control ltac:(unseen) ltac:(unseen) _ _ _) E).
  lazymatch goal with H : control _ = _ |- _ =>
    injection H as Hi Hh Hq Hp Hn end.
  eexists. unfold control, wz. simpl. by rewrite Hi, Hh, Hq, Hp, Hn.
Qed.

(** The same, with the columns the two updates write. *)
Lemma runImport_fields job w :
  let hit := has_id (job_id job) in
  let rows1 :=
    update_where hit running [started_at (Some (clock w))] (imports w) in
  let changes1 :=
    history w ++ status_changes false hit running (imports w) in
  ends control
    (fun c => ∃ t' s rp,
       c = (update_where hit completed
              [finished_at (Some t'); summary (Some s); report_path (Some rp);
               error_message None] rows1,
            changes1 ++ status_changes false hit completed rows1,
            jobQueue w, processing w, initialized w))
    (fun c => c = (rows1, changes1, jobQueue w, processing w, initialized w))
    (runImport P job w).
Proof.
  cbv zeta. unfold runImport.
  rewrite (bind_run now _ w (clock w) _ eq_refl).
  rewrite (bind_run (updateImportStatus _ _ _) _ _ tt _
             (updateImportStatus_Ok _ _ _ _)).
  set (w1 := set_history _ _).
  assert (Hc : control w1
               = (update_where (has_id (job_id job)) running
                    [started_at (Some (clock w))] (imports w),
                  history w ++ status_changes false (has_id (job_id job))
                                 running (imports w),
                  jobQueue w, processing w, initialized w)) by reflexivity.
  clearbody w1.
  do 17 pass. cbv zeta. pass.
  rewrite (bind_run (updateImportStatus _ _ _) _ _ tt _
             (updateImportStatus_Ok _ _ _ _)).
  set (wz := set_history _ _).
  destruct (appendLog_Ok (job_id job) info
              "Legacy data import completed successfully" wz) as [wz' E].
  rewrite E. simpl.
  rewrite (preserves_Ok control _ _ _ _
             (appendLog_frame control ltac:(unseen) ltac:(unseen) _ _ _) E).
  lazymatch goal with H : control _ = _ |- _ =>
    injection H as Hi Hh Hq Hp Hn end.
  eexists _, _, _. unfold control, wz. simpl. by rewrite Hi, Hh, Hq, Hp, Hn.
Qed.

(** A run that returns: the two updates of its rows, and the report as
    the last thing written to the tables and to the files. *)
Lemma runImport_returns job w w' :
  runImport P job w = Ok tt w' →
  ∃ t s wa wb,
    createReconciliationReport (sessionDir job) (os_master s) (os_sales s)
      (os_customerPayments s) (os_stockMovements s) wa
    = Ok (os_reportPath s) wb ∧
    core w' = core wb ∧ staging w' = staging wb ∧ fs w' = fs wb ∧
    imports w'
    = update_where (has_id (job_id job)) completed
        [finished_at (Some t); summary (Some s);
         report_path (Some (os_reportPath s)); error_message None]
        (update_where (has_id (job_id job)) running
           [started_at (Some (clock w))] (imports w)).
Proof.
  intros H. unfold runImport in H.
  rewrite (bind_run now _ w (clock w) _ eq_refl) in H.
  rewrite (bind_run (updateImportStatus _ _ _) _ _ tt _
             (updateImportStatus_Ok _ _ _ _)) in H.
  set (w1 := set_history _ _) in H.
  assert (Hi : imports w1
               = update_where (has_id (job_id job)) running
                   [started_at (Some (clock w))] (imports w)) by reflexivity.
  clearbody w1.
  do 16 (lazymatch type of H with
         | bind ?m _ ?u = Ok _ _ =>
             let E := fresh "E" in
             apply bind_Ok in H as (? & ? & E & H);
             apply (preserves_Ok control m u _ _ ltac:(control_frame)) in E;
             apply (f_equal (fun c => fst (fst (fst (fst c))))) in E;
             simpl in E; rewrite Hi in E; clear Hi; rename E into Hi
         end).
  cbv zeta in H.
  apply bind_Ok in H as (rp & wb & Er & H). cbv beta zeta in H.
  rewrite (bind_run now _ wb (clock wb) _ eq_refl) in H.
  rewrite (bind_run (updateImportStatus _ _ _) _ _ tt _
             (updateImportStatus_Ok _ _ _ _)) in H.
  apply Ok_world in H. subst w'.
  pose proof (preserves_Ok control _ _ _ _
                (createReconciliationReport_frame control ltac:(unseen)
                   ltac:(unseen) ltac:(unseen) _ _ _ _ _) Er) as Hb.
  apply (f_equal (fun c => fst (fst (fst (fst c))))) in Hb. simpl in Hb.
  rewrite Hi in Hb.
  eexists (clock wb), {| os_reportPath := rp |}, _, wb. simpl.
  split; [exact Er|]. split; [done|]. split; [done|]. split; [done|].
  by rewrite Hb.
Qed.

(** A job taken from the queue ends as completed or as failed. *)
Lemma process_job_control job w :
  ∃ w' fields1 st fields2,
    let hit := has_id (job_id job) in
    let rows1 := update_where hit running fields1 (imports w) in
    process_job P job w = Ok tt w' ∧
    (st = completed ∨ st = failed) ∧
    control w'
    = (update_where hit st fields2 rows1,
       (history w ++ status_changes false hit running (imports w))
         ++ status_changes false hit st rows1,
       jobQueue w, processing w, initialized w).
Proof.
  destruct (runImport_control job w) as [fields1 H]. cbv zeta in *.
  unfold process_job, try_catch.
  destruct (runImport P job w) as [[] w1|msg w1]; simpl in H.
  - destruct H as [fields2 H]. exists w1, fields1, completed, fields2.
    split; [done|]. split; [by left|done].
  - destruct (appendLog_Ok (job_id job) error msg w1) as [w2 E2].
    rewrite (bind_run _ _ _ _ _ E2).
    pose proof (preserves_Ok control _ _ _ _
      (appendLog_frame control ltac:(unseen) ltac:(unseen) _ _ _) E2) as H2.
    rewrite H in H2.
    rewrite (bind_run now _ w2 (clock w2) _ eq_refl).
    rewrite updateImportStatus_Ok. injection H2 as Hi Hh Hq Hp Hn.
    eexists _, fields1, failed, _. split; [reflexivity|].
    split; [by right|]. unfold control. simpl. by rewrite Hi, Hh, Hq, Hp, Hn.
Qed.

(** *** The steps of the worker keep the state sound *)

Lemma insert_import_Ok session dir ov user w importId w1 :
  insert_import session dir ov user w = Ok importId w1 →
  importId = next_uuid w ∧
  ∃ row,
    imports w1 = imports w ++ [row] ∧
    imp_id row = next_uuid w ∧ imp_status row = queued ∧
    history w1 = history w ∧ jobQueue w1 = jobQueue w ∧
    processing w1 = processing w ∧ initialized w1 = initialized w ∧
    next_uuid w1 = S (next_uuid w).
Proof.
  cbv [insert_import bind query modify gets fresh_uuid ret throw].
  destruct (bool_decide _); [done|]. intros [= <- <-].
  split; [done|]. eexists. by repeat split.
Qed.

Lemma insert_import_Throw session dir ov user w msg w1 :
  insert_import session dir ov user w = Throw msg w1 →
  w1 = set_trace (trace w ++ [SInsert "system_legacy_import"]) w.
Proof.
  cbv [insert_import bind query modify gets fresh_uuid ret throw].
  destruct (bool_decide _); [|done]. by intros [= _ <-].
Qed.

Lemma sound_request session dir ov user w importId w1 :
  sound w →
  insert_import session dir ov user w = Ok importId w1 →
  sound (set_jobQueue
           (jobQueue w1 ++ [requested_job importId session dir ov user]) w1).
Proof.
  intros (HN & HA & HC & HD & HE) E.
  apply insert_import_Ok in E
    as (-> & row & Hi & Hid & Hst & Hh & Hq & _ & _ & Hn).
  unfold sound. cbn [imports jobQueue history next_uuid set_jobQueue].
  rewrite Hi, Hh, Hq, Hn.
  assert (Hlt : ∀ x, x ∈ map imp_id (imports w) → (x < next_uuid w)%nat).
  { intros x Hx. apply list_elem_of_fmap in Hx as (r & -> & Hr).
    rewrite Forall_forall in HA. by apply HA. }
  split; [|split; [|split; [|split]]].
  - rewrite map_app. apply NoDup_app. split; [done|]. split.
    + intros x Hx Hx'. apply list_elem_of_singleton in Hx'.
      apply Hlt in Hx. simpl in Hx'. lia.
    + apply NoDup_singleton.
  - apply Forall_app. split.
    + eapply Forall_impl; [exact HA|]. intros r Hr. simpl in Hr. lia.
    + constructor; [|constructor]. simpl. lia.
  - rewrite map_app. apply NoDup_app. split; [done|]. split.
    + intros x Hx Hx'. apply list_elem_of_singleton in Hx'.
      apply list_elem_of_fmap in Hx as (j & -> & Hj).
      destruct (HD j Hj) as (r & Hr & Hrj & _).
      assert (imp_id r < next_uuid w)%nat.
      { apply Hlt. apply list_elem_of_fmap. by exists r. }
      simpl in Hx'. lia.
    + apply NoDup_singleton.
  - intros j Hj. apply elem_of_app in Hj as [Hj|Hj].
    + destruct (HD j Hj) as (r & Hr & Hrj & Hrs).
      exists r. split; [|done]. apply elem_of_app. by left.
    + apply list_elem_of_singleton in Hj. subst j.
      exists row. split; [|done]. apply elem_of_app. right. left.
  - done.
Qed.

Lemma sound_flag b w : sound w → sound (set_processing b w).
Proof. done. Qed.

(** One turn of the loop, and the status changes it makes. *)
Lemma shift_and_run_Ok job rest w :
  sound w → jobQueue w = job :: rest →
  ∃ w' st,
    shift_and_run P job rest w = Ok tt w' ∧
    sound w' ∧
    jobQueue w' = rest ∧ processing w' = processing w ∧
    (st = completed ∨ st = failed) ∧
    history w'
    = history w ++ [ change (job_id job) queued running false;
                     change (job_id job) running st false ].
Proof.
  intros (HN & HA & HC & HD & HE) Hq.
  unfold shift_and_run.
  rewrite (bind_run (modify _) _ w tt (set_jobQueue rest w) eq_refl).
  set (wa := set_jobQueue rest w).
  destruct (process_job_control job wa)
    as (w' & fields1 & st & fields2 & E & Hst & Hc).
  cbv zeta in E, Hc.
  pose proof (grows_Ok _ _ _ _ (process_job_grows P job) E) as Hn.
  change (next_uuid wa) with (next_uuid w) in Hn.
  change (imports wa) with (imports w) in Hc.
  change (history wa) with (history w) in Hc.
  change (jobQueue wa) with rest in Hc.
  change (processing wa) with (processing w) in Hc.
  injection Hc as Hi Hh Hq' Hp _.
  rewrite Hq in HC, HD. simpl in HC.
  apply NoDup_cons in HC as [Hfresh HC].
  destruct (HD job) as (r0 & Hr0 & Hid0 & Hst0); [left|].
  set (rows1 := update_where (has_id (job_id job)) running fields1 (imports w))
    in *.
  assert (HN1 : NoDup (map imp_id rows1))
    by (unfold rows1; by rewrite update_where_ids).
  destruct (update_where_hits (has_id (job_id job)) running fields1 r0
              (imports w) Hr0) as (r1 & Hr1 & Hid1 & Hst1 & _).
  { by apply has_id_true. }
  fold rows1 in Hr1.
  assert (Hh' : history w'
                = history w ++ [ change (job_id job) queued running false;
                                 change (job_id job) running st false ]).
  { rewrite Hh, <- Hid0.
    rewrite (status_changes_one _ r0 running HN Hr0), Hst0.
    rewrite <- Hid1.
    rewrite (status_changes_one _ r1 st HN1 Hr1), Hst1.
    by rewrite <- app_assoc. }
  exists w', st.
  split; [exact E|]. split; [|split; [done|split; [done|split; [done|done]]]].
  unfold sound. rewrite Hi, Hq', Hh'.
  split; [|split; [|split; [|split]]].
  - by rewrite update_where_ids.
  - apply Forall_forall. intros r Hr.
    assert (Hid : imp_id r ∈ map imp_id (imports w)).
    { rewrite <- (update_where_ids (has_id (job_id job)) running fields1),
        <- (update_where_ids (has_id (job_id job)) st fields2).
      apply list_elem_of_fmap. by exists r. }
    apply list_elem_of_fmap in Hid as (r' & -> & Hr').
    rewrite Forall_forall in HA. specialize (HA r' Hr'). simpl in HA. lia.
  - done.
  - intros j Hj.
    assert (Hne : job_id j ≠ job_id job).
    { intros Heq. apply Hfresh. rewrite <- Heq.
      apply list_elem_of_fmap. by exists j. }
    destruct (HD j) as (r & Hr & Hrj & Hrs); [by right|].
    assert (Hmiss : has_id (job_id job) r = false).
    { apply not_true_is_false. intros Hy. apply has_id_true in Hy. congruence. }
    exists r. split; [|done].
    apply update_where_keeps; [|done]. by apply update_where_keeps.
  - apply Forall_app. split; [done|].
    constructor; [done|]. constructor; [|done].
    by destruct Hst as [-> | ->].
Qed.

(** *** The startup *)

Lemma insert_by_created_at_perm r l : insert_by_created_at r l ≡ₚ r :: l.
Proof.
  induction l as [|x l IH]; [done|]. simpl.
  destruct (_ <=? _)%Z; [done|]. rewrite IH. apply Permutation_swap.
Qed.

Lemma order_by_created_at_perm l : order_by_created_at l ≡ₚ l.
Proof.
  induction l as [|x l IH]; [done|]. unfold order_by_created_at in *. simpl.
  by rewrite insert_by_created_at_perm, IH.
Qed.

Lemma is_status_true st r : is_status st r = true ↔ imp_status r = st.
Proof. unfold is_status. destruct (imp_status r), st; by split. Qed.

Lemma succeeds_bind {A B} (m : M A) (k : A -> M B) :
  succeeds m → (∀ a, succeeds (k a)) → succeeds (bind m k).
Proof.
  intros Hm Hk w. unfold bind. specialize (Hm w).
  destruct (m w) as [a w1|]; [apply Hk|done].
Qed.

Lemma succeeds_forM {A} (body : A -> M unit) (l : list A) :
  (∀ x, succeeds (body x)) → succeeds (forM body l).
Proof.
  intros H. unfold forM. generalize tt.
  induction l as [|x l IH]; intros u; [done|].
  cbn [foldM]. apply succeeds_bind; [apply H|]. intros ?. apply IH.
Qed.

Lemma succeeds_query s : succeeds (query s).
Proof. by intros w. Qed.

Lemma ensureSchema_succeeds : succeeds ensureSchema.
Proof.
  unfold ensureSchema, ensureCoreTables, ensureLegacyImportTables,
    ensureStagingTables.
  repeat lazymatch goal with
    | |- succeeds (query _) => apply succeeds_query
    | |- succeeds (bind _ _) => apply succeeds_bind; [|intros ?]
    | |- succeeds (forM _ _) => apply succeeds_forM; intros ?
    end.
Qed.

Lemma recover_jobs_Ok w :
  ∃ w1,
    recover_jobs w = Ok tt w1 ∧
    imports w1
    = update_where (is_status running) queued [started_at None] (imports w) ∧
    history w1
    = history w ++ status_changes true (is_status running) queued (imports w) ∧
    jobQueue w1
    = jobQueue w
      ++ map job_of_row
           (order_by_created_at
              (filter (fun r => is_status queued r = true) (imports w1))) ∧
    processing w1 = processing w ∧ initialized w1 = true ∧
    next_uuid w1 = next_uuid w.
Proof.
  unfold recover_jobs.
  rewrite (bind_run (modify _) _ w tt _ eq_refl).
  set (wa := set_initialized true w).
  pose proof (ensureSchema_succeeds wa) as Hok.
  destruct (ensureSchema wa) as [[] wb|] eqn:E; [clear Hok|done].
  pose proof (preserves_Ok (fun u => (control u, next_uuid u)) _ _ _ _
                (ensureSchema_frame (fun u => (control u, next_uuid u))
                   ltac:(unseen)) E) as Hv.
  injection Hv as Hi Hh Hq Hp Hin Hn.
  rewrite (bind_run _ _ _ _ _ E).
  rewrite (bind_run requeue_running _ wb tt _ eq_refl).
  rewrite (bind_run select_queued _ _ _ _ eq_refl).
  eexists. split; [reflexivity|].
  cbn [imports history jobQueue processing initialized next_uuid set_jobQueue
       set_trace set_history set_imports].
  rewrite Hi, Hh, Hq, Hp, Hin, Hn. by repeat split.
Qed.

Lemma sound_recover w :
  booted w → sound (final (recover_jobs w)).
Proof.
  intros (Hq & _ & _ & Hh & Hnd & Hlt).
  destruct (recover_jobs_Ok w) as (w1 & E & Hi & Hh1 & Hq1 & _ & _ & Hn).
  rewrite E. cbn [final]. rewrite Hq in Hq1. rewrite Hh in Hh1. simpl in Hq1, Hh1.
  assert (Hids : map imp_id (imports w1) = map imp_id (imports w))
    by (rewrite Hi; apply update_where_ids).
  assert (Hnd1 : NoDup (map imp_id (imports w1))) by by rewrite Hids.
  unfold sound. rewrite Hq1, Hh1. split; [done|]. split; [|split; [|split]].
  - rewrite Hn. apply Forall_forall. intros r Hr.
    assert (Hid : imp_id r ∈ map imp_id (imports w)).
    { rewrite <- Hids. apply list_elem_of_fmap. by exists r. }
    apply list_elem_of_fmap in Hid as (r0 & -> & Hr0).
    rewrite Forall_forall in Hlt. by apply Hlt.
  - rewrite map_map. change (fun x => job_id (job_of_row x)) with imp_id.
    rewrite order_by_created_at_perm.
    eapply sublist_NoDup; [exact Hnd1|apply fmap_sublist, sublist_filter].
  - intros j Hj.
    apply list_elem_of_fmap in Hj as (r & -> & Hr).
    rewrite order_by_created_at_perm in Hr.
    apply list_elem_of_filter in Hr as [Hst Hr]. apply is_status_true in Hst.
    by exists r.
  - apply status_changes_Forall. intros r _ Hr.
    apply is_status_true in Hr. unfold lawful, change. simpl. by rewrite Hr.
Qed.

End Status.

(** *** A request during the startup *)

Lemma run_Some {X} (P : Platform) (es : list Event) (s0 : Server)
    (view : Server -> X) (x : X) :
  option_map view (run P es s0) = Some x →
  ∃ s, run P es s0 = Some s ∧ view s = x.
Proof.
  destruct (run P es s0) as [s|]; [|done]. intros [= <-]. by exists s.
Qed.

(** C7. The status machine is broken by a request that comes in while
    the startup call, which the route module starts without waiting for
    it, is still at its schema statements.  On a restarted process
    without open jobs the handler inserts and queues its job and the
    loop marks it running; the update of the startup then puts this
    running job back to queued, the select finds it, and the startup
    pushes it a second time.  The status of the job goes from queued to
    running, back to queued by the startup update although no crash
    left it running, from queued to completed when its run ends, and
    from completed to running when the second copy is taken from the
    queue: two changes that are not forward steps of the machine. *)
Theorem startup_races_with_request :
  booted Sample.restart ∧
  ∃ s,
    run Sample.platform Sample.early_request (fresh Sample.restart) = Some s ∧
    (startup s = Started ∧ loop s = None ∧ handlers s = [] ∧
     jobQueue (world s) = [] ∧ processing (world s) = false) ∧
    map (fun e => (sc_job e, sc_from e, sc_to e, sc_recovery e))
        (history (world s))
    = [ (1000, queued, running, false);
        (1000, running, queued, true);
        (1000, queued, completed, false);
        (1000, completed, running, false);
        (1000, running, completed, false) ] ∧
    ¬ Forall (fun e => lawful e = true) (history (world s)).
Proof.
  split.
  { repeat split; try reflexivity; simpl; constructor. }
  destruct (run_Some Sample.platform Sample.early_request
              (fresh Sample.restart)
              (fun s =>
                 (startup s, loop s, handlers s, jobQueue (world s),
                  processing (world s),
                  map (fun e => (sc_job e, sc_from e, sc_to e, sc_recovery e))
                      (history (world s))))
              (Started, None, [], [], false,
               [ (1000, queued, running, false);
                 (1000, running, queued, true);
                 (1000, queued, completed, false);
                 (1000, completed, running, false);
                 (1000, running, completed, false) ]))
    as (s & E & Hv); [by_computation|].
  injection Hv as Hst Hl Hh Hq Hp Hs.
  exists s. split; [exact E|]. clear E.
  split; [repeat split; assumption|]. split; [exact Hs|].
  intros HF.
  assert (Hall : Forall (fun t => match t with
                                  | (_, f, t, r) =>
                                      lawful {| sc_job := 0; sc_from := f;
                                                sc_to := t; sc_recovery := r |}
                                      = true
                                  end)
                   (map (fun e => (sc_job e, sc_from e, sc_to e, sc_recovery e))
                        (history (world s)))).
  { apply Forall_map. eapply Forall_impl; [exact HF|]. by intros []. }
  rewrite Hs in Hall.
  apply Forall_cons in Hall as [_ Hall].
  apply Forall_cons in Hall as [_ Hall].
  by apply Forall_cons in Hall as [Hbad _].
Qed.

(** ** Payments and stock movements are inserted anew by every run *)

Section UpsertKeys.

Context {R X : Type} (code : R -> option string) (merge : R -> R -> R)
  (f : R -> X).
Hypothesis merge_code : ∀ e r, code (merge e r) = code r.
Hypothesis merge_f : ∀ e r, f (merge e r) = f r.

(** A statement all of whose rows are already there changes nothing
    that the update leaves alone. *)
Lemma upsert_rows_settled xs seen t n t' n' :
  (∀ x, x ∈ xs → ∃ k, keyed code x k ∧ present code k t) →
  upsert_rows code merge xs seen t n = Some (t', n') →
  map f t' = map f t.
Proof.
  revert seen t. induction xs as [|x xs IH]; intros seen t Hall; simpl.
  - by intros [= <- <-].
  - destruct (Hall x) as (k & Hkey & Hk); [left|].
    rewrite (Hkey n). case_bool_decide as Hseen; [done|].
    unfold present in Hk. rewrite Hk. intros H.
    apply IH in H.
    + rewrite H, map_map. apply map_ext. intros r.
      destruct (has_code code k r); [apply merge_f|done].
    + intros y Hy. destruct (Hall y) as (k' & Hkey' & Hk'); [by right|].
      exists k'. split; [done|]. by apply present_map_merge.
Qed.

Lemma upsert_twice_settled (rows : list (string * Row))
    (xs1 xs2 : list (uuid -> R)) t0 n0 t1 n1 m1 t2 n2 :
  Forall2 (fun s x => keyed code x (Pg.trim s.1)) rows xs1 →
  Forall2 (fun s x => keyed code x (Pg.trim s.1)) rows xs2 →
  upsert_rows code merge xs1 [] t0 n0 = Some (t1, n1) →
  upsert_rows code merge xs2 [] t1 m1 = Some (t2, n2) →
  map f t2 = map f t1.
Proof.
  intros F1 F2 U1 U2.
  apply (upsert_rows_present code merge merge_code) in U1 as [_ Hall].
  eapply upsert_rows_settled; [|exact U2].
  intros x2 Hx2.
  apply list_elem_of_lookup in Hx2 as [i Hi].
  destruct (Forall2_lookup_r _ _ _ _ _ F2 Hi) as (s & Hs & Hkey2).
  destruct (Forall2_lookup_l _ _ _ _ _ F1 Hs) as (x1 & Hx1 & Hkey1).
  exists (Pg.trim s.1). split; [done|].
  eapply Hall; [|done]. by eapply list_elem_of_lookup_2.
Qed.

End UpsertKeys.

Lemma coded_keys {R} (code : R -> option string) rid (t : list R) :
  coded code rid t = omap (fun p => k ← p.1; Some (k, p.2)) (keys code rid t).
Proof.
  unfold coded, keys. induction t as [|r t IH]; [done|]. cbn.
  destruct (code r); cbn; by rewrite IH.
Qed.

Lemma find_keys {R} (code : R -> option string) rid k (t1 t2 : list R) :
  keys code rid t1 = keys code rid t2 →
  rid <$> List.find (fun r => bool_decide (code r = Some k)) t1
  = rid <$> List.find (fun r => bool_decide (code r = Some k)) t2.
Proof.
  revert t2. induction t1 as [|r1 t1 IH]; intros [|r2 t2] H; try done.
  injection H as Hc Hi H. simpl. rewrite Hc.
  destruct (bool_decide (code r2 = Some k)); [simpl; by rewrite Hi|].
  by apply IH.
Qed.

Section Inserts.

Context (P : Platform).

Lemma expect_Ok {A} msg (o : option A) w a w' :
  expect msg o w = Ok a w' → o = Some a ∧ w' = w.
Proof. destruct o; [|done]. by intros [= -> ->]. Qed.

(** *** Customer payments *)

Lemma insert_customer_payment_Ok customerId row w w' :
  insert_customer_payment P customerId row w = Ok tt w' →
  ∃ r,
    core w' = with_customer_payment (payments w ++ [r]) (core w) ∧
    numeric_param P 14 2 (normalizeNumber P (row_get row "valor_doc"))
      = Some (cp_document_value r) ∧
    numeric_param P 14 2 (normalizeNumber P (row_get row "vlr_pago"))
      = Some (cp_paid_value r) ∧
    numeric_param P 14 2 (normalizeNumber P (row_get row "restante"))
      = Some (cp_remaining r) ∧
    cp_customer_id r = Some customerId ∧
    cp_payment_date r = (pg_date P <$> normalizeDate P (row_get row "pagamento")).
Proof.
  unfold insert_customer_payment. intros H.
  apply bind_Ok in H as ([] & w1 & E1 & H).
  apply bind_Ok in H as (dv & w2 & E2 & H).
  apply bind_Ok in H as (pv & w3 & E3 & H).
  apply bind_Ok in H as (rem & w4 & E4 & H).
  apply bind_Ok in H as (i & w5 & E5 & H).
  cbv [query modify] in E1. injection E1 as <-.
  apply expect_Ok in E2 as [Hdv ->]. apply expect_Ok in E3 as [Hpv ->].
  apply expect_Ok in E4 as [Hrem ->].
  cbv [fresh_uuid] in E5. injection E5 as <- <-.
  cbv [update_core modify] in H. injection H as <-.
  eexists. split; [reflexivity|]. by repeat split.
Qed.

Lemma migrate_payment_again count1 count2 row u1 u2 n1 n2 v1 v2 :
  keys cu_legacy_code cu_id (customer (core u1))
  = keys cu_legacy_code cu_id (customer (core u2)) →
  migrate_payment P count1 row u1 = Ok n1 v1 →
  migrate_payment P count2 row u2 = Ok n2 v2 →
  customer (core v1) = customer (core u1) ∧
  customer (core v2) = customer (core u2) ∧
  ∃ new1 new2,
    payments v1 = payments u1 ++ new1 ∧
    payments v2 = payments u2 ++ new2 ∧
    map payment_values new1 = map payment_values new2.
Proof.
  intros Hk H1 H2. unfold migrate_payment in H1, H2.
  destruct (negb (truthy (row_get row "cod_cli"))).
  { injection H1 as <- <-. injection H2 as <- <-.
    split; [done|]. split; [done|]. exists [], []. by rewrite !app_nil_r. }
  apply bind_Ok in H1 as ([] & a1 & Q1 & H1).
  apply bind_Ok in H1 as (found1 & b1 & F1 & H1).
  apply bind_Ok in H2 as ([] & a2 & Q2 & H2).
  apply bind_Ok in H2 as (found2 & b2 & F2 & H2).
  cbv [query modify] in Q1, Q2. injection Q1 as <-. injection Q2 as <-.
  cbv [gets] in F1, F2. injection F1 as <- <-. injection F2 as <- <-.
  cbn [core set_trace] in H1, H2.
  pose proof (find_keys cu_legacy_code cu_id
                (Js.trim (ToString P (row_get row "cod_cli"))) _ _ Hk) as Hf.
  destruct (List.find _ (customer (core u1))) as [c1|];
    destruct (List.find _ (customer (core u2))) as [c2|]; try done.
  - injection Hf as Hid.
    apply bind_Ok in H1 as ([] & d1 & I1 & H1). injection H1 as <- <-.
    apply bind_Ok in H2 as ([] & d2 & I2 & H2). injection H2 as <- <-.
    apply insert_customer_payment_Ok in I1
      as (r1 & C1 & Dv1 & Pv1 & Rm1 & Cu1 & Dt1).
    apply insert_customer_payment_Ok in I2
      as (r2 & C2 & Dv2 & Pv2 & Rm2 & Cu2 & Dt2).
    unfold payments in *. rewrite C1, C2. cbn.
    split; [done|]. split; [done|].
    exists [r1], [r2]. split; [done|]. split; [done|].
    simpl. unfold payment_values.
    assert (Ea : cp_document_value r1 = cp_document_value r2) by congruence.
    assert (Eb : cp_paid_value r1 = cp_paid_value r2) by congruence.
    assert (Ec : cp_remaining r1 = cp_remaining r2) by congruence.
    by rewrite Cu1, Cu2, Dt1, Dt2, Hid, Ea, Eb, Ec.
  - injection H1 as <- <-. injection H2 as <- <-.
    split; [done|]. split; [done|]. exists [], []. by rewrite !app_nil_r.
Qed.

Lemma migrate_payments_again rows count1 count2 u1 u2 n1 n2 v1 v2 :
  keys cu_legacy_code cu_id (customer (core u1))
  = keys cu_legacy_code cu_id (customer (core u2)) →
  foldM (migrate_payment P) rows count1 u1 = Ok n1 v1 →
  foldM (migrate_payment P) rows count2 u2 = Ok n2 v2 →
  ∃ new1 new2,
    payments v1 = payments u1 ++ new1 ∧
    payments v2 = payments u2 ++ new2 ∧
    map payment_values new1 = map payment_values new2.
Proof.
  revert count1 count2 u1 u2.
  induction rows as [|row rows IH]; intros count1 count2 u1 u2 Hk H1 H2.
  - injection H1 as <- <-. injection H2 as <- <-.
    exists [], []. by rewrite !app_nil_r.
  - cbn [foldM] in H1, H2.
    apply bind_Ok in H1 as (c1 & a1 & S1 & H1).
    apply bind_Ok in H2 as (c2 & a2 & S2 & H2).
    destruct (migrate_payment_again _ _ _ _ _ _ _ _ _ Hk S1 S2)
      as (K1 & K2 & new1 & new2 & P1 & P2 & Hv).
    destruct (IH c1 c2 a1 a2) as (more1 & more2 & Q1 & Q2 & Hw);
      [by rewrite K1, K2|done|done|].
    exists (new1 ++ more1), (new2 ++ more2).
    rewrite Q1, Q2, P1, P2, <- !app_assoc, !map_app, Hv, Hw. done.
Qed.

Lemma select_staging_rows t w rows w' :
  select_staging t w = Ok rows w' → rows = staging_rows t w ∧ core w' = core w.
Proof. cbv [select_staging bind query modify gets]. by intros [= <- <-]. Qed.

Lemma migrateCustomerPayments_again u1 u2 n1 n2 v1 v2 :
  staging u1 = staging u2 →
  keys cu_legacy_code cu_id (customer (core u1))
  = keys cu_legacy_code cu_id (customer (core u2)) →
  migrateCustomerPayments P u1 = Ok n1 v1 →
  migrateCustomerPayments P u2 = Ok n2 v2 →
  ∃ new1 new2,
    payments v1 = payments u1 ++ new1 ∧
    payments v2 = payments u2 ++ new2 ∧
    map payment_values new1 = map payment_values new2.
Proof.
  intros Hs Hk H1 H2. unfold migrateCustomerPayments in H1, H2.
  apply bind_Ok in H1 as (rows1 & a1 & S1 & H1).
  apply bind_Ok in H2 as (rows2 & a2 & S2 & H2).
  apply select_staging_rows in S1 as [-> C1].
  apply select_staging_rows in S2 as [-> C2].
  unfold staging_rows in H1. rewrite Hs in H1. fold (staging_rows "stg_pagament" u2) in H1.
  destruct (migrate_payments_again _ _ _ _ _ _ _ _ _ ltac:(by rewrite C1, C2) H1 H2)
    as (new1 & new2 & P1 & P2 & Hv).
  exists new1, new2. unfold payments in *. by rewrite <- C1, <- C2.
Qed.

(** *** Stock movements *)

Lemma insert_stock_movement_again productId row u1 u2 v1 v2 :
  insert_stock_movement P productId row u1 = Ok tt v1 →
  insert_stock_movement P productId row u2 = Ok tt v2 →
  ∃ r1 r2,
    core v1 = with_stock_movement (movements u1 ++ [r1]) (core u1) ∧
    core v2 = with_stock_movement (movements u2 ++ [r2]) (core u2) ∧
    movement_values r1 = movement_values r2.
Proof.
  unfold insert_stock_movement. intros H1 H2.
  apply bind_Ok in H1 as ([] & a1 & Q1 & H1).
  apply bind_Ok in H1 as (date1 & b1 & D1 & H1).
  apply bind_Ok in H1 as (type1 & c1 & T1 & H1).
  apply bind_Ok in H1 as (qty1 & d1 & N1 & H1).
  apply bind_Ok in H1 as (quantity1 & e1 & Y1 & H1).
  apply bind_Ok in H1 as (value1 & f1 & V1 & H1).
  apply bind_Ok in H1 as (total1 & g1 & L1 & H1).
  apply bind_Ok in H1 as (i1 & h1 & I1 & H1).
  apply bind_Ok in H2 as ([] & a2 & Q2 & H2).
  apply bind_Ok in H2 as (date2 & b2 & D2 & H2).
  apply bind_Ok in H2 as (type2 & c2 & T2 & H2).
  apply bind_Ok in H2 as (qty2 & d2 & N2 & H2).
  apply bind_Ok in H2 as (quantity2 & e2 & Y2 & H2).
  apply bind_Ok in H2 as (value2 & f2 & V2 & H2).
  apply bind_Ok in H2 as (total2 & g2 & L2 & H2).
  apply bind_Ok in H2 as (i2 & h2 & I2 & H2).
  cbv [query modify] in Q1, Q2. injection Q1 as <-. injection Q2 as <-.
  apply expect_Ok in D1 as [D1 ->]. apply expect_Ok in D2 as [D2 ->].
  apply expect_Ok in T1 as [T1 ->]. apply expect_Ok in T2 as [T2 ->].
  apply expect_Ok in N1 as [N1 ->]. apply expect_Ok in N2 as [N2 ->].
  rewrite D1 in D2. injection D2 as <-.
  rewrite T1 in T2. injection T2 as <-.
  rewrite N1 in N2. injection N2 as <-.
  apply expect_Ok in Y1 as [Y1 ->]. apply expect_Ok in Y2 as [Y2 ->].
  rewrite Y1 in Y2. injection Y2 as <-.
  apply expect_Ok in V1 as [V1 ->]. apply expect_Ok in V2 as [V2 ->].
  rewrite V1 in V2. injection V2 as <-.
  apply expect_Ok in L1 as [L1 ->]. apply expect_Ok in L2 as [L2 ->].
  rewrite L1 in L2. injection L2 as <-.
  cbv [fresh_uuid] in I1, I2. injection I1 as <- <-. injection I2 as <- <-.
  cbv [update_core modify] in H1, H2. injection H1 as <-. injection H2 as <-.
  eexists _, _. split; [reflexivity|]. split; [reflexivity|]. reflexivity.
Qed.

Lemma migrate_stock_again m count1 count2 row u1 u2 n1 n2 v1 v2 :
  migrate_stock P m count1 row u1 = Ok n1 v1 →
  migrate_stock P m count2 row u2 = Ok n2 v2 →
  ∃ new1 new2,
    movements v1 = movements u1 ++ new1 ∧
    movements v2 = movements u2 ++ new2 ∧
    map movement_values new1 = map movement_values new2.
Proof.
  unfold migrate_stock. intros H1 H2.
  destruct (negb _).
  { injection H1 as <- <-. injection H2 as <- <-.
    exists [], []. by rewrite !app_nil_r. }
  destruct (m !! _) as [productId|].
  - apply bind_Ok in H1 as ([] & d1 & I1 & H1). injection H1 as <- <-.
    apply bind_Ok in H2 as ([] & d2 & I2 & H2). injection H2 as <- <-.
    destruct (insert_stock_movement_again _ _ _ _ _ _ I1 I2)
      as (r1 & r2 & C1 & C2 & Hv).
    exists [r1], [r2]. unfold movements at 1 3. rewrite C1, C2. cbn.
    split; [done|]. split; [done|]. by rewrite Hv.
  - injection H1 as <- <-. injection H2 as <- <-.
    exists [], []. by rewrite !app_nil_r.
Qed.

Lemma migrate_stocks_again m rows count1 count2 u1 u2 n1 n2 v1 v2 :
  foldM (migrate_stock P m) rows count1 u1 = Ok n1 v1 →
  foldM (migrate_stock P m) rows count2 u2 = Ok n2 v2 →
  ∃ new1 new2,
    movements v1 = movements u1 ++ new1 ∧
    movements v2 = movements u2 ++ new2 ∧
    map movement_values new1 = map movement_values new2.
Proof.
  revert count1 count2 u1 u2.
  induction rows as [|row rows IH]; intros count1 count2 u1 u2 H1 H2.
  - injection H1 as <- <-. injection H2 as <- <-.
    exists [], []. by rewrite !app_nil_r.
  - cbn [foldM] in H1, H2.
    apply bind_Ok in H1 as (c1 & a1 & S1 & H1).
    apply bind_Ok in H2 as (c2 & a2 & S2 & H2).
    destruct (migrate_stock_again _ _ _ _ _ _ _ _ _ _ S1 S2)
      as (new1 & new2 & P1 & P2 & Hv).
    destruct (IH c1 c2 a1 a2 H1 H2) as (more1 & more2 & Q1 & Q2 & Hw).
    exists (new1 ++ more1), (new2 ++ more2).
    rewrite Q1, Q2, P1, P2, <- !app_assoc, !map_app, Hv, Hw. done.
Qed.

Lemma buildLegacyMap_product w m w' :
  buildLegacyMap "product" w = Ok m w' →
  core w' = core w ∧
  m = fold_left
        (fun (m : gmap string uuid) '(code, rid) =>
           if bool_decide (code = EmptyString) then m
           else <[Js.trim code := rid]> m)
        (coded pr_legacy_code pr_id (product (core w))) ∅.
Proof.
  unfold buildLegacyMap. intros H.
  apply bind_Ok in H as ([] & a & Q & H).
  apply bind_Ok in H as (c & b & G & H).
  apply bind_Ok in H as (rows & d & E & H).
  cbv [query modify] in Q. injection Q as <-.
  cbv [gets] in G. injection G as <- <-.
  apply expect_Ok in E as [E ->].
  change (Some (coded pr_legacy_code pr_id
                  (product (core (set_trace (trace w ++ [SSelect "product"]) w))))
          = Some rows) in E.
  injection E as <-. by injection H as <- <-.
Qed.

Lemma migrateStockMovements_again u1 u2 n1 n2 v1 v2 :
  staging u1 = staging u2 →
  keys pr_legacy_code pr_id (product (core u1))
  = keys pr_legacy_code pr_id (product (core u2)) →
  migrateStockMovements P u1 = Ok n1 v1 →
  migrateStockMovements P u2 = Ok n2 v2 →
  ∃ new1 new2,
    movements v1 = movements u1 ++ new1 ∧
    movements v2 = movements u2 ++ new2 ∧
    map movement_values new1 = map movement_values new2.
Proof.
  intros Hs Hk H1 H2. unfold migrateStockMovements in H1, H2.
  apply bind_Ok in H1 as (rows1 & a1 & S1 & H1).
  apply bind_Ok in H2 as (rows2 & a2 & S2 & H2).
  apply bind_Ok in H1 as (m1 & b1 & B1 & H1).
  apply bind_Ok in H2 as (m2 & b2 & B2 & H2).
  apply select_staging_rows in S1 as [-> C1].
  apply select_staging_rows in S2 as [-> C2].
  apply buildLegacyMap_product in B1 as [D1 ->].
  apply buildLegacyMap_product in B2 as [D2 ->].
  rewrite C1 in *. rewrite C2 in *.
  rewrite !coded_keys, Hk in H1.
  unfold staging_rows in H1. rewrite Hs in H1.
  fold (staging_rows "stg_mov_est" u2) in H1.
  rewrite <- coded_keys in H1.
  destruct (migrate_stocks_again _ _ _ _ _ _ _ _ _ _ H1 H2)
    as (new1 & new2 & P1 & P2 & Hv).
  exists new1, new2. unfold movements in *. by rewrite <- D1, <- D2.
Qed.

(** *** The two stages within a run *)

Lemma runImport_inserts job w w' :
  runImport P job w = Ok tt w' →
  ∃ u u' v v' pc sc,
    migrateCustomerPayments P u = Ok pc u' ∧
    migrateStockMovements P v = Ok sc v' ∧
    payments u = (if overwrite job then [] else payments w) ∧
    payments w' = payments u' ∧
    movements v = (if overwrite job then [] else movements w) ∧
    movements w' = movements v' ∧
    staging u = staging w' ∧ staging v = staging w' ∧
    reference u = reference w' ∧ reference v = reference w'.
Proof.
  intros H.
  apply runImport_Ok in H
    as (w1 & w1' & w2 & w2' & w3 & w3' & w4 & w4' & ms & ss & pc & sc
        & C1 & M & T2 & S & T3 & Pay & T4 & Stk & T').
  exists w3, w3', w4, w4', pc, sc.
  pose proof (preserves_Ok payments _ _ _ _
    (migrateMasterData_frame P payments ltac:(unseen) ltac:(unseen)
       ltac:(unseen) ltac:(unseen) ltac:(unseen) ltac:(unseen) ltac:(unseen) _)
    M) as PM.
  pose proof (preserves_Ok movements _ _ _ _
    (migrateMasterData_frame P movements ltac:(unseen) ltac:(unseen)
       ltac:(unseen) ltac:(unseen) ltac:(unseen) ltac:(unseen) ltac:(unseen) _)
    M) as MM.
  pose proof (preserves_Ok payments _ _ _ _
    (migrateSales_frame P payments ltac:(unseen) ltac:(unseen) ltac:(unseen)
       ltac:(unseen) _) S) as PS.
  pose proof (preserves_Ok movements _ _ _ _
    (migrateSales_frame P movements ltac:(unseen) ltac:(unseen) ltac:(unseen)
       ltac:(unseen) _) S) as MS.
  pose proof (preserves_Ok movements _ _ _ _
    (migrateCustomerPayments_frame P movements ltac:(unseen) ltac:(unseen)
       ltac:(unseen)) Pay) as MP.
  pose proof (preserves_Ok reference _ _ _ _
    (migrateCustomerPayments_frame P reference ltac:(unseen) ltac:(unseen)
       ltac:(unseen)) Pay) as RP.
  pose proof (preserves_Ok staging _ _ _ _
    (migrateCustomerPayments_frame P staging ltac:(unseen) ltac:(unseen)
       ltac:(unseen)) Pay) as SP.
  pose proof (preserves_Ok payments _ _ _ _
    (migrateStockMovements_frame P payments ltac:(unseen) ltac:(unseen)
       ltac:(unseen)) Stk) as PK.
  pose proof (preserves_Ok reference _ _ _ _
    (migrateStockMovements_frame P reference ltac:(unseen) ltac:(unseen)
       ltac:(unseen)) Stk) as RK.
  pose proof (preserves_Ok staging _ _ _ _
    (migrateStockMovements_frame P staging ltac:(unseen) ltac:(unseen)
       ltac:(unseen)) Stk) as SK.
  apply tables_eq in T2 as [C2 S2]. apply tables_eq in T3 as [C3 S3].
  apply tables_eq in T4 as [C4 S4]. apply tables_eq in T' as [C' S'].
  assert (Hp : ∀ a b, core a = core b → payments a = payments b).
  { intros a b E. unfold payments. by rewrite E. }
  assert (Hm : ∀ a b, core a = core b → movements a = movements b).
  { intros a b E. unfold movements. by rewrite E. }
  assert (Hr : ∀ a b, core a = core b → reference a = reference b).
  { intros a b E. unfold reference. by rewrite E. }
  split; [done|]. split; [done|].
  split.
  { rewrite (Hp _ _ C3), PS, (Hp _ _ C2), PM. unfold payments. rewrite C1.
    by destruct (overwrite job). }
  split; [by rewrite (Hp _ _ C'), PK, (Hp _ _ C4)|].
  split.
  { rewrite (Hm _ _ C4), MP, (Hm _ _ C3), MS, (Hm _ _ C2), MM.
    unfold movements. rewrite C1. by destruct (overwrite job). }
  split; [by rewrite (Hm _ _ C')|].
  split; [by rewrite S', SK, S4, SP|]. split; [by rewrite S', SK|].
  split; [by rewrite (Hr _ _ C'), RK, (Hr _ _ C4), RP|].
  by rewrite (Hr _ _ C'), RK.
Qed.

(** The reference tables after a second run over the same staged data
    hold the same codes under the same ids. *)
Lemma rerun_reference_keys job1 job2 w0 w1 w2 :
  runImport P job1 w0 = Ok tt w1 →
  runImport P job2 w1 = Ok tt w2 →
  overwrite job2 = false →
  staging w2 = staging w1 →
  keys cn_legacy_code cn_id (product_group (core w2))
  = keys cn_legacy_code cn_id (product_group (core w1)) ∧
  keys pr_legacy_code pr_id (product (core w2))
  = keys pr_legacy_code pr_id (product (core w1)) ∧
  keys cu_legacy_code cu_id (customer (core w2))
  = keys cu_legacy_code cu_id (customer (core w1)) ∧
  keys cn_legacy_code cn_id (seller (core w2))
  = keys cn_legacy_code cn_id (seller (core w1)) ∧
  keys cn_legacy_code cn_id (payment_term (core w2))
  = keys cn_legacy_code cn_id (payment_term (core w1)).
Proof.
  intros R1 R2 Hov Hstg.
  apply runImport_tables in R1
    as (a & a' & b & b' & ms & ss & Ca & Ma & Tb & Sb & Ref1 & Sal1 & _ & Sa & Sb').
  apply runImport_tables in R2
    as (c & c' & d & d' & ms2 & ss2 & Cc & Mc & Td & Sd & Ref2 & Sal2 & SalM & Sc & Sd').
  rewrite Hov in *.
  assert (Hrows : ∀ t, staging_rows t c = staging_rows t a).
  { intros t. unfold staging_rows. by rewrite Sc, Hstg, Sa. }
  injection Ref1 as G1 P1 C1 S1 T1. injection Ref2 as G2 P2 C2 S2 T2.
  assert (Hc : reference c = reference a').
  { unfold reference. rewrite Cc. by rewrite G1, P1, C1, S1, T1. }
  injection Hc as Gc Pc Cuc Sc0 Tc.
  apply migrateMasterData_Ok in Ma
    as ((n1 & n1' & Ug) & (xp & n2 & n2' & Xp & Up) & (xc & n3 & n3' & Xc & Uc)
        & (xs & n4 & n4' & Xs & Us) & (xt & n5 & n5' & Xt & Ut)).
  apply migrateMasterData_Ok in Mc
    as ((m1 & m1' & Vg) & (yp & m2 & m2' & Yp & Vp) & (yc & m3 & m3' & Yc & Vc)
        & (ys & m4 & m4' & Ys & Vs) & (yt & m5 & m5' & Yt & Vt)).
  cbv zeta in *. rewrite !Hrows in *.
  rewrite Gc in Vg. rewrite Pc in Vp. rewrite Cuc in Vc. rewrite Sc0 in Vs.
  rewrite Tc in Vt.
  rewrite G1, G2, P1, P2, C1, C2, S1, S2, T1, T2. unfold keys.
  split; [|split; [|split; [|split]]].
  - exact (upsert_twice_settled cn_legacy_code merge_name
             (fun r => (cn_legacy_code r, cn_id r))
             (fun _ _ => eq_refl) (fun _ _ => eq_refl)
             _ _ _ _ _ _ _ _ _ _ (keyed_group _) (keyed_group _) Ug Vg).
  - exact (upsert_twice_settled pr_legacy_code merge_product
             (fun r => (pr_legacy_code r, pr_id r))
             (fun _ _ => eq_refl) (fun _ _ => eq_refl)
             _ _ _ _ _ _ _ _ _ _
             (keyed_mapM _ _ _ _ (keyed_product P _) Xp)
             (keyed_mapM _ _ _ _ (keyed_product P _) Yp) Up Vp).
  - exact (upsert_twice_settled cu_legacy_code merge_customer
             (fun r => (cu_legacy_code r, cu_id r))
             (fun _ _ => eq_refl) (fun _ _ => eq_refl)
             _ _ _ _ _ _ _ _ _ _
             (keyed_mapM _ _ _ _ (keyed_customer P) Xc)
             (keyed_mapM _ _ _ _ (keyed_customer P) Yc) Uc Vc).
  - exact (upsert_twice_settled cn_legacy_code merge_name
             (fun r => (cn_legacy_code r, cn_id r))
             (fun _ _ => eq_refl) (fun _ _ => eq_refl)
             _ _ _ _ _ _ _ _ _ _
             (keyed_mapM _ _ _ _ (keyed_named _) Xs)
             (keyed_mapM _ _ _ _ (keyed_named _) Ys) Us Vs).
  - exact (upsert_twice_settled cn_legacy_code merge_name
             (fun r => (cn_legacy_code r, cn_id r))
             (fun _ _ => eq_refl) (fun _ _ => eq_refl)
             _ _ _ _ _ _ _ _ _ _
             (keyed_mapM _ _ _ _ (keyed_named _) Xt)
             (keyed_mapM _ _ _ _ (keyed_named _) Yt) Ut Vt).
Qed.

(** C3, as amended. Only the master-data and sale-header writes are
    keyed.  When a completed import is followed by a second completed
    import of the same staged data with overwrite=false, the five
    reference tables hold the same legacy codes under the same ids as
    before, but customer_payment and stock_movement are written with
    plain inserts: the second run keeps every row of the first and
    appends the payments and the movements of the first run once more,
    equal in every column but the generated id. *)
Theorem rerun_appends_payments_and_movements job1 job2 w0 w1 w2 :
  runImport P job1 w0 = Ok tt w1 →
  runImport P job2 w1 = Ok tt w2 →
  overwrite job2 = false →
  staging w2 = staging w1 →
  (keys cn_legacy_code cn_id (product_group (core w2))
   = keys cn_legacy_code cn_id (product_group (core w1)) ∧
   keys pr_legacy_code pr_id (product (core w2))
   = keys pr_legacy_code pr_id (product (core w1)) ∧
   keys cu_legacy_code cu_id (customer (core w2))
   = keys cu_legacy_code cu_id (customer (core w1)) ∧
   keys cn_legacy_code cn_id (seller (core w2))
   = keys cn_legacy_code cn_id (seller (core w1)) ∧
   keys cn_legacy_code cn_id (payment_term (core w2))
   = keys cn_legacy_code cn_id (payment_term (core w1))) ∧
  ∃ first_p again_p first_m again_m,
    payments w1 = (if overwrite job1 then [] else payments w0) ++ first_p ∧
    payments w2 = payments w1 ++ again_p ∧
    map payment_values again_p = map payment_values first_p ∧
    movements w1 = (if overwrite job1 then [] else movements w0) ++ first_m ∧
    movements w2 = movements w1 ++ again_m ∧
    map movement_values again_m = map movement_values first_m.
Proof.
  intros R1 R2 Hov Hstg.
  pose proof (rerun_reference_keys _ _ _ _ _ R1 R2 Hov Hstg)
    as Hkeys.
  split; [exact Hkeys|].
  destruct Hkeys as (_ & Kp & Kc & _).
  apply runImport_inserts in R1
    as (u1 & u1' & v1 & v1' & pc1 & sc1 & Pay1 & Stk1 & Pu1 & Pw1 & Mv1 & Mw1
        & Su1 & Sv1 & Ru1 & Rv1).
  apply runImport_inserts in R2
    as (u2 & u2' & v2 & v2' & pc2 & sc2 & Pay2 & Stk2 & Pu2 & Pw2 & Mv2 & Mw2
        & Su2 & Sv2 & Ru2 & Rv2).
  rewrite Hov in Pu2, Mv2.
  injection Ru1 as _ Pru1 Cuu1 _ _. injection Ru2 as _ Pru2 Cuu2 _ _.
  injection Rv1 as _ Prv1 Cuv1 _ _. injection Rv2 as _ Prv2 Cuv2 _ _.
  destruct (migrateCustomerPayments_again u1 u2 _ _ _ _
              ltac:(by rewrite Su1, Su2) ltac:(by rewrite Cuu1, Cuu2) Pay1 Pay2)
    as (first_p & again_p & Hp1 & Hp2 & Hpv).
  destruct (migrateStockMovements_again v1 v2 _ _ _ _
              ltac:(by rewrite Sv1, Sv2) ltac:(by rewrite Prv1, Prv2) Stk1 Stk2)
    as (first_m & again_m & Hm1 & Hm2 & Hmv).
  exists first_p, again_p, first_m, again_m.
  rewrite Pw2, Mw2, Hp2, Hm2, Pu2, Mv2.
  rewrite Pw1, Mw1, Hp1, Hm1, Pu1, Mv1.
  by repeat split.
Qed.

End Inserts.

(** C3, counterexample. The sample upload is imported from session s1
    and then again from session s2, without overwrite; both runs
    complete on the same staged data, and the second leaves two payments
    and two stock movements where the first had left one of each. *)
Lemma rerun_duplicates_payments :
  runImport Sample.platform (Sample.job 1 "s1" false) Sample.world
    = Ok tt Sample.after_first ∧
  runImport Sample.platform (Sample.job 2 "s2" false) Sample.after_first
    = Ok tt Sample.after_second ∧
  staging Sample.after_second = staging Sample.after_first ∧
  map payment_values (payments Sample.after_first)
    = [ (Some 1002, Some 20759%Z, Some (PgNum 1000), Some (PgNum 400),
         Some (PgNum 600)) ] ∧
  map payment_values (payments Sample.after_second)
    = [ (Some 1002, Some 20759%Z, Some (PgNum 1000), Some (PgNum 400),
         Some (PgNum 600));
        (Some 1002, Some 20759%Z, Some (PgNum 1000), Some (PgNum 400),
         Some (PgNum 600)) ] ∧
  map sm_id (movements Sample.after_first) = [1008] ∧
  map sm_id (movements Sample.after_second) = [1008; 1011].
Proof.
  split; [apply returned_final; by_computation|].
  split; [apply returned_final; by_computation|]. split; [by_computation|].
  split; [by_computation|]. split; [by_computation|]. split; by_computation.
Qed.

(** The same two runs, for the amended statement. *)
Lemma rerun_appends_payments_and_movements_witness :
  overwrite (Sample.job 2 "s2" false) = false ∧
  staging Sample.after_second = staging Sample.after_first ∧
  ∃ first_p again_p first_m again_m,
    payments Sample.after_first = payments Sample.world ++ first_p ∧
    payments Sample.after_second = payments Sample.after_first ++ again_p ∧
    map payment_values again_p = map payment_values first_p ∧
    movements Sample.after_first = movements Sample.world ++ first_m ∧
    movements Sample.after_second = movements Sample.after_first ++ again_m ∧
    map movement_values again_m = map movement_values first_m.
Proof.
  assert (Hs : staging Sample.after_second = staging Sample.after_first)
    by by_computation.
  split; [reflexivity|]. split; [exact Hs|].
  apply (rerun_appends_payments_and_movements Sample.platform
           (Sample.job 1 "s1" false) (Sample.job 2 "s2" false) Sample.world
           Sample.after_first Sample.after_second).
  - apply returned_final. by_computation.
  - apply returned_final. by_computation.
  - reflexivity.
  - exact Hs.
Defined.

(** ** The normalizers *)

Lemma L_inj s t : L s = L t → s = t.
Proof.
  intros H. rewrite <- (string_of_list_ascii_of_string s),
    <- (string_of_list_ascii_of_string t). by rewrite H.
Qed.

Lemma str_rev_involutive s : Js.str_rev (Js.str_rev s) = s.
Proof. apply L_inj. by rewrite !L_str_rev, rev_involutive. Qed.

Lemma trimStart_idem s : Js.trimStart (Js.trimStart s) = Js.trimStart s.
Proof.
  induction s as [|c r IH]; [done|]. simpl.
  destruct (Js.is_white c) eqn:E; [done|]. simpl. by rewrite E.
Qed.

Lemma trimStart_fixed s :
  match s with String c _ => Js.is_white c = false | EmptyString => True end →
  Js.trimStart s = s.
Proof. destruct s as [|c r]; [done|]. simpl. by intros ->. Qed.

Lemma trimStart_white s :
  Forall (fun x => Js.is_white x = true) (L s) → Js.trimStart s = EmptyString.
Proof.
  induction s as [|c r IH]; [done|]. simpl. intros H.
  apply Forall_cons in H as [-> H]. by apply IH.
Qed.

(** What [trim] cuts off at the end is white space. *)
Lemma trim_split s :
  ∃ ws, L (Js.trimStart s) = L (Js.trim s) ++ ws ∧
        Forall (fun x => Js.is_white x = true) ws.
Proof.
  unfold Js.trim, Js.trimEnd.
  destruct (trimStart_split (Js.str_rev (Js.trimStart s))) as (ws & E & Hws).
  exists (rev ws). split; [|by apply Forall_rev].
  rewrite L_str_rev in E. apply (f_equal (@rev ascii)) in E.
  rewrite rev_involutive, rev_app_distr in E. by rewrite L_str_rev.
Qed.

Lemma trim_head s x r : Js.trim s = String x r → Js.is_white x = false.
Proof.
  intros H. destruct (trim_split s) as (ws & E & _). rewrite H in E.
  destruct (Js.trimStart s) as [|y t] eqn:Et; [done|].
  simpl in E. injection E as -> _. by eapply trimStart_head.
Qed.

Lemma trim_idem s : Js.trim (Js.trim s) = Js.trim s.
Proof.
  assert (H1 : Js.trimStart (Js.trim s) = Js.trim s).
  { apply trimStart_fixed. destruct (Js.trim s) as [|x r] eqn:E; [done|].
    by eapply trim_head. }
  unfold Js.trim at 1. rewrite H1. unfold Js.trim, Js.trimEnd.
  by rewrite str_rev_involutive, trimStart_idem.
Qed.

Lemma trim_white s :
  Forall (fun x => Js.is_white x = true) (L s) → Js.trim s = EmptyString.
Proof. intros H. unfold Js.trim. by rewrite trimStart_white. Qed.

Section Normalizers.

Context (P : Platform).

(** X1. normalizeString gives no empty text: for a value that is not a Date
    the result is not empty, has no white space at either end, and is
    returned unchanged when it is normalized again; for a Date it is
    the ISO text up to the first T. *)
Theorem normalizeString_trimmed (v : value) (s : string) :
  normalizeString P v = Some s →
  match v with
  | VDate t => s = before_T (Date_toISOString P t)
  | _ => s ≠ EmptyString ∧ Js.trim s = s ∧
         normalizeString P (VString s) = Some s
  end.
Proof.
  unfold normalizeString. destruct (is_nullish v) eqn:Hn; [done|].
  assert (Hs : ∀ str, (if (0 <? String.length (Js.trim str))%nat
                       then Some (Js.trim str) else None) = Some s →
               s ≠ EmptyString ∧ Js.trim s = s ∧
               (if (0 <? String.length (Js.trim s))%nat
                then Some (Js.trim s) else None) = Some s).
  { intros str H. destruct (0 <? _)%nat eqn:Hl; [|done].
    injection H as <-. rewrite trim_idem, Hl.
    split; [|done]. intros E. by rewrite E in Hl. }
  destruct v; try done; try (intros H; by apply Hs in H).
  by intros [= <-].
Qed.

(** X2. normalizeNumber gives a finite number or null, never NaN or an
    infinity; and only the empty string is read as null: a text that is
    not empty and holds white space only gives 0. *)
Theorem normalizeNumber_finite_or_null :
  (∀ v n, normalizeNumber P v = Some n → Js.isFinite n = true) ∧
  (∀ s, s ≠ EmptyString →
        Forall (fun x => Js.is_white x = true) (L s) →
        normalizeNumber P (VString s) = Some Js.zero).
Proof.
  split.
  - intros v n. unfold normalizeNumber.
    destruct (is_nullish v || is_empty_string v); [done|].
    destruct v; try done;
      (destruct (Js.isFinite _) eqn:E; [|done]); by intros [= <-].
  - intros s Hs Hw. rewrite normalizeNumber_string.
    rewrite bool_decide_false by done.
    assert (Hc : Forall (fun x => Js.is_white x = true)
                   (L (Js.replace_comma s))).
    { clear Hs. revert Hw.
      induction s as [|x t IH]; [done|]. simpl. intros H.
      apply Forall_cons in H as [Hx H].
      destruct (Ascii.eqb x ",") eqn:E.
      - apply Ascii.eqb_eq in E. by subst x.
      - constructor; [done|]. by apply IH. }
    unfold Js.StringToNumber. by rewrite (trim_white _ Hc).
Qed.

(** X3. The items of a row are at most seven, and their quantity, price and
    total are finite numbers. *)
Theorem extractSaleItems_finite (row : Row) :
  (length (extractSaleItems P row) ≤ 7)%nat ∧
  Forall (fun item => Js.isFinite (quantity item) = true ∧
                      Js.isFinite (price item) = true ∧
                      Js.isFinite (total item) = true)
    (extractSaleItems P row).
Proof.
  rewrite extractSaleItems_slots. split.
  - rewrite length_map. unfold filled_slots.
    etrans; [apply length_filter|]. done.
  - apply Forall_forall. intros item Hi.
    apply list_elem_of_fmap in Hi as (i & -> & _).
    unfold slot_item. cbn. by rewrite !or_zero_finite.
Qed.

End Normalizers.

Lemma normalizeString_trimmed_witness :
  normalizeString Sample.platform (VString "  ab ") = Some "ab" ∧
  "ab" ≠ EmptyString ∧ Js.trim "ab" = "ab" ∧
  normalizeString Sample.platform (VString "ab") = Some "ab".
Proof.
  split; [reflexivity|].
  exact (normalizeString_trimmed Sample.platform (VString "  ab ") "ab" eq_refl).
Defined.

(** ** The file map *)

Lemma keyed_by_name_insert m file :
  keyed_by_name m →
  keyed_by_name (<[Js.toUpperCase (Fs.basename file) := file]> m).
Proof.
  intros H k p. rewrite lookup_insert. case_decide as E.
  - by intros [= <-].
  - apply H.
Qed.

Lemma keyed_by_name_fold files m :
  keyed_by_name m →
  keyed_by_name
    (fold_left (fun m ex => <[Js.toUpperCase (Fs.basename ex) := ex]> m)
       files m).
Proof.
  revert m. induction files as [|f files IH]; intros m H; [done|].
  simpl. by apply IH, keyed_by_name_insert.
Qed.

Lemma prepare_files_keyed dir files m es m' es' :
  prepare_files dir files m es = (Some m', es') →
  keyed_by_name m → keyed_by_name m'.
Proof.
  revert m es. induction files as [|file rest IH]; intros m es; simpl.
  - by intros [= <- <-].
  - case_bool_decide as Hz.
    + destruct (Fs.mkdir_p _ es) as [es1|]; [|done].
      destruct (Fs.extract _ _ es1) as [es2|]; [|done].
      destruct (Fs.unlink _ es2) as [es3|]; [|done].
      destruct (readDirectoryRecursive _ es3) as [extracted|]; [|done].
      intros H Hm. eapply IH; [exact H|]. by apply keyed_by_name_fold.
    + intros H Hm. eapply IH; [exact H|]. by apply keyed_by_name_insert.
Qed.

Lemma prepareLegacyFiles_Some dir es m es' :
  prepareLegacyFiles dir es = Some (m, es') →
  ∃ files, readDirectoryRecursive dir es = Some files ∧
           prepare_files dir files ∅ es = (Some m, es').
Proof.
  unfold prepareLegacyFiles. intros H.
  apply bind_Some in H as (files & Hr & H). exists files. split; [done|].
  destruct (prepare_files dir files ∅ es) as [[m0|] es0]; [|done].
  by injection H as -> ->.
Qed.

(** X4. Every key of the file map is the upper-case form of the base name
    of the path it stands for, whatever the case of the name and whether
    the file was uploaded loose or came out of an archive; this is said
    for the names whose upper-case form stays within the code units
    below 256, which are all but those with a micro sign or U+00FF. *)
Theorem prepareLegacyFiles_keys dir es m es' :
  prepareLegacyFiles dir es = Some (m, es') →
  ∀ k p, m !! k = Some p → Js.upper_fits (Fs.basename p) = true →
         k = Js.toUpperCase (Fs.basename p).
Proof.
  intros H k p Hk _.
  apply prepareLegacyFiles_Some in H as (files & _ & H).
  eapply prepare_files_keyed; [exact H| |exact Hk]. by intros k' p'.
Qed.

Lemma prepare_files_plain dir files m es :
  Forall plain_file files →
  prepare_files dir files m es
  = (Some (fold_left (fun m f => <[Js.toUpperCase (Fs.basename f) := f]> m)
             files m), es).
Proof.
  revert m. induction files as [|file rest IH]; intros m H; [done|].
  apply Forall_cons in H as [Hf H]. simpl.
  rewrite bool_decide_false by exact Hf. by apply IH.
Qed.

Lemma fold_insert_lookup (files : list path) (m : gmap string path) k p :
  fold_left (fun m f => <[Js.toUpperCase (Fs.basename f) := f]> m) files m
    !! k = Some p →
  p ∈ files ∨ m !! k = Some p.
Proof.
  revert m. induction files as [|f files IH]; intros m; simpl; [by right|].
  intros H. apply IH in H as [H|H]; [left; by right|].
  rewrite lookup_insert in H. case_decide.
  - injection H as <-. left. left.
  - by right.
Qed.

Lemma fold_insert_some (files : list path) (m : gmap string path) k :
  (is_Some (m !! k) ∨ ∃ f, f ∈ files ∧ k = Js.toUpperCase (Fs.basename f)) →
  is_Some
    (fold_left (fun m f => <[Js.toUpperCase (Fs.basename f) := f]> m) files m
       !! k).
Proof.
  revert m. induction files as [|f files IH]; intros m; simpl.
  - intros [H|(f & Hf & _)]; [done|by apply elem_of_nil in Hf].
  - intros H. apply IH.
    destruct H as [H|(g & Hg & ->)].
    + left. rewrite lookup_insert. case_decide; [by eexists|done].
    + apply elem_of_cons in Hg as [->|Hg].
      * left. rewrite lookup_insert_eq. by eexists.
      * right. by exists g.
Qed.

(** X5. A session directory without archives is left as it is, every path
    of the map is one of its files, and every file in it has a key: the
    upper-case form of its base name, for the names whose upper-case
    form stays within the code units below 256. *)
Theorem prepareLegacyFiles_without_archives dir es files :
  readDirectoryRecursive dir es = Some files →
  Forall plain_file files →
  ∃ m,
    prepareLegacyFiles dir es = Some (m, es) ∧
    prepareLegacyFiles_leaves dir es = es ∧
    (∀ f, f ∈ files → Js.upper_fits (Fs.basename f) = true →
          is_Some (m !! Js.toUpperCase (Fs.basename f))) ∧
    (∀ k p, m !! k = Some p → p ∈ files).
Proof.
  intros Hr Hp. unfold prepareLegacyFiles, prepareLegacyFiles_leaves.
  rewrite Hr. cbn [mbind option_bind].
  rewrite (prepare_files_plain _ _ _ _ Hp).
  eexists. split; [reflexivity|]. split; [reflexivity|]. split.
  - intros f Hf _. apply fold_insert_some. right. by exists f.
  - intros k p H. by apply fold_insert_lookup in H as [H|H].
Qed.

(** *** Where the files of the map lie *)

Lemma files_under_below :
  ∀ e root f, f ∈ Fs.files_under root e → root `prefix_of` f.
Proof.
  fix IH 1. intros [n r|n a|n l|n ch] root f; simpl;
    try (intros Hf; apply list_elem_of_singleton in Hf; subst f; by eexists).
  induction ch as [|c ch IHch]; simpl; [by intros Hf; apply elem_of_nil in Hf|].
  intros Hf. apply elem_of_app in Hf as [Hf|Hf]; [|by apply IHch].
  apply IH in Hf. etrans; [|exact Hf]. by eexists.
Qed.

Lemma readDirectoryRecursive_below root es files :
  readDirectoryRecursive root es = Some files →
  ∀ f, f ∈ files → root `prefix_of` f.
Proof.
  unfold readDirectoryRecursive. intros H.
  apply bind_Some in H as (ch & _ & [= <-]).
  induction ch as [|c ch IH]; simpl; intros f Hf; [by apply elem_of_nil in Hf|].
  apply elem_of_app in Hf as [Hf|Hf]; [|by apply IH].
  by apply files_under_below in Hf.
Qed.

Lemma join_below dir name :
  name ≠ ".." → dir `prefix_of` Fs.join dir name.
Proof.
  intros Hn. unfold Fs.join. case_bool_decide; [done|].
  rewrite bool_decide_false by done. by eexists.
Qed.

Lemma prepare_files_below dir files m es m' es' :
  prepare_files dir files m es = (Some m', es') →
  (∀ file, file ∈ files → dir `prefix_of` file) →
  (∀ file, file ∈ files →
           Js.toLowerCase (Fs.extname (Fs.basename file)) = ".zip" →
           Fs.stem (Fs.basename file) ≠ "..") →
  (∀ k p, m !! k = Some p → dir `prefix_of` p) →
  ∀ k p, m' !! k = Some p → dir `prefix_of` p.
Proof.
  revert m es. induction files as [|file rest IH]; intros m es; simpl.
  - by intros [= <- <-].
  - intros H Hin Hstem Hm.
    assert (Hin' : ∀ f, f ∈ rest → dir `prefix_of` f)
      by (intros f Hf; apply Hin; by right).
    assert (Hstem' : ∀ f, f ∈ rest →
              Js.toLowerCase (Fs.extname (Fs.basename f)) = ".zip" →
              Fs.stem (Fs.basename f) ≠ "..")
      by (intros f Hf; apply Hstem; by right).
    case_bool_decide as Hz.
    + destruct (Fs.mkdir_p _ es) as [es1|]; [|done].
      destruct (Fs.extract _ _ es1) as [es2|]; [|done].
      destruct (Fs.unlink _ es2) as [es3|]; [|done].
      destruct (readDirectoryRecursive _ es3) as [extracted|] eqn:Hx; [|done].
      eapply IH; [exact H|done|done|].
      intros k p Hk. apply fold_insert_lookup in Hk as [Hk|Hk]; [|by eapply Hm].
      etrans; [|exact (readDirectoryRecursive_below _ _ _ Hx p Hk)].
      apply join_below, Hstem; [left|done].
    + eapply IH; [exact H|done|done|].
      intros k p. rewrite lookup_insert. case_decide.
      * intros [= <-]. apply Hin. left.
      * apply Hm.
Qed.

Lemma check_list_present (files : gmap string path) (l : list string) w :
  (∀ required, required ∈ l → is_Some (files !! required)) →
  forM (fun required =>
          match files !! required with
          | None =>
              throw ("Required legacy file " +:+ required
                       +:+ " missing after extraction")
          | Some _ => ret tt
          end) l w = Ok tt w.
Proof.
  unfold forM. generalize tt. induction l as [|r l IH]; intros [] H; [done|].
  cbn [foldM]. unfold bind.
  destruct (H r) as [p Hp]; [left|]. rewrite Hp. cbn.
  apply IH. intros x Hx. apply H. by right.
Qed.

(** X6. The check of the required files passes exactly when each of the five
    names is a key of the file map; it writes nothing either way. *)
Theorem check_required_iff (files : gmap string path) (w : World) :
  (check_required files w = Ok tt w ↔
   ∀ required, required ∈ REQUIRED_FILES → is_Some (files !! required)) ∧
  final (check_required files w) = w.
Proof.
  split; [split|].
  - intros H required Hin.
    destruct (files !! required) as [p|] eqn:E; [by eexists|].
    destruct (check_required_missing files) as [msg Hmsg];
      [by exists required|].
    by rewrite Hmsg in H.
  - apply check_list_present.
  - destruct (decide (Forall (fun r => is_Some (files !! r)) REQUIRED_FILES))
      as [Hall|Hnot].
    + rewrite Forall_forall in Hall. unfold check_required.
      by rewrite (check_list_present files REQUIRED_FILES w Hall).
    + apply not_Forall_Exists in Hnot; [|apply _].
      apply Exists_exists in Hnot as (r & Hin & Hr).
      destruct (check_required_missing files) as [msg Hmsg].
      { exists r. split; [done|]. by apply eq_None_not_Some. }
      by rewrite Hmsg.
Qed.

(** An archive with accented names, one of them in a folder, beside a
    loose table: the key of [e-acute cole.dbf] has the unit 201 for the
    capital, and the sharp s of the other name gives STRASSE.DBF. *)
Lemma prepareLegacyFiles_keys_witness :
  (∃ es',
     prepareLegacyFiles ["up"] Sample.named_upload
     = Some ({[ "PRODUTO.DBF" := ["up"; "Produto.dbf"];
                Sample.ECOLE := ["up"; "old"; Sample.ecole];
                "STRASSE.DBF" := ["up"; "old"; "sub"; Sample.strasse] ]},
             es')) ∧
  Js.upper_fits (Fs.basename ["up"; "old"; Sample.ecole]) = true ∧
  Sample.ECOLE = Js.toUpperCase (Fs.basename ["up"; "old"; Sample.ecole]).
Proof.
  assert (E : prepareLegacyFiles ["up"] Sample.named_upload
              = Some ({[ "PRODUTO.DBF" := ["up"; "Produto.dbf"];
                         Sample.ECOLE := ["up"; "old"; Sample.ecole];
                         "STRASSE.DBF"
                           := ["up"; "old"; "sub"; Sample.strasse] ]},
                      default [] (snd <$> prepareLegacyFiles ["up"]
                                            Sample.named_upload)))
    by (vm_compute; reflexivity).
  split; [eexists; exact E|]. split; [reflexivity|].
  apply (prepareLegacyFiles_keys _ _ _ _ E).
  - vm_compute. reflexivity.
  - reflexivity.
Defined.

Lemma prepareLegacyFiles_without_archives_witness :
  readDirectoryRecursive ["up"] Sample.loose_upload
    = Some [ ["up"; "Grupo.dbf"]; ["up"; "leia.txt"] ] ∧
  ∃ m,
    prepareLegacyFiles ["up"] Sample.loose_upload
      = Some (m, Sample.loose_upload) ∧
    prepareLegacyFiles_leaves ["up"] Sample.loose_upload
      = Sample.loose_upload ∧
    (∀ f, f ∈ [ ["up"; "Grupo.dbf"]; ["up"; "leia.txt"] ] →
          Js.upper_fits (Fs.basename f) = true →
          is_Some (m !! Js.toUpperCase (Fs.basename f))) ∧
    (∀ k p, m !! k = Some p →
            p ∈ [ ["up"; "Grupo.dbf"]; ["up"; "leia.txt"] ]).
Proof.
  split; [reflexivity|].
  apply (prepareLegacyFiles_without_archives ["up"] Sample.loose_upload
           [ ["up"; "Grupo.dbf"]; ["up"; "leia.txt"] ]).
  - reflexivity.
  - repeat constructor; by vm_compute.
Defined.

(** ** The staging load *)

Lemma staging_rows_set t rows w :
  staging_rows t (set_staging_rows t rows w) = rows.
Proof. unfold staging_rows, set_staging_rows. cbn. by rewrite lookup_insert_eq. Qed.

Lemma staging_other_set t t' rows w :
  t' ≠ t → staging (set_staging_rows t rows w) !! t' = staging w !! t'.
Proof. intros H. unfold set_staging_rows. cbn. by rewrite lookup_insert_ne. Qed.

Section Loader.

Context (P : Platform).

Lemma insert_staging_all config records total w :
  ∃ w',
    foldM (insert_staging P config) records total w
      = Ok (total + length records)%nat w' ∧
    staging_rows (table config) w'
      = staging_rows (table config) w ++ map (staging_row P config) records ∧
    (∀ t, t ≠ table config → staging w' !! t = staging w !! t) ∧
    core w' = core w.
Proof.
  revert total w. induction records as [|r records IH]; intros total w.
  - exists w. cbn [foldM ret length map]. by rewrite Nat.add_0_r, app_nil_r.
  - cbn [foldM].
    set (w1 := set_staging_rows (table config)
                 (staging_rows (table config) w ++ [staging_row P config r])
                 (set_trace (trace w ++ [SInsert (table config)]) w)).
    assert (E : insert_staging P config total r w = Ok (S total) w1)
      by reflexivity.
    rewrite (bind_run _ _ _ _ _ E).
    destruct (IH (S total) w1) as (w' & E' & Hrows & Hother & Hcore).
    exists w'. split; [|split; [|split]].
    + rewrite E'. f_equal. simpl. lia.
    + rewrite Hrows. unfold w1. rewrite staging_rows_set.
      cbn [map]. by rewrite <- app_assoc.
    + intros t Ht. rewrite (Hother t Ht). unfold w1.
      by rewrite staging_other_set.
    + by rewrite Hcore.
Qed.

Lemma load_batches_all fuel config remaining total w :
  (length remaining < fuel)%nat →
  ∃ w',
    load_batches P fuel config remaining total w
      = Ok (total + length remaining)%nat w' ∧
    staging_rows (table config) w'
      = staging_rows (table config) w ++ map (staging_row P config) remaining ∧
    (∀ t, t ≠ table config → staging w' !! t = staging w !! t) ∧
    core w' = core w.
Proof.
  revert remaining total w.
  induction fuel as [|fuel IH]; intros remaining total w Hlen; [lia|].
  cbn [load_batches].
  destruct (take 500 remaining) as [|r rs] eqn:Et.
  - assert (remaining = []) as ->.
    { destruct remaining; [done|]. by rewrite firstn_cons in Et. }
    exists w. cbn. by rewrite Nat.add_0_r, app_nil_r.
  - rewrite <- Et.
    destruct (insert_staging_all config (take 500 remaining) total w)
      as (w1 & E1 & R1 & O1 & C1).
    rewrite (bind_run _ _ _ _ _ E1).
    destruct (IH (drop 500 remaining) (total + length (take 500 remaining))%nat w1)
      as (w' & E' & R' & O' & C').
    { assert (0 < length (take 500 remaining))%nat by (rewrite Et; simpl; lia).
      rewrite length_drop. rewrite length_take in H. lia. }
    exists w'. split; [|split; [|split]].
    + rewrite E'. f_equal.
      rewrite <- (take_drop 500 remaining) at 3. rewrite length_app. lia.
    + rewrite R', R1, <- app_assoc, <- map_app. by rewrite take_drop.
    + intros t Ht. by rewrite (O' t Ht), (O1 t Ht).
    + by rewrite C', C1.
Qed.

(** X7. A source whose file is in the map and opens as a DBF table is loaded
    whole, in batches of 500 whatever the number of records: the count
    returned is the number of records, the staging table holds one row
    per record in the order of the file and nothing of an earlier load,
    and the other staging tables and the core tables are as before. *)
Theorem loadDbfIntoStaging_present importId config
    (files : gmap string path) (w : World) (dir : string) (rest : path)
    (records : list DbfRecord) :
  files !! file config = Some (dir :: rest) →
  Fs.open_dbf (dir :: rest) (fs w) = Some records →
  ∃ w',
    loadDbfIntoStaging P importId config files w = Ok (length records) w' ∧
    staging_rows (table config) w' = map (staging_row P config) records ∧
    (∀ t, t ≠ table config → staging w' !! t = staging w !! t) ∧
    core w' = core w.
Proof.
  intros Hf Ho. unfold loadDbfIntoStaging. rewrite Hf.
  set (w1 := set_staging_rows (table config) []
               (set_trace
                  (trace w ++ [SCreateTable (table config);
                               STruncate (table config)]) w)).
  assert (E1 : ensureStagingTable config w = Ok tt w1).
  { unfold ensureStagingTable, bind, query, modify, w1. cbn.
    by rewrite <- app_assoc. }
  rewrite (bind_run _ _ _ _ _ E1).
  rewrite (bind_run (gets fs) _ w1 (fs w) w1 eq_refl).
  change (fs w) with (fs w1) in Ho. change (fs w) with (fs w1).
  rewrite Ho. rewrite (bind_run (expect _ (Some records)) _ w1 records w1 eq_refl).
  destruct (load_batches_all (S (length records)) config records 0 w1)
    as (w' & E & R & O & C); [lia|].
  exists w'. split; [exact E|]. split; [|split].
  - rewrite R. unfold w1. by rewrite staging_rows_set.
  - intros t Ht. rewrite (O t Ht). unfold w1. by rewrite staging_other_set.
  - by rewrite C.
Qed.

End Loader.

(** The table of groups of a loose upload. *)
Lemma loadDbfIntoStaging_present_witness :
  ({[ "GRUPO.DBF" := ["up"; "Grupo.dbf"] ]} : gmap string path)
    !! file Sample.grupo_config = Some ["up"; "Grupo.dbf"] ∧
  Fs.open_dbf ["up"; "Grupo.dbf"] (fs Sample.loose_world)
    = Some Sample.loose_groups ∧
  ∃ w',
    loadDbfIntoStaging Sample.platform 1 Sample.grupo_config
      {[ "GRUPO.DBF" := ["up"; "Grupo.dbf"] ]} Sample.loose_world
      = Ok (length Sample.loose_groups) w' ∧
    staging_rows (table Sample.grupo_config) w'
      = map (staging_row Sample.platform Sample.grupo_config)
          Sample.loose_groups ∧
    (∀ t, t ≠ table Sample.grupo_config →
          staging w' !! t = staging Sample.loose_world !! t) ∧
    core w' = core Sample.loose_world.
Proof.
  split; [reflexivity|]. split; [reflexivity|].
  apply (loadDbfIntoStaging_present Sample.platform 1 Sample.grupo_config
           {[ "GRUPO.DBF" := ["up"; "Grupo.dbf"] ]} Sample.loose_world
           "up" ["Grupo.dbf"] Sample.loose_groups); reflexivity.
Defined.

(** ** Lookup by legacy code and foreign keys *)

Lemma coded_elem {R} (code : R -> option string) rid (t : list R) k i :
  (k, i) ∈ coded code rid t ↔ ∃ r, r ∈ t ∧ code r = Some k ∧ rid r = i.
Proof.
  unfold coded. rewrite list_elem_of_omap. split.
  - intros (r & Hr & H). exists r. split; [done|].
    destruct (code r) as [k'|]; [|done]. cbn in H. by injection H as -> ->.
  - intros (r & Hr & Hc & <-). exists r. split; [done|]. by rewrite Hc.
Qed.

Lemma legacy_map_fold (rows : list (string * uuid)) (m0 : gmap string uuid) :
  let m := fold_left
             (fun (m : gmap string uuid) '(code, rid) =>
                if bool_decide (code = EmptyString) then m
                else <[Js.trim code := rid]> m)
             rows m0 in
  (∀ k i, m !! k = Some i →
          m0 !! k = Some i ∨
          ∃ code, (code, i) ∈ rows ∧ code ≠ EmptyString ∧ Js.trim code = k) ∧
  (∀ k, is_Some (m0 !! k) → is_Some (m !! k)) ∧
  (∀ code i, (code, i) ∈ rows → code ≠ EmptyString →
             is_Some (m !! Js.trim code)).
Proof.
  revert m0. induction rows as [|[code rid] rows IH]; intros m0; cbn zeta.
  - split; [by left|]. split; [done|]. intros ? ? H. by apply elem_of_nil in H.
  - cbn [fold_left].
    set (m1 := if bool_decide (code = EmptyString) then m0
               else <[Js.trim code := rid]> m0).
    destruct (IH m1) as (Hs & Hk & Hc). split; [|split].
    + intros k i H. apply Hs in H as [H|(c & Hin & Hne & Ht)].
      * unfold m1 in H. case_bool_decide as E; [by left|].
        rewrite lookup_insert in H. case_decide as Ek; [|by left].
        injection H as <-. right. exists code. split; [left|done].
      * right. exists c. split; [by right|done].
    + intros k H. apply Hk. unfold m1. case_bool_decide; [done|].
      rewrite lookup_insert. case_decide; [by eexists|done].
    + intros c i Hin Hne. apply elem_of_cons in Hin as [[= -> ->]|Hin].
      * apply Hk. unfold m1. rewrite bool_decide_false by done.
        rewrite lookup_insert_eq. by eexists.
      * by eapply Hc.
Qed.

Lemma legacy_map_sound rows k i :
  legacy_map rows !! k = Some i →
  ∃ code, (code, i) ∈ rows ∧ code ≠ EmptyString ∧ Js.trim code = k.
Proof.
  intros H. destruct (legacy_map_fold rows ∅) as (Hsound & _).
  by destruct (Hsound k i H) as [H0|H0].
Qed.

Lemma buildLegacyMap_Ok t w m w' :
  buildLegacyMap t w = Ok m w' →
  ∃ rows, legacy_codes t (core w) = Some rows ∧ m = legacy_map rows ∧
          core w' = core w ∧ staging w' = staging w.
Proof.
  unfold buildLegacyMap. intros H.
  apply bind_Ok in H as ([] & a & Q & H).
  apply bind_Ok in H as (c & b & G & H).
  apply bind_Ok in H as (rows & d & E & H).
  cbv [query modify] in Q. injection Q as <-.
  cbv [gets] in G. injection G as <- <-.
  apply expect_Ok in E as [E ->]. injection H as <- <-.
  exists rows. by repeat split.
Qed.

(** X8. The lookup table of a reference table holds exactly its coded rows:
    every entry is the trimmed legacy code and the id of a selected
    row, and every selected row whose code is not empty can be looked up
    under its trimmed code.  Nothing is written. *)
Theorem buildLegacyMap_lookup t w m w' :
  buildLegacyMap t w = Ok m w' →
  ∃ rows,
    legacy_codes t (core w) = Some rows ∧
    (∀ k i, m !! k = Some i →
            ∃ code, (code, i) ∈ rows ∧ code ≠ EmptyString ∧ Js.trim code = k) ∧
    (∀ code i, (code, i) ∈ rows → code ≠ EmptyString →
               is_Some (m !! Js.trim code)) ∧
    core w' = core w ∧ staging w' = staging w.
Proof.
  intros H. apply buildLegacyMap_Ok in H as (rows & Hr & -> & Hc & Hs).
  exists rows. split; [done|].
  destruct (legacy_map_fold rows ∅) as (_ & _ & Hcomplete).
  split; [|split; [exact Hcomplete|done]].
  intros k i H. by apply legacy_map_sound.
Qed.

Lemma buildLegacyMap_lookup_witness :
  buildLegacyMap "product_group" Sample.world
    = Ok {[ "OLD" := 900 ]}
        (set_trace [SSelect "product_group"] Sample.world) ∧
  ∃ rows,
    legacy_codes "product_group" (core Sample.world) = Some rows ∧
    (∀ k i, ({[ "OLD" := 900 ]} : gmap string uuid) !! k = Some i →
            ∃ code, (code, i) ∈ rows ∧ code ≠ EmptyString ∧ Js.trim code = k) ∧
    (∀ code i, (code, i) ∈ rows → code ≠ EmptyString →
               is_Some (({[ "OLD" := 900 ]} : gmap string uuid)
                          !! Js.trim code)) ∧
    core (set_trace [SSelect "product_group"] Sample.world)
      = core Sample.world ∧
    staging (set_trace [SSelect "product_group"] Sample.world)
      = staging Sample.world.
Proof.
  assert (E : buildLegacyMap "product_group" Sample.world
              = Ok {[ "OLD" := 900 ]}
                  (set_trace [SSelect "product_group"] Sample.world))
    by by_computation.
  split; [exact E|].
  exact (buildLegacyMap_lookup _ _ _ _ E).
Defined.

Section ForeignKeys.

Context (P : Platform).

Lemma migrate_payment_Ok count row u n v :
  migrate_payment P count row u = Ok n v →
  customer (core v) = customer (core u) ∧
  ∃ new,
    payments v = payments u ++ new ∧ n = (count + length new)%nat ∧
    (length new ≤ 1)%nat ∧
    Forall (fun r => refers_to cu_id (customer (core u)) (cp_customer_id r))
      new.
Proof.
  unfold migrate_payment. intros H.
  destruct (negb _).
  { injection H as <- <-. split; [done|]. exists [].
    rewrite app_nil_r. cbn. rewrite Nat.add_0_r.
    repeat split; try done; lia. }
  apply bind_Ok in H as ([] & a & Q & H).
  apply bind_Ok in H as (found & b & F & H).
  cbv [query modify] in Q. injection Q as <-.
  cbv [gets] in F. injection F as <- <-.
  cbn [core set_trace] in H.
  destruct (List.find _ _) as [c|] eqn:Ef.
  - apply bind_Ok in H as ([] & d & I & H). injection H as <- <-.
    apply insert_customer_payment_Ok in I as (r & C & _ & _ & _ & Cu & _).
    apply find_some in Ef as [Hin _]. apply list_elem_of_In in Hin.
    unfold payments in *. rewrite C. cbn. split; [done|].
    exists [r]. split; [done|]. split; [simpl; lia|]. split; [simpl; lia|].
    constructor; [|done]. by exists c.
  - injection H as <- <-. split; [done|]. exists [].
    rewrite app_nil_r. cbn. rewrite Nat.add_0_r.
    repeat split; try done; lia.
Qed.

(** X9. Every payment a run inserts refers to a customer row that exists;
    their number is the count returned, at most one per staged payment;
    a staged payment whose customer code is blank or unknown is passed
    over, and no payment that was there is touched. *)
Theorem migrateCustomerPayments_refers w n w' :
  migrateCustomerPayments P w = Ok n w' →
  ∃ new,
    payments w' = payments w ++ new ∧
    length new = n ∧
    (n ≤ length (staging_rows "stg_pagament" w))%nat ∧
    Forall (fun r => refers_to cu_id (customer (core w)) (cp_customer_id r))
      new ∧
    customer (core w') = customer (core w).
Proof.
  unfold migrateCustomerPayments. intros H.
  apply bind_Ok in H as (rows & a & S & H).
  apply select_staging_rows in S as [-> C].
  assert (G : ∀ rows count u n v,
    foldM (migrate_payment P) rows count u = Ok n v →
    customer (core v) = customer (core u) ∧
    ∃ new,
      payments v = payments u ++ new ∧ n = (count + length new)%nat ∧
      (length new ≤ length rows)%nat ∧
      Forall (fun r => refers_to cu_id (customer (core u)) (cp_customer_id r))
        new).
  { clear. intros rows. induction rows as [|row rows IH]; intros count u n v H.
    - injection H as <- <-. split; [done|]. exists [].
      rewrite app_nil_r. cbn. rewrite Nat.add_0_r.
      repeat split; try done; lia.
    - cbn [foldM] in H. apply bind_Ok in H as (c1 & u1 & S1 & H).
      apply migrate_payment_Ok in S1 as (K1 & new1 & P1 & -> & L1 & F1).
      apply IH in H as (K2 & new2 & P2 & -> & L2 & F2).
      split; [by rewrite K2|]. exists (new1 ++ new2).
      rewrite P2, P1, <- app_assoc, length_app. split; [done|].
      split; [lia|]. split; [simpl; lia|].
      apply Forall_app. split; [done|]. by rewrite <- K1. }
  apply G in H as (K & new & Pn & -> & L & F).
  unfold payments in *. rewrite C in Pn, F, K.
  exists new. by repeat split.
Qed.

Lemma insert_stock_movement_Ok productId row w w' :
  insert_stock_movement P productId row w = Ok tt w' →
  ∃ r,
    core w' = with_stock_movement (movements w ++ [r]) (core w) ∧
    sm_product_id r = Some productId ∧
    (sm_type r = "E" ∨ sm_type r = "S").
Proof.
  unfold insert_stock_movement. intros H.
  apply bind_Ok in H as ([] & a & Q & H).
  apply bind_Ok in H as (date & b & D & H).
  apply bind_Ok in H as (type & c & T & H).
  apply bind_Ok in H as (qty & d & N & H).
  apply bind_Ok in H as (quantity & e & Y & H).
  apply bind_Ok in H as (value & f & V & H).
  apply bind_Ok in H as (total & g & L & H).
  apply bind_Ok in H as (i & h & I & H).
  cbv [query modify] in Q. injection Q as <-.
  apply expect_Ok in D as [_ ->]. apply expect_Ok in T as [T ->].
  apply expect_Ok in N as [_ ->]. apply expect_Ok in Y as [_ ->].
  apply expect_Ok in V as [_ ->]. apply expect_Ok in L as [_ ->].
  cbv [fresh_uuid] in I. injection I as <- <-.
  cbv [update_core modify] in H. injection H as <-.
  eexists. split; [reflexivity|]. split; [reflexivity|]. cbn.
  apply bind_Some in T as (t & _ & T).
  destruct (bool_decide (t = "E")) eqn:E1; cbn in T.
  - injection T as <-. left. by apply bool_decide_eq_true in E1.
  - destruct (bool_decide (t = "S")) eqn:E2; [|done].
    injection T as <-. right. by apply bool_decide_eq_true in E2.
Qed.

Lemma migrate_stock_Ok m count row u n v :
  migrate_stock P m count row u = Ok n v →
  product (core v) = product (core u) ∧
  ∃ new,
    movements v = movements u ++ new ∧ n = (count + length new)%nat ∧
    (length new ≤ 1)%nat ∧
    Forall (fun r => (∃ k, m !! k = sm_product_id r ∧ is_Some (m !! k)) ∧
                     (sm_type r = "E" ∨ sm_type r = "S")) new.
Proof.
  unfold migrate_stock. intros H.
  destruct (negb _).
  { injection H as <- <-. split; [done|]. exists [].
    rewrite app_nil_r. cbn. rewrite Nat.add_0_r.
    repeat split; try done; lia. }
  destruct (m !! _) as [productId|] eqn:Em.
  - apply bind_Ok in H as ([] & d & I & H). injection H as <- <-.
    apply insert_stock_movement_Ok in I as (r & C & Hp & Ht).
    unfold movements in *. rewrite C. cbn. split; [done|].
    exists [r]. split; [done|]. split; [simpl; lia|]. split; [simpl; lia|].
    constructor; [|done]. split; [|done].
    eexists. rewrite Em, Hp. split; [done|by eexists].
  - injection H as <- <-. split; [done|]. exists [].
    rewrite app_nil_r. cbn. rewrite Nat.add_0_r.
    repeat split; try done; lia.
Qed.

(** X10. Every stock movement a run inserts refers to a product row that
    exists and has type E or S; their number is the count returned, at
    most one per staged movement, and no movement that was there is
    touched. *)
Theorem migrateStockMovements_refers w n w' :
  migrateStockMovements P w = Ok n w' →
  ∃ new,
    movements w' = movements w ++ new ∧
    length new = n ∧
    (n ≤ length (staging_rows "stg_mov_est" w))%nat ∧
    Forall (fun r => refers_to pr_id (product (core w)) (sm_product_id r) ∧
                     (sm_type r = "E" ∨ sm_type r = "S")) new ∧
    product (core w') = product (core w).
Proof.
  unfold migrateStockMovements. intros H.
  apply bind_Ok in H as (rows & a & S & H).
  apply bind_Ok in H as (m & b & B & H).
  apply select_staging_rows in S as [-> C].
  apply buildLegacyMap_Ok in B as (coded_rows & Hl & Hm & Cb & _).
  assert (Hsound : ∀ k i, m !! k = Some i →
            ∃ code, (code, i) ∈ coded_rows ∧ code ≠ EmptyString ∧
                    Js.trim code = k)
    by (rewrite Hm; apply legacy_map_sound).
  change (legacy_codes "product" (core a)) with
    (Some (coded pr_legacy_code pr_id (product (core a)))) in Hl.
  injection Hl as <-.
  assert (G : ∀ rows count u n v,
    foldM (migrate_stock P m) rows count u = Ok n v →
    product (core v) = product (core u) ∧
    ∃ new,
      movements v = movements u ++ new ∧ n = (count + length new)%nat ∧
      (length new ≤ length rows)%nat ∧
      Forall (fun r => (∃ k, m !! k = sm_product_id r ∧ is_Some (m !! k)) ∧
                       (sm_type r = "E" ∨ sm_type r = "S")) new).
  { clear. intros rows. induction rows as [|row rows IH]; intros count u n v H.
    - injection H as <- <-. split; [done|]. exists [].
      rewrite app_nil_r. cbn. rewrite Nat.add_0_r.
      repeat split; try done; lia.
    - cbn [foldM] in H. apply bind_Ok in H as (c1 & u1 & S1 & H).
      apply migrate_stock_Ok in S1 as (K1 & new1 & P1 & -> & L1 & F1).
      apply IH in H as (K2 & new2 & P2 & -> & L2 & F2).
      split; [by rewrite K2|]. exists (new1 ++ new2).
      rewrite P2, P1, <- app_assoc, length_app. split; [done|].
      split; [lia|]. split; [simpl; lia|].
      by apply Forall_app. }
  apply G in H as (K & new & Pn & -> & L & F).
  unfold movements in *. rewrite Cb, C in Pn, K.
  exists new. split; [done|]. split; [done|]. split; [done|].
  split; [|done].
  eapply Forall_impl; [exact F|]. intros r [(k & Hk & [i Hi]) Ht].
  split; [|done]. rewrite Hi in Hk.
  destruct (Hsound k i Hi) as (code & Hin & _ & _).
  apply coded_elem in Hin as (pr & Hpr & _ & <-).
  rewrite C in Hpr. by exists pr.
Qed.

End ForeignKeys.

(** The staged payment and the staged movement of the sample. *)
Lemma migrateCustomerPayments_refers_witness :
  Sample.paid_again
    = Ok (answer 0 Sample.paid_again) (final Sample.paid_again) ∧
  ∃ new,
    payments (final Sample.paid_again) = payments Sample.after_first ++ new ∧
    length new = answer 0 Sample.paid_again ∧
    (answer 0 Sample.paid_again
       ≤ length (staging_rows "stg_pagament" Sample.after_first))%nat ∧
    Forall (fun r => refers_to cu_id (customer (core Sample.after_first))
                       (cp_customer_id r)) new ∧
    customer (core (final Sample.paid_again))
      = customer (core Sample.after_first).
Proof.
  assert (E : Sample.paid_again
              = Ok (answer 0 Sample.paid_again) (final Sample.paid_again))
    by (apply returned_Ok; by_computation).
  split; [exact E|].
  exact (migrateCustomerPayments_refers Sample.platform Sample.after_first
           _ _ E).
Defined.

Lemma migrateStockMovements_refers_witness :
  Sample.moved_again
    = Ok (answer 0 Sample.moved_again) (final Sample.moved_again) ∧
  ∃ new,
    movements (final Sample.moved_again) = movements Sample.after_first ++ new ∧
    length new = answer 0 Sample.moved_again ∧
    (answer 0 Sample.moved_again
       ≤ length (staging_rows "stg_mov_est" Sample.after_first))%nat ∧
    Forall (fun r => refers_to pr_id (product (core Sample.after_first))
                       (sm_product_id r) ∧
                     (sm_type r = "E" ∨ sm_type r = "S")) new ∧
    product (core (final Sample.moved_again))
      = product (core Sample.after_first).
Proof.
  assert (E : Sample.moved_again
              = Ok (answer 0 Sample.moved_again) (final Sample.moved_again))
    by (apply returned_Ok; by_computation).
  split; [exact E|].
  exact (migrateStockMovements_refers Sample.platform Sample.after_first
           _ _ E).
Defined.

(** ** What the master-data and sales stages leave in the tables *)

Section UpsertCoverage.

Context {R : Type} (code : R -> option string) (merge : R -> R -> R).
Hypothesis merge_code : ∀ e r, code (merge e r) = code r.

Lemma upsert_rows_covers (rows : list (string * Row)) xs t n t' n' :
  Forall2 (fun s x => keyed code x (Pg.trim s.1)) rows xs →
  upsert_rows code merge xs [] t n = Some (t', n') →
  (∀ k, k ∈ map (fun s => Pg.trim s.1) rows → present code k t') ∧
  (∀ k, present code k t → present code k t').
Proof.
  intros F U.
  apply (upsert_rows_present code merge merge_code) in U as [Hmono Hall].
  split; [|done]. intros k Hk.
  apply list_elem_of_fmap in Hk as (s & -> & Hs).
  apply list_elem_of_lookup in Hs as [i Hi].
  destruct (Forall2_lookup_l _ _ _ _ _ F Hi) as (x & Hx & Hkey).
  eapply Hall; [|done]. by eapply list_elem_of_lookup_2.
Qed.

(** A statement that proposes the same code twice is refused. *)
Lemma upsert_rows_twice (keys : list string) xs seen t n :
  Forall2 (fun k x => keyed code x k) keys xs →
  ¬ NoDup keys ∨ (∃ k, k ∈ keys ∧ k ∈ seen) →
  upsert_rows code merge xs seen t n = None.
Proof.
  intros F. revert seen t n.
  induction F as [|k x keys xs Hkey F IH]; intros seen t n Hdup.
  - destruct Hdup as [H|(k & Hk & _)]; [|by apply elem_of_nil in Hk].
    destruct H. constructor.
  - simpl. rewrite (Hkey n). case_bool_decide as Hseen; [done|].
    assert (Hrest : ¬ NoDup keys ∨ ∃ k', k' ∈ keys ∧ k' ∈ k :: seen).
    { destruct Hdup as [H|(k' & Hk' & Hs)].
      - destruct (decide (k ∈ keys)) as [Hin|Hout].
        + right. exists k. split; [done|left].
        + left. intros Hnd. apply H. by constructor.
      - apply elem_of_cons in Hk' as [->|Hk']; [done|].
        right. exists k'. split; [done|by right]. }
    destruct (existsb _ t); by apply IH.
Qed.

End UpsertCoverage.

Section MasterCoverage.

Context (P : Platform).

(** X11. After the master-data stage every staged code is in its reference
    table, and every code that was in a reference table is still
    there. *)
Theorem migrateMasterData_covers ov w ms w' :
  migrateMasterData P ov w = Ok ms w' →
  (∀ k, k ∈ staged_codes "stg_grupo" "cod_grup" w ∨
        present cn_legacy_code k (product_group (core w)) →
        present cn_legacy_code k (product_group (core w'))) ∧
  (∀ k, k ∈ staged_codes "stg_produto" "cod_prod" w ∨
        present pr_legacy_code k (product (core w)) →
        present pr_legacy_code k (product (core w'))) ∧
  (∀ k, k ∈ staged_codes "stg_clientes" "codigo" w ∨
        present cu_legacy_code k (customer (core w)) →
        present cu_legacy_code k (customer (core w'))) ∧
  (∀ k, k ∈ staged_codes "stg_vendedor" "codigo" w ∨
        present cn_legacy_code k (seller (core w)) →
        present cn_legacy_code k (seller (core w'))) ∧
  (∀ k, k ∈ staged_codes "stg_forma_pg" "cod_fpg" w ∨
        present cn_legacy_code k (payment_term (core w)) →
        present cn_legacy_code k (payment_term (core w'))).
Proof.
  intros H. apply migrateMasterData_Ok in H
    as ((n1 & n1' & Ug) & (xp & n2 & n2' & Xp & Up) & (xc & n3 & n3' & Xc & Uc)
        & (xs & n4 & n4' & Xs & Us) & (xt & n5 & n5' & Xt & Ut)).
  cbv zeta in *. unfold staged_codes.
  split; [|split; [|split; [|split]]]; intros k [Hk|Hk].
  - exact (proj1 (upsert_rows_covers cn_legacy_code merge_name
             (fun _ _ => eq_refl) _ _ _ _ _ _ (keyed_group _) Ug) k Hk).
  - exact (proj2 (upsert_rows_covers cn_legacy_code merge_name
             (fun _ _ => eq_refl) _ _ _ _ _ _ (keyed_group _) Ug) k Hk).
  - exact (proj1 (upsert_rows_covers pr_legacy_code merge_product
             (fun _ _ => eq_refl) _ _ _ _ _ _
             (keyed_mapM _ _ _ _ (keyed_product P _) Xp) Up) k Hk).
  - exact (proj2 (upsert_rows_covers pr_legacy_code merge_product
             (fun _ _ => eq_refl) _ _ _ _ _ _
             (keyed_mapM _ _ _ _ (keyed_product P _) Xp) Up) k Hk).
  - exact (proj1 (upsert_rows_covers cu_legacy_code merge_customer
             (fun _ _ => eq_refl) _ _ _ _ _ _
             (keyed_mapM _ _ _ _ (keyed_customer P) Xc) Uc) k Hk).
  - exact (proj2 (upsert_rows_covers cu_legacy_code merge_customer
             (fun _ _ => eq_refl) _ _ _ _ _ _
             (keyed_mapM _ _ _ _ (keyed_customer P) Xc) Uc) k Hk).
  - exact (proj1 (upsert_rows_covers cn_legacy_code merge_name
             (fun _ _ => eq_refl) _ _ _ _ _ _
             (keyed_mapM _ _ _ _ (keyed_named _) Xs) Us) k Hk).
  - exact (proj2 (upsert_rows_covers cn_legacy_code merge_name
             (fun _ _ => eq_refl) _ _ _ _ _ _
             (keyed_mapM _ _ _ _ (keyed_named _) Xs) Us) k Hk).
  - exact (proj1 (upsert_rows_covers cn_legacy_code merge_name
             (fun _ _ => eq_refl) _ _ _ _ _ _
             (keyed_mapM _ _ _ _ (keyed_named _) Xt) Ut) k Hk).
  - exact (proj2 (upsert_rows_covers cn_legacy_code merge_name
             (fun _ _ => eq_refl) _ _ _ _ _ _
             (keyed_mapM _ _ _ _ (keyed_named _) Xt) Ut) k Hk).
Qed.

(** X12. A group code that is staged twice (after trimming) makes the first
    statement of the master-data stage fail: the stage throws and no
    table is written. *)
Theorem migrateMasterData_duplicate_code ov w :
  ¬ NoDup (staged_codes "stg_grupo" "cod_grup" w) →
  ∃ msg w',
    migrateMasterData P ov w = Throw msg w' ∧
    core w' = core w ∧ staging w' = staging w.
Proof.
  intros Hdup. unfold migrateMasterData.
  set (rest := fun _ : unit => _).
  unfold bind at 1. unfold upsert at 1. unfold bind at 1.
  cbn [query modify]. cbv beta iota.
  change (staging_rows "stg_grupo"
            (set_trace (trace w ++ [SInsert "product_group"]) w))
    with (staging_rows "stg_grupo" w).
  rewrite (upsert_rows_twice cn_legacy_code merge_name
             (staged_codes "stg_grupo" "cod_grup" w)).
  - by eexists _, _.
  - unfold staged_codes. rewrite Forall2_fmap_l, Forall2_fmap_r.
    apply Forall_Forall2_diag, Forall_forall. by intros s _ i.
  - by left.
Qed.

(** X13. After the sales stage a header exists for every staged sale and
    every staged order that has a key (a row whose pedido column is
    null or blank is passed over). *)
Theorem migrateSales_covers ov w ss w' k row key :
  migrateSales P ov w = Ok ss w' →
  row ∈ staging_rows (staging_table k) w →
  source_key P row = Some key →
  ∃ header, header ∈ sale (core w') ∧ is_sale k key header = true.
Proof.
  intros H Hin Hkey.
  pose proof (migrateSales_present P ov w ss w' k row key H Hin Hkey) as Hp.
  unfold sale_present in Hp. apply existsb_exists in Hp as (h & Hh & Hs).
  exists h. split; [|done]. by apply list_elem_of_In.
Qed.

End MasterCoverage.

Lemma migrateMasterData_covers_witness :
  Sample.mastered_again
    = Ok (answer (Build_MasterSummary 0 0 0 0 0) Sample.mastered_again)
        (final Sample.mastered_again) ∧
  "10" ∈ staged_codes "stg_produto" "cod_prod" Sample.after_first ∧
  present pr_legacy_code "10" (product (core (final Sample.mastered_again))).
Proof.
  assert (E : Sample.mastered_again
              = Ok (answer (Build_MasterSummary 0 0 0 0 0) Sample.mastered_again)
                  (final Sample.mastered_again))
    by (apply returned_Ok; by_computation).
  assert (K : "10" ∈ staged_codes "stg_produto" "cod_prod" Sample.after_first).
  { apply (bool_decide_eq_true_1 _). by_computation. }
  split; [exact E|]. split; [exact K|].
  exact (proj1 (proj2 (migrateMasterData_covers Sample.platform false
                         Sample.after_first _ _ E))
           "10" (or_introl K)).
Defined.

Lemma migrateMasterData_duplicate_code_witness :
  staged_codes "stg_grupo" "cod_grup" Sample.twice_staged = ["1"; "1"] ∧
  ∃ msg w',
    migrateMasterData Sample.platform false Sample.twice_staged
      = Throw msg w' ∧
    core w' = core Sample.twice_staged ∧
    staging w' = staging Sample.twice_staged.
Proof.
  assert (E : staged_codes "stg_grupo" "cod_grup" Sample.twice_staged
              = ["1"; "1"]) by by_computation.
  split; [exact E|].
  apply (migrateMasterData_duplicate_code Sample.platform false
           Sample.twice_staged).
  rewrite E. intros H. apply NoDup_cons in H as [H _]. apply H. left.
Defined.

Lemma migrateSales_covers_witness :
  Sample.sold_again
    = Ok (answer empty_summary Sample.sold_again) (final Sample.sold_again) ∧
  Sample.staged_sale ∈ staging_rows (staging_table Vendas) Sample.after_first ∧
  source_key Sample.platform Sample.staged_sale = Some "100" ∧
  ∃ header,
    header ∈ sale (core (final Sample.sold_again)) ∧
    is_sale Vendas "100" header = true.
Proof.
  assert (E : Sample.sold_again
              = Ok (answer empty_summary Sample.sold_again)
                  (final Sample.sold_again))
    by (apply returned_Ok; by_computation).
  assert (R : staging_rows (staging_table Vendas) Sample.after_first
              = [Sample.staged_sale]) by by_computation.
  assert (K : source_key Sample.platform Sample.staged_sale = Some "100")
    by by_computation.
  assert (Hin : Sample.staged_sale
                  ∈ staging_rows (staging_table Vendas) Sample.after_first)
    by (rewrite R; left).
  split; [exact E|]. split; [exact Hin|]. split; [exact K|].
  exact (migrateSales_covers Sample.platform false Sample.after_first _ _
           Vendas Sample.staged_sale "100" E Hin K).
Defined.

(** ** The outcome of a job *)

Lemma returned_Throw {A} (r : Result A) :
  returned r = false → ∃ msg, r = Throw msg (final r).
Proof. destruct r as [|msg w]; [done|]. by exists msg. Qed.

(** *** The report file *)

Lemma find_put_entry e es :
  Fs.find_entry (entry_name e) (Fs.put_entry e es) = Some e.
Proof.
  induction es as [|x es IH]; simpl.
  - by rewrite bool_decide_true.
  - case_bool_decide as Hx; simpl.
    + by rewrite bool_decide_true.
    + by rewrite bool_decide_false.
Qed.

Lemma find_entry_name n es e : Fs.find_entry n es = Some e → entry_name e = n.
Proof.
  induction es as [|x es IH]; simpl; [done|].
  case_bool_decide; [|done]. by intros [= <-].
Qed.

Lemma modify_dir_at f dir es es' :
  Fs.modify_dir false f dir es = Some es' →
  ∃ ch ch', Fs.dir_at dir es = Some ch ∧ f ch = Some ch' ∧
            Fs.dir_at dir es' = Some ch'.
Proof.
  revert es es'. induction dir as [|d dir IH]; intros es es' H; simpl in *.
  - by exists es, es'.
  - destruct (Fs.find_entry d es) as [[| | |n ch]|] eqn:E; try done.
    destruct (Fs.modify_dir false f dir ch) as [ch1|] eqn:E1; [|done].
    simpl in H. injection H as <-.
    destruct (IH _ _ E1) as (c & c' & Hc & Hf & Hc').
    exists c, c'. split; [done|]. split; [done|].
    by rewrite (find_put_entry (EDir d ch1)).
Qed.

Lemma writeFile_lookup dir e es es' :
  Fs.writeFile dir e es = Some es' →
  Fs.lookup (dir ++ [entry_name e]) es' = Some e.
Proof.
  intros H. apply modify_dir_at in H as (ch & ch' & _ & Hf & Hd).
  unfold Fs.lookup, Fs.dirname, Fs.basename.
  rewrite removelast_last, last_last, Hd.
  unfold Fs.put_file in Hf.
  destruct (Fs.find_entry (entry_name e) ch) as [[]|]; try done;
    injection Hf as <-; apply find_put_entry.
Qed.

Lemma count_core_Ok t f w :
  count_core t f w = Ok (f (core w)) (set_trace (trace w ++ [SSelect t]) w).
Proof. reflexivity. Qed.

(** What a run of [createReconciliationReport] that returns has done:
    one file written in the session directory, no table touched. *)
Lemma createReconciliationReport_Ok dir ms ss pc sc w rp w' :
  createReconciliationReport dir ms ss pc sc w = Ok rp w' →
  ∃ lines es',
    let name := "reconciliation_" +:+ pretty (clock w) +:+ ".csv" in
    Fs.writeFile dir (EText name lines) (fs w) = Some es' ∧
    rp = dir ++ [name] ∧ fs w' = es' ∧
    length lines = (10 + length (mismatches ss))%nat ∧
    core w' = core w ∧ staging w' = staging w ∧ imports w' = imports w.
Proof.
  unfold createReconciliationReport.
  rewrite (bind_run now _ w (clock w) _ eq_refl).
  do 8 (rewrite (bind_run (count_core _ _) _ _ _ _ (count_core_Ok _ _ _))).
  cbv zeta. intros H. apply bind_Ok in H as ([] & w1 & E & H).
  unfold ret in H. injection H as Hrp Hw. subst rp w1.
  unfold fs_op in E.
  lazymatch type of E with
  | context [Fs.writeFile dir (EText ?n ?ls) ?es] =>
      destruct (Fs.writeFile dir (EText n ls) es) as [es'|] eqn:Ew;
      [|done]; exists ls, es'
  end.
  simpl in E. apply Ok_world in E. subst w'.
  split; [exact Ew|]. split; [done|]. split; [done|].
  split; [|done]. by rewrite length_app, length_map.
Qed.


(** *** The rows of a job after its run *)

Lemma update_where_row pred st fields r' rows :
  r' ∈ update_where pred st fields rows →
  ∃ r, r ∈ rows ∧
       r' = (if pred r
             then fold_left set_import_field fields (set_import_status st r)
             else r).
Proof.
  unfold update_where. intros H. apply list_elem_of_fmap in H as (r & -> & Hr).
  by exists r.
Qed.

Lemma set_fields_request fields r :
  request_of (fold_left set_import_field fields r) = request_of r.
Proof.
  revert r. induction fields as [|f fs IH]; intros r; [done|].
  simpl. by rewrite IH.
Qed.

Lemma update_where_request pred st fields rows :
  map request_of (update_where pred st fields rows) = map request_of rows.
Proof.
  unfold update_where. rewrite map_map. apply map_ext. intros r.
  destruct (pred r); [|done]. by rewrite set_fields_request.
Qed.

(** Two updates of the rows of one id, one after the other. *)
Lemma update_twice_row i st1 f1 st2 f2 r' rows :
  r' ∈ update_where (has_id i) st2 f2 (update_where (has_id i) st1 f1 rows) →
  ∃ r, r ∈ rows ∧
       r' = (if has_id i r
             then fold_left set_import_field f2
                    (set_import_status st2
                       (fold_left set_import_field f1
                          (set_import_status st1 r)))
             else r).
Proof.
  intros H. apply update_where_row in H as (r1 & H1 & ->).
  apply update_where_row in H1 as (r & Hr & ->).
  exists r. split; [done|].
  destruct (has_id i r) eqn:Hi; [|by rewrite Hi].
  replace (has_id i (fold_left set_import_field f1 (set_import_status st1 r)))
    with true; [done|].
  symmetry. apply has_id_true. rewrite set_fields_id. by apply has_id_true.
Qed.

Lemma update_twice_hits i st1 f1 st2 f2 r rows :
  r ∈ rows → imp_id r = i →
  fold_left set_import_field f2
    (set_import_status st2
       (fold_left set_import_field f1 (set_import_status st1 r)))
  ∈ update_where (has_id i) st2 f2 (update_where (has_id i) st1 f1 rows).
Proof.
  intros Hr Hi.
  destruct (update_where_hits (has_id i) st1 f1 r rows Hr)
    as (r1 & Hr1 & Hid1 & _ & ->); [by apply has_id_true|].
  destruct (update_where_hits (has_id i) st2 f2 _ _ Hr1)
    as (r2 & Hr2 & _ & _ & ->); [apply has_id_true; congruence|].
  done.
Qed.

Section Outcome.

Context (P : Platform).

(** The two ends of [process_job], with the updates they make. *)
Lemma process_job_returned job w w' :
  runImport P job w = Ok tt w' →
  process_job P job w = Ok tt w' ∧
  ∃ t s name lines,
    imports w'
    = update_where (has_id (job_id job)) completed
        [finished_at (Some t); summary (Some s);
         report_path (Some (os_reportPath s)); error_message None]
        (update_where (has_id (job_id job)) running
           [started_at (Some (clock w))] (imports w)) ∧
    os_reportPath s = sessionDir job ++ [name] ∧
    text_at (os_reportPath s) name lines w' ∧
    length lines = (10 + length (mismatches (os_sales s)))%nat.
Proof.
  intros E. split; [unfold process_job, try_catch; by rewrite E|].
  destruct (runImport_returns P job w w' E)
    as (t & s & wa & wb & Er & _ & _ & Hfs & Hi).
  apply createReconciliationReport_Ok in Er
    as (lines & es' & Hw & Hrp & Hes & Hl & _).
  cbv zeta in *. eexists t, s, _, lines.
  split; [exact Hi|]. split; [exact Hrp|]. split; [|exact Hl].
  unfold text_at. rewrite Hfs, Hes, Hrp. exact (writeFile_lookup _ _ _ _ Hw).
Qed.

Lemma process_job_caught job w msg w1 :
  runImport P job w = Throw msg w1 →
  ∃ w' t e,
    process_job P job w = Ok tt w' ∧
    core w' = core w1 ∧ staging w' = staging w1 ∧ fs w' = fs w1 ∧
    imports w'
    = update_where (has_id (job_id job)) failed
        [finished_at (Some t); error_message (Some msg)]
        (update_where (has_id (job_id job)) running
           [started_at (Some (clock w))] (imports w)) ∧
    import_log w' = import_log w1 ++ [e] ∧
    log_import_id e = job_id job ∧ log_level e = error ∧ log_message e = msg.
Proof.
  intros E. pose proof (runImport_fields P job w) as H. cbv zeta in H.
  rewrite E in H. simpl in H. injection H as Hi _ _ _ _.
  unfold process_job, try_catch. rewrite E.
  eexists _, _, _. split; [reflexivity|]. simpl.
  split; [done|]. split; [done|]. split; [done|].
  split; [by rewrite Hi|]. split; [reflexivity|]. done.
Qed.

(** The rows two updates of one id leave: those of the id as the
    updates make them, the others as they were. *)
Lemma update_twice_rows i st1 f1 st2 f2 rows (ok : ImportRow -> Prop) :
  (∀ r, ok (fold_left set_import_field f2
              (set_import_status st2
                 (fold_left set_import_field f1 (set_import_status st1 r))))) →
  ∀ r', r' ∈ update_where (has_id i) st2 f2
               (update_where (has_id i) st1 f1 rows) →
        if has_id i r' then ok r' else r' ∈ rows.
Proof.
  intros Hok r' Hr'. apply update_twice_row in Hr' as (r & Hr & ->).
  destruct (has_id i r) eqn:Hh; [|by rewrite Hh].
  replace (has_id i _) with true; [apply Hok|].
  symmetry. apply has_id_true.
  rewrite set_fields_id. simpl. rewrite set_fields_id. simpl.
  by apply has_id_true.
Qed.



(** Whatever the run does, the job is taken to its end: its rows are
    finished, and no other row changes. *)
Lemma process_job_rows job w :
  ∃ w',
    process_job P job w = Ok tt w' ∧
    map request_of (imports w') = map request_of (imports w) ∧
    (∀ r, r ∈ imports w → imp_id r ≠ job_id job → r ∈ imports w') ∧
    (∀ r, r ∈ imports w → imp_id r = job_id job →
          ∃ r', r' ∈ imports w' ∧ request_of r' = request_of r ∧
                finished r' ∧
                (imp_status r' = failed →
                 imp_report_path r' = imp_report_path r)) ∧
    (∀ r', r' ∈ imports w' →
           if has_id (job_id job) r' then finished r' else r' ∈ imports w).
Proof.
  assert (Hgen : ∀ rows st f2,
    (∀ r, finished (fold_left set_import_field f2
                      (set_import_status st
                         (fold_left set_import_field
                            [started_at (Some (clock w))]
                            (set_import_status running r)))) ∧
          (st = failed →
           imp_report_path
             (fold_left set_import_field f2
                (set_import_status st
                   (fold_left set_import_field
                      [started_at (Some (clock w))]
                      (set_import_status running r))))
           = imp_report_path r)) →
    rows = update_where (has_id (job_id job)) st f2
             (update_where (has_id (job_id job)) running
                [started_at (Some (clock w))] (imports w)) →
    map request_of rows = map request_of (imports w) ∧
    (∀ r, r ∈ imports w → imp_id r ≠ job_id job → r ∈ rows) ∧
    (∀ r, r ∈ imports w → imp_id r = job_id job →
          ∃ r', r' ∈ rows ∧ request_of r' = request_of r ∧ finished r' ∧
                (imp_status r' = failed →
                 imp_report_path r' = imp_report_path r)) ∧
    (∀ r', r' ∈ rows →
           if has_id (job_id job) r' then finished r' else r' ∈ imports w)).
  { intros rows st f2 Hfin ->. split; [|split; [|split]].
    - by rewrite !update_where_request.
    - intros r Hr Hne.
      assert (has_id (job_id job) r = false)
        by (apply not_true_is_false; by rewrite has_id_true).
      by do 2 (apply update_where_keeps; [|done]).
    - intros r Hr Hid. eexists. split; [by apply update_twice_hits|].
      split; [by rewrite set_fields_request|]. split; [apply Hfin|].
      rewrite set_fields_status. simpl. intros ->. by apply Hfin.
    - intros r' Hr'. apply update_twice_row in Hr' as (r & Hr & ->).
      destruct (has_id (job_id job) r) eqn:Hh; [|by rewrite Hh].
      replace (has_id (job_id job) _) with true; [apply Hfin|].
      symmetry. apply has_id_true.
      rewrite set_fields_id. simpl. by apply has_id_true. }
  destruct (runImport P job w) as [[] w1|msg w1] eqn:E.
  - destruct (process_job_returned job w w1 E)
      as (Ep & t & s & name & lines & Hi & _).
    exists w1. split; [done|]. eapply Hgen; [|exact Hi].
    intros r. split; [|done]. simpl. split; [done|]. split; [done|].
    left. split; [done|]. split; [done|]. by exists s.
  - destruct (process_job_caught job w msg w1 E)
      as (w' & t & e & Ep & _ & _ & _ & Hi & _).
    exists w'. split; [done|]. eapply Hgen; [|exact Hi].
    intros r. split; [|done]. simpl. split; [done|]. split; [done|].
    right. by split.
Qed.

End Outcome.




(** ** The queue is served in order and to its end *)

Section Queue.

Context (P : Platform).

(** One turn of the loop, with the rows it leaves. *)
Lemma shift_and_run_rows job rest w :
  sound w → jobQueue w = job :: rest →
  ∃ w' st,
    shift_and_run P job rest w = Ok tt w' ∧
    sound w' ∧ jobQueue w' = rest ∧ processing w' = processing w ∧
    initialized w' = initialized w ∧
    (st = completed ∨ st = failed) ∧
    history w' = history w ++ turn job st ∧
    map request_of (imports w') = map request_of (imports w) ∧
    (∀ r, r ∈ imports w → imp_id r ≠ job_id job → r ∈ imports w') ∧
    (∃ r', r' ∈ imports w' ∧ imp_id r' = job_id job ∧ finished r').
Proof.
  intros Hs Hq.
  destruct (shift_and_run_Ok P job rest w Hs Hq)
    as (w' & st & E & Hs' & Hq' & Hp' & Hst & Hh).
  destruct (process_job_rows P job (set_jobQueue rest w))
    as (w2 & E2 & Hreq & Hkeep & Hrun & _).
  assert (w2 = w') as ->.
  { unfold shift_and_run in E.
    rewrite (bind_run (modify _) _ w tt (set_jobQueue rest w) eq_refl) in E.
    rewrite E2 in E. by apply Ok_world in E. }
  assert (Hn : initialized w' = initialized w).
  { destruct (process_job_control P job (set_jobQueue rest w))
      as (w3 & f1 & st3 & f3 & E3 & _ & Hc).
    rewrite E2 in E3. apply Ok_world in E3. subst w3.
    cbv zeta in Hc. by injection Hc as _ _ _ _ ->. }
  exists w', st. do 7 (split; [done|]). split; [done|]. split; [done|].
  destruct Hs as (_ & _ & _ & HD & _).
  destruct (HD job) as (r & Hr & Hid & _); [rewrite Hq; left|].
  destruct (Hrun r Hr Hid) as (r' & Hr' & Hreq' & Hfin & _).
  exists r'. split; [done|]. split; [|done].
  apply (f_equal (fun q => fst (fst (fst (fst (fst q)))))) in Hreq'.
  simpl in Hreq'. congruence.
Qed.

(** The loop serves the queue from its head, one run per job, and stops
    when it is empty. *)
Lemma drain_settles fuel w :
  sound w → (length (jobQueue w) ≤ fuel)%nat →
  ∃ w' sts,
    drain P fuel w = Ok tt w' ∧
    sound w' ∧ jobQueue w' = [] ∧ processing w' = processing w ∧
    initialized w' = initialized w ∧
    length sts = length (jobQueue w) ∧
    Forall (fun st => st = completed ∨ st = failed) sts ∧
    history w' = history w ++ concat (zip_with turn (jobQueue w) sts) ∧
    map request_of (imports w') = map request_of (imports w) ∧
    (∀ r, r ∈ imports w → imp_id r ∉ map job_id (jobQueue w) →
          r ∈ imports w') ∧
    (∀ j, j ∈ jobQueue w →
          ∃ r', r' ∈ imports w' ∧ imp_id r' = job_id j ∧ finished r').
Proof.
  revert w. induction fuel as [|fuel IH]; intros w Hs Hlen.
  - destruct (jobQueue w) eqn:Hq; [|simpl in Hlen; lia].
    exists w, []. rewrite Hq. simpl. rewrite app_nil_r.
    do 9 (split; [done|]). split; [done|]. intros j Hj. by inversion Hj.
  - cbn [drain]. unfold gets, bind at 1.
    destruct (jobQueue w) as [|job rest] eqn:Hq.
    { exists w, []. rewrite Hq. simpl. rewrite app_nil_r.
      do 9 (split; [done|]). split; [done|]. intros j Hj. by inversion Hj. }
    destruct (shift_and_run_rows job rest w Hs Hq)
      as (w1 & st & E & Hs1 & Hq1 & Hp1 & Hn1 & Hst & Hh1 & Hreq1 & Hkeep1
            & Hrun1).
    rewrite (bind_run _ _ _ _ _ E).
    destruct (IH w1 Hs1) as (w' & sts & E' & Hs' & Hq' & Hp' & Hn' & Hl & Hsts
                               & Hh & Hreq & Hkeep & Hrun).
    { rewrite Hq1. simpl in Hlen. lia. }
    rewrite Hq1 in Hl, Hh, Hkeep, Hrun.
    destruct Hs as (_ & _ & HC & _). rewrite Hq in HC. simpl in HC.
    apply NoDup_cons in HC as [Hfresh _].
    exists w', (st :: sts). split; [done|]. split; [done|]. split; [done|].
    split; [congruence|]. split; [congruence|]. split; [simpl; by rewrite Hl|].
    split; [by constructor|].
    split; [simpl; by rewrite Hh, Hh1, <- app_assoc|].
    split; [congruence|]. split.
    + intros r Hr Hn. apply Hkeep.
      * apply Hkeep1; [done|]. intros Heq. apply Hn. rewrite Heq. left.
      * intros Hin. apply Hn. by right.
    + intros j Hj. apply elem_of_cons in Hj as [->|Hj]; [|by apply Hrun].
      destruct Hrun1 as (r' & Hr' & Hid & Hfin). exists r'.
      split; [|done]. apply Hkeep; [done|]. by rewrite Hid.
Qed.

Lemma processQueue_rows w :
  sound w → processing w = false →
  ∃ w' sts,
    processQueue P w = Ok tt w' ∧
    sound w' ∧ jobQueue w' = [] ∧ processing w' = false ∧
    initialized w' = initialized w ∧
    length sts = length (jobQueue w) ∧
    Forall (fun st => st = completed ∨ st = failed) sts ∧
    history w' = history w ++ concat (zip_with turn (jobQueue w) sts) ∧
    map request_of (imports w') = map request_of (imports w) ∧
    (∀ r, r ∈ imports w → imp_id r ∉ map job_id (jobQueue w) →
          r ∈ imports w') ∧
    (∀ j, j ∈ jobQueue w →
          ∃ r', r' ∈ imports w' ∧ imp_id r' = job_id j ∧ finished r').
Proof.
  intros Hs Hp. unfold processQueue, gets, bind at 1. rewrite Hp.
  rewrite (bind_run (modify _) _ w tt (set_processing true w) eq_refl).
  unfold bind at 1.
  destruct (drain_settles (length (jobQueue w)) (set_processing true w))
    as (w1 & sts & E & Hs1 & Hq1 & Hp1 & Hn1 & Hrest);
    [by apply sound_flag|done|].
  change (jobQueue (set_processing true w)) with (jobQueue w).
  rewrite (bind_run _ _ _ _ _ E).
  exists (set_processing false w1), sts.
  split; [done|]. split; [by apply sound_flag|]. split; [done|].
  split; [done|]. split; [done|]. exact Hrest.
Qed.



Lemma request_ids rows rows' :
  map request_of rows' = map request_of rows → map imp_id rows' = map imp_id rows.
Proof.
  intros H.
  apply (f_equal (map (fun q : uuid * string * path * bool * Z * uuid =>
                         fst (fst (fst (fst (fst q))))))) in H.
  by rewrite !map_map in H.
Qed.

(** The statements of the startup followed at once by the loop. *)
Lemma recover_and_serve w :
  booted w →
  ∃ w1 w',
    recover_jobs w = Ok tt w1 ∧ sound w1 ∧ processing w1 = false ∧
    match jobQueue w1 with [] => ret tt | _ :: _ => processQueue P end w1
    = Ok tt w' ∧
    jobQueue w' = [] ∧ processing w' = false ∧ initialized w' = true ∧
    map request_of (imports w') = map request_of (imports w) ∧
    (∀ r, r ∈ imports w' → imp_status r = completed ∨ imp_status r = failed) ∧
    (∀ r, r ∈ imports w → imp_status r = completed ∨ imp_status r = failed →
          r ∈ imports w').
Proof.
  intros Hb. pose proof Hb as (Hq0 & Hp0 & Hin & _).
  pose proof (sound_recover w Hb) as Hs1.
  destruct (recover_jobs_Ok w) as (w1 & E & Hi1 & _ & Hq1 & Hp1 & Hn1 & _).
  rewrite E in Hs1. simpl in Hs1.
  rewrite Hq0 in Hq1. simpl in Hq1.
  assert (Hsettle : ∃ w',
    match jobQueue w1 with [] => ret tt | _ :: _ => processQueue P end w1
    = Ok tt w' ∧
    sound w' ∧ jobQueue w' = [] ∧ processing w' = false ∧
    initialized w' = true ∧
    map request_of (imports w') = map request_of (imports w1) ∧
    (∀ r, r ∈ imports w1 → imp_id r ∉ map job_id (jobQueue w1) →
          r ∈ imports w') ∧
    (∀ j, j ∈ jobQueue w1 →
          ∃ r', r' ∈ imports w' ∧ imp_id r' = job_id j ∧ finished r')).
  { destruct (jobQueue w1) as [|j0 q0] eqn:Hq.
    - exists w1. do 5 (split; [first [done|congruence]|]).
      split; [done|]. split; [done|].
      intros j Hj. by inversion Hj.
    - destruct (processQueue_rows w1 Hs1) as (w' & sts & E' & Hs' & Hq' & Hp'
        & Hn' & _ & _ & _ & Hreq & Hkeep & Hrun); [congruence|].
      rewrite Hq in Hkeep, Hrun.
      exists w'. do 5 (split; [first [done|congruence]|]). done. }
  destruct Hsettle as (w' & E' & Hs' & Hq' & Hp' & Hn' & Hreq & Hkeep & Hrun).
  exists w1, w'. split; [exact E|]. split; [exact Hs1|].
  split; [congruence|]. split; [exact E'|]. do 3 (split; [done|]).
  destruct Hs1 as (HN1 & _). destruct Hs' as (HN' & _).
  assert (Hwait : ∀ r, r ∈ imports w1 → imp_status r = queued →
                       job_of_row r ∈ jobQueue w1).
  { intros r Hr Hst. rewrite Hq1. apply list_elem_of_fmap. exists r.
    split; [done|]. rewrite order_by_created_at_perm.
    apply list_elem_of_filter. split; [|done]. by apply is_status_true. }
  assert (Hidle : ∀ r, r ∈ imports w1 → imp_status r ≠ queued →
                       imp_id r ∉ map job_id (jobQueue w1)).
  { intros r Hr Hst Hin'. rewrite Hq1, map_map in Hin'.
    apply list_elem_of_fmap in Hin' as (r2 & Hid & Hr2).
    rewrite order_by_created_at_perm in Hr2.
    apply list_elem_of_filter in Hr2 as [Hst2 Hr2].
    apply is_status_true in Hst2. simpl in Hid.
    assert (r = r2) by by apply (unique_row (imports w1)). congruence. }
  assert (Hnone : ∀ r, r ∈ imports w1 → imp_status r ≠ running).
  { intros r Hr. rewrite Hi1 in Hr.
    apply update_where_row in Hr as (r0 & _ & ->).
    destruct (is_status running r0) eqn:Hrun0.
    - by rewrite set_fields_status.
    - intros Hst. apply is_status_true in Hst. congruence. }
  split; [|split].
  - rewrite Hreq, Hi1. apply update_where_request.
  - intros r' Hr'.
    assert (Hid : imp_id r' ∈ map imp_id (imports w1)).
    { rewrite <- (request_ids _ _ Hreq). apply list_elem_of_fmap. by exists r'. }
    apply list_elem_of_fmap in Hid as (r1 & Hid & Hr1).
    destruct (imp_status r1) eqn:Hst1.
    + destruct (Hrun _ (Hwait r1 Hr1 Hst1)) as (r2 & Hr2 & Hid2 & Hfin).
      assert (r' = r2) as ->.
      { apply (unique_row (imports w')); [done..|]. simpl in Hid2. congruence. }
      destruct Hfin as (_ & _ & [[-> _]|[-> _]]); [by left|by right].
    + by destruct (Hnone r1 Hr1).
    + assert (r' = r1) as ->; [|by left].
      apply (unique_row (imports w')); [done|done| |done].
      apply Hkeep; [done|]. apply Hidle; [done|congruence].
    + assert (r' = r1) as ->; [|by right].
      apply (unique_row (imports w')); [done|done| |done].
      apply Hkeep; [done|]. apply Hidle; [done|congruence].
  - intros r Hr Hst.
    assert (Hr1 : r ∈ imports w1).
    { rewrite Hi1. apply update_where_keeps; [done|].
      apply not_true_is_false. rewrite is_status_true.
      destruct Hst; congruence. }
    apply Hkeep; [done|]. apply Hidle; [done|]. destruct Hst; congruence.
Qed.

(** *** The loop left to itself

    When nothing else comes in while the loop works, its steps add up to
    the turns of [processQueue] taken one after the other. *)

Lemma bind_assoc {A B C} (m : M A) (k : A -> M B) (h : B -> M C) w :
  bind (bind m k) h w = bind m (fun a => bind (k a) h) w.
Proof. unfold bind. by destruct (m w). Qed.

Lemma bind_ext {A B} (m : M A) (k k' : A -> M B) w :
  (∀ a w', k a w' = k' a w') → bind m k w = bind m k' w.
Proof. intros H. unfold bind. destruct (m w); [apply H|done]. Qed.

(** [runImport] is its first update, the part in between, and its
    second update with the closing log line. *)
Lemma runImport_cut job w :
  runImport P job w =
  (let* t := now in
   updateImportStatus (job_id job) running [started_at (Some t)] >>
   let* overallSummary := run_body P job in
   let* t' := now in
   run_completed job t' overallSummary >>
   appendLog (job_id job) info "Legacy data import completed successfully") w.
Proof.
  unfold runImport, run_body.
  apply bind_ext; intros t w1.
  apply bind_ext; intros [] w2.
  repeat (rewrite bind_assoc; apply bind_ext; intros ? ?).
  reflexivity.
Qed.

Lemma run_app es1 es2 s :
  run P (es1 ++ es2) s =
  match run P es1 s with
  | Some s' => run P es2 s'
  | None => None
  end.
Proof.
  revert s. induction es1 as [|e es1 IH]; intros s; [done|]. simpl.
  destruct (step P e s); [apply IH|done].
Qed.

Lemma shift_and_run_cut job rest w :
  final (shift_and_run P job rest w) =
  let w1 := set_clock (clock w + 1)%Z (set_jobQueue rest w) in
  let w2 := final (updateImportStatus (job_id job) running
                     [started_at (Some (clock w))] w1) in
  match run_body P job w2 with
  | Ok overallSummary w3 =>
      final (appendLog (job_id job) info
               "Legacy data import completed successfully"
               (final (run_completed job (clock w3) overallSummary
                         (set_clock (clock w3 + 1)%Z w3))))
  | Throw message w3 =>
      let w4 := final (appendLog (job_id job) error message w3) in
      final (updateImportStatus (job_id job) failed
               [finished_at (Some (clock w4)); error_message (Some message)]
               (set_clock (clock w4 + 1)%Z w4))
  end.
Proof.
  unfold shift_and_run.
  rewrite (bind_run (modify _) _ w tt (set_jobQueue rest w) eq_refl).
  unfold process_job, try_catch. rewrite runImport_cut.
  rewrite (bind_run now _ _ _ _ eq_refl).
  rewrite (bind_run (updateImportStatus _ _ _) _ _ tt _
             (updateImportStatus_Ok _ _ _ _)).
  cbv zeta. cbn [clock set_jobQueue].
  rewrite updateImportStatus_Ok. cbn [final]. unfold bind at 1.
  destruct (run_body P job _) as [sm w3|msg w3].
  - rewrite (bind_run now _ _ _ _ eq_refl).
    unfold run_completed. rewrite !updateImportStatus_Ok.
    rewrite (bind_run (updateImportStatus _ _ _) _ _ tt _
               (updateImportStatus_Ok _ _ _ _)).
    reflexivity.
  - reflexivity.
Qed.

(** The four awaits of a turn. *)
Lemma turn_alone s job rest :
  jobQueue (world s) = job :: rest →
  run P (repeat Loop 4) (next_turn s)
  = Some (at_loop (Some Turning)
            (in_world (final (shift_and_run P job rest (world s))) s)).
Proof.
  intros Hq. rewrite shift_and_run_cut. unfold next_turn. rewrite Hq.
  cbv zeta. cbn [repeat run step loop_step loop at_loop in_world world clock
                 set_jobQueue].
  destruct (run_body P job _) as [sm w3|msg w3]; reflexivity.
Qed.

(** The loop from the test of its [while] statement to its end. *)
Lemma loop_alone fuel s :
  sound (world s) → loop s = Some Turning →
  (length (jobQueue (world s)) ≤ fuel)%nat →
  run P (repeat Loop (5 * length (jobQueue (world s)) + 1)) s
  = Some (at_loop None
            (in_world (set_processing false (final (drain P fuel (world s))))
               s)).
Proof.
  revert s. induction fuel as [|fuel IH]; intros s Hs Hl Hlen.
  - destruct (jobQueue (world s)) eqn:Hq; [|simpl in Hlen; lia].
    simpl. unfold loop_step, next_turn. by rewrite Hl, Hq.
  - destruct (jobQueue (world s)) as [|job rest] eqn:Hq.
    { simpl. unfold loop_step, next_turn, gets, bind. by rewrite Hl, Hq. }
    destruct (shift_and_run_rows job rest (world s) Hs Hq)
      as (w1 & st & E & Hs1 & Hq1 & _).
    replace (5 * length (job :: rest) + 1)%nat
      with (1 + (4 + (5 * length rest + 1)))%nat by (simpl; lia).
    rewrite repeat_app. change (repeat Loop 1) with [Loop].
    cbn [app run step]. unfold loop_step at 1. rewrite Hl.
    rewrite repeat_app, run_app, (turn_alone s job rest Hq), E. cbn [final].
    set (s1 := at_loop (Some Turning) (in_world w1 s)).
    specialize (IH s1). cbn [world s1 at_loop in_world] in IH.
    rewrite Hq1 in IH. rewrite IH; [|done|done|simpl in Hlen; lia].
    assert (Ed : drain P (S fuel) (world s) = drain P fuel w1).
    { cbn [drain].
      rewrite (bind_run (gets jobQueue) _ (world s) (job :: rest) (world s))
        by (unfold gets; by rewrite Hq).
      cbv beta iota. by rewrite (bind_run _ _ _ _ _ E). }
    by rewrite Ed.
Qed.

(** A call of [processQueue] while no loop is at work, and the awaits
    of the loop it starts. *)
Lemma processQueue_alone s :
  sound (world s) → processing (world s) = false →
  run P (repeat Loop (5 * length (jobQueue (world s)))) (processQueue_called s)
  = Some (at_loop None (in_world (final (processQueue P (world s))) s)).
Proof.
  intros Hs Hp.
  set (s1 := at_loop (Some Turning)
               (in_world (set_processing true (world s)) s)).
  pose proof (loop_alone (length (jobQueue (world s))) s1) as H.
  cbn [world s1 at_loop in_world jobQueue set_processing] in H.
  specialize (H (sound_flag true _ Hs) eq_refl (le_n _)).
  replace (5 * length (jobQueue (world s)) + 1)%nat
    with (S (5 * length (jobQueue (world s)))) in H by lia.
  cbn [repeat run step] in H. unfold loop_step at 1 in H.
  cbn [loop s1 at_loop] in H.
  unfold processQueue_called. rewrite Hp.
  change (next_turn s1) with
    (next_turn (in_world (set_processing true (world s)) s)) in H.
  rewrite H. f_equal.
  destruct (drain_settles (length (jobQueue (world s)))
              (set_processing true (world s)))
    as (w' & sts & E & _); [by apply sound_flag|done|].
  change (jobQueue (set_processing true (world s)))
    with (jobQueue (world s)) in E.
  unfold processQueue, gets. unfold bind at 1. rewrite Hp.
  rewrite (bind_run (modify _) _ _ tt (set_processing true (world s)) eq_refl).
  unfold bind at 1. rewrite (bind_run _ _ _ _ _ E).
  cbn [jobQueue set_processing]. by rewrite E.
Qed.

(** The startup call from the load of the module to the end of its
    [for] loop, with nothing else in between. *)
Lemma run_cons e es s s' :
  step P e s = Some s' → run P (e :: es) s = run P es s'.
Proof. intros H. simpl. by rewrite H. Qed.

Lemma startup_alone w :
  initialized w = false →
  run P (Boot :: repeat Startup 4) (fresh w)
  = Some (let s := {| world := final (recover_jobs w); startup := Started;
                      loop := None; handlers := [] |} in
          match jobQueue (world s) with
          | [] => s
          | _ :: _ => processQueue_called s
          end).
Proof.
  intros Hin.
  pose proof (ensureSchema_succeeds (set_initialized true w)) as Hok.
  destruct (ensureSchema (set_initialized true w)) as [[] wb|] eqn:Es;
    [clear Hok|done].
  assert (E : recover_jobs w
              = push_rows (answer [] (select_queued
                                        (final (requeue_running wb))))
                  (final (select_queued (final (requeue_running wb))))).
  { unfold recover_jobs.
    rewrite (bind_run (modify _) _ w tt _ eq_refl).
    by rewrite (bind_run _ _ _ _ _ Es). }
  change (repeat Startup 4) with [Startup; Startup; Startup; Startup].
  rewrite (run_cons Boot _ (fresh w)
             (at_startup Migrating (in_world (set_initialized true w)
                                      (fresh w))))
    by (unfold step, initializeLegacyImportWorker; cbn [startup fresh world];
        rewrite Hin; reflexivity).
  rewrite (run_cons Startup _ _
             (at_startup Requeueing (in_world wb (fresh w))))
    by (unfold step, startup_step;
        cbn [startup at_startup in_world world]; rewrite Es; reflexivity).
  rewrite (run_cons Startup _ _
             (at_startup Selecting
                (in_world (final (requeue_running wb)) (fresh w))))
    by reflexivity.
  rewrite (run_cons Startup _ _
             (at_startup
                (Filling (answer [] (select_queued
                                       (final (requeue_running wb)))))
                (in_world (final (select_queued (final (requeue_running wb))))
                   (fresh w))))
    by reflexivity.
  rewrite E. reflexivity.
Qed.

Lemma requeued_count fields rows :
  length (filter (fun r => is_status queued r = true)
            (update_where (is_status running) queued fields rows))
  = length (filter (fun r => is_status queued r || is_status running r = true)
              rows).
Proof.
  induction rows as [|r rows IH]; [done|]. simpl. rewrite !filter_cons.
  destruct (is_status running r) eqn:Hr.
  - rewrite decide_True.
    + rewrite decide_True by (by rewrite orb_true_r). simpl. by rewrite IH.
    + apply is_status_true. by rewrite set_fields_status.
  - rewrite orb_false_r.
    destruct (decide (is_status queued r = true)); simpl; by rewrite IH.
Qed.

(** The jobs the startup puts on the queue are those of the rows that
    were queued or running. *)
Lemma recovered_count w :
  booted w →
  length (jobQueue (final (recover_jobs w)))
  = length (filter (fun r => is_status queued r || is_status running r = true)
              (imports w)).
Proof.
  intros (Hq & _). destruct (recover_jobs_Ok w) as (w1 & E & Hi & _ & Hq1 & _).
  rewrite E. cbn [final]. rewrite Hq1, Hq. simpl.
  rewrite length_map, order_by_created_at_perm, Hi. apply requeued_count.
Qed.

(** X19. When no request comes in, the startup of a process leaves no import
    queued or running.  The module is loaded, the four awaits of the
    startup call are answered, and the loop it has started is answered
    five times for each row that was queued or running; then the rows
    left running by a crash and the queued rows have been run to their
    end, the rows that were finished before are untouched, the queue is
    empty, the flag is down and no call is in flight. *)
Theorem startup_alone_settles w :
  booted w →
  ∃ s,
    run P (Boot :: repeat Startup 4
             ++ repeat Loop
                  (5 * length
                         (filter (fun r => is_status queued r
                                           || is_status running r = true)
                            (imports w))))
        (fresh w)
    = Some s ∧
    (startup s = Started ∧ loop s = None ∧ handlers s = []) ∧
    jobQueue (world s) = [] ∧ processing (world s) = false ∧
    initialized (world s) = true ∧
    map request_of (imports (world s)) = map request_of (imports w) ∧
    (∀ r, r ∈ imports (world s) →
          imp_status r = completed ∨ imp_status r = failed) ∧
    (∀ r, r ∈ imports w → imp_status r = completed ∨ imp_status r = failed →
          r ∈ imports (world s)).
Proof.
  intros Hb. pose proof Hb as (_ & _ & Hin & _).
  rewrite <- (recovered_count w Hb).
  destruct (recover_and_serve w Hb)
    as (w1 & w' & E1 & Hs1 & Hp1 & E' & Hrest).
  rewrite E1. cbn [final].
  change (Boot :: repeat Startup 4 ++ repeat Loop (5 * length (jobQueue w1)))
    with ((Boot :: repeat Startup 4)
            ++ repeat Loop (5 * length (jobQueue w1))).
  rewrite run_app, (startup_alone w Hin), E1. cbn [final]. cbv zeta.
  cbn [world].
  set (s1 := {| world := w1; startup := Started; loop := None;
                handlers := [] |}).
  assert (Hrun : run P (repeat Loop (5 * length (jobQueue w1)))
                   match jobQueue w1 with
                   | [] => s1
                   | _ :: _ => processQueue_called s1
                   end
                 = Some (at_loop None (in_world w' s1))).
  { destruct (jobQueue w1) as [|j q] eqn:Hq.
    - unfold ret in E'. injection E' as <-. reflexivity.
    - pose proof (processQueue_alone s1 Hs1 Hp1) as H.
      cbn [world s1] in H. rewrite Hq, E' in H. exact H. }
  rewrite Hrun. eexists. split; [reflexivity|].
  split; [done|]. exact Hrest.
Qed.

End Queue.



(** The startup of the sample process when no request comes in: the job
    left running by the crash is put back and served with the two that
    waited. *)
Lemma startup_alone_settles_witness :
  booted Sample.boot ∧
  ∃ s,
    run Sample.platform
        (Boot :: repeat Startup 4
           ++ repeat Loop
                (5 * length
                       (filter (fun r => is_status queued r
                                         || is_status running r = true)
                          (imports Sample.boot))))
        (fresh Sample.boot)
    = Some s ∧
    (startup s = Started ∧ loop s = None ∧ handlers s = []) ∧
    jobQueue (world s) = [] ∧ processing (world s) = false ∧
    initialized (world s) = true ∧
    map request_of (imports (world s)) = map request_of (imports Sample.boot) ∧
    (∀ r, r ∈ imports (world s) →
          imp_status r = completed ∨ imp_status r = failed) ∧
    (∀ r, r ∈ imports Sample.boot →
          imp_status r = completed ∨ imp_status r = failed →
          r ∈ imports (world s)).
Proof.
  assert (Hb : booted Sample.boot).
  { split; [reflexivity|]. split; [reflexivity|]. split; [reflexivity|].
    split; [reflexivity|]. split.
    - apply (bool_decide_eq_true_1 _). by_computation.
    - apply (bool_decide_eq_true_1 _). by_computation. }
  split; [exact Hb|].
  exact (startup_alone_settles Sample.platform Sample.boot Hb).
Defined.

(** ** What a request leads to *)

Lemma insert_import_row session dir ov user w importId w1 :
  insert_import session dir ov user w = Ok importId w1 →
  (session ∉ map imp_session_id (imports w)) ∧
  importId = next_uuid w ∧
  jobQueue w1 = jobQueue w ∧ processing w1 = processing w ∧
  imports w1
  = imports w ++
      [ {| imp_id := importId; imp_session_id := session;
           imp_session_dir := dir; imp_overwrite := ov;
           imp_status := queued; imp_created_at := clock w;
           imp_started_at := None; imp_finished_at := None;
           imp_created_by := user; imp_report_path := None;
           imp_summary := None; imp_error_message := None |} ].
Proof.
  cbv [insert_import bind query modify gets fresh_uuid ret throw].
  simpl. case_bool_decide as Hin; [done|]. intros [= <- <-]. done.
Qed.

Lemma rows_of_session_update session pred st fields rows :
  session ∉ map imp_session_id rows →
  filter (fun r => imp_session_id r = session)
    (update_where pred st fields rows) = [].
Proof.
  induction rows as [|r rows IH]; [done|]. intros Hn. simpl in Hn.
  apply not_elem_of_cons in Hn as [Hr Hn]. simpl.
  rewrite filter_cons_False.
  - by apply IH.
  - destruct (pred r); [|done].
    pose proof (set_fields_request fields (set_import_status st r)) as H.
    apply (f_equal (fun q => snd (fst (fst (fst (fst q)))))) in H.
    simpl in H. congruence.
Qed.

Lemma rows_of_session_none session rows :
  session ∉ map imp_session_id rows →
  filter (fun r => imp_session_id r = session) rows = [].
Proof.
  induction rows as [|r rows IH]; [done|]. intros Hn. simpl in Hn.
  apply not_elem_of_cons in Hn as [Hr Hn].
  rewrite filter_cons_False by congruence. by apply IH.
Qed.

Lemma update_where_sessions pred st fields rows :
  map imp_session_id (update_where pred st fields rows)
  = map imp_session_id rows.
Proof.
  pose proof (update_where_request pred st fields rows) as H.
  apply (f_equal (map (fun q : uuid * string * path * bool * Z * uuid =>
                         snd (fst (fst (fst (fst q))))))) in H.
  by rewrite !map_map in H.
Qed.

Lemma update_where_snoc pred st fields rows r :
  update_where pred st fields (rows ++ [r])
  = update_where pred st fields rows
      ++ [ if pred r
           then fold_left set_import_field fields (set_import_status st r)
           else r ].
Proof. unfold update_where. by rewrite map_app. Qed.

Section Request.

Context (P : Platform).

(** A request on a server at rest, with nothing else going on: the
    insert, the audit entry and the call of [queueLegacyImport], which
    starts the loop; then the four awaits of the turn and the test that
    ends the loop. *)
Lemma request_alone session dir ov user s importId w1 :
  idle s →
  insert_import session dir ov user (world s) = Ok importId w1 →
  let job := requested_job importId session dir ov user in
  let wq := set_processing true (set_jobQueue [job] (final (logAudit w1))) in
  run P [Request session dir ov user; Handler 0; Handler 0] s
  = Some (next_turn (in_world wq s)) ∧
  run P (repeat Loop 5) (next_turn (in_world wq s))
  = Some (at_loop None
            (in_world (set_processing false
                         (final (process_job P job (set_jobQueue [] wq))))
               s)) ∧
  jobQueue (final (process_job P job (set_jobQueue [] wq))) = [].
Proof.
  intros (Hst & Hl & Hh & Hp & Hq) E job wq.
  destruct (process_job_control P job (set_jobQueue [] wq))
    as (w2 & f1 & st' & f2 & E2 & _ & Hc).
  cbv zeta in Hc. injection Hc as _ _ Hq2 _ _.
  destruct (insert_import_row _ _ _ _ _ _ _ E) as (_ & _ & Hq1 & Hp1 & _).
  rewrite Hq in Hq1. rewrite Hp in Hp1.
  destruct s as [w st lp hs]. cbn [world startup loop handlers] in *.
  subst st lp hs. split; [|split].
  - cbn [run step request_step startup world]. rewrite E.
    cbn [handler_step handlers with_handlers in_world app lookup
         list_lookup world startup loop].
    unfold queueLegacyImport, processQueue_called.
    cbn [handlers with_handlers in_world world startup loop list_insert
         insert delete list_delete logAudit query modify final
         jobQueue processing set_trace set_jobQueue].
    unfold handler_step.
    cbn [handlers with_handlers in_world world startup loop lookup
         list_lookup delete list_delete].
    unfold queueLegacyImport, processQueue_called.
    cbn [handlers with_handlers in_world world startup loop
         jobQueue processing set_trace set_jobQueue].
    rewrite Hq1, Hp1. reflexivity.
  - change (repeat Loop 5) with (repeat Loop 4 ++ [Loop]).
    rewrite run_app.
    rewrite (turn_alone P (in_world wq _) job []) by reflexivity.
    cbn [run step loop_step loop at_loop in_world world].
    unfold shift_and_run.
    rewrite (bind_run (modify _) _ wq tt (set_jobQueue [] wq) eq_refl).
    rewrite E2. cbn [final]. unfold next_turn.
    cbn [world at_loop in_world]. rewrite Hq2. reflexivity.
  - by rewrite E2.
Qed.

(** The one row of the session of such a request: when its insert has
    been answered, and when the loop has run to its end. *)
Lemma request_row session dir ov user w importId w1 :
  insert_import session dir ov user w = Ok importId w1 →
  let job := requested_job importId session dir ov user in
  let wq := set_processing true (set_jobQueue [job] (final (logAudit w1))) in
  let w' := set_processing false
              (final (process_job P job (set_jobQueue [] wq))) in
  (∃ x0,
     rows_of_session session wq = [x0] ∧ imp_id x0 = importId ∧
     imp_overwrite x0 = ov ∧ imp_status x0 = queued ∧
     imp_started_at x0 = None ∧ imp_finished_at x0 = None ∧
     imp_summary x0 = None ∧ imp_report_path x0 = None ∧
     imp_error_message x0 = None) ∧
  ∃ x,
    rows_of_session session w' = [x] ∧
    imp_id x = importId ∧ imp_overwrite x = ov ∧
    is_Some (imp_started_at x) ∧ is_Some (imp_finished_at x) ∧
    ((imp_status x = completed ∧ imp_error_message x = None ∧
      ∃ s name lines,
        imp_summary x = Some s ∧ imp_report_path x = Some (dir ++ [name]) ∧
        text_at (dir ++ [name]) name lines w')
     ∨ (imp_status x = failed ∧ is_Some (imp_error_message x) ∧
        imp_summary x = None ∧ imp_report_path x = None)).
Proof.
  intros Ei job wq w'.
  apply insert_import_row in Ei as (Hnew & Hid & Hq1 & Hp1 & Hi1).
  set (row := {| imp_id := importId |}) in Hi1.
  set (wa := set_jobQueue [] wq) in *.
  assert (Hia : imports wa = imports w1) by reflexivity.
  assert (Hhit : ∀ r, imp_id r = importId → has_id (job_id job) r = true).
  { intros r Hr. by apply has_id_true. }
  split.
  { exists row. unfold rows_of_session.
    change (imports wq) with (imports w1). rewrite Hi1, filter_app.
    rewrite rows_of_session_none by done.
    rewrite filter_cons_True, filter_nil by done. by repeat split. }
  destruct (process_job_rows P job wa) as (w2 & E2 & _).
  unfold w'. rewrite E2. cbn [final].
  unfold rows_of_session, text_at. simpl.
  destruct (runImport P job wa) as [[] wr|msg wr] eqn:Er.
  - destruct (process_job_returned P job wa wr Er)
      as (Ep & t & s & name & lines & Hi & Hrp & Ht & _).
    rewrite Ep in E2. apply Ok_world in E2. subst w2.
    rewrite Hi, Hia, Hi1.
    rewrite update_where_snoc, (Hhit row) by done.
    rewrite update_where_snoc, Hhit by (by rewrite set_fields_id).
    rewrite filter_app, rows_of_session_update
      by (by rewrite update_where_sessions).
    rewrite filter_cons_True, filter_nil by done.
    eexists. split; [reflexivity|]. simpl.
    split; [done|]. split; [done|]. split; [done|]. split; [done|].
    left. split; [done|]. split; [done|]. exists s, name, lines.
    change (sessionDir job) with dir in Hrp.
    split; [done|]. split; [by rewrite Hrp|].
    unfold text_at in Ht. by rewrite <- Hrp.
  - destruct (process_job_caught P job wa msg wr Er)
      as (wf & t & e & Ep & _ & _ & _ & Hi & _).
    rewrite Ep in E2. apply Ok_world in E2. subst w2.
    rewrite Hi, Hia, Hi1.
    rewrite update_where_snoc, (Hhit row) by done.
    rewrite update_where_snoc, Hhit by (by rewrite set_fields_id).
    rewrite filter_app, rows_of_session_update
      by (by rewrite update_where_sessions).
    rewrite filter_cons_True, filter_nil by done.
    eexists. split; [reflexivity|]. simpl.
    split; [done|]. split; [done|]. split; [done|]. split; [done|].
    right. by repeat split.
Qed.

(** X20. A request accepted by a server at rest, with nothing else going
    on.  When the handler answers (the insert, the audit entry and the
    call of [queueLegacyImport] are done) the loop holds the job at its
    first await, and the status of the session reads queued, without
    times, summary or report.  When the five awaits of the loop have
    been answered the server is at rest again and the status is final:
    completed, with a summary and the report available and no error, or
    failed, with the error and no report; the times of start and end
    are set and the overwrite flag is the one of the request. *)
Theorem status_after_request session dir ov user s importId w1 :
  idle s →
  insert_import session dir ov user (world s) = Ok importId w1 →
  ∃ s1 s2,
    run P [Request session dir ov user; Handler 0; Handler 0] s = Some s1 ∧
    run P (repeat Loop 5) s1 = Some s2 ∧
    (handlers s1 = [] ∧
     ∃ t, loop s1 = Some (Starting (requested_job importId session dir ov user)
                            t)) ∧
    (∃ st,
       answer None (getLegacyImportStatus session (world s1)) = Some st ∧
       st_status st = queued ∧ st_overwrite st = ov ∧
       st_startedAt st = None ∧ st_finishedAt st = None ∧
       st_summary st = None ∧ st_error st = None ∧
       st_reportAvailable st = false) ∧
    idle s2 ∧
    ∃ st,
      answer None (getLegacyImportStatus session (world s2)) = Some st ∧
      st_overwrite st = ov ∧
      is_Some (st_startedAt st) ∧ is_Some (st_finishedAt st) ∧
      ((st_status st = completed ∧ st_error st = None ∧
        is_Some (st_summary st) ∧ st_reportAvailable st = true)
       ∨ (st_status st = failed ∧ is_Some (st_error st) ∧
          st_summary st = None ∧ st_reportAvailable st = false)).
Proof.
  intros Hidle E.
  destruct (request_alone _ _ _ _ _ _ _ Hidle E) as (E1 & E2 & Hq2).
  destruct (request_row _ _ _ _ _ _ _ E) as [(x0 & Hx0 & Hr0) Hrow].
  cbv zeta in *.
  set (job := requested_job importId session dir ov user) in *.
  set (wq := set_processing true _) in *.
  destruct Hidle as (Hst & Hl & Hh & Hp & Hq).
  eexists _, _. split; [exact E1|]. split; [exact E2|].
  split; [|split; [|split]].
  - unfold next_turn. cbn [world in_world]. split; [done|].
    eexists. reflexivity.
  - unfold next_turn. cbn [world in_world at_loop jobQueue wq set_processing
                              set_jobQueue].
    unfold getLegacyImportStatus, query, modify, gets, bind. simpl.
    unfold rows_of_session in *. simpl in Hx0 |- *. rewrite Hx0. simpl.
    destruct Hr0 as (_ & Hov & Hs0 & Hsa & Hfa & Hsum & Hrp & Hem).
    eexists. split; [reflexivity|]. simpl.
    rewrite Hs0, Hov, Hsa, Hfa, Hsum, Hrp, Hem. by repeat split.
  - by repeat split.
  - destruct Hrow as (x & Hx & _ & Hov & Hs & Hf & Hout).
    cbn [world at_loop in_world].
    unfold getLegacyImportStatus, query, modify, gets, bind. simpl.
    unfold rows_of_session in *. simpl in Hx |- *. rewrite Hx. simpl.
    eexists. split; [reflexivity|]. simpl.
    split; [done|]. split; [done|]. split; [done|].
    destruct Hout as [(Hst' & He & sm & name & lines & Hsum & Hrp & _)
                     |(Hst' & He & Hsum & Hrp)].
    + left. rewrite Hst', He, Hsum, Hrp. by repeat split.
    + right. rewrite Hst', Hsum, Hrp. by repeat split.
Qed.

(** X21. For such a request no report is offered when the handler answers;
    when the loop has run to its end the report is offered exactly when
    the import completed, and then the file is there: it is in the
    directory of the session and is sent under its own name. *)
Theorem report_after_request session dir ov user s importId w1 :
  idle s →
  insert_import session dir ov user (world s) = Ok importId w1 →
  ∃ s1 s2,
    run P [Request session dir ov user; Handler 0; Handler 0] s = Some s1 ∧
    run P (repeat Loop 5) s1 = Some s2 ∧
    answer None (getLegacyImportReport session (world s1)) = None ∧
    ∃ st,
      answer None (getLegacyImportStatus session (world s2)) = Some st ∧
      match answer None (getLegacyImportReport session (world s2)) with
      | Some (p, filename) =>
          st_status st = completed ∧ p = dir ++ [filename] ∧
          ∃ lines, text_at p filename lines (world s2)
      | None => st_status st = failed
      end.
Proof.
  intros Hidle E.
  destruct (request_alone _ _ _ _ _ _ _ Hidle E) as (E1 & E2 & _).
  destruct (request_row _ _ _ _ _ _ _ E) as [(x0 & Hx0 & Hr0) Hrow].
  cbv zeta in *.
  set (job := requested_job importId session dir ov user) in *.
  set (wq := set_processing true _) in *.
  eexists _, _. split; [exact E1|]. split; [exact E2|]. split.
  - unfold next_turn. cbn [world in_world at_loop jobQueue wq set_processing
                              set_jobQueue].
    unfold getLegacyImportReport, query, modify, gets, bind. simpl.
    unfold rows_of_session in *. simpl in Hx0 |- *. rewrite Hx0. simpl.
    destruct Hr0 as (_ & _ & _ & _ & _ & _ & Hrp & _). by rewrite Hrp.
  - destruct Hrow as (x & Hx & _ & _ & _ & _ & Hout).
    cbn [world at_loop in_world].
    unfold getLegacyImportStatus, getLegacyImportReport, query, modify, gets,
      bind. simpl.
    unfold rows_of_session in *. simpl in Hx |- *. rewrite Hx. simpl.
    eexists. split; [reflexivity|]. simpl.
    destruct Hout as [(Hst & _ & sm & name & lines & _ & Hrp & Ht)
                     |(Hst & _ & _ & Hrp)]; rewrite Hrp; simpl; [|done].
    unfold Fs.basename. rewrite last_last.
    split; [done|]. split; [done|]. by exists lines.
Qed.

End Request.

(** A request for the new session s4 on the sample server at rest. *)
Lemma request_insert_Ok :
  Sample.request_insert
  = Ok (answer 0%nat Sample.request_insert) (final Sample.request_insert).
Proof. apply returned_Ok. by_computation. Qed.

Lemma idle_served : idle Sample.served.
Proof. by repeat split. Qed.

Lemma status_after_request_witness :
  idle Sample.served ∧
  ∃ s1 s2,
    run Sample.platform
        [Request "s4" ["imports"; "s4"] false 1; Handler 0; Handler 0]
        Sample.served = Some s1 ∧
    run Sample.platform (repeat Loop 5) s1 = Some s2 ∧
    (handlers s1 = [] ∧
     ∃ t, loop s1
          = Some (Starting (requested_job (answer 0%nat Sample.request_insert)
                              "s4" ["imports"; "s4"] false 1) t)) ∧
    (∃ st,
       answer None (getLegacyImportStatus "s4" (world s1)) = Some st ∧
       st_status st = queued ∧ st_overwrite st = false ∧
       st_startedAt st = None ∧ st_finishedAt st = None ∧
       st_summary st = None ∧ st_error st = None ∧
       st_reportAvailable st = false) ∧
    idle s2 ∧
    ∃ st,
      answer None (getLegacyImportStatus "s4" (world s2)) = Some st ∧
      st_overwrite st = false ∧
      is_Some (st_startedAt st) ∧ is_Some (st_finishedAt st) ∧
      ((st_status st = completed ∧ st_error st = None ∧
        is_Some (st_summary st) ∧ st_reportAvailable st = true)
       ∨ (st_status st = failed ∧ is_Some (st_error st) ∧
          st_summary st = None ∧ st_reportAvailable st = false)).
Proof.
  split; [exact idle_served|].
  exact (status_after_request Sample.platform "s4" ["imports"; "s4"] false 1
           Sample.served _ _ idle_served request_insert_Ok).
Defined.

Lemma report_after_request_witness :
  idle Sample.served ∧
  ∃ s1 s2,
    run Sample.platform
        [Request "s4" ["imports"; "s4"] false 1; Handler 0; Handler 0]
        Sample.served = Some s1 ∧
    run Sample.platform (repeat Loop 5) s1 = Some s2 ∧
    answer None (getLegacyImportReport "s4" (world s1)) = None ∧
    ∃ st,
      answer None (getLegacyImportStatus "s4" (world s2)) = Some st ∧
      match answer None (getLegacyImportReport "s4" (world s2)) with
      | Some (p, filename) =>
          st_status st = completed ∧ p = ["imports"; "s4"] ++ [filename] ∧
          ∃ lines, text_at p filename lines (world s2)
      | None => st_status st = failed
      end.
Proof.
  split; [exact idle_served|].
  exact (report_after_request Sample.platform "s4" ["imports"; "s4"] false 1
           Sample.served _ _ idle_served request_insert_Ok).
Defined.

(** ** The upload of a request *)

(** *** Safe names *)

Lemma map_string_L f s : L (Js.map_string f s) = map f (L s).
Proof. induction s as [|c r IH]; [done|]. simpl. by rewrite IH. Qed.

Lemma L_app s t : L (s +:+ t) = L s ++ L t.
Proof. induction s as [|c r IH]; [done|]. simpl. by rewrite IH. Qed.

Lemma elem_of_rev {A} (x : A) (l : list A) : x ∈ rev l ↔ x ∈ l.
Proof. rewrite !list_elem_of_In. symmetry. apply in_rev. Qed.

Lemma until_slash_free s : "/"%char ∉ L (until_slash s).
Proof.
  induction s as [|c r IH]; simpl; [by apply not_elem_of_nil|].
  destruct (Ascii.eqb c "/") eqn:E; simpl; [by apply not_elem_of_nil|].
  apply not_elem_of_cons. split; [|done].
  intros Hc. subst c. by rewrite Ascii.eqb_refl in E.
Qed.

Lemma until_slash_same s : "/"%char ∉ L s → until_slash s = s.
Proof.
  induction s as [|c r IH]; simpl; [done|]. intros H.
  apply not_elem_of_cons in H as [Hc Hr].
  destruct (Ascii.eqb c "/") eqn:E.
  - apply Ascii.eqb_eq in E. by subst c.
  - by rewrite IH.
Qed.

Lemma drop_slashes_same s : "/"%char ∉ L s → drop_slashes s = s.
Proof.
  destruct s as [|c r]; simpl; [done|]. intros H.
  apply not_elem_of_cons in H as [Hc Hr].
  destruct (Ascii.eqb c "/") eqn:E; [|done].
  apply Ascii.eqb_eq in E. by subst c.
Qed.

Lemma basename_of_free p : "/"%char ∉ L (basename_of p).
Proof.
  unfold basename_of. rewrite L_str_rev, elem_of_rev.
  apply until_slash_free.
Qed.

Lemma basename_of_same s : "/"%char ∉ L s → basename_of s = s.
Proof.
  intros H. unfold basename_of.
  assert (Hr : "/"%char ∉ L (Js.str_rev s))
    by (by rewrite L_str_rev, elem_of_rev).
  rewrite (drop_slashes_same _ Hr), (until_slash_same _ Hr).
  apply str_rev_involutive.
Qed.

Lemma is_safe_not_slash c : is_safe c = true → c ≠ "/"%char.
Proof. by intros H ->. Qed.

(** X22. The name a file is stored under is never empty, is made of the
    characters a-z, A-Z, 0-9, dot, underscore and hyphen only, so that
    it has no slash, and is kept as it is when it is made safe again; a
    name is refused exactly when its base name is empty.  Nothing is
    written either way. *)
Theorem sanitizeLegacyFilename_safe (filename : string) (w : World) :
  match sanitizeLegacyFilename filename w with
  | Ok safe w' =>
      w' = w ∧ safe ≠ EmptyString ∧
      String.length safe = String.length (basename_of filename) ∧
      Forall (fun c => is_safe c = true) (L safe) ∧
      ("/"%char ∉ L safe) ∧
      sanitizeLegacyFilename safe w = Ok safe w
  | Throw _ w' => w' = w ∧ basename_of filename = EmptyString
  end.
Proof.
  unfold sanitizeLegacyFilename.
  set (f := fun c : ascii => if is_safe c then c else "_"%char).
  assert (Hf : ∀ c, is_safe (f c) = true).
  { intros c. unfold f. by destruct (is_safe c) eqn:E. }
  assert (Hsafe : ∀ s, Forall (fun c => is_safe c = true)
                         (L (Js.map_string f s))).
  { intros s. rewrite map_string_L. apply Forall_forall. intros c Hc.
    apply list_elem_of_fmap in Hc as (c0 & -> & _). apply Hf. }
  assert (Hfree : ∀ s, "/"%char ∉ L (Js.map_string f s)).
  { intros s Hin. pose proof (Hsafe s) as H. rewrite Forall_forall in H.
    by apply (is_safe_not_slash _ (H _ Hin)). }
  assert (Hidem : ∀ s, Js.map_string f (Js.map_string f s)
                       = Js.map_string f s).
  { intros s. induction s as [|c r IH]; [done|]. simpl. rewrite IH.
    f_equal. unfold f at 1. by rewrite Hf. }
  case_bool_decide as He; simpl.
  - split; [done|]. by destruct (basename_of filename).
  - split; [done|]. split; [done|]. split.
    { clear. induction (basename_of filename) as [|c r IH]; [done|].
      simpl. by rewrite IH. }
    split; [apply Hsafe|]. split; [apply Hfree|].
    rewrite (basename_of_same _ (Hfree _)), Hidem.
    by rewrite bool_decide_false.
Qed.

(** *** Directories *)

Lemma dir_at_nil p : Fs.dir_at p [] = match p with [] => Some [] | _ => None end.
Proof. by destruct p. Qed.

Lemma dir_at_app a b es :
  Fs.dir_at (a ++ b) es = Fs.dir_at a es ≫= Fs.dir_at b.
Proof.
  revert es. induction a as [|d a IH]; intros es; [done|]. simpl.
  destruct (Fs.find_entry d es) as [[| | |n ch]|]; first [done|apply IH].
Qed.

(** [mkdir -p] makes the directory, empty if it was not there, and
    leaves what was below it. *)
Lemma mkdir_p_dir_at dir es es' p :
  Fs.mkdir_p dir es = Some es' →
  Fs.dir_at (dir ++ p) es'
  = match Fs.dir_at dir es with
    | Some ch => Fs.dir_at p ch
    | None => Fs.dir_at p []
    end.
Proof.
  unfold Fs.mkdir_p. revert es es'.
  induction dir as [|d dir IH]; intros es es' H; simpl in *.
  - by injection H as <-.
  - destruct (Fs.find_entry d es) as [[| | |n ch]|] eqn:E; try done.
    + destruct (Fs.modify_dir true Some dir ch) as [ch1|] eqn:E1; [|done].
      simpl in H. injection H as <-.
      rewrite (find_put_entry (EDir d ch1)). by apply IH.
    + destruct (Fs.modify_dir true Some dir []) as [ch1|] eqn:E1; [|done].
      simpl in H. injection H as <-.
      rewrite (find_put_entry (EDir d ch1)). rewrite (IH _ _ E1).
      rewrite dir_at_nil. by destruct dir.
Qed.

Lemma writeFile_dir_at dir e es es' ch :
  Fs.dir_at dir es = Some ch →
  Fs.writeFile dir e es = Some es' →
  Fs.dir_at dir es' = Some (Fs.put_entry e ch).
Proof.
  intros Hd H. apply modify_dir_at in H as (c & c' & Hc & Hf & Hc').
  rewrite Hd in Hc. injection Hc as <-. rewrite Hc'.
  unfold Fs.put_file in Hf.
  by destruct (Fs.find_entry (entry_name e) ch) as [[]|].
Qed.

Lemma put_entry_names e ch n :
  n ∈ map entry_name (Fs.put_entry e ch) ↔
  n = entry_name e ∨ n ∈ map entry_name ch.
Proof.
  induction ch as [|x ch IH]; simpl.
  - rewrite list_elem_of_singleton. split; [by left|]. intros [H|H]; [done|].
    by inversion H.
  - case_bool_decide as Hx; simpl; rewrite !elem_of_cons.
    + rewrite Hx. tauto.
    + rewrite IH. tauto.
Qed.

Lemma put_entry_files e ch :
  is_file e = true → Forall (fun x => is_file x = true) ch →
  Forall (fun x => is_file x = true) (Fs.put_entry e ch).
Proof.
  intros He. induction 1 as [|x ch Hx Hch IH]; simpl.
  - by constructor.
  - case_bool_decide; by constructor.
Qed.

Lemma files_under_files dir ch :
  Forall (fun x => is_file x = true) ch →
  flat_map (Fs.files_under dir) ch = map (fun e => dir ++ [entry_name e]) ch.
Proof.
  induction 1 as [|x ch Hx Hch IH]; [done|]. simpl. rewrite IH.
  by destruct x.
Qed.

(** *** Extensions *)

Lemma append_cons c r t : String c r +:+ t = String c (r +:+ t).
Proof. reflexivity. Qed.

Lemma append_empty s : s +:+ EmptyString = s.
Proof. induction s as [|c r IH]; [done|]. by rewrite append_cons, IH. Qed.

Lemma substring_suffix k s :
  ∃ pre, s = pre +:+ String.substring k (String.length s - k) s.
Proof.
  revert s. induction k as [|k IH]; intros s.
  - exists EmptyString. by rewrite Nat.sub_0_r, substring_all.
  - destruct s as [|c r]; [by exists EmptyString|].
    destruct (IH r) as [pre Hpre]. exists (String c pre).
    rewrite append_cons. simpl. by rewrite <- Hpre.
Qed.

Lemma extname_suffix n : ∃ pre, n = pre +:+ Fs.extname n.
Proof.
  unfold Fs.extname. destruct (Fs.last_dot n 0 None) as [[|i]|].
  - exists n. by rewrite append_empty.
  - apply substring_suffix.
  - exists n. by rewrite append_empty.
Qed.

Lemma upper_lower_char c : Js.upper_units (Js.lower_char c) = Js.upper_units c.
Proof. by destruct c as [[] [] [] [] [] [] [] []]. Qed.

Lemma toUpperCase_toLowerCase s :
  Js.toUpperCase (Js.toLowerCase s) = Js.toUpperCase s.
Proof.
  unfold Js.toLowerCase.
  induction s as [|c r IH]; [done|]. simpl. by rewrite IH, upper_lower_char.
Qed.

Lemma append_assoc (s t u : string) : (s +:+ t) +:+ u = s +:+ (t +:+ u).
Proof.
  induction s as [|c r IH]; [done|]. rewrite !append_cons. by rewrite IH.
Qed.

Lemma toUpperCase_app s t :
  Js.toUpperCase (s +:+ t) = Js.toUpperCase s +:+ Js.toUpperCase t.
Proof.
  induction s as [|c r IH]; [done|]. rewrite append_cons. simpl.
  by rewrite IH, append_assoc.
Qed.

Lemma map_string_app f s t :
  Js.map_string f (s +:+ t) = Js.map_string f s +:+ Js.map_string f t.
Proof.
  induction s as [|c r IH]; [done|]. rewrite append_cons. simpl.
  by rewrite IH, append_cons.
Qed.

(** A name that the importer takes for an archive is one that the route
    takes for an archive. *)
Lemma zip_ends_with n :
  Js.toLowerCase (Fs.extname n) = ".zip" →
  ends_with (Js.toUpperCase n) ".ZIP" = true.
Proof.
  intros H. destruct (extname_suffix n) as [pre Hn].
  remember (Fs.extname n) as ext eqn:Hext. clear Hext.
  unfold ends_with. apply bool_decide_eq_true.
  rewrite Hn, toUpperCase_app, L_app.
  rewrite <- (toUpperCase_toLowerCase ext), H. by eexists.
Qed.

(** *** The stored files *)

Lemma store_file_Ok dir stored file w stored' w' :
  store_file dir stored file w = Ok stored' w' →
  ∃ e,
    stored' = stored ++ [entry_name e] ∧ is_file e = true ∧
    Fs.writeFile dir e (fs w) = Some (fs w').
Proof.
  unfold store_file. case_bool_decide as Hext; [|done]. intros H.
  apply bind_Ok in H as (safe & w1 & Es & H).
  apply bind_Ok in H as ([] & w2 & Ew & H).
  unfold ret in H. injection H as <- <-.
  unfold sanitizeLegacyFilename in Es.
  case_bool_decide; [done|]. unfold ret in Es. injection Es as <- <-.
  unfold fs_op in Ew.
  destruct (Fs.writeFile dir _ (fs w)) as [es'|] eqn:E; [|done].
  simpl in Ew. injection Ew as <-.
  eexists. split; [|split; [|exact E]]; by destruct (buffer file).
Qed.

(** The session directory holds the stored files, and nothing else. *)
Lemma store_loop dir files stored w stored' w' ch :
  foldM (store_file dir) files stored w = Ok stored' w' →
  Fs.dir_at dir (fs w) = Some ch →
  Forall (fun x => is_file x = true) ch →
  (∀ n, n ∈ stored ↔ n ∈ map entry_name ch) →
  ∃ ch',
    Fs.dir_at dir (fs w') = Some ch' ∧
    Forall (fun x => is_file x = true) ch' ∧
    (∀ n, n ∈ stored' ↔ n ∈ map entry_name ch').
Proof.
  revert stored w ch.
  induction files as [|file files IH]; intros stored w ch H Hd Hf Hn.
  - injection H as <- <-. by exists ch.
  - cbn [foldM] in H. apply bind_Ok in H as (stored1 & w1 & E & H).
    apply store_file_Ok in E as (e & -> & He & Hw).
    apply (IH _ _ (Fs.put_entry e ch) H).
    + exact (writeFile_dir_at _ _ _ _ _ Hd Hw).
    + by apply put_entry_files.
    + intros n. rewrite elem_of_app, list_elem_of_singleton, put_entry_names.
      rewrite Hn. tauto.
Qed.

Lemma store_files_Ok dir files w stored w' :
  store_files dir files w = Ok stored w' →
  foldM (store_file dir) files [] w = Ok stored w'.
Proof.
  unfold store_files, try_catch.
  by destruct (foldM (store_file dir) files [] w).
Qed.

Lemma check_upload_Ok dir stored w w' :
  check_upload dir stored w = Ok tt w' →
  w' = w ∧ (hasArchive stored = false → missing stored = []).
Proof.
  unfold check_upload. destruct (hasArchive stored).
  - by intros [= ->].
  - destruct (missing stored); [by intros [= ->]|done].
Qed.

Lemma existsb_false {A} (f : A -> bool) l x :
  existsb f l = false → x ∈ l → f x = false.
Proof.
  induction l as [|y l IH]; simpl; intros H Hx; [by inversion Hx|].
  apply orb_false_iff in H as [Hy Hl].
  apply elem_of_cons in Hx as [->|Hx]; [done|by apply IH].
Qed.

(** X23. An upload that the route accepts without an archive in it has the
    five required files for the importer: the session directory holds
    the stored files and nothing else, it is read as it is, and the
    check of the required files of a run passes. *)
Theorem upload_without_archive_is_complete root session files w stored w' :
  Fs.dir_at (root ++ [session]) (fs w) = None →
  upload_files root session files w = Ok stored w' →
  hasArchive stored = false →
  ∃ m,
    prepareLegacyFiles (root ++ [session]) (fs w') = Some (m, fs w') ∧
    (∀ k p, m !! k = Some p →
            ∃ name, name ∈ stored ∧ p = root ++ [session; name]) ∧
    ∀ u, check_required m u = Ok tt u.
Proof.
  intros Hnew H Harch. unfold upload_files in H.
  apply bind_Ok in H as ([] & w0 & E0 & H).
  assert (w0 = w) as -> by (destruct files; [done|by injection E0]).
  apply bind_Ok in H as ([] & w1 & E1 & H).
  apply bind_Ok in H as ([] & w2 & E2 & H).
  apply bind_Ok in H as (stored0 & w3 & E3 & H).
  apply bind_Ok in H as ([] & w4 & E4 & H).
  unfold ret in H. injection H as Hs Hw. subst stored0 w4.
  apply check_upload_Ok in E4 as [Hw Hmiss]. subst w3.
  specialize (Hmiss Harch).
  apply store_files_Ok in E3.
  unfold fs_op in E1, E2.
  destruct (Fs.mkdir_p root (fs w)) as [es1|] eqn:M1; [|done].
  simpl in E1. injection E1 as <-. simpl in E2.
  destruct (Fs.mkdir_p (root ++ [session]) es1) as [es2|] eqn:M2; [|done].
  simpl in E2. injection E2 as <-.
  assert (Hd1 : Fs.dir_at (root ++ [session]) es1 = None).
  { rewrite (mkdir_p_dir_at _ _ _ [session] M1).
    rewrite dir_at_app in Hnew. by destruct (Fs.dir_at root (fs w)). }
  assert (Hd2 : Fs.dir_at (root ++ [session]) es2 = Some []).
  { pose proof (mkdir_p_dir_at _ _ _ [] M2) as Hd.
    by rewrite app_nil_r, Hd1 in Hd. }
  destruct (store_loop _ _ _ _ _ _ [] E3 Hd2) as (ch & Hch & Hfiles & Hnames);
    [done|done|].
  set (dir := root ++ [session]) in *.
  assert (Hread : readDirectoryRecursive dir (fs w')
                  = Some (map (fun e => dir ++ [entry_name e]) ch)).
  { unfold readDirectoryRecursive. rewrite Hch. simpl.
    by rewrite files_under_files. }
  assert (Hplain : Forall plain_file (map (fun e => dir ++ [entry_name e]) ch)).
  { apply Forall_forall. intros f Hf.
    apply list_elem_of_fmap in Hf as (e & -> & He).
    unfold plain_file, Fs.basename. rewrite last_last. intros Hzip.
    apply zip_ends_with in Hzip.
    assert (Hin : entry_name e ∈ stored).
    { apply Hnames, list_elem_of_fmap. by exists e. }
    pose proof (existsb_false _ _ _ Harch Hin) as Hno. simpl in Hno.
    congruence. }
  unfold prepareLegacyFiles. rewrite Hread. cbn [mbind option_bind].
  rewrite (prepare_files_plain _ _ _ _ Hplain).
  eexists. split; [reflexivity|]. split.
  - intros k p Hk. apply fold_insert_lookup in Hk as [Hk|Hk]; [|done].
    apply list_elem_of_fmap in Hk as (e & -> & He).
    exists (entry_name e). split.
    + apply Hnames, list_elem_of_fmap. by exists e.
    + unfold dir. by rewrite <- app_assoc.
  - intros u. unfold check_required. apply check_list_present.
    intros required Hreq. apply fold_insert_some. right.
    assert (Hup : required ∈ map Js.toUpperCase stored).
    { destruct (decide (required ∈ map Js.toUpperCase stored)) as [|Hno];
        [done|].
      assert (Hf : required ∈ missing stored)
        by (by apply list_elem_of_filter).
      rewrite Hmiss in Hf. by inversion Hf. }
    apply list_elem_of_fmap in Hup as (name & -> & Hname).
    apply Hnames, list_elem_of_fmap in Hname as (e & -> & He).
    exists (dir ++ [entry_name e]). split.
    + apply list_elem_of_fmap. by exists e.
    + unfold Fs.basename. by rewrite last_last.
Qed.

(** *** A refused upload *)

Lemma modify_dir_app create f a b es :
  Fs.modify_dir create f (a ++ b) es
  = Fs.modify_dir create (Fs.modify_dir create f b) a es.
Proof.
  revert es. induction a as [|d a IH]; intros es; [done|]. simpl.
  destruct (Fs.find_entry d es) as [[| | |n ch]|]; try done.
  - by rewrite IH.
  - destruct create; [|done]. by rewrite IH.
Qed.

(** The entries of a listing under the name [n]. *)
Lemma find_entry_none n es :
  Fs.find_entry n es = None ↔ n ∉ map entry_name es.
Proof.
  induction es as [|x es IH]; simpl.
  - split; [intros _; apply not_elem_of_nil|done].
  - rewrite not_elem_of_cons. case_bool_decide as Hx.
    + split; [done|]. by intros [Hn _].
    + rewrite IH. split; [by intros ?|by intros [_ ?]].
Qed.

Lemma remove_put_entry e es :
  entry_name e ∉ map entry_name es →
  Fs.remove_entry (entry_name e) (Fs.put_entry e es) = es.
Proof.
  induction es as [|x es IH]; simpl; intros Hn.
  - by rewrite bool_decide_true.
  - apply not_elem_of_cons in Hn as [Hx Hn].
    rewrite bool_decide_false by done. simpl.
    rewrite bool_decide_false by done. by rewrite IH.
Qed.

Lemma put_put_entry e e' es :
  entry_name e' = entry_name e →
  Fs.put_entry e' (Fs.put_entry e es) = Fs.put_entry e' es.
Proof.
  intros He. induction es as [|x es IH]; simpl.
  - by rewrite bool_decide_true.
  - case_bool_decide as Hx; simpl.
    + rewrite (bool_decide_true (entry_name e = entry_name e')) by done.
      by rewrite (bool_decide_true (entry_name x = entry_name e'))
        by congruence.
    + rewrite (bool_decide_false (entry_name x = entry_name e'))
        by congruence.
      by rewrite IH.
Qed.

(** What the directory above the session directory holds while the
    files are stored: what it held before, and the session directory. *)
Lemma writeFile_above root session e es es' rest ch :
  Fs.dir_at root es = Some (Fs.put_entry (EDir session ch) rest) →
  Fs.writeFile (root ++ [session]) e es = Some es' →
  ∃ ch', Fs.dir_at root es' = Some (Fs.put_entry (EDir session ch') rest).
Proof.
  intros Hd H. unfold Fs.writeFile in H. rewrite modify_dir_app in H.
  apply modify_dir_at in H as (c & c' & Hc & Hf & Hc').
  rewrite Hd in Hc. injection Hc as <-. simpl in Hf.
  rewrite (find_put_entry (EDir session ch)) in Hf.
  destruct (Fs.put_file e ch) as [ch'|]; [|done]. simpl in Hf.
  injection Hf as <-. exists ch'. rewrite Hc'. f_equal.
  by apply put_put_entry.
Qed.

Lemma store_loop_above root session files stored w rest ch :
  Fs.dir_at root (fs w) = Some (Fs.put_entry (EDir session ch) rest) →
  match foldM (store_file (root ++ [session])) files stored w with
  | Ok _ w' | Throw _ w' =>
      ∃ ch', Fs.dir_at root (fs w')
             = Some (Fs.put_entry (EDir session ch') rest)
  end.
Proof.
  revert stored w ch.
  induction files as [|file files IH]; intros stored w ch Hd.
  - by exists ch.
  - cbn [foldM]. unfold bind at 1.
    destruct (store_file (root ++ [session]) stored file w)
      as [stored1 w1|msg w1] eqn:E.
    + apply store_file_Ok in E as (e & _ & _ & Hw).
      destruct (writeFile_above _ _ _ _ _ _ _ Hd Hw) as [ch1 Hd1].
      by apply (IH _ _ ch1).
    + exists ch. replace (fs w1) with (fs w); [done|].
      unfold store_file in E. case_bool_decide; [|by injection E as _ <-].
      unfold bind at 1 in E. unfold sanitizeLegacyFilename in E.
      case_bool_decide; [by injection E as _ <-|]. unfold ret at 1 in E.
      unfold bind at 1, fs_op in E.
      destruct (Fs.writeFile _ _ (fs w)); [done|]. by injection E as _ <-.
Qed.

Lemma remove_tree_gone root session w rest ch :
  Fs.dir_at root (fs w) = Some (Fs.put_entry (EDir session ch) rest) →
  session ∉ map entry_name rest →
  Fs.dir_at (root ++ [session]) (fs (final (remove_tree (root ++ [session]) w)))
  = None.
Proof.
  intros Hd Hn. unfold remove_tree, modify. simpl.
  unfold Fs.dirname, Fs.basename. rewrite removelast_last, last_last.
  destruct (Fs.modify_dir false _ root (fs w)) as [es'|] eqn:E; simpl.
  - apply modify_dir_at in E as (c & c' & Hc & Hf & Hc').
    rewrite Hd in Hc. injection Hc as <-. injection Hf as <-.
    rewrite dir_at_app, Hc'. simpl.
    rewrite (remove_put_entry (EDir session ch)) by done.
    by apply find_entry_none in Hn as ->.
  - exfalso. clear Hn. revert E Hd. generalize (fs w). clear.
    generalize (Fs.put_entry (EDir session ch) rest).
    induction root as [|d root IH]; intros l es E Hd; simpl in *; [done|].
    destruct (Fs.find_entry d es) as [[| | |n c]|]; try done.
    destruct (Fs.modify_dir false _ root c) eqn:E1; [done|].
    exact (IH _ _ E1 Hd).
Qed.

Lemma modify_dir_there create f dir es es' ch :
  Fs.dir_at dir es = Some ch →
  Fs.modify_dir create f dir es = Some es' →
  ∃ ch', f ch = Some ch' ∧ Fs.dir_at dir es' = Some ch'.
Proof.
  revert es es'. induction dir as [|d dir IH]; intros es es' Hd H; simpl in *.
  - injection Hd as <-. by exists es'.
  - destruct (Fs.find_entry d es) as [[| | |n c]|] eqn:E; try done.
    destruct (Fs.modify_dir create f dir c) as [c1|] eqn:E1; [|done].
    simpl in H. injection H as <-.
    destruct (IH _ _ Hd E1) as (ch' & Hf & Hc'). exists ch'.
    split; [done|]. by rewrite (find_put_entry (EDir d c1)).
Qed.

(** X24. An upload that is refused leaves no session directory behind. *)
Theorem refused_upload_leaves_nothing root session files w msg w' :
  Fs.dir_at (root ++ [session]) (fs w) = None →
  upload_files root session files w = Throw msg w' →
  Fs.dir_at (root ++ [session]) (fs w') = None.
Proof.
  intros Hnew H. unfold upload_files in H.
  apply bind_Throw in H as [H|([] & w0 & E0 & H)].
  { destruct files; [by injection H as _ <-|done]. }
  assert (w0 = w) as -> by (destruct files; [done|by injection E0]).
  unfold fs_op at 1 in H. unfold bind at 1 in H.
  destruct (Fs.mkdir_p root (fs w)) as [es1|] eqn:M1; simpl in H;
    [|by injection H as _ <-].
  assert (Hd1 : Fs.dir_at (root ++ [session]) es1 = None).
  { rewrite (mkdir_p_dir_at _ _ _ [session] M1).
    rewrite dir_at_app in Hnew. by destruct (Fs.dir_at root (fs w)). }
  unfold fs_op at 1 in H. unfold bind at 1 in H. simpl in H.
  destruct (Fs.mkdir_p (root ++ [session]) es1) as [es2|] eqn:M2; simpl in H;
    [|by injection H as _ <-].
  pose proof (mkdir_p_dir_at _ _ _ [] M1) as Hr1. rewrite app_nil_r in Hr1.
  set (above := match Fs.dir_at root (fs w) with
                | Some ch => ch
                | None => []
                end).
  assert (Hr1' : Fs.dir_at root es1 = Some above)
    by (rewrite Hr1; unfold above; by destruct (Fs.dir_at root (fs w))).
  unfold Fs.mkdir_p in M2. rewrite modify_dir_app in M2.
  destruct (modify_dir_there _ _ _ _ _ _ Hr1' M2) as (ch2 & Hf & Hr2).
  assert (Hfresh : (session ∉ map entry_name above) ∧
                   ch2 = Fs.put_entry (EDir session []) above).
  { rewrite dir_at_app, Hr1' in Hd1. simpl in Hd1, Hf.
    destruct (Fs.find_entry session above) as [[| | |n c]|] eqn:E; try done.
    simpl in Hf. injection Hf as <-. split; [|done].
    by apply find_entry_none. }
  destruct Hfresh as [Hfresh ->].
  set (wa := set_fs es2 _) in H.
  assert (Ha : Fs.dir_at root (fs wa)
               = Some (Fs.put_entry (EDir session []) above)) by exact Hr2.
  clearbody wa.
  apply bind_Throw in H as [H|(stored & w3 & E3 & H)].
  - unfold store_files, try_catch in H.
    pose proof (store_loop_above root session files [] wa above [] Ha) as Hl.
    destruct (foldM _ files [] wa) as [s1 w1|msg1 w1]; [done|].
    destruct Hl as [ch' Hl].
    apply bind_Throw in H as [H|([] & w2 & E2 & H)]; [done|].
    injection H as _ <-.
    replace w2 with (final (remove_tree (root ++ [session]) w1))
      by (by injection E2).
    by apply (remove_tree_gone _ _ _ above ch').
  - apply store_files_Ok in E3.
    pose proof (store_loop_above root session files [] wa above [] Ha) as Hl.
    rewrite E3 in Hl. destruct Hl as [ch' Hl].
    apply bind_Throw in H as [H|([] & w4 & _ & H)]; [|done].
    unfold check_upload in H. destruct (hasArchive stored); [done|].
    destruct (missing stored); [done|].
    apply bind_Throw in H as [H|([] & w2 & E2 & H)]; [done|].
    injection H as _ <-.
    replace w2 with (final (remove_tree (root ++ [session]) w3))
      by (by injection E2).
    by apply (remove_tree_gone _ _ _ above ch').
Qed.

(** Five loose files uploaded for a new session s9 are accepted and
    pass the check of the importer; two of them alone are refused. *)
Lemma upload_without_archive_is_complete_witness :
  Fs.dir_at (["imports"] ++ ["s9"]) (fs Sample.world) = None ∧
  hasArchive (answer [] Sample.accepted_upload) = false ∧
  ∃ m,
    prepareLegacyFiles (["imports"] ++ ["s9"])
      (fs (final Sample.accepted_upload))
    = Some (m, fs (final Sample.accepted_upload)) ∧
    (∀ k p, m !! k = Some p →
            ∃ name, name ∈ answer [] Sample.accepted_upload ∧
                    p = ["imports"] ++ ["s9"; name]) ∧
    ∀ u, check_required m u = Ok tt u.
Proof.
  assert (Hnew : Fs.dir_at (["imports"] ++ ["s9"]) (fs Sample.world) = None)
    by by_computation.
  assert (E : Sample.accepted_upload
              = Ok (answer [] Sample.accepted_upload)
                  (final Sample.accepted_upload))
    by (apply returned_Ok; by_computation).
  assert (Ha : hasArchive (answer [] Sample.accepted_upload) = false)
    by by_computation.
  split; [exact Hnew|]. split; [exact Ha|].
  exact (upload_without_archive_is_complete ["imports"] "s9" _ _ _ _
           Hnew E Ha).
Defined.

Lemma refused_upload_leaves_nothing_witness :
  Fs.dir_at (["imports"] ++ ["s9"]) (fs Sample.world) = None ∧
  returned Sample.refused_upload = false ∧
  Fs.dir_at (["imports"] ++ ["s9"]) (fs (final Sample.refused_upload)) = None.
Proof.
  assert (Hnew : Fs.dir_at (["imports"] ++ ["s9"]) (fs Sample.world) = None)
    by by_computation.
  assert (Hr : returned Sample.refused_upload = false) by by_computation.
  destruct (returned_Throw Sample.refused_upload Hr) as [msg E].
  split; [exact Hnew|]. split; [exact Hr|].
  exact (refused_upload_leaves_nothing ["imports"] "s9" _ _ _ _ Hnew E).
Defined.

(** ** Sale items and their sales *)

Section Items.

Context (P : Platform).

Lemma insert_sale_item_row s p item w w' :
  insert_sale_item P s p item w = Ok tt w' →
  ∃ r, si_sale_id r = Some s ∧ si_product_id r = Some p ∧
       sale_item (core w') = sale_item (core w) ++ [r] ∧
       sale (core w') = sale (core w) ∧ product (core w') = product (core w).
Proof.
  unfold insert_sale_item. intros H.
  apply bind_Ok in H as ([] & w1 & E1 & H).
  apply bind_Ok in H as (q & w2 & E2 & H).
  apply bind_Ok in H as (u & w3 & E3 & H).
  apply bind_Ok in H as (l & w4 & E4 & H).
  apply bind_Ok in H as (i & w5 & E5 & H).
  cbv [query modify] in E1. injection E1 as <-.
  apply expect_Ok in E2 as [_ ->]. apply expect_Ok in E3 as [_ ->].
  apply expect_Ok in E4 as [_ ->].
  cbv [fresh_uuid] in E5. injection E5 as <- <-.
  cbv [update_core modify] in H. injection H as <-.
  eexists. by repeat split.
Qed.

Lemma migrate_items_rows k (m : gmap string uuid) saleId key items acc w acc' w' :
  foldM (migrate_item P k m saleId key) items acc w = Ok acc' w' →
  ∃ rows,
    sale_item (core w') = sale_item (core w) ++ rows ∧
    Forall (fun r => si_sale_id r = Some saleId ∧
                     ∃ code p, m !! code = Some p ∧ si_product_id r = Some p)
      rows ∧
    sale (core w') = sale (core w) ∧ product (core w') = product (core w).
Proof.
  revert acc w. induction items as [|item items IH]; intros acc w; cbn [foldM].
  - intros [= <- <-]. exists []. by rewrite app_nil_r.
  - intros H. apply bind_Ok in H as (acc1 & w1 & E & H).
    apply IH in H as (rows & Hrows & Hall & Hs & Hp).
    unfold migrate_item in E.
    destruct (m !! cod item) as [p|] eqn:Hm.
    + apply bind_Ok in E as ([] & w1' & E & R). injection R as <- <-.
      apply insert_sale_item_row in E as (r & Hr & Hrp & E & Es & Ep).
      exists (r :: rows). rewrite Hrows, E, <- app_assoc.
      split; [done|]. split; [|by rewrite Hs, Hp].
      constructor; [|done]. split; [done|]. by exists (cod item), p.
    + injection E as <- <-. by exists rows.
Qed.

Lemma upsert_sale_tables k v w i w' :
  upsert_sale k v w = Ok i w' →
  sale_item (core w') = sale_item (core w) ∧
  product (core w') = product (core w) ∧
  (∀ s, s ∈ sale (core w) → ∃ s', s' ∈ sale (core w') ∧ sa_id s' = sa_id s) ∧
  ∃ r, r ∈ sale (core w') ∧ sa_id r = i.
Proof.
  cbv [upsert_sale bind query modify expect ret throw].
  destruct v as [v0|]; [|done]. cbv beta iota.
  destruct (List.find _ _) as [r0|] eqn:Ef; intros [= <- <-]; cbn.
  - split; [done|]. split; [done|]. split.
    + intros s Hs. eexists. split; [apply list_elem_of_fmap; by exists s|].
      by destruct (is_sale k (sv_key v0) s).
    + apply find_some in Ef as [Hin Hr0]. apply list_elem_of_In in Hin.
      exists (merge_sale k v0 r0). split; [|done].
      apply list_elem_of_fmap. exists r0. split; [|done].
      cbn in Hr0. by rewrite Hr0.
  - split; [done|]. split; [done|]. split.
    + intros s Hs. exists s. split; [|done]. apply elem_of_app. by left.
    + exists (new_sale k (next_uuid w) v0). split; [|done].
      apply elem_of_app. right. left.
Qed.

Lemma delete_sale_items_tables i w w' :
  delete_sale_items i w = Ok tt w' →
  sale_item (core w')
  = filter (fun r => si_sale_id r ≠ Some i) (sale_item (core w)) ∧
  sale (core w') = sale (core w) ∧ product (core w') = product (core w).
Proof.
  cbv [delete_sale_items bind query modify update_core].
  by intros [= <-].
Qed.

Lemma migrate_row_kept k maps acc row w0 u acc' u' :
  migrate_row P k maps acc row u = Ok acc' u' →
  items_kept (productMap maps) w0 u → items_kept (productMap maps) w0 u'.
Proof.
  unfold migrate_row. destruct (source_key P row) as [key|];
    [|by intros [= <- <-]].
  intros H (Hp & Hr & Hn).
  apply bind_Ok in H as (saleId & u1 & E1 & H).
  apply bind_Ok in H as ([] & u2 & E2 & H).
  apply bind_Ok in H as (acc1 & u3 & E3 & H).
  injection H as <- <-.
  apply upsert_sale_tables in E1 as (Hi1 & Hp1 & Hs1 & r & Hrin & Hrid).
  apply delete_sale_items_tables in E2 as (Hi2 & Hs2 & Hp2).
  apply migrate_items_rows in E3 as (rows & Hi3 & Hrows & Hs3 & Hp3).
  split; [congruence|]. unfold items_refer in *.
  rewrite Hi3, Hs3, Hi2, Hs2, Hi1. split.
  - apply Forall_app. split.
    + apply Forall_forall. intros x Hx.
      apply list_elem_of_filter in Hx as [_ Hx].
      rewrite Forall_forall in Hr.
      destruct (Hr x Hx) as (s & Hs & Hxs).
      destruct (Hs1 s Hs) as (s' & Hs' & Hid). exists s'.
      split; [done|]. by rewrite Hid.
    + eapply Forall_impl; [exact Hrows|]. intros x [Hx _].
      exists r. split; [done|]. by rewrite Hrid.
  - apply Forall_app. split.
    + apply Forall_forall. intros x Hx.
      apply list_elem_of_filter in Hx as [_ Hx].
      rewrite Forall_forall in Hn. by apply Hn.
    + eapply Forall_impl; [exact Hrows|]. intros x [_ Hx]. by right.
Qed.

Lemma migrate_rows_kept k maps rows w0 acc u acc' u' :
  foldM (migrate_row P k maps) rows acc u = Ok acc' u' →
  items_kept (productMap maps) w0 u → items_kept (productMap maps) w0 u'.
Proof.
  revert acc u. induction rows as [|row rows IH]; intros acc u; cbn [foldM].
  - by intros [= <- <-].
  - intros H Hk. apply bind_Ok in H as (acc1 & u1 & E & H).
    eapply IH; [exact H|]. by eapply migrate_row_kept.
Qed.

(** The delete of an overwrite takes the items of the sales it deletes
    with them. *)
Lemma delete_migrated_sales_kept w w0 :
  delete_migrated_sales w = Ok tt w0 →
  items_refer w →
  items_refer w0 ∧ product (core w0) = product (core w) ∧
  sale_item (core w0) ⊆ sale_item (core w).
Proof.
  cbv [delete_migrated_sales bind query modify update_core].
  intros [= <-] Hr. cbn. split; [|split; [done|]].
  - unfold items_refer in *. cbn. apply Forall_forall. intros x Hx.
    apply list_elem_of_filter in Hx as [Hgone Hx].
    rewrite Forall_forall in Hr. destruct (Hr x Hx) as (s & Hs & Hxs).
    exists s. split; [|done]. apply list_elem_of_filter. split; [|done].
    apply not_true_is_false. intros Hm.
    unfold item_of in Hgone. rewrite Hxs in Hgone.
    apply bool_decide_eq_false in Hgone. apply Hgone.
    apply list_elem_of_fmap. exists s. split; [done|].
    by apply list_elem_of_filter.
  - intros x Hx. by apply list_elem_of_filter in Hx as [_ Hx].
Qed.

(** X25. The sales stage keeps the sale items sound: if every item belonged
    to a sale before, every item belongs to a sale afterwards, and every
    item that was not there before refers to a product that exists.
    The product table is not written. *)
Theorem migrateSales_items_refer ov w ss w' :
  migrateSales P ov w = Ok ss w' →
  items_refer w →
  items_refer w' ∧
  Forall (fun r => r ∈ sale_item (core w) ∨
                   refers_to pr_id (product (core w')) (si_product_id r))
    (sale_item (core w')) ∧
  product (core w') = product (core w).
Proof.
  unfold migrateSales. intros H Hr.
  apply bind_Ok in H as ([] & w0 & E0 & H).
  assert (H0 : items_refer w0 ∧ product (core w0) = product (core w) ∧
               sale_item (core w0) ⊆ sale_item (core w)).
  { destruct ov; [by apply delete_migrated_sales_kept|].
    by injection E0 as <-. }
  destruct H0 as (Hr0 & Hp0 & Hsub).
  apply bind_Ok in H as (sellers & a1 & B1 & H).
  apply bind_Ok in H as (customers & a2 & B2 & H).
  apply bind_Ok in H as (terms & a3 & B3 & H).
  apply bind_Ok in H as (products & a4 & B4 & H).
  apply bind_Ok in H as (sales & a5 & S1 & H).
  apply bind_Ok in H as (acc & a6 & F1 & H).
  apply bind_Ok in H as (orders & a7 & S2 & H).
  apply buildLegacyMap_Ok in B1 as (_ & _ & _ & C1 & _).
  apply buildLegacyMap_Ok in B2 as (_ & _ & _ & C2 & _).
  apply buildLegacyMap_Ok in B3 as (_ & _ & _ & C3 & _).
  apply buildLegacyMap_Ok in B4 as (coded_rows & Hl & Hm & C4 & _).
  apply select_staging_rows in S1 as [_ C5].
  apply select_staging_rows in S2 as [_ C7].
  assert (Ca5 : core a5 = core w0) by congruence.
  assert (Hk5 : items_kept products a5 a5).
  { split; [done|]. unfold items_refer. rewrite Ca5. split; [exact Hr0|].
    apply Forall_forall. intros x Hx. by left. }
  pose proof (migrate_rows_kept _ _ _ a5 _ _ _ _ F1 Hk5) as Hk6.
  assert (Hk7 : items_kept products a5 a7).
  { unfold items_kept, items_refer in *. by rewrite C7. }
  pose proof (migrate_rows_kept _ _ _ a5 _ _ _ _ H Hk7) as (Hp & Hrefer & Hnew).
  rewrite Ca5 in Hp, Hnew.
  split; [exact Hrefer|]. split; [|congruence].
  eapply Forall_impl; [exact Hnew|]. intros x [Hx|(code & p & Hcode & Hx)].
  - left. by apply Hsub.
  - right. rewrite Hm in Hcode.
    apply legacy_map_sound in Hcode as (c & Hin & _ & _).
    assert (Hrows : coded_rows
                    = coded pr_legacy_code pr_id (product (core w0))).
    { change (legacy_codes "product" (core a3)) with
        (Some (coded pr_legacy_code pr_id (product (core a3)))) in Hl.
      injection Hl as <-. congruence. }
    rewrite Hrows in Hin.
    apply coded_elem in Hin as (pr & Hpr & _ & <-).
    exists pr. split; [|done]. by rewrite Hp.
Qed.

End Items.

Lemma items_refer_check w :
  forallb (fun r => match si_sale_id r with
                    | Some i => bool_decide (i ∈ map sa_id (sale (core w)))
                    | None => false
                    end) (sale_item (core w)) = true →
  items_refer w.
Proof.
  intros H. apply Forall_forall. intros r Hr.
  rewrite forallb_forall in H. apply list_elem_of_In in Hr.
  specialize (H r Hr). destruct (si_sale_id r) as [i|]; [|done].
  apply bool_decide_eq_true in H.
  apply list_elem_of_fmap in H as (s & -> & Hs). by exists s.
Qed.

(** The sales staged by the first import of the sample, migrated once
    more over the sales and items that import made. *)
Lemma migrateSales_items_refer_witness :
  items_refer Sample.after_first ∧
  ∃ ss w',
    Sample.sold_again = Ok ss w' ∧
    items_refer w' ∧
    Forall (fun r => r ∈ sale_item (core Sample.after_first) ∨
                     refers_to pr_id (product (core w')) (si_product_id r))
      (sale_item (core w')) ∧
    product (core w') = product (core Sample.after_first).
Proof.
  assert (Hr : items_refer Sample.after_first)
    by (apply items_refer_check; by_computation).
  assert (E : Sample.sold_again
              = Ok (answer empty_summary Sample.sold_again)
                  (final Sample.sold_again))
    by (apply returned_Ok; by_computation).
  split; [exact Hr|]. eexists _, _. split; [exact E|].
  exact (migrateSales_items_refer Sample.platform _ _ _ _ E Hr).
Defined.

(** ** The staging tables after a run *)

Lemma staging_rows_same t w w' :
  staging w' !! t = staging w !! t → staging_rows t w' = staging_rows t w.
Proof. unfold staging_rows. by intros ->. Qed.

Lemma truncate_all (l : list StagingConfig) w :
  ∃ w',
    forM (fun config =>
            query (STruncate (table config)) >>
            modify (set_staging_rows (table config) [])) l w = Ok tt w' ∧
    fs w' = fs w ∧
    ∀ t, staging_rows t w = [] ∨ t ∈ map table l → staging_rows t w' = [].
Proof.
  revert w. induction l as [|c l IH]; intros w.
  - exists w. split; [done|]. split; [done|]. intros t [H|H]; [done|].
    by inversion H.
  - unfold forM. cbn [foldM].
    set (w1 := set_staging_rows (table c) []
                 (set_trace (trace w ++ [STruncate (table c)]) w)).
    rewrite (bind_run (query _ >> modify _) _ w tt w1 eq_refl).
    destruct (IH w1) as (w' & E & Hfs & Hrows). exists w'.
    split; [exact E|]. split; [by rewrite Hfs|].
    intros t Ht. apply Hrows.
    destruct (decide (t = table c)) as [->|Hne].
    + left. unfold w1. by rewrite staging_rows_set.
    + destruct Ht as [Ht|Ht].
      * left. unfold w1. erewrite staging_rows_same; [exact Ht|].
        by rewrite staging_other_set.
      * right. simpl in Ht. by apply elem_of_cons in Ht as [?|?].
Qed.

Section Staging.

Context (P : Platform).

(** One source: its table is filled from its file, or left empty. *)
Lemma loadDbfIntoStaging_staged importId config files w n w' :
  loadDbfIntoStaging P importId config files w = Ok n w' →
  staging_rows (table config) w = [] →
  staged_from P config files (fs w) (staging_rows (table config) w') ∧
  (∀ t, t ≠ table config → staging w' !! t = staging w !! t) ∧
  fs w' = fs w.
Proof.
  intros H Hempty.
  assert (Hfs : fs w' = fs w).
  { exact (preserves_Ok fs _ _ _ _
             (loadDbfIntoStaging_frame P fs ltac:(unseen) ltac:(unseen)
                ltac:(unseen) _ _ _) H). }
  unfold staged_from. unfold loadDbfIntoStaging in H.
  destruct (files !! file config) as [[|d rest]|] eqn:Hf.
  - apply bind_Ok in H as ([] & w1 & E & H). injection H as _ <-.
    assert (Hs : staging w1 = staging w).
    { exact (preserves_Ok staging _ _ _ _
               (appendLog_frame staging ltac:(unseen) ltac:(unseen) _ _ _) E). }
    split; [|split; [by rewrite Hs|done]].
    unfold staging_rows in *. by rewrite Hs.
  - apply bind_Ok in H as ([] & w1 & E1 & H).
    apply bind_Ok in H as (es & w2 & E2 & H).
    apply bind_Ok in H as (records & w3 & E3 & H).
    injection E2 as <- <-. apply expect_Ok in E3 as [Ho ->].
    assert (Hw1 : w1 = set_staging_rows (table config) []
                         (set_trace
                            (trace w ++ [SCreateTable (table config);
                                         STruncate (table config)]) w)).
    { unfold ensureStagingTable, bind, query, modify in E1. cbn in E1.
      rewrite <- app_assoc in E1. by injection E1 as <-. }
    destruct (load_batches_all P (S (length records)) config records 0 w1)
      as (w'' & E & R & O & _); [lia|].
    rewrite E in H. injection H as _ <-.
    split; [|split; [|done]].
    + exists records. split; [by rewrite Hw1 in Ho|].
      rewrite R, Hw1. by rewrite staging_rows_set.
    + intros t Ht. rewrite (O t Ht), Hw1. by rewrite staging_other_set.
  - apply bind_Ok in H as ([] & w1 & E & H). injection H as _ <-.
    assert (Hs : staging w1 = staging w).
    { exact (preserves_Ok staging _ _ _ _
               (appendLog_frame staging ltac:(unseen) ltac:(unseen) _ _ _) E). }
    split; [|split; [by rewrite Hs|done]].
    unfold staging_rows in *. by rewrite Hs.
Qed.

(** The loop over the sources. *)
Lemma load_all_staged importId files (l : list StagingConfig) acc w acc' w' :
  foldM (fun (acc : gmap string nat) config =>
           appendLog importId info
             ("Loading " +:+ file config +:+ " into staging table "
                +:+ table config) >>
           let* count := loadDbfIntoStaging P importId config files in
           ret (<[table config := count]> acc)) l acc w = Ok acc' w' →
  NoDup (map table l) →
  (∀ c, c ∈ l → staging_rows (table c) w = []) →
  fs w' = fs w ∧
  (∀ c, c ∈ l →
        staged_from P c files (fs w) (staging_rows (table c) w')) ∧
  (∀ t, t ∉ map table l → staging w' !! t = staging w !! t).
Proof.
  revert acc w. induction l as [|c l IH]; intros acc w H Hnd Hempty.
  - injection H as _ <-. split; [done|]. split; [|done].
    intros c Hc. by inversion Hc.
  - cbn [foldM] in H. apply bind_Ok in H as (acc1 & w1 & E & H).
    apply bind_Ok in E as ([] & wa & Ea & E).
    apply bind_Ok in E as (count & wb & Eb & E). injection E as <- <-.
    assert (Hsa : staging wa = staging w).
    { exact (preserves_Ok staging _ _ _ _
               (appendLog_frame staging ltac:(unseen) ltac:(unseen) _ _ _)
               Ea). }
    assert (Hfa : fs wa = fs w).
    { exact (preserves_Ok fs _ _ _ _
               (appendLog_frame fs ltac:(unseen) ltac:(unseen) _ _ _) Ea). }
    simpl in Hnd. apply NoDup_cons in Hnd as [Hc Hnd].
    apply loadDbfIntoStaging_staged in Eb as (Hst & Hother & Hfb).
    2:{ unfold staging_rows. rewrite Hsa. apply Hempty. left. }
    destruct (IH _ _ H Hnd) as (Hfs & Hrows & Hrest).
    { intros c' Hc'. erewrite staging_rows_same.
      - apply Hempty. by right.
      - rewrite Hother, Hsa; [done|]. intros Heq. apply Hc. rewrite <- Heq.
        apply list_elem_of_fmap. by exists c'. }
    split; [congruence|]. split.
    + intros c' Hc'. apply elem_of_cons in Hc' as [->|Hc'].
      * rewrite (staging_rows_same _ wb _ (Hrest _ Hc)).
        by rewrite <- Hfa.
      * rewrite <- Hfa, <- Hfb. by apply Hrows.
    + intros t Ht. simpl in Ht. apply not_elem_of_cons in Ht as [Hne Ht].
      by rewrite (Hrest t Ht), (Hother t Hne), Hsa.
Qed.

Ltac keeps view :=
  lazymatch goal with
  | |- preserves _ (appendLog _ _ _) => apply appendLog_frame; unseen
  | |- preserves _ (migrateMasterData _ _) =>
      apply migrateMasterData_frame; unseen
  | |- preserves _ (migrateSales _ _) => apply migrateSales_frame; unseen
  | |- preserves _ (migrateCustomerPayments _) =>
      apply migrateCustomerPayments_frame; unseen
  | |- preserves _ (migrateStockMovements _) =>
      apply migrateStockMovements_frame; unseen
  | |- preserves _ (createReconciliationReport _ _ _ _ _) =>
      apply createReconciliationReport_frame; unseen
  | |- preserves _ now => apply now_frame; unseen
  | |- preserves _ (updateImportStatus _ _ _) =>
      apply updateImportStatus_frame; unseen
  | |- preserves _ (check_required _) => apply check_required_frame
  | |- preserves _ ensureSchema => apply ensureSchema_frame; unseen
  end.

Ltac kept view E :=
  lazymatch type of E with
  | ?m ?u = Ok ?a ?v =>
      rewrite (preserves_Ok view m u a v ltac:(keeps view) E)
  end.

(** X26. After a run that returns, every staging table holds the rows of
    the file that the file map of the run names for its source, one per
    record in the order of the file, and is empty when the map names
    none: no row staged by an earlier run is left.  The files the map
    names lie below the session directory of the job, unless an archive
    found there has a name whose stem is [..] (as [...zip]), which is
    unpacked into the directory above. *)
Theorem runImport_staging job w w' :
  runImport P job w = Ok tt w' →
  ∃ filesMap es files,
    readDirectoryRecursive (sessionDir job) (fs w) = Some files ∧
    prepareLegacyFiles (sessionDir job) (fs w) = Some (filesMap, es) ∧
    (∀ config, config ∈ STAGING_CONFIG →
       staged_from P config filesMap es (staging_rows (table config) w')) ∧
    ((∀ file, file ∈ files →
              Js.toLowerCase (Fs.extname (Fs.basename file)) = ".zip" →
              Fs.stem (Fs.basename file) ≠ "..") →
     ∀ k p, filesMap !! k = Some p → sessionDir job `prefix_of` p).
Proof.
  intros H. unfold runImport in H.
  apply bind_Ok in H as (t & wa & E1 & H).
  apply bind_Ok in H as ([] & wb & E2 & H).
  apply bind_Ok in H as ([] & wc & E3 & H).
  apply bind_Ok in H as (filesMap & wd & E4 & H).
  apply bind_Ok in H as ([] & we & E5 & H).
  apply bind_Ok in H as ([] & wf & E6 & H).
  apply bind_Ok in H as ([] & wg & E7 & H).
  apply bind_Ok in H as ([] & wh & E8 & H).
  apply bind_Ok in H as (stagingSummary & wi & E9 & H).
  apply bind_Ok in H as ([] & w1 & E10 & H).
  apply bind_Ok in H as (ms & w1' & E11 & H).
  apply bind_Ok in H as ([] & w2 & E12 & H).
  apply bind_Ok in H as (ss & w2' & E13 & H).
  apply bind_Ok in H as ([] & w3 & E14 & H).
  apply bind_Ok in H as (pc & w3' & E15 & H).
  apply bind_Ok in H as ([] & w4 & E16 & H).
  apply bind_Ok in H as (sc & w4' & E17 & H).
  apply bind_Ok in H as ([] & wj & E18 & H).
  apply bind_Ok in H as (reportPath & wk & E19 & H).
  cbv zeta in H.
  apply bind_Ok in H as (t' & wl & E20 & H).
  apply bind_Ok in H as ([] & wm & E21 & H).
  assert (Hfc : fs wc = fs w).
  { kept fs E3.
    kept fs E2.
    by kept fs E1. }
  unfold fs_steps in E4. rewrite Hfc in E4.
  destruct (prepareLegacyFiles (sessionDir job) (fs w)) as [[m es]|] eqn:Ep;
    [|done].
  injection E4 as <- <-.
  destruct (prepareLegacyFiles_Some _ _ _ _ Ep) as (files & Hread & Hprep).
  exists m, es, files. split; [done|]. split; [done|].
  split; [|intros Hstem; eapply prepare_files_below;
           [exact Hprep
           |exact (readDirectoryRecursive_below _ _ _ Hread)|exact Hstem
           |by intros k p]].
  assert (Hfg : fs wg = es).
  { assert (Hf : fs wf = es).
    { kept fs E6.
      by kept fs E5. }
    destruct (overwrite job).
    - apply bind_Ok in E7 as ([] & wg' & E7a & E7).
      rewrite truncateCoreTables_Ok in E7. injection E7 as <-. simpl.
      by kept fs E7a.
    - by injection E7 as <-. }
  destruct (truncate_all STAGING_CONFIG wg) as (wh' & E8' & Hfh & Hempty).
  unfold truncateStagingTables in E8. rewrite E8' in E8.
  injection E8 as <-.
  unfold load_all in E9.
  apply load_all_staged in E9 as (_ & Hrows & _).
  2:{ apply (bool_decide_eq_true_1 _). by_computation. }
  2:{ intros c Hc. apply Hempty. right. apply list_elem_of_fmap. by exists c. }
  assert (Hs : staging w' = staging wi).
  { kept staging H.
    kept staging E21.
    kept staging E20.
    kept staging E19.
    kept staging E18.
    kept staging E17.
    kept staging E16.
    kept staging E15.
    kept staging E14.
    kept staging E13.
    kept staging E12.
    kept staging E11.
    by kept staging E10. }
  intros config Hc. unfold staging_rows. rewrite Hs.
  rewrite <- Hfg, <- Hfh. by apply Hrows.
Qed.

End Staging.

(** The staging tables after the import of session s1, whose archive
    extra.zip is unpacked below the session directory; and the file map
    of a session with an archive stored as [...zip], which names a file
    of the session beside it. *)
Lemma runImport_staging_witness :
  Sample.complete_run = Ok tt Sample.after_first ∧
  (∃ filesMap es files,
     readDirectoryRecursive (sessionDir (Sample.job 1 "s1" false))
       (fs Sample.world) = Some files ∧
     prepareLegacyFiles (sessionDir (Sample.job 1 "s1" false))
       (fs Sample.world) = Some (filesMap, es) ∧
     (∀ config, config ∈ STAGING_CONFIG →
        staged_from Sample.platform config filesMap es
          (staging_rows (table config) Sample.after_first)) ∧
     ((∀ file, file ∈ files →
               Js.toLowerCase (Fs.extname (Fs.basename file)) = ".zip" →
               Fs.stem (Fs.basename file) ≠ "..") →
      ∀ k p, filesMap !! k = Some p →
             sessionDir (Sample.job 1 "s1" false) `prefix_of` p)) ∧
  fst <$> prepareLegacyFiles ["imports"; "s2"] Sample.dotted_upload
  = Some {[ "GRUPO.DBF" := ["imports"; "s1"; "GRUPO.DBF"];
            "VENDAS.DBF" := ["imports"; "VENDAS.DBF"] ]}.
Proof.
  assert (E : Sample.complete_run = Ok tt Sample.after_first)
    by (apply returned_final; by_computation).
  split; [exact E|]. split.
  - exact (runImport_staging Sample.platform _ _ _ E).
  - vm_compute. reflexivity.
Defined.

(** ** The import log *)

Section Log.

Context (P : Platform).

Lemma logs_keep {A} i (m : M A) : preserves import_log m → logs_for i m.
Proof. intros H w. exists []. by rewrite app_nil_r, H. Qed.

Lemma seq_next (l new1 new2 : list LogRow) :
  map log_id new1 = seq (S (length l)) (length new1) →
  map log_id new2 = seq (S (length (l ++ new1))) (length new2) →
  map log_id (new1 ++ new2) = seq (S (length l)) (length (new1 ++ new2)).
Proof.
  intros H1 H2. by rewrite map_app, H1, H2, !length_app, seq_app.
Qed.

Lemma logs_bind {A B} i (m : M A) (k : A -> M B) :
  logs_for i m → (∀ a, logs_for i (k a)) → logs_for i (bind m k).
Proof.
  intros Hm Hk w. rewrite final_bind.
  destruct (Hm w) as (new1 & E1 & F1 & N1).
  destruct (m w) as [a w1|msg w1]; simpl in *; [|by exists new1].
  destruct (Hk a w1) as (new2 & E2 & F2 & N2). exists (new1 ++ new2).
  rewrite E1 in N2. rewrite E2, E1, <- app_assoc. split; [done|].
  split; [by apply Forall_app|by apply seq_next].
Qed.

Lemma logs_foldM {A B} i (body : B -> A -> M B) (l : list A) acc :
  (∀ b a, logs_for i (body b a)) → logs_for i (foldM body l acc).
Proof.
  intros Hb. revert acc. induction l as [|x l IH]; intros acc; cbn [foldM].
  - apply logs_keep, preserves_ret.
  - apply logs_bind; [apply Hb|intros ?; apply IH].
Qed.

Lemma logs_try_catch {A} i (m : M A) (h : string -> M A) :
  logs_for i m → (∀ msg, logs_for i (h msg)) → logs_for i (try_catch m h).
Proof.
  intros Hm Hh w. unfold try_catch.
  destruct (Hm w) as (new1 & E1 & F1 & N1).
  destruct (m w) as [a w1|msg w1]; simpl in *; [by exists new1|].
  destruct (Hh msg w1) as (new2 & E2 & F2 & N2). exists (new1 ++ new2).
  rewrite E1 in N2. rewrite E2, E1, <- app_assoc. split; [done|].
  split; [by apply Forall_app|by apply seq_next].
Qed.

Lemma logs_appendLog i level msg : logs_for i (appendLog i level msg).
Proof.
  intros w. eexists. split; [reflexivity|]. split; [by constructor|done].
Qed.

Lemma logs_load i importId config files :
  importId = i → logs_for i (loadDbfIntoStaging P importId config files).
Proof.
  intros ->. unfold loadDbfIntoStaging.
  destruct (files !! file config) as [[|d p]|].
  - apply logs_bind; [apply logs_appendLog|intros; apply logs_keep, preserves_ret].
  - apply logs_keep.
    apply preserves_bind; [apply ensureStagingTable_frame; unseen|intros ?].
    apply preserves_bind; [apply preserves_gets|intros ?].
    apply preserves_bind; [apply preserves_expect|intros ?].
    apply load_batches_frame; unseen.
  - apply logs_bind; [apply logs_appendLog|intros; apply logs_keep, preserves_ret].
Qed.

Ltac log_stage :=
  lazymatch goal with
  | |- logs_for _ (appendLog _ _ _) => apply logs_appendLog
  | |- logs_for _ (bind _ _) => apply logs_bind; [|intros ?]; log_stage
  | |- logs_for _ (if ?b then _ else _) => destruct b; log_stage
  | |- logs_for _ (ret _) => apply logs_keep, preserves_ret
  | |- logs_for _ now => apply logs_keep, now_frame; unseen
  | |- logs_for _ (updateImportStatus _ _ _) =>
      apply logs_keep, updateImportStatus_frame; unseen
  | |- logs_for _ (fs_op _ _) => apply logs_keep, fs_op_frame; unseen
  | |- logs_for _ (fs_steps _ _ _) =>
      apply logs_keep, fs_steps_frame; unseen
  | |- logs_for _ (check_required _) => apply logs_keep, check_required_frame
  | |- logs_for _ ensureSchema => apply logs_keep, ensureSchema_frame; unseen
  | |- logs_for _ truncateCoreTables =>
      apply logs_keep; intros ?; by rewrite truncateCoreTables_Ok
  | |- logs_for _ truncateStagingTables =>
      apply logs_keep, truncateStagingTables_frame; unseen
  | |- logs_for _ (load_all _ _ _) =>
      unfold load_all; apply logs_foldM; intros ? ?; log_stage
  | |- logs_for _ (loadDbfIntoStaging _ _ _ _) => by apply logs_load
  | |- logs_for _ (migrateMasterData _ _) =>
      apply logs_keep, migrateMasterData_frame; unseen
  | |- logs_for _ (migrateSales _ _) =>
      apply logs_keep, migrateSales_frame; unseen
  | |- logs_for _ (migrateCustomerPayments _) =>
      apply logs_keep, migrateCustomerPayments_frame; unseen
  | |- logs_for _ (migrateStockMovements _) =>
      apply logs_keep, migrateStockMovements_frame; unseen
  | |- logs_for _ (createReconciliationReport _ _ _ _ _) =>
      apply logs_keep, createReconciliationReport_frame; unseen
  end.

Lemma logs_runImport i job : job_id job = i → logs_for i (runImport P job).
Proof.
  intros Hi. unfold runImport. rewrite Hi. log_stage.
Qed.


Lemma try_catch_run {A B} (m : M A) (k : A -> M B) h w a w1 :
  m w = Ok a w1 → try_catch (bind m k) h w = try_catch (k a) h w1.
Proof. unfold try_catch, bind. by intros ->. Qed.

(** X27. The log of imports is only added to by a job, whether it completes
    or fails: the lines that were there stay as they are, the first
    line added says that the files are prepared, every line added
    carries the id of the job, and the ids of the lines added go on
    from the number of lines there were. *)
Theorem process_job_log (job : LegacyImportJob) (w : World) :
  ∃ first rest,
    import_log (final (process_job P job w))
    = import_log w ++ first :: rest ∧
    log_level first = info ∧
    log_message first = "Preparing legacy files for import" ∧
    Forall (fun e => log_import_id e = job_id job) (first :: rest) ∧
    map log_id (first :: rest)
    = seq (S (length (import_log w))) (S (length rest)).
Proof.
  unfold process_job, runImport.
  rewrite (try_catch_run now _ _ w (clock w) _ eq_refl).
  rewrite (try_catch_run (updateImportStatus _ _ _) _ _ _ tt _
             (updateImportStatus_Ok _ _ _ _)).
  set (w2 := set_history _ _).
  destruct (appendLog_Ok (job_id job) info
              "Preparing legacy files for import" w2) as [w3 E3].
  rewrite (try_catch_run _ _ _ _ _ _ E3).
  assert (H3 : import_log w3
               = import_log w
                   ++ [ {| log_id := S (length (import_log w));
                           log_import_id := job_id job; log_level := info;
                           log_message := "Preparing legacy files for import";
                           log_created_at := clock w2 |} ]).
  { unfold appendLog, bind, query, modify in E3. by injection E3 as <-. }
  lazymatch goal with
  | |- context [final (try_catch ?m ?h w3)] =>
      assert (Hl : logs_for (job_id job) (try_catch m h))
  end.
  { apply logs_try_catch; [|intros msg]; log_stage. }
  destruct (Hl w3) as (new & E & F & N). eexists _, new.
  split; [by rewrite E, H3, <- app_assoc|]. split; [done|]. split; [done|].
  split; [by constructor|].
  rewrite H3, length_app in N. simpl in N. simpl. f_equal.
  rewrite N. f_equal. lia.
Qed.

End Log.

(** ** Reading the status *)

Lemma insert_by_id_head l ls :
  Forall (fun x => (log_id l ≤ log_id x)%nat) ls → insert_by_id l ls = l :: ls.
Proof.
  destruct 1 as [|x ls Hx _]; [done|]. simpl.
  by rewrite (proj2 (Nat.leb_le _ _) Hx).
Qed.

Lemma order_by_id_sorted ls :
  StronglySorted (fun a b => (log_id a ≤ log_id b)%nat) ls →
  order_by_id ls = ls.
Proof.
  induction 1 as [|x ls Hs IH Hx]; [done|]. simpl.
  rewrite IH. by apply insert_by_id_head.
Qed.

Lemma seq_sorted (ls : list LogRow) n :
  map log_id ls = seq n (length ls) →
  StronglySorted (fun a b => (log_id a ≤ log_id b)%nat) ls.
Proof.
  revert n. induction ls as [|x ls IH]; intros n H; [constructor|].
  simpl in H. injection H as Hx H. constructor; [by apply (IH (S n))|].
  apply Forall_forall. intros y Hy.
  assert (Hin : log_id y ∈ seq (S n) (length ls)).
  { rewrite <- H. apply list_elem_of_fmap. by exists y. }
  apply list_elem_of_In, in_seq in Hin. lia.
Qed.

Lemma filter_sorted {A} (R : A -> A -> Prop) (f : A -> Prop)
    `{∀ x, Decision (f x)} l :
  StronglySorted R l → StronglySorted R (filter f l).
Proof.
  induction 1 as [|x l Hs IH Hx]; [constructor|].
  rewrite filter_cons. destruct (decide (f x)); [|done].
  constructor; [done|]. apply Forall_forall. intros y Hy.
  apply list_elem_of_filter in Hy as [_ Hy].
  rewrite Forall_forall in Hx. by apply Hx.
Qed.

(** X28. The status of a session is that of the first row with its session
    id, with the lines of the log of that import and no others, in the
    order in which they were written; for a session id that no row has
    the answer is null.  Nothing is changed by the question. *)
Theorem getLegacyImportStatus_reads (sessionId : string) (w : World) :
  log_ordered w →
  match rows_of_session sessionId w with
  | [] => answer None (getLegacyImportStatus sessionId w) = None
  | record :: _ =>
      ∃ st,
        answer None (getLegacyImportStatus sessionId w) = Some st ∧
        (st_status st, st_overwrite st, st_error st, st_summary st)
        = (imp_status record, imp_overwrite record,
           imp_error_message record, imp_summary record) ∧
        (st_reportAvailable st = true ↔ is_Some (imp_report_path record)) ∧
        st_logs st
        = map status_log
            (filter (fun l => log_import_id l = imp_id record)
               (import_log w))
  end ∧
  imports (final (getLegacyImportStatus sessionId w)) = imports w ∧
  import_log (final (getLegacyImportStatus sessionId w)) = import_log w.
Proof.
  intros Ho. unfold getLegacyImportStatus, query, modify, gets, bind. simpl.
  change (rows_of_session sessionId (set_trace _ w))
    with (rows_of_session sessionId w).
  destruct (rows_of_session sessionId w) as [|record rest]; simpl; [done|].
  split; [|done]. eexists. split; [reflexivity|]. simpl.
  split; [done|]. split.
  - destruct (imp_report_path record) as [p|]; simpl.
    + split; [by intros _; exists p|done].
    + split; [done|by intros [? ?]].
  - f_equal. apply order_by_id_sorted, filter_sorted.
    by apply (seq_sorted _ 1).
Qed.

(** The status of session s1 after its import in the sample. *)
Lemma getLegacyImportStatus_reads_witness :
  log_ordered Sample.after_first ∧
  match rows_of_session "s1" Sample.after_first with
  | [] => answer None (getLegacyImportStatus "s1" Sample.after_first) = None
  | record :: _ =>
      ∃ st,
        answer None (getLegacyImportStatus "s1" Sample.after_first) = Some st ∧
        (st_status st, st_overwrite st, st_error st, st_summary st)
        = (imp_status record, imp_overwrite record,
           imp_error_message record, imp_summary record) ∧
        (st_reportAvailable st = true ↔ is_Some (imp_report_path record)) ∧
        st_logs st
        = map status_log
            (filter (fun l => log_import_id l = imp_id record)
               (import_log Sample.after_first))
  end ∧
  imports (final (getLegacyImportStatus "s1" Sample.after_first))
  = imports Sample.after_first ∧
  import_log (final (getLegacyImportStatus "s1" Sample.after_first))
  = import_log Sample.after_first.
Proof.
  assert (Ho : log_ordered Sample.after_first)
    by (unfold log_ordered; by_computation).
  split; [exact Ho|].
  exact (getLegacyImportStatus_reads "s1" Sample.after_first Ho).
Defined.
(** ** The status machine once the startup call has ended *)

Lemma tidy_frame h st q w w' :
  tidy h st q w →
  imports w' = imports w → history w' = history w →
  (next_uuid w ≤ next_uuid w')%nat →
  tidy h st q w'.
Proof.
  intros (HN & HA & HC & HD & HH & HE) Hi Hh Hn. unfold tidy.
  rewrite Hi, Hh. do 1 (split; [done|]). split; [|done].
  eapply Forall_impl; [exact HA|]. intros r Hr. simpl in Hr. lia.
Qed.

Lemma tidy_perm h st q q' w :
  tidy h st q w → q ≡ₚ q' → tidy h st q' w.
Proof.
  intros (HN & HA & HC & HD & HH & HE) Hp. unfold tidy.
  split; [done|]. split; [done|]. split; [by rewrite <- Hp|].
  split; [|done]. intros j Hj. apply HD. by rewrite Hp.
Qed.

Lemma tidy_drop h st st' q w : tidy h st q w → tidy [] st' q w.
Proof.
  intros (HN & HA & HC & HD & HH & HE). unfold tidy.
  split; [done|]. split; [done|]. split.
  - rewrite map_app in HC. by apply NoDup_app in HC as (_ & _ & HC).
  - split; [done|]. split; [|done]. intros j Hj. by apply elem_of_nil in Hj.
Qed.

Lemma tidy_shift st job q w : tidy [] st (job :: q) w → tidy [job] queued q w.
Proof.
  intros (HN & HA & HC & HD & HH & HE). unfold tidy.
  split; [done|]. split; [done|]. split; [done|]. split.
  - intros j Hj. apply HD. by right.
  - split; [|done]. intros j Hj. apply list_elem_of_singleton in Hj as ->.
    apply HD. left.
Qed.

(** An update of the row of the held job. *)
Lemma tidy_update job st0 st fields q w :
  tidy [job] st0 q w →
  lawful (change (job_id job) st0 st false) = true →
  tidy [job] st q (final (updateImportStatus (job_id job) st fields w)) ∧
  history (final (updateImportStatus (job_id job) st fields w))
  = history w ++ [change (job_id job) st0 st false].
Proof.
  intros (HN & HA & HC & HD & HH & HE) Hl.
  rewrite updateImportStatus_Ok. cbn [final].
  destruct (HH job) as (r0 & Hr0 & Hid0 & Hst0); [left|].
  assert (Hh : history w ++ status_changes false (has_id (job_id job)) st
                              (imports w)
               = history w ++ [change (job_id job) st0 st false]).
  { by rewrite <- Hid0, (status_changes_one _ r0 st HN Hr0), Hst0. }
  split; [|exact Hh].
  unfold tidy. cbn [imports history next_uuid set_history set_imports
                    set_trace].
  rewrite Hh, update_where_ids.
  split; [done|]. split; [|split; [done|split; [|split]]].
  - apply Forall_forall. intros r Hr.
    assert (Hid : imp_id r ∈ map imp_id (imports w)).
    { rewrite <- (update_where_ids (has_id (job_id job)) st fields).
      apply list_elem_of_fmap. by exists r. }
    apply list_elem_of_fmap in Hid as (r' & -> & Hr').
    rewrite Forall_forall in HA. by apply HA.
  - intros j Hj. destruct (HD j Hj) as (r & Hr & Hid & Hst).
    exists r. split; [|done]. apply update_where_keeps; [done|].
    apply not_true_is_false. intros Hy. apply has_id_true in Hy.
    simpl in HC. apply NoDup_cons in HC as [Hfresh _]. apply Hfresh.
    rewrite <- Hy, Hid. apply list_elem_of_fmap. by exists j.
  - intros j Hj. apply list_elem_of_singleton in Hj as ->.
    destruct (update_where_hits (has_id (job_id job)) st fields r0 (imports w)
                Hr0) as (r1 & Hr1 & Hid1 & Hst1 & _).
    { by apply has_id_true. }
    exists r1. split; [done|]. split; [congruence|done].
  - apply Forall_app. split; [done|]. by constructor.
Qed.

(** The insert of a request. *)
Lemma tidy_insert h st q session dir ov user w importId w1 :
  tidy h st q w →
  insert_import session dir ov user w = Ok importId w1 →
  tidy h st (q ++ [requested_job importId session dir ov user]) w1 ∧
  history w1 = history w ∧ processing w1 = processing w ∧
  jobQueue w1 = jobQueue w.
Proof.
  intros (HN & HA & HC & HD & HH & HE) E.
  apply insert_import_Ok in E
    as (-> & row & Hi & Hid & Hst & Hh & Hq & Hp & _ & Hn).
  split; [|done]. unfold tidy. rewrite Hi, Hh, Hn.
  assert (Hlt : ∀ x, x ∈ map imp_id (imports w) → (x < next_uuid w)%nat).
  { intros x Hx. apply list_elem_of_fmap in Hx as (r & -> & Hr).
    rewrite Forall_forall in HA. by apply HA. }
  assert (Hjob : ∀ j, j ∈ h ++ q → (job_id j < next_uuid w)%nat).
  { intros j Hj. apply Hlt. apply elem_of_app in Hj as [Hj|Hj].
    - destruct (HH j Hj) as (r & Hr & <- & _).
      apply list_elem_of_fmap. by exists r.
    - destruct (HD j Hj) as (r & Hr & <- & _).
      apply list_elem_of_fmap. by exists r. }
  split; [|split; [|split; [|split; [|split]]]].
  - rewrite map_app. apply NoDup_app. split; [done|]. split.
    + intros x Hx Hx'. apply list_elem_of_singleton in Hx'.
      apply Hlt in Hx. simpl in Hx'. lia.
    + apply NoDup_singleton.
  - apply Forall_app. split.
    + eapply Forall_impl; [exact HA|]. intros r Hr. simpl in Hr. lia.
    + constructor; [|constructor]. simpl. lia.
  - rewrite app_assoc, map_app. apply NoDup_app. split; [done|]. split.
    + intros x Hx Hx'. apply list_elem_of_singleton in Hx'.
      apply list_elem_of_fmap in Hx as (j & -> & Hj).
      apply Hjob in Hj. simpl in Hx'. lia.
    + apply NoDup_singleton.
  - intros j Hj. apply elem_of_app in Hj as [Hj|Hj].
    + destruct (HD j Hj) as (r & Hr & Hrj & Hrs).
      exists r. split; [|done]. apply elem_of_app. by left.
    + apply list_elem_of_singleton in Hj. subst j.
      exists row. split; [|done]. apply elem_of_app. right. left.
  - intros j Hj. destruct (HH j Hj) as (r & Hr & Hrj & Hrs).
    exists r. split; [|done]. apply elem_of_app. by left.
  - done.
Qed.

(** The files a handler stores change the file system only. *)
Lemma upload_files_control root session files :
  preserves (fun w => (control w, next_uuid w))
    (upload_files root session files).
Proof.
  unfold upload_files, store_files, check_upload, remove_tree.
  repeat lazymatch goal with
    | |- preserves _ (fs_op _ _) => apply fs_op_frame; unseen
    | |- preserves _ (store_file _ _ _) =>
        unfold store_file, sanitizeLegacyFilename
    | |- preserves _ (modify _) => apply preserves_modify; intros ?; reflexivity
    | |- preserves _ (if ?b then _ else _) => destruct b
    | |- preserves _ _ => frame_step
    end.
Qed.

Section Steady.

Context (P : Platform).

(** The [while] test with no job held. *)
Lemma steady_next_turn s :
  startup s = Started → processing (world s) = true →
  tidy [] running (jobQueue (world s) ++ map handler_job (handlers s))
    (world s) →
  steady (next_turn s) ∧ history (world (next_turn s)) = history (world s).
Proof.
  intros Hst Hp Ht. unfold next_turn.
  destruct (jobQueue (world s)) as [|job rest] eqn:Hq.
  - split; [|done]. split; [done|].
    cbn [loop at_loop in_world world held held_status handlers].
    split.
    + eapply tidy_frame; [|done|done|done].
      cbn [jobQueue set_processing]. by rewrite Hq.
    + cbn [processing set_processing]. split; [done|]. by intros [? ?].
  - split; [|done]. split; [done|].
    cbn [loop at_loop in_world world held held_status handlers].
    split.
    + eapply tidy_frame; [|done|done|done].
      cbn [jobQueue set_clock set_jobQueue]. by apply tidy_shift in Ht.
    + cbn [processing set_clock set_jobQueue]. split; [by eexists|done].
Qed.

(** A call of [processQueue]. *)
Lemma steady_processQueue_called s :
  startup s = Started →
  tidy (held (loop s)) (held_status (loop s))
    (jobQueue (world s) ++ map handler_job (handlers s)) (world s) →
  (processing (world s) = true ↔ is_Some (loop s)) →
  steady (processQueue_called s) ∧
  history (world (processQueue_called s)) = history (world s).
Proof.
  intros Hst Ht Hf. unfold processQueue_called.
  destruct (processing (world s)) eqn:Hp.
  { split; [|done]. split; [done|]. split; [done|]. by rewrite Hp. }
  assert (Hl : loop s = None).
  { destruct (loop s) as [p|]; [|done].
    assert (false = true) by (apply Hf; by eexists). done. }
  rewrite Hl in Ht. cbn [held held_status] in Ht.
  destruct (steady_next_turn (in_world (set_processing true (world s)) s))
    as [H1 H2]; [done|done| |done].
  cbn [world in_world handlers jobQueue set_processing].
  eapply tidy_frame; [eapply tidy_drop; exact Ht|done..].
Qed.

Lemma handler_jobs_insert n job job' (hs : list HandlerPoint) :
  hs !! n = Some job → handler_job job' = handler_job job →
  map handler_job (<[n := job']> hs) = map handler_job hs.
Proof.
  revert n. induction hs as [|h hs IH]; intros [|n]; simpl; try done.
  - by intros [= ->] ->.
  - intros H1 H2. f_equal. by apply IH.
Qed.

Lemma handler_jobs_delete n h (hs : list HandlerPoint) :
  hs !! n = Some h →
  map handler_job hs ≡ₚ handler_job h :: map handler_job (delete n hs).
Proof.
  revert n. induction hs as [|x hs IH]; intros [|n]; simpl; try done.
  - by intros [= ->].
  - intros H. rewrite (IH n H). apply Permutation_swap.
Qed.

(** One step keeps the server steady, and the status changes it makes
    are no recovery changes. *)
Lemma steady_step e s s' :
  steady s → step P e s = Some s' →
  steady s' ∧
  ∃ changes,
    history (world s') = history (world s) ++ changes ∧
    Forall (fun c => sc_recovery c = false) changes.
Proof.
  intros (Hst & Ht & Hf) Hstep.
  assert (Hnone : ∀ s1 : Server,
            steady s1 ∧ history (world s1) = history (world s) →
            steady s1 ∧
            ∃ changes,
              history (world s1) = history (world s) ++ changes ∧
              Forall (fun c => sc_recovery c = false) changes).
  { intros s1 [H1 H2]. split; [done|]. exists []. by rewrite app_nil_r. }
  destruct e as [| |root session files|session dir ov user|n|];
    simpl in Hstep.
  - by rewrite Hst in Hstep.
  - unfold startup_step in Hstep. by rewrite Hst in Hstep.
  - unfold upload_step in Hstep. rewrite Hst in Hstep.
    injection Hstep as <-. apply Hnone.
    pose proof (upload_files_control root session files (world s)) as Hc.
    injection Hc as Hi Hh Hq Hp _ Hn.
    split; [|done]. split; [done|].
    cbn [loop handlers world in_world]. rewrite Hq, Hp. split; [|done].
    eapply tidy_frame; [exact Ht|done|done|lia].
  - unfold request_step in Hstep. rewrite Hst in Hstep.
    injection Hstep as <-. apply Hnone.
    destruct (insert_import session dir ov user (world s))
      as [importId w1|msg w1] eqn:E.
    + destruct (tidy_insert _ _ _ _ _ _ _ _ _ _ Ht E) as (Ht1 & Hh & Hp & Hq).
      split; [|done]. split; [done|].
      cbn [loop handlers world with_handlers in_world]. split.
      * rewrite Hq, map_app. simpl. by rewrite app_assoc.
      * by rewrite Hp.
    + apply insert_import_Throw in E. subst w1.
      split; [|done]. split; [done|]. split; [|done].
      cbn [loop handlers world in_world jobQueue set_trace].
      eapply tidy_frame; [exact Ht|done..].
  - unfold handler_step in Hstep.
    destruct (handlers s !! n) as [[job|job]|] eqn:Hn; [| |done];
      injection Hstep as <-; apply Hnone.
    + split; [|done]. split; [done|].
      cbn [loop handlers world with_handlers in_world]. split; [|done].
      rewrite (handler_jobs_insert n (Auditing job)) by done.
      eapply tidy_frame; [exact Ht|done..].
    + unfold queueLegacyImport.
      destruct (steady_processQueue_called
                  (in_world
                     (set_jobQueue (jobQueue (world s) ++ [job]) (world s))
                     (with_handlers (delete n (handlers s)) s)))
        as [H1 H2]; [done| |done|done].
      cbn [loop handlers world with_handlers in_world jobQueue set_jobQueue].
      eapply tidy_frame; [|done..].
      eapply tidy_perm; [exact Ht|].
      rewrite (handler_jobs_delete n _ _ Hn). simpl.
      by rewrite <- app_assoc.
  - unfold loop_step in Hstep.
    destruct (loop s) as [[job t|job|job sm t|job|job msg|job msg t|]|] eqn:Hl;
      [..|done]; injection Hstep as <-;
      cbn [held held_status] in Ht.
    + destruct (tidy_update job queued running [started_at (Some t)] _ _ Ht
                  eq_refl) as [Ht1 Hh].
      split.
      * split; [done|]. split; [exact Ht1|].
        simpl. split; [by eexists|by intros _; apply Hf; eexists].
      * eexists. split; [exact Hh|]. by repeat constructor.
    + apply Hnone.
      pose proof (run_body_control P job (world s)) as Hc.
      pose proof (run_body_grows P job (world s)) as Hg.
      assert (Hp' : processing (world s) = true)
        by (apply Hf; by eexists).
      destruct (run_body P job (world s)) as [sm w1|msg w1];
        cbn [final] in Hc, Hg; injection Hc as Hi Hh Hq Hp _.
      * split; [|done]. split; [done|].
        cbn [world loop at_loop in_world handlers held held_status jobQueue
             processing set_clock].
        rewrite Hq, Hp. split; [|split; [by eexists|done]].
        eapply tidy_frame; [exact Ht|done..].
      * split; [|done]. split; [done|].
        cbn [world loop at_loop in_world handlers held held_status].
        rewrite Hq, Hp. split; [|split; [by eexists|done]].
        eapply tidy_frame; [exact Ht|done..].
    + unfold run_completed.
      destruct (tidy_update job running completed
                  [finished_at (Some t); summary (Some sm);
                   report_path (Some (os_reportPath sm)); error_message None]
                  _ _ Ht eq_refl) as [Ht1 Hh].
      split.
      * split; [done|].
        cbn [world loop at_loop in_world handlers held held_status].
        split; [eapply tidy_drop; exact Ht1|]. simpl.
        split; [by eexists|by intros _; apply Hf; eexists].
      * eexists. split; [exact Hh|]. by repeat constructor.
    + apply Hnone. split; [|done]. split; [done|].
      cbn [world loop at_loop in_world handlers held held_status]. split.
      * eapply tidy_frame; [exact Ht|done..].
      * cbn. split; [by eexists|by intros _; apply Hf; eexists].
    + apply Hnone. split; [|done]. split; [done|].
      cbn [world loop at_loop in_world handlers held held_status]. split.
      * eapply tidy_frame; [exact Ht|done..].
      * cbn. split; [by eexists|by intros _; apply Hf; eexists].
    + destruct (tidy_update job running failed
                  [finished_at (Some t); error_message (Some msg)]
                  _ _ Ht eq_refl) as [Ht1 Hh].
      split.
      * split; [done|].
        cbn [world loop at_loop in_world handlers held held_status].
        split; [eapply tidy_drop; exact Ht1|]. simpl.
        split; [by eexists|by intros _; apply Hf; eexists].
      * eexists. split; [exact Hh|]. by repeat constructor.
    + apply Hnone. apply steady_next_turn; [done| |done].
      apply Hf. by eexists.
Qed.

Lemma steady_run es s s' :
  steady s → run P es s = Some s' →
  steady s' ∧
  ∃ changes,
    history (world s') = history (world s) ++ changes ∧
    Forall (fun c => sc_recovery c = false) changes.
Proof.
  revert s. induction es as [|e es IH]; intros s Hs; simpl.
  - intros [= <-]. split; [done|]. exists []. by rewrite app_nil_r.
  - destruct (step P e s) as [s1|] eqn:E; [|done]. intros Hrun.
    destruct (steady_step e s s1 Hs E) as (Hs1 & c1 & Hh1 & Hc1).
    destruct (IH s1 Hs1 Hrun) as (Hs' & c2 & Hh2 & Hc2).
    split; [done|]. exists (c1 ++ c2).
    split; [by rewrite Hh2, Hh1, app_assoc|]. by apply Forall_app.
Qed.

(** The startup call with nothing in between leaves the server steady. *)
Lemma steady_startup w :
  booted w →
  ∃ s, run P (Boot :: repeat Startup 4) (fresh w) = Some s ∧ steady s ∧
       history (world s)
       = status_changes true (is_status running) queued (imports w).
Proof.
  intros Hb. pose proof Hb as (Hq0 & Hp0 & Hin & Hh0 & _).
  pose proof (sound_recover w Hb) as Hs1.
  destruct (recover_jobs_Ok w) as (w1 & E & _ & Hh1 & _ & Hp1 & _).
  rewrite (startup_alone P w Hin), E. rewrite E in Hs1. cbn [final] in *.
  eexists. split; [reflexivity|]. cbv zeta. cbn [world].
  set (s1 := {| world := w1; startup := Started; loop := None;
                handlers := [] |}).
  destruct Hs1 as (HN & HA & HC & HD & HE).
  assert (Ht : tidy (held (loop s1)) (held_status (loop s1))
                 (jobQueue (world s1) ++ map handler_job (handlers s1))
                 (world s1)).
  { cbn [s1 loop world handlers held held_status map]. rewrite app_nil_r.
    unfold tidy. split; [done|]. split; [done|]. split; [done|].
    split; [done|]. split; [|done]. intros j Hj. by apply elem_of_nil in Hj. }
  assert (Hf : processing (world s1) = true ↔ is_Some (loop s1)).
  { cbn [s1 loop world]. rewrite Hp1, Hp0. split; [done|]. by intros [? ?]. }
  rewrite Hh0 in Hh1. simpl in Hh1.
  destruct (jobQueue w1) as [|j q] eqn:Hq.
  - split; [|done]. split; [done|]. by split.
  - destruct (steady_processQueue_called s1 eq_refl Ht Hf) as [H1 H2].
    split; [exact H1|]. by rewrite H2.
Qed.

(** X29. Once the startup call has run through before anything else comes
    in, the status machine holds, whatever comes in afterwards and in
    whatever order the calls in flight go on.  On a process started on
    any database, after the load of the module and the four answers to
    the startup call, every run of events (uploads stored by handlers,
    inserts of requests, answers to open handlers, answers to the loop)
    that the server can take
    leaves it steady: every status change made so far is a step from
    queued to running or from running to completed or failed, or the
    step from running back to queued of the startup update; the changes
    of the startup are those of its update, and no change made after
    it is marked as recovery. *)
Theorem forward_after_startup w es s :
  booted w →
  run P ((Boot :: repeat Startup 4) ++ es) (fresh w) = Some s →
  steady s ∧
  Forall (fun e => lawful e = true) (history (world s)) ∧
  ∃ changes,
    history (world s)
    = status_changes true (is_status running) queued (imports w) ++ changes ∧
    Forall (fun c => sc_recovery c = false) changes.
Proof.
  intros Hb Hrun. rewrite run_app in Hrun.
  destruct (steady_startup w Hb) as (s0 & E0 & Hs0 & Hh0).
  rewrite E0 in Hrun.
  destruct (steady_run es s0 s Hs0 Hrun) as (Hs & changes & Hh & Hc).
  split; [exact Hs|]. split.
  - by destruct Hs as (_ & (_ & _ & _ & _ & _ & HE) & _).
  - exists changes. by rewrite Hh, Hh0.
Qed.

End Steady.

(** The sample process: the startup, then the request for session s4
    with the loop still at work on the recovered jobs when it comes
    in. *)
Lemma forward_after_startup_witness :
  booted Sample.boot ∧
  ∃ s,
    run Sample.platform
        ((Boot :: repeat Startup 4)
           ++ repeat Loop 7 ++ Sample.quiet_request ++ repeat Loop 8)
        (fresh Sample.boot) = Some s ∧
    steady s ∧
    Forall (fun e => lawful e = true) (history (world s)) ∧
    ∃ changes,
      history (world s)
      = status_changes true (is_status running) queued (imports Sample.boot)
          ++ changes ∧
      Forall (fun c => sc_recovery c = false) changes.
Proof.
  assert (Hb : booted Sample.boot).
  { split; [reflexivity|]. split; [reflexivity|]. split; [reflexivity|].
    split; [reflexivity|]. split.
    - apply (bool_decide_eq_true_1 _). by_computation.
    - apply (bool_decide_eq_true_1 _). by_computation. }
  split; [exact Hb|].
  destruct (run_Some Sample.platform
              ((Boot :: repeat Startup 4)
                 ++ repeat Loop 7 ++ Sample.quiet_request ++ repeat Loop 8)
              (fresh Sample.boot) (fun _ => tt) tt) as (s & E & _);
    [by_computation|].
  exists s. split; [exact E|].
  exact (forward_after_startup Sample.platform Sample.boot _ s Hb E).
Defined.
